(** * ecs.hpp: a shallow embedding of the registry and its sparse-set pools

    The development follows the single header [ecs.hpp]: entity handles
    (a 32-bit slot and a 32-bit version packed in 64 bits), the identity
    table with its intrusive free list, one sparse-set pool per component
    type, the deferred-deletion buffer, views, the destructor, hooks that
    call the world from inside [remove], and the counter that numbers the
    component types.

    Conventions.
    - Handles, slot ids and versions are [Z] with the C++ truncations
      written out ([wrap32], [wrap64]).
    - An array obtained from [new T[n]] is a [list (option T)] of length
      [n]: [None] is a cell that was never written (indeterminate).
      Reading such a cell as an index or a handle, or indexing outside the
      allocation, is undefined behaviour; the operations then return
      [None], as they do when an [assert] of the source fails.
    - The [u64] counters that index arrays ([count], [capacity], ...) are
      [nat]: each is bounded by the size of a live allocation.
      [alive_count] is a [Z] wrapped at 64 bits, [iteration_depth] a
      signed [Z].
    - Every allocation gets a fresh address; [live] lists the blocks that
      were allocated and not yet released, so that [delete[]] and the
      deferred-deletion buffer can be told apart. *)

From Stdlib Require Import ZArith Lia.
From stdpp Require Import base numbers option list.

Local Open Scope Z_scope.

(** ** Handles *)

Definition Entity_Handle := Z.
Definition Entity_ID := Z.
Definition Entity_Version := Z.

Definition wrap32 (x : Z) : Z := x mod 2 ^ 32.
Definition wrap64 (x : Z) : Z := x mod 2 ^ 64.

Definition null_handle : Entity_Handle := 2 ^ 64 - 1.
Definition null_entity_id : Entity_ID := 2 ^ 32 - 1.

(** [e >> 32], returned as a [u32]. *)
Definition get_entity_version (e : Entity_Handle) : Entity_Version :=
  wrap32 (Z.shiftr e 32).

(** [(Entity_ID)e]. *)
Definition get_entity_id (e : Entity_Handle) : Entity_ID := wrap32 e.

(** [((Entity_Handle)v << 32) | id]. *)
Definition make_handle (id : Entity_ID) (v : Entity_Version) : Entity_Handle :=
  Z.lor (wrap64 (Z.shiftl v 32)) id.

(** The slot of a handle as a list index. *)
Definition slot (e : Entity_Handle) : nat := Z.to_nat (get_entity_id e).

(** ** Arrays with indeterminate cells *)

Section Arrays.
Context {A : Type}.

Definition new_array (n : nat) : list (option A) := replicate n None.

Definition load (arr : list (option A)) (i : nat) : option A :=
  arr !! i ≫= (λ c, c).

Definition store (arr : list (option A)) (i : nat) (x : A)
  : option (list (option A)) :=
  if decide (i < length arr)%nat then Some (<[i := Some x]> arr) else None.

(** [mem_copy dst src count]: [dst[i] = src[i]] for [i < count]. *)
Definition mem_copy {B : Type} (dst src : list B) (count : nat)
  : option (list B) :=
  if decide (count ≤ length src ∧ count ≤ length dst)%nat
  then Some (take count src ++ drop count dst) else None.

(** [memmove(&a[dst], &a[src], n)] inside one array. *)
Definition mem_move (arr : list (option A)) (dst src n : nat)
  : option (list (option A)) :=
  if decide (dst + n ≤ length arr ∧ src + n ≤ length arr)%nat
  then Some (take dst arr ++ take n (drop src arr) ++ drop (dst + n) arr)
  else None.

(** Writing the cells of a value at an offset ([*n = c]). *)
Definition write_at (arr : list (option A)) (off : nat) (c : list A)
  : option (list (option A)) :=
  if decide (off + length c ≤ length arr)%nat
  then Some (take off arr ++ (Some <$> c) ++ drop (off + length c) arr)
  else None.

Definition read_at (arr : list (option A)) (off n : nat) : list (option A) :=
  take n (drop off arr).
End Arrays.

(** A loop [for (i = 0; i < n; i++) body(i)] over a state that may fail. *)
Fixpoint for_range {S : Type} (start n : nat) (body : nat → S → option S) (s : S)
  : option S :=
  match n with
  | O => Some s
  | Datatypes.S n' => body start s ≫= for_range (Datatypes.S start) n' body
  end.

(** ** Records *)

Definition ptr := nat.
Definition nullptr : ptr := 0%nat.

(** A registered [std::function] hook is named by a number; the closure it
    stands for is supplied by [run_hook] below. *)
Definition Hook := nat.

Record Component_Pool := mkPool {
  sparse_ptr : ptr;
  sparse : list (option Z);
  sparse_capacity : nat;
  dense_ptr : ptr;
  dense : list (option Entity_Handle);
  dense_count : nat;
  dense_capacity : nat;
  data_ptr : ptr;
  data : list (option Z);
  count : nat;
  capacity : nat;
  element_size : nat;
  pool_id : Z;
  on_create : option Hook;
  on_destroy : option Hook
}.

(** A default-constructed pool. *)
Definition Component_Pool_default : Component_Pool :=
  mkPool nullptr [] 0 nullptr [] 0 0 nullptr [] 0 0 0 (2 ^ 64 - 1) None None.

(** [init(w, type_id, el_size)]. *)
Definition Component_Pool_init (p : Component_Pool) (type_id : Z) (el_size : nat)
  : Component_Pool :=
  mkPool (sparse_ptr p) (sparse p) (sparse_capacity p)
         (dense_ptr p) (dense p) (dense_count p) (dense_capacity p)
         (data_ptr p) (data p) (count p) (capacity p)
         el_size type_id (on_create p) (on_destroy p).

Inductive Delete_Type := U8 | U64 | I64 | COMPONENT_POOL | ENTITY_HANDLE.

Record Deletion_Entry := mkEntry { del_type : Delete_Type; del_ptr : ptr }.

Definition max_delete_buffer : nat := 64.

Record View := mkView {
  to_pool : list Z;
  v_pools : list nat;
  v_pool_count : nat;
  v_pool : option nat;
  idx : nat;
  entity : Entity_Handle
}.

Definition View_max : nat := 16.

(** A component type [T]: the id [get_component_id<T>()] gives it and
    [sizeof(T)]. *)
Record Comp := mkComp { comp_id : Z; comp_size : nat }.

(** ** The world *)

Section Registry.

(** The type of the user data behind [World::uptr]. *)
Context {U : Type}.

Record World := mkWorld {
  entities_ptr : ptr;
  entities : list (option Entity_Handle);
  entity_capacity : nat;
  entity_count : nat;
  alive_count : Z;
  avail_id : Entity_ID;
  pools_ptr : ptr;
  pools : list Component_Pool;
  pool_count : nat;
  pool_capacity : nat;
  delete_buffer : list Deletion_Entry;
  iteration_depth : Z;
  next_addr : ptr;
  live : list ptr;
  uptr : U
}.

(** What a hook reports to the user data ([uptr]) from the world as it is
    at the call and the entity it is given. A hook that does nothing else
    leaves the world alone; [fire] is the call of such a hook. A hook may
    also call the world: see [fire_asking] and [Component_Pool_remove_this]
    below. *)
Variable run_hook : Hook → World → Entity_Handle → U.

(** A freshly constructed world. *)
Definition World_init (u : U) : World :=
  mkWorld nullptr [] 0 0 0 null_entity_id nullptr [] 0 0 [] 0 1%nat [] u.

(** *** Field updates *)

Definition set_entities_arr (w : World) (a : ptr) (es : list (option Entity_Handle))
  (cap : nat) : World :=
  mkWorld a es cap (entity_count w) (alive_count w) (avail_id w)
    (pools_ptr w) (pools w) (pool_count w) (pool_capacity w)
    (delete_buffer w) (iteration_depth w) (next_addr w) (live w) (uptr w).

Definition set_entities (w : World) (es : list (option Entity_Handle)) : World :=
  set_entities_arr w (entities_ptr w) es (entity_capacity w).

Definition set_entity_count (w : World) (n : nat) : World :=
  mkWorld (entities_ptr w) (entities w) (entity_capacity w) n (alive_count w)
    (avail_id w) (pools_ptr w) (pools w) (pool_count w) (pool_capacity w)
    (delete_buffer w) (iteration_depth w) (next_addr w) (live w) (uptr w).

Definition set_alive_count (w : World) (n : Z) : World :=
  mkWorld (entities_ptr w) (entities w) (entity_capacity w) (entity_count w) n
    (avail_id w) (pools_ptr w) (pools w) (pool_count w) (pool_capacity w)
    (delete_buffer w) (iteration_depth w) (next_addr w) (live w) (uptr w).

Definition set_avail_id (w : World) (a : Entity_ID) : World :=
  mkWorld (entities_ptr w) (entities w) (entity_capacity w) (entity_count w)
    (alive_count w) a (pools_ptr w) (pools w) (pool_count w) (pool_capacity w)
    (delete_buffer w) (iteration_depth w) (next_addr w) (live w) (uptr w).

Definition set_pools_arr (w : World) (a : ptr) (ps : list Component_Pool)
  (cap : nat) : World :=
  mkWorld (entities_ptr w) (entities w) (entity_capacity w) (entity_count w)
    (alive_count w) (avail_id w) a ps (pool_count w) cap
    (delete_buffer w) (iteration_depth w) (next_addr w) (live w) (uptr w).

Definition set_pool_at (w : World) (i : nat) (p : Component_Pool) : World :=
  set_pools_arr w (pools_ptr w) (<[i := p]> (pools w)) (pool_capacity w).

Definition set_pool_count (w : World) (n : nat) : World :=
  mkWorld (entities_ptr w) (entities w) (entity_capacity w) (entity_count w)
    (alive_count w) (avail_id w) (pools_ptr w) (pools w) n (pool_capacity w)
    (delete_buffer w) (iteration_depth w) (next_addr w) (live w) (uptr w).

Definition set_delete_buffer (w : World) (b : list Deletion_Entry) : World :=
  mkWorld (entities_ptr w) (entities w) (entity_capacity w) (entity_count w)
    (alive_count w) (avail_id w) (pools_ptr w) (pools w) (pool_count w)
    (pool_capacity w) b (iteration_depth w) (next_addr w) (live w) (uptr w).

Definition set_iteration_depth (w : World) (d : Z) : World :=
  mkWorld (entities_ptr w) (entities w) (entity_capacity w) (entity_count w)
    (alive_count w) (avail_id w) (pools_ptr w) (pools w) (pool_count w)
    (pool_capacity w) (delete_buffer w) d (next_addr w) (live w) (uptr w).

Definition set_heap (w : World) (next : ptr) (l : list ptr) : World :=
  mkWorld (entities_ptr w) (entities w) (entity_capacity w) (entity_count w)
    (alive_count w) (avail_id w) (pools_ptr w) (pools w) (pool_count w)
    (pool_capacity w) (delete_buffer w) (iteration_depth w) next l (uptr w).

Definition set_uptr (w : World) (u : U) : World :=
  mkWorld (entities_ptr w) (entities w) (entity_capacity w) (entity_count w)
    (alive_count w) (avail_id w) (pools_ptr w) (pools w) (pool_count w)
    (pool_capacity w) (delete_buffer w) (iteration_depth w) (next_addr w)
    (live w) u.

(** *** Allocation and the deferred-deletion buffer *)

(** [new T[n]]: a fresh block. *)
Definition alloc (w : World) : ptr * World :=
  (next_addr w, set_heap w (S (next_addr w)) (next_addr w :: live w)).

(** [delete[] p]: the block is released at once ([delete[] nullptr] does
    nothing, no block has address [nullptr]). *)
Definition delete_arr (p : ptr) (w : World) : World :=
  set_heap w (next_addr w) (filter (λ q, q ≠ p) (live w)).

Definition push_deletion (w : World) (ty : Delete_Type) (p : ptr) : option World :=
  if decide (length (delete_buffer w) < max_delete_buffer)%nat
  then Some (set_delete_buffer w (delete_buffer w ++ [mkEntry ty p]))
  else None.

Definition commit_deletions (w : World) : World :=
  set_delete_buffer
    (foldl (λ w' entry, delete_arr (del_ptr entry) w') w (delete_buffer w)) [].

(** The recurring [if (iteration_depth <= 0) delete[] p; else
    push_deletion(ty, p);]. *)
Definition free_or_defer (ty : Delete_Type) (p : ptr) (w : World) : option World :=
  if decide (iteration_depth w ≤ 0) then Some (delete_arr p w)
  else push_deletion w ty p.

(** [capacity < 8 ? 8 : capacity * 2]. *)
Definition grow (cap : nat) : nat :=
  if decide (cap < 8)%nat then 8%nat else (cap * 2)%nat.

(** *** Pools *)

(** [Component_Pool::has]. Cells below [sparse_capacity] are always
    written ([add] fills the new ones with [-1]). *)
Definition has (p : Component_Pool) (e : Entity_Handle) : bool :=
  bool_decide (slot e < sparse_capacity p)%nat &&
  match load (sparse p) (slot e) with
  | Some x => negb (x =? -1)
  | None => false
  end.

(** [sparse_idx]. *)
Definition sparse_idx (p : Component_Pool) (e : Entity_Handle) : option Z :=
  load (sparse p) (slot e).

(** [get(e)] = [get_by_idx(sparse_idx(e))]: the byte offset of the payload
    in [data]. *)
Definition Component_Pool_get (p : Component_Pool) (e : Entity_Handle) : option nat :=
  i ← sparse_idx p e;
  if decide (0 ≤ i) then Some (Z.to_nat i * element_size p)%nat else None.

(** The payload cells of [e], read through [get]. *)
Definition payload (p : Component_Pool) (e : Entity_Handle) : option (list (option Z)) :=
  off ← Component_Pool_get p e;
  Some (read_at (data p) off (element_size p)).

Definition set_data (p : Component_Pool) (a : ptr) (d : list (option Z)) (cap : nat)
  : Component_Pool :=
  mkPool (sparse_ptr p) (sparse p) (sparse_capacity p)
         (dense_ptr p) (dense p) (dense_count p) (dense_capacity p)
         a d (count p) cap
         (element_size p) (pool_id p) (on_create p) (on_destroy p).

Definition set_count (p : Component_Pool) (n : nat) : Component_Pool :=
  mkPool (sparse_ptr p) (sparse p) (sparse_capacity p)
         (dense_ptr p) (dense p) (dense_count p) (dense_capacity p)
         (data_ptr p) (data p) n (capacity p)
         (element_size p) (pool_id p) (on_create p) (on_destroy p).

Definition set_sparse (p : Component_Pool) (a : ptr) (s : list (option Z)) (cap : nat)
  : Component_Pool :=
  mkPool a s cap
         (dense_ptr p) (dense p) (dense_count p) (dense_capacity p)
         (data_ptr p) (data p) (count p) (capacity p)
         (element_size p) (pool_id p) (on_create p) (on_destroy p).

Definition set_dense (p : Component_Pool) (a : ptr) (d : list (option Entity_Handle))
  (cap : nat) : Component_Pool :=
  mkPool (sparse_ptr p) (sparse p) (sparse_capacity p)
         a d (dense_count p) cap
         (data_ptr p) (data p) (count p) (capacity p)
         (element_size p) (pool_id p) (on_create p) (on_destroy p).

Definition set_dense_count (p : Component_Pool) (n : nat) : Component_Pool :=
  mkPool (sparse_ptr p) (sparse p) (sparse_capacity p)
         (dense_ptr p) (dense p) n (dense_capacity p)
         (data_ptr p) (data p) (count p) (capacity p)
         (element_size p) (pool_id p) (on_create p) (on_destroy p).

Definition set_on_create (p : Component_Pool) (h : option Hook) : Component_Pool :=
  mkPool (sparse_ptr p) (sparse p) (sparse_capacity p)
         (dense_ptr p) (dense p) (dense_count p) (dense_capacity p)
         (data_ptr p) (data p) (count p) (capacity p)
         (element_size p) (pool_id p) h (on_destroy p).

Definition set_on_destroy (p : Component_Pool) (h : option Hook) : Component_Pool :=
  mkPool (sparse_ptr p) (sparse p) (sparse_capacity p)
         (dense_ptr p) (dense p) (dense_count p) (dense_capacity p)
         (data_ptr p) (data p) (count p) (capacity p)
         (element_size p) (pool_id p) (on_create p) h.

(** The three growth steps of [Component_Pool::add], each on the pool held
    in a local and the world's allocator. *)
Definition add_grow_data (p : Component_Pool) (w : World)
  : option (Component_Pool * World) :=
  if decide (capacity p ≤ count p)%nat then
    let new_capacity := grow (capacity p) in
    let '(a, w1) := alloc w in
    let new_alloc := new_array (new_capacity * element_size p) in
    if decide (data_ptr p = nullptr) then Some (set_data p a new_alloc new_capacity, w1)
    else
      copied ← mem_copy new_alloc (data p) (capacity p * element_size p);
      w2 ← free_or_defer U8 (data_ptr p) w1;
      Some (set_data p a copied new_capacity, w2)
  else Some (p, w).

Definition add_grow_sparse (p : Component_Pool) (w : World) (eid : nat)
  : option (Component_Pool * World) :=
  if decide (sparse_capacity p ≤ eid)%nat then
    let new_capacity := (eid + 1)%nat in
    let '(a, w1) := alloc w in
    let new_alloc := new_array new_capacity in
    '(copied, w2) ←
      (if decide (sparse_ptr p = nullptr) then Some (new_alloc, w1)
       else
         copied ← mem_copy new_alloc (sparse p) (sparse_capacity p);
         w2 ← free_or_defer I64 (sparse_ptr p) w1;
         Some (copied, w2));
    let filled :=
      take (sparse_capacity p) copied ++
      replicate (new_capacity - sparse_capacity p) (Some (-1)) in
    Some (set_sparse p a filled new_capacity, w2)
  else Some (p, w).

Definition add_grow_dense (p : Component_Pool) (w : World)
  : option (Component_Pool * World) :=
  if decide (dense_capacity p ≤ dense_count p)%nat then
    let new_capacity := grow (dense_capacity p) in
    let '(a, w1) := alloc w in
    let new_alloc := new_array new_capacity in
    if decide (dense_ptr p = nullptr) then Some (set_dense p a new_alloc new_capacity, w1)
    else
      copied ← mem_copy new_alloc (dense p) (dense_capacity p);
      w2 ← free_or_defer ENTITY_HANDLE (dense_ptr p) w1;
      Some (set_dense p a copied new_capacity, w2)
  else Some (p, w).

(** [Component_Pool::add] on the pool at index [pi] of the world's pool
    array; the result is the byte offset of the new element in [data]. *)
Definition Component_Pool_add (w : World) (pi : nat) (e : Entity_Handle)
  : option (nat * World) :=
  p ← pools w !! pi;
  '(p1, w1) ← add_grow_data p w;
  let new_el := (count p1 * element_size p1)%nat in
  let p2 := set_count p1 (S (count p1)) in
  let eid := slot e in
  '(p3, w3) ← add_grow_sparse p2 w1 eid;
  s ← store (sparse p3) eid (Z.of_nat (dense_count p3));
  let p4 := set_sparse p3 (sparse_ptr p3) s (sparse_capacity p3) in
  '(p5, w5) ← add_grow_dense p4 w3;
  d ← store (dense p5) (dense_count p5) e;
  let p6 := set_dense_count (set_dense p5 (dense_ptr p5) d (dense_capacity p5))
                            (S (dense_count p5)) in
  Some (new_el, set_pool_at w5 pi p6).

(** Firing a hook that leaves the world alone, when one is registered. *)
Definition fire (h : option Hook) (w : World) (e : Entity_Handle) : World :=
  match h with
  | Some f => set_uptr w (run_hook f w e)
  | None => w
  end.

(** The swap-and-pop of [Component_Pool::remove]. *)
Definition swap_pop (p : Component_Pool) (e : Entity_Handle) : option Component_Pool :=
  pos ← load (sparse p) (slot e);
  other ← (if decide (dense_count p = 0)%nat then None
           else load (dense p) (dense_count p - 1));
  s1 ← store (sparse p) (slot other) pos;
  d1 ← (if decide (0 ≤ pos) then store (dense p) (Z.to_nat pos) other else None);
  s2 ← store s1 (slot e) (-1);
  b1 ← (if decide (count p = 0)%nat then None
        else mem_move (data p) (Z.to_nat pos * element_size p)
                      ((count p - 1) * element_size p) (element_size p));
  Some (set_count
          (set_dense_count
             (set_data
                (set_dense (set_sparse p (sparse_ptr p) s2 (sparse_capacity p))
                           (dense_ptr p) d1 (dense_capacity p))
                (data_ptr p) b1 (capacity p))
             (dense_count p - 1))
          (count p - 1)).

(** [Component_Pool::remove] on the pool at index [pi], for a destroy hook
    that leaves the world alone: the hook first, then the swap-and-pop. *)
Definition Component_Pool_remove (w : World) (pi : nat) (e : Entity_Handle)
  : option World :=
  p ← pools w !! pi;
  let w1 := fire (on_destroy p) w e in
  p' ← swap_pop p e;
  Some (set_pool_at w1 pi p').

(** *** Pool lookup *)

Definition find_pool (w : World) (id : Z) : option nat :=
  fst <$> list_find (λ p, pool_id p = id) (take (pool_count w) (pools w)).

(** [World::get_pool<T>]: the index of the pool of [T], made on first use. *)
Definition get_pool (w : World) (T : Comp) : option (nat * World) :=
  match find_pool w (comp_id T) with
  | Some i => Some (i, w)
  | None =>
    w1 ← (if decide (pool_capacity w ≤ pool_count w)%nat then
            let new_capacity := grow (pool_capacity w) in
            let '(a, w0) := alloc w in
            let new_alloc := replicate new_capacity Component_Pool_default in
            if decide (pools_ptr w = nullptr)
            then Some (set_pools_arr w0 a new_alloc new_capacity)
            else
              copied ← mem_copy new_alloc (pools w) (pool_capacity w);
              w0' ← free_or_defer COMPONENT_POOL (pools_ptr w) w0;
              Some (set_pools_arr w0' a copied new_capacity)
          else Some w);
    let i := pool_count w1 in
    p ← pools w1 !! i;
    Some (i, set_pool_count
               (set_pool_at w1 i (Component_Pool_init p (comp_id T) (comp_size T)))
               (S i))
  end.

(** *** The identity table *)

Definition generate_entity (w : World) : option (Entity_Handle * World) :=
  w1 ← (if decide (entity_capacity w ≤ entity_count w)%nat then
          let new_capacity := grow (entity_capacity w) in
          let '(a, w0) := alloc w in
          let new_alloc := new_array new_capacity in
          copied ← mem_copy new_alloc (entities w) (entity_capacity w);
          let w0' := delete_arr (entities_ptr w) w0 in
          Some (set_entities_arr w0' a copied new_capacity)
        else Some w);
  let e := make_handle (wrap32 (Z.of_nat (entity_count w1))) 0 in
  es ← store (entities w1) (entity_count w1) e;
  Some (e, set_entity_count (set_entities w1 es) (S (entity_count w1))).

Definition recycle_entity (w : World) : option (Entity_Handle * World) :=
  let cur_id := avail_id w in
  cur ← load (entities w) (Z.to_nat cur_id);
  let cur_version := get_entity_version cur in
  let w1 := set_avail_id w (get_entity_id cur) in
  let recycled := make_handle cur_id cur_version in
  es ← store (entities w1) (Z.to_nat cur_id) recycled;
  Some (recycled, set_entities w1 es).

Definition release_entity (w : World) (e : Entity_Handle) (desired : Entity_Version)
  : option World :=
  let id := get_entity_id e in
  es ← store (entities w) (Z.to_nat id) (make_handle (avail_id w) desired);
  Some (set_avail_id (set_entities w es) id).

(** [World::new_entity]. *)
Definition new_entity (w : World) : option (Entity_Handle * World) :=
  let w1 := set_alive_count w (wrap64 (alive_count w + 1)) in
  if decide (avail_id w1 = null_entity_id) then generate_entity w1
  else recycle_entity w1.

(** [World::count]. *)
Definition World_count (w : World) : Z := alive_count w.

(** [World::at]. *)
Definition World_at (w : World) (i : nat) : option Entity_Handle := load (entities w) i.

(** *** The entity façade *)

(** [Entity::valid] for a handle of this world. *)
Definition Entity_valid (w : World) (h : Entity_Handle) : bool :=
  bool_decide (slot h < entity_count w)%nat &&
  bool_decide (load (entities w) (slot h) = Some h).

(** One turn of the loop of [Entity::destroy]. *)
Definition destroy_step (h : Entity_Handle) (i : nat) (w : World) : option World :=
  p ← pools w !! i;
  if has p h then Component_Pool_remove w i h else Some w.

(** [Entity::destroy]. *)
Definition Entity_destroy (w : World) (h : Entity_Handle) : option World :=
  if Entity_valid w h then
    w1 ← for_range 0 (pool_count w) (destroy_step h) w;
    let nv := wrap32 (get_entity_version h + 1) in
    w2 ← release_entity w1 h nv;
    Some (set_alive_count w2 (wrap64 (alive_count w2 - 1)))
  else None.

(** [Entity::has<T>]; the lookup may create the pool of [T]. *)
Definition Entity_has (w : World) (h : Entity_Handle) (T : Comp)
  : option (bool * World) :=
  if Entity_valid w h then
    '(i, w1) ← get_pool w T;
    p ← pools w1 !! i;
    Some (has p h, w1)
  else None.

(** [Entity::add<T>(c)], the value [c] given by its bytes. *)
Definition Entity_add (w : World) (h : Entity_Handle) (T : Comp) (c : list Z)
  : option World :=
  if Entity_valid w h then
    '(b, w1) ← Entity_has w h T;
    if b : bool then @None World else
      '(i, w2) ← get_pool w1 T;
      '(n, w3) ← Component_Pool_add w2 i h;
      p ← pools w3 !! i;
      d ← write_at (data p) n c;
      let w4 := set_pool_at w3 i (set_data p (data_ptr p) d (capacity p)) in
      Some (fire (on_create p) w4 h)
  else None.

(** [Entity::get<T>]: the cells behind the returned reference. *)
Definition Entity_get (w : World) (h : Entity_Handle) (T : Comp)
  : option (list (option Z) * World) :=
  if Entity_valid w h then
    '(b, w1) ← Entity_has w h T;
    if b : bool then
      '(i, w2) ← get_pool w1 T;
      p ← pools w2 !! i;
      off ← Component_Pool_get p h;
      Some (read_at (data p) off (comp_size T), w2)
    else None
  else None.

(** [Entity::remove<T>]. *)
Definition Entity_remove (w : World) (h : Entity_Handle) (T : Comp) : option World :=
  if Entity_valid w h then
    '(b, w1) ← Entity_has w h T;
    if b : bool then
      '(i, w2) ← get_pool w1 T;
      Component_Pool_remove w2 i h
    else None
  else None.

(** [World::set_create_func<T>] and [World::set_destroy_func<T>]. *)
Definition set_create_func (w : World) (T : Comp) (f : Hook) : option World :=
  '(i, w1) ← get_pool w T;
  p ← pools w1 !! i;
  Some (set_pool_at w1 i (set_on_create p (Some f))).

Definition set_destroy_func (w : World) (T : Comp) (f : Hook) : option World :=
  '(i, w1) ← get_pool w T;
  p ← pools w1 !! i;
  Some (set_pool_at w1 i (set_on_destroy p (Some f))).

(** *** Garbage collection *)

(** The body of the loop of [World::collect_garbage] for pool [i]. *)
Definition shrink_pool (i : nat) (w : World) : option World :=
  p ← pools w !! i;
  if decide (8 < count p ∧ count p * 2 < capacity p)%nat then
    let cap := count p in
    let r := (cap mod 8)%nat in
    let cap := if decide (r ≠ 0)%nat then (cap + (8 - r))%nat else cap in
    let '(a, w1) := alloc w in
    let new_alloc := new_array (cap * element_size p) in
    copied ← mem_copy new_alloc (data p) cap;
    let w2 := delete_arr (data_ptr p) w1 in
    Some (set_pool_at w2 i (set_data p a copied cap))
  else Some w.

Definition collect_garbage (w : World) : option World :=
  let w1 := commit_deletions w in
  for_range 0 (pool_count w1) shrink_pool w1.

(** *** Views

    A view keeps pointers into the world's pool array; they are indices
    here, which is exact as long as the pool array is not replaced while
    the view is in use. *)

Definition View_empty : View := mkView [] [] 0 None 0 null_handle.

(** [View::contains]. *)
Definition View_contains (w : World) (v : View) (h : Entity_Handle) : bool :=
  forallb (λ pi, match pools w !! pi with
                 | Some p => has p h
                 | None => false
                 end) (take (v_pool_count v) (v_pools v)).

(** The [do ... while] of [View::next], started with the cursor at [i]:
    the new cursor and current entity. *)
Fixpoint next_loop (w : World) (v : View) (drv : Component_Pool) (i : nat)
  : option (nat * Entity_Handle) :=
  match i with
  | O => Some (O, null_handle)
  | S i' =>
    e ← load (dense drv) i';
    if negb (e =? null_handle) && negb (View_contains w v e)
    then next_loop w v drv i'
    else Some (i', e)
  end.

(** [View::next]. *)
Definition View_next (w : World) (v : View) : option View :=
  match idx v with
  | O => Some (mkView (to_pool v) (v_pools v) (v_pool_count v) (v_pool v) O null_handle)
  | S _ =>
    pi ← v_pool v;
    drv ← pools w !! pi;
    '(i, e) ← next_loop w v drv (idx v);
    Some (mkView (to_pool v) (v_pools v) (v_pool_count v) (v_pool v) i e)
  end.

(** The loop of [World::_new_view] that resolves the type ids; [None]
    when a type has no pool. The accumulator is the view built so far. *)
Fixpoint resolve_types (w : World) (types : list Z) (v : View) : option View :=
  match types with
  | [] => Some v
  | t :: ts =>
    match find_pool w t with
    | None => None
    | Some ii =>
      let drv :=
        match v_pool v with
        | None => Some ii
        | Some d =>
          match pools w !! ii, pools w !! d with
          | Some p, Some q => if decide (count p < count q)%nat then Some ii else Some d
          | _, _ => Some d
          end
        end in
      resolve_types w ts
        (mkView (to_pool v ++ [t]) (v_pools v ++ [ii]) (v_pool_count v) drv
                (idx v) (entity v))
    end
  end.

(** [World::_new_view(type_count, types)]. *)
Definition new_view (w : World) (types : list Z) : option (View * World) :=
  if decide (length types ≤ View_max)%nat then
    let w1 := set_iteration_depth w (iteration_depth w + 1) in
    match resolve_types w1 types
            (mkView [] [] (length types) None O null_handle) with
    | None => Some (View_empty, w1)
    | Some v =>
      match v_pool v ≫= (λ pi, pools w1 !! pi) with
      | Some drv =>
        if decide (count drv ≠ 0)%nat then
          let i := (count drv - 1)%nat in
          e ← load (dense drv) i;
          let v1 := mkView (to_pool v) (v_pools v) (v_pool_count v) (v_pool v) i e in
          if View_contains w1 v1 e then Some (v1, w1)
          else v2 ← View_next w1 v1; Some (v2, w1)
        else Some (mkView (to_pool v) (v_pools v) (v_pool_count v) (v_pool v)
                          O null_handle, w1)
      | None => Some (mkView (to_pool v) (v_pools v) (v_pool_count v) (v_pool v)
                             O null_handle, w1)
      end
    end
  else None.

(** [View::valid]. *)
Definition View_valid (w : World) (v : View) : bool * World :=
  let valid := negb (entity v =? null_handle) in
  if valid then (valid, w)
  else
    let w1 := set_iteration_depth w (iteration_depth w - 1) in
    if decide (iteration_depth w1 ≤ 0) then (valid, commit_deletions w1)
    else (valid, w1).

(** [View::get_idx]. *)
Definition get_idx (v : View) (id : Z) : nat :=
  match list_find (λ t, t = id) (take (v_pool_count v) (to_pool v)) with
  | Some (i, _) => i
  | None => O
  end.

(** [View::get<T>]: the reference it returns, as the index of the pool in
    the world's array and the byte offset in that pool's [data]. *)
Definition View_get (w : World) (v : View) (id : Z) : option (nat * nat) :=
  pi ← v_pools v !! get_idx v id;
  p ← pools w !! pi;
  off ← Component_Pool_get p (entity v);
  Some (pi, off).

(** [View::get_entity]. *)
Definition View_get_entity (v : View) : Entity_Handle := entity v.

(** *** Operation sequences

    The calls a client can make on a world. A view is a value the client
    holds; [OpViewValid] carries it. [View::next], [View::get] and the
    accessors leave the world as it is. *)
Inductive Op :=
| OpNewEntity
| OpDestroy (h : Entity_Handle)
| OpHas (h : Entity_Handle) (T : Comp)
| OpAdd (h : Entity_Handle) (T : Comp) (c : list Z)
| OpGet (h : Entity_Handle) (T : Comp)
| OpRemove (h : Entity_Handle) (T : Comp)
| OpSetCreate (T : Comp) (f : Hook)
| OpSetDestroy (T : Comp) (f : Hook)
| OpCollectGarbage
| OpNewView (types : list Z)
| OpViewValid (v : View).

Definition step (w : World) (o : Op) : option World :=
  match o with
  | OpNewEntity => snd <$> new_entity w
  | OpDestroy h => Entity_destroy w h
  | OpHas h T => snd <$> Entity_has w h T
  | OpAdd h T c => Entity_add w h T c
  | OpGet h T => snd <$> Entity_get w h T
  | OpRemove h T => Entity_remove w h T
  | OpSetCreate T f => set_create_func w T f
  | OpSetDestroy T f => set_destroy_func w T f
  | OpCollectGarbage => collect_garbage w
  | OpNewView types => snd <$> new_view w types
  | OpViewValid v => Some (snd (View_valid w v))
  end.

(** A sequence is admissible when no call of it fails: [run] is then
    [Some] of the final world. *)
Fixpoint run (w : World) (ops : list Op) : option World :=
  match ops with
  | [] => Some w
  | o :: ops' => step w o ≫= (λ w', run w' ops')
  end.

(** ** Invariants *)

(** The sparse-set invariant of a pool together with the bookkeeping of
    its three buffers. *)
Record pool_inv (p : Component_Pool) : Prop := mkPoolInv {
  pi_counts : count p = dense_count p;
  pi_cap : (count p ≤ capacity p)%nat;
  pi_data_len : length (data p) = (capacity p * element_size p)%nat;
  pi_dense_cap : (dense_count p ≤ dense_capacity p)%nat;
  pi_dense_len : length (dense p) = dense_capacity p;
  pi_sparse_len : length (sparse p) = sparse_capacity p;
  pi_dense : ∀ i, (i < dense_count p)%nat →
    ∃ d, load (dense p) i = Some d ∧ (slot d < sparse_capacity p)%nat ∧
         load (sparse p) (slot d) = Some (Z.of_nat i);
  pi_sparse : ∀ s, (s < sparse_capacity p)%nat →
    ∃ x, load (sparse p) s = Some x ∧
         (x = -1 ∨ ∃ i d, x = Z.of_nat i ∧ (i < dense_count p)%nat ∧
                          load (dense p) i = Some d ∧ slot d = s);
  pi_data_null : data_ptr p = nullptr → capacity p = 0%nat;
  pi_sparse_null : sparse_ptr p = nullptr → sparse_capacity p = 0%nat;
  pi_dense_null : dense_ptr p = nullptr → dense_capacity p = 0%nat
}.

(** The free list threaded through the identity table: [chain] lists the
    free slots from [head] on. *)
Fixpoint is_chain (es : list (option Entity_Handle)) (head : Entity_ID)
  (chain : list nat) : Prop :=
  match chain with
  | [] => head = null_entity_id
  | f :: rest =>
    head = Z.of_nat f ∧
    ∃ c, load es f = Some c ∧ is_chain es (get_entity_id c) rest
  end.

(** The identity table, with the free slots [chain] and the live handles
    [alive] as ghost state. *)
Record table_inv (w : World) (chain : list nat) (alive : list Entity_Handle)
  : Prop := mkTableInv {
  ti_len : length (entities w) = entity_capacity w;
  ti_cap : (entity_count w ≤ entity_capacity w)%nat;
  ti_bound : Z.of_nat (entity_count w) ≤ 2 ^ 32 - 1;
  ti_chain : is_chain (entities w) (avail_id w) chain;
  ti_chain_nodup : NoDup chain;
  ti_chain_lt : ∀ f, f ∈ chain → (f < entity_count w)%nat;
  ti_alive : ∀ h, h ∈ alive ↔ Entity_valid w h = true;
  ti_alive_nodup : NoDup alive;
  ti_alive_count : alive_count w = Z.of_nat (length alive);
  ti_total : (length alive + length chain)%nat = entity_count w
}.

(** [d] is stored in the dense array of some pool of [w]. *)
Definition stored (w : World) (d : Entity_Handle) : Prop :=
  ∃ j p k, pools w !! j = Some p ∧ (k < dense_count p)%nat ∧
           load (dense p) k = Some d.

(** [w'] differs from [w] at most in the allocator and the
    deferred-deletion buffer. *)
Record heap_only (w w' : World) : Prop := mkHeapOnly {
  ho_entities_ptr : entities_ptr w' = entities_ptr w;
  ho_entities : entities w' = entities w;
  ho_entity_capacity : entity_capacity w' = entity_capacity w;
  ho_entity_count : entity_count w' = entity_count w;
  ho_alive_count : alive_count w' = alive_count w;
  ho_avail_id : avail_id w' = avail_id w;
  ho_pools_ptr : pools_ptr w' = pools_ptr w;
  ho_pools : pools w' = pools w;
  ho_pool_count : pool_count w' = pool_count w;
  ho_pool_capacity : pool_capacity w' = pool_capacity w;
  ho_iteration_depth : iteration_depth w' = iteration_depth w;
  ho_uptr : uptr w' = uptr w;
  ho_next_addr : (next_addr w ≤ next_addr w')%nat
}.

(** [w'] has the identity table of [w]. *)
Record same_table (w w' : World) : Prop := mkSameTable {
  st_entities : entities w' = entities w;
  st_entity_capacity : entity_capacity w' = entity_capacity w;
  st_entity_count : entity_count w' = entity_count w;
  st_alive_count : alive_count w' = alive_count w;
  st_avail_id : avail_id w' = avail_id w
}.

(** [w'] has the pool array of [w]. *)
Record same_pools (w w' : World) : Prop := mkSamePools {
  sp_pools : pools w' = pools w;
  sp_pool_count : pool_count w' = pool_count w;
  sp_pool_capacity : pool_capacity w' = pool_capacity w;
  sp_pools_ptr : pools_ptr w' = pools_ptr w;
  sp_next_addr : (next_addr w ≤ next_addr w')%nat
}.

(** The pool array and its pools. *)
Record pools_inv (w : World) : Prop := mkPoolsInv {
  wi_pools : ∀ i p, pools w !! i = Some p → pool_inv p;
  wi_tail : ∀ i p, (pool_count w ≤ i)%nat → pools w !! i = Some p →
                   p = Component_Pool_default;
  wi_pools_len : length (pools w) = pool_capacity w;
  wi_pool_count : (pool_count w ≤ pool_capacity w)%nat;
  wi_pools_null : pools_ptr w = nullptr → pool_capacity w = 0%nat;
  wi_next_addr : next_addr w ≠ nullptr
}.

(** A step that leaves the identity table alone and keeps the pools
    well-formed; the handles it stores were stored before or are live. *)
Record pool_step (w w' : World) : Prop := mkPoolStep {
  ps_table : same_table w w';
  ps_pools : pools_inv w';
  ps_stored : ∀ d, stored w' d → stored w d ∨ Entity_valid w d = true
}.

(** The bookkeeping of the identity table that holds whatever the number
    of slots. *)
Record basic_inv (w : World) : Prop := mkBasicInv {
  bi_pools : pools_inv w;
  bi_len : length (entities w) = entity_capacity w;
  bi_cap : (entity_count w ≤ entity_capacity w)%nat
}.

Record world_inv (w : World) : Prop := mkWorldInv {
  wi_pools_inv : pools_inv w;
  wi_table : ∃ chain alive, table_inv w chain alive;
  wi_stored_live : ∀ d, stored w d → Entity_valid w d = true
}.

(** An entity is in a pool when the dense array holds its handle. *)
Definition present (p : Component_Pool) (e : Entity_Handle) : Prop :=
  ∃ i, (i < dense_count p)%nat ∧ load (dense p) i = Some e.

(** The number of [destroy] calls in a sequence that hit slot [s]. *)
Fixpoint destroys_of (s : nat) (ops : list Op) : nat :=
  match ops with
  | [] => O
  | OpDestroy h :: ops' =>
    if decide (slot h = s) then S (destroys_of s ops') else destroys_of s ops'
  | _ :: ops' => destroys_of s ops'
  end.

(** ** The loop over a view *)

(** The idiom [for (; view.valid(); view.next()) { view.get_entity(); }]
    with a body that leaves the world alone: the entities visited, in
    order, and the world after the [valid()] that ends the loop. [n]
    bounds the number of [valid()] calls. *)
Fixpoint View_drain (n : nat) (w : World) (v : View)
  : option (list Entity_Handle * World) :=
  match n with
  | O => None
  | S n' =>
    let '(ok, w1) := View_valid w v in
    if ok : bool then
      v' ← View_next w1 v;
      '(l, w2) ← View_drain n' w1 v';
      Some (View_get_entity v :: l, w2)
    else Some ([], w1)
  end.

(** The entities of the driver pool below cursor [i] that the view
    contains, from the top down. *)
Fixpoint visited_below (w : World) (v : View) (drv : Component_Pool) (i : nat)
  : list Entity_Handle :=
  match i with
  | O => []
  | S i' =>
    match load (dense drv) i' with
    | Some e => if View_contains w v e then e :: visited_below w v drv i'
                else visited_below w v drv i'
    | None => []
    end
  end.

(** ** Frames for the registry and the allocator *)

(** [w'] was reached from [w] without releasing a block while a view is
    open, and without queueing one while none is. *)
Definition defers (w w' : World) : Prop :=
  iteration_depth w' = iteration_depth w ∧
  (0 < iteration_depth w → live w ⊆ live w') ∧
  (iteration_depth w ≤ 0 → delete_buffer w' = delete_buffer w).

(** The registered component types, in the order of the pool array:
    the id and the element size of each pool in use. *)
Definition pool_sig (w : World) : list (Z * nat) :=
  (λ p, (pool_id p, element_size p)) <$> take (pool_count w) (pools w).

(** A call registers at most one component type, at the end. *)
Definition sig_step (w w' : World) : Prop :=
  pool_sig w' = pool_sig w ∨
  ∃ T : Comp, find_pool w (comp_id T) = None ∧
              pool_sig w' = pool_sig w ++ [(comp_id T, comp_size T)].

(** ** The destructor *)

(** [Component_Pool::deinit] on pool [i]: the destroy hook for every
    entity the pool still holds, then the three buffers. *)
Definition Component_Pool_deinit (i : nat) (w : World) : option World :=
  p ← pools w !! i;
  w1 ← match on_destroy p with
       | Some f =>
         for_range 0 (dense_count p)
           (λ k w', d ← load (dense p) k; Some (fire (Some f) w' d)) w
       | None => Some w
       end;
  Some (delete_arr (data_ptr p)
          (delete_arr (dense_ptr p) (delete_arr (sparse_ptr p) w1))).

(** [World::~World]. *)
Definition World_destroy (w : World) : option World :=
  w1 ← for_range 0 (pool_count w) Component_Pool_deinit w;
  Some (delete_arr (entities_ptr w1) (delete_arr (pools_ptr w1) w1)).

(** ** Who owns which block *)

Definition pool_ptrs (p : Component_Pool) : list ptr :=
  [sparse_ptr p; dense_ptr p; data_ptr p].

(** The buffers the world points to, and those of its pools. *)
Definition owned (w : World) : list ptr :=
  entities_ptr w :: pools_ptr w :: (pools w ≫= pool_ptrs).

(** The same without pool [i]. *)
Definition owned_but (w : World) (i : nat) : list ptr :=
  entities_ptr w :: pools_ptr w :: (delete i (pools w) ≫= pool_ptrs).

(** The blocks waiting in the delete buffer. *)
Definition pending (w : World) : list ptr := del_ptr <$> delete_buffer w.

(** The allocated blocks are the buffers pointed to and the blocks
    waiting, each once. *)
Definition heap_ok (own pend alive : list ptr) (next : ptr) : Prop :=
  alive ≡ₚ filter (λ a, a ≠ nullptr) (own ++ pend) ∧
  NoDup alive ∧ (∀ a, a ∈ alive → (a < next)%nat) ∧ next ≠ nullptr.

Definition heap_inv (w : World) : Prop :=
  heap_ok (owned w) (pending w) (live w) (next_addr w).

(** ** Hooks that call the world

    A hook is a [std::function<void(World&, const Entity&)>]: besides
    reporting to the user data it may call the world it is given. The
    calls followed here are the queries [e.has<T>()] on the entity the
    hook receives, for the component types [asks f], in order. A query
    goes through [get_pool<T>]: it registers [T] when [T] has no pool yet,
    and replaces the pool array when the array is full. It writes to no
    pool that was registered before. *)
Variable asks : Hook → list Comp.

Fixpoint ask_all (ts : list Comp) (w : World) (e : Entity_Handle) : option World :=
  match ts with
  | [] => Some w
  | T :: ts' => '(_, w1) ← Entity_has w e T; ask_all ts' w1 e
  end.

Definition fire_asking (h : option Hook) (w : World) (e : Entity_Handle)
  : option World :=
  match h with
  | Some f => w1 ← ask_all (asks f) w e; Some (set_uptr w1 (run_hook f w1 e))
  | None => Some w
  end.

(** The pool [q] after writes that reached its three buffers and left
    its counters alone: the cells are those of [p']. *)
Definition with_buffers_of (q p' : Component_Pool) : Component_Pool :=
  set_data
    (set_dense (set_sparse q (sparse_ptr q) (sparse p') (sparse_capacity q))
               (dense_ptr q) (dense p') (dense_capacity q))
    (data_ptr q) (data p') (capacity q).

(** [Component_Pool::remove] on the pool at index [pi] of the pool array,
    with a destroy hook that asks. [this] is the address of element [pi]
    of the array the world had when [remove] was called, and the body
    after the hook goes on through [this].
    - The array was not replaced: [this] is the world's pool.
    - The array was replaced and the old one is waiting in the delete
      buffer: [this] is the element of the old array, a copy of the pool
      as it was before the hook. Its [sparse], [dense] and [data] point to
      the buffers the world's pool points to, so the writes to the cells
      reach the world; [dense_count--] and [count--] change the copy.
    - The array was replaced and the old one released: [this] dangles. *)
Definition Component_Pool_remove_this (w : World) (pi : nat) (e : Entity_Handle)
  : option World :=
  p ← pools w !! pi;
  w1 ← fire_asking (on_destroy p) w e;
  if decide (pools_ptr w1 = pools_ptr w) then
    q ← pools w1 !! pi;
    q' ← swap_pop q e;
    Some (set_pool_at w1 pi q')
  else if decide (pools_ptr w ∈ live w1) then
    p' ← swap_pop p e;
    q ← pools w1 !! pi;
    Some (set_pool_at w1 pi (with_buffers_of q p'))
  else None.

(** [Entity::remove<T>] with a destroy hook that asks. *)
Definition Entity_remove_asking (w : World) (h : Entity_Handle) (T : Comp)
  : option World :=
  if Entity_valid w h then
    '(b, w1) ← Entity_has w h T;
    if b : bool then
      '(i, w2) ← get_pool w1 T;
      Component_Pool_remove_this w2 i h
    else None
  else None.

(** [e.get<T>() = c]: the client assigns the bytes [c] through the
    reference [Entity::get<T>] returns. *)
Definition Entity_get_assign (w : World) (h : Entity_Handle) (T : Comp) (c : list Z)
  : option World :=
  if Entity_valid w h then
    '(b, w1) ← Entity_has w h T;
    if b : bool then
      '(i, w2) ← get_pool w1 T;
      p ← pools w2 !! i;
      off ← Component_Pool_get p h;
      d ← write_at (data p) off c;
      Some (set_pool_at w2 i (set_data p (data_ptr p) d (capacity p)))
    else None
  else None.

End Registry.

(** ** Concrete instances *)

(** A world without user data, whose hooks report nothing. *)
Definition no_hooks : Hook → @World unit → Entity_Handle → unit := λ _ _ _, tt.

(** A world whose user data logs what each hook saw through
    [Entity::get]: the hook's name, the entity, and the payload cells of
    the entity in the first pool that has it. *)
Definition Seen : Type := list (Hook * Entity_Handle * option (list (option Z))).

Definition log_hook : Hook → @World Seen → Entity_Handle → Seen :=
  λ f w e,
    uptr w ++
    [(f, e, (list_find (λ p, has p e = true) (take (pool_count w) (pools w)))
              ≫= (λ ip, payload ip.2 e))].

(** The world a sequence of calls leaves, started from a fresh world
    (the fresh world itself when a call of the sequence fails). *)
Definition world_after (ops : list Op) : @World unit :=
  default (World_init tt) (run no_hooks (World_init tt) ops).

Definition logged_world_after (ops : list Op) : @World Seen :=
  default (World_init []) (run log_hook (World_init []) ops).

Definition pool_at {U : Type} (w : @World U) (i : nat) : Component_Pool :=
  default Component_Pool_default (pools w !! i).

(** [n] calls of [new_entity]. *)
Definition spawn (n : nat) : list Op := replicate n OpNewEntity.

(** A component type of four bytes and one of eight. *)
Definition Transform : Comp := mkComp 0 4.
Definition Tag : Comp := mkComp 1 8.

(** Entity [i] of a fresh world gets a [Transform] whose bytes are all [i]. *)
Definition add_transform (i : nat) : Op :=
  OpAdd (make_handle (Z.of_nat i) 0) Transform (replicate 4 (Z.of_nat i)).

(** Seventeen entities with a [Transform] each, of which the first eight
    lose it again: the pool is left with 9 elements at capacity 32. *)
Definition gc_scenario : list Op :=
  spawn 17 ++ (add_transform <$> seq 0 17) ++
  ((λ i, OpRemove (make_handle (Z.of_nat i) 0) Transform) <$> seq 0 8).

(** Eight entities, entity 0 with a [Transform], and a view over
    [Transform] left open: the identity table is full. *)
Definition open_view_scenario : list Op :=
  spawn 8 ++ [add_transform 0; OpNewView [comp_id Transform]].

(** Three entities with a [Transform] each. *)
Definition three_transforms : list Op :=
  spawn 3 ++ (add_transform <$> seq 0 3).

(** Two entities that both have a [Tag] and a [Transform]. *)
Definition two_tagged : list Op :=
  spawn 2 ++
  [OpAdd 0 Tag (replicate 8 7); OpAdd 0 Transform (replicate 4 5);
   OpAdd 1 Tag (replicate 8 9); OpAdd 1 Transform (replicate 4 3)].

(** One [new_entity] followed by [destroy] of the entity it returned. *)
Definition churn (w : @World unit) : option (@World unit) :=
  '(h, w1) ← new_entity w; Entity_destroy no_hooks w1 h.

(** The world with one slot, free, whose next version is [k]. *)
Definition churn_world (k : Z) : @World unit :=
  mkWorld 1%nat (Some (make_handle null_entity_id k) :: replicate 7 None)
          8 1 0 0 nullptr [] 0 0 [] 0 2%nat [1%nat] tt.

(** The view [_new_view] returns after a sequence of calls, with the
    world it leaves. *)
Definition view_after (ops : list Op) (types : list Z) : View * @World unit :=
  default (View_empty, World_init tt) (new_view (world_after ops) types).

(** A create hook (1) and a destroy hook (2) for [Tag], and one entity. *)
Definition hooked_tag : list Op :=
  [OpSetCreate Tag 1%nat; OpSetDestroy Tag 2%nat; OpNewEntity].

(** ** Component ids

    [get_unique_component_id] counts up from zero in a [static u64], and
    [get_component_id<T>] keeps its first result in a [static] of its own
    instantiation. Within one translation unit a type, named by a number
    here, gets its id at its first call and returns it from then on. *)

Definition Type_Name := nat.

Record Id_State := mkIdState {
  next_id : Z;
  known : Type_Name → option Z
}.

Definition Id_init : Id_State := mkIdState 0 (λ _, None).

Definition get_unique_component_id (s : Id_State) : Z * Id_State :=
  (next_id s, mkIdState (wrap64 (next_id s + 1)) (known s)).

Definition get_component_id (T : Type_Name) (s : Id_State) : Z * Id_State :=
  match known s T with
  | Some id => (id, s)
  | None =>
    let '(id, s1) := get_unique_component_id s in
    (id, mkIdState (next_id s1)
           (λ T', if decide (T' = T) then Some id else known s1 T'))
  end.

(** The state after the calls [get_component_id<T>()] for the types of
    [calls], in order, from program start. *)
Definition ids_after (calls : list Type_Name) : Id_State :=
  foldl (λ s T, snd (get_component_id T s)) Id_init calls.

(** ** More runs *)

(** Three entities of which the middle one is destroyed. *)
Definition freed_middle : list Op := spawn 3 ++ [OpDestroy 1].

(** The open view of [open_view_scenario] and a second [Transform], whose
    [add] outgrows the sparse array of the pool. *)
Definition deferred_scenario : list Op := open_view_scenario ++ [add_transform 1].

(** ** A destroy hook that asks about a new type *)

(** A one-byte component type with id [i]. *)
Definition Marker (i : nat) : Comp := mkComp (Z.of_nat i) 1.

(** Every hook calls [e.has<T>()] for the type with id 8. *)
Definition asks_ninth : Hook → list Comp := λ _, [Marker 8].

(** [n] entities with a [Transform] each, seven more component types
    registered by a query, so that the pool array, of capacity 8, is full;
    a destroy hook (1) for [Transform]; and a view over [Transform] left
    open. No hook is called. *)
Definition full_registry (n : nat) : list Op :=
  spawn n ++ (add_transform <$> seq 0 n) ++
  ((λ i, OpHas 0 (Marker i)) <$> seq 1 7) ++
  [OpSetDestroy Transform 1%nat; OpNewView [comp_id Transform]].

(** After [full_registry n]: [e.remove<Transform>()] on entity 0, whose
    destroy hook asks [e.has<T>()] for the type with id 8. *)
Definition remove_first_asking (n : nat) : option (@World unit) :=
  w ← run no_hooks (World_init tt) (full_registry n);
  Entity_remove_asking no_hooks asks_ninth w 0 Transform.

(** The same with no view open: [full_registry n] without its last call. *)
Definition full_registry_no_view (n : nat) : list Op :=
  spawn n ++ (add_transform <$> seq 0 n) ++
  ((λ i, OpHas 0 (Marker i)) <$> seq 1 7) ++ [OpSetDestroy Transform 1%nat].

(** After [remove_first_asking 3]: entity 2 is assigned the bytes
    [9 9 9 9], then entity 1 loses its [Transform]. The results are the
    world before and the world after that second [remove]. *)
Definition remove_second_asking : option (@World unit * @World unit) :=
  w1 ← remove_first_asking 3;
  w2 ← Entity_get_assign w1 2 Transform (replicate 4 9);
  w3 ← Entity_remove_asking no_hooks asks_ninth w2 1 Transform;
  Some (w2, w3).

(** * Properties *)

(** ** Handles *)

Lemma wrap32_small (x : Z) : 0 ≤ x < 2 ^ 32 → wrap32 x = x.
Proof. intros H. unfold wrap32. by apply Z.mod_small. Qed.

Lemma wrap32_range (x : Z) : 0 ≤ wrap32 x < 2 ^ 32.
Proof. unfold wrap32. apply Z.mod_pos_bound. lia. Qed.

Lemma make_handle_eq (id v : Z) :
  0 ≤ id < 2 ^ 32 → 0 ≤ v < 2 ^ 32 → make_handle id v = v * 2 ^ 32 + id.
Proof.
  intros Hid Hv. unfold make_handle, wrap64.
  rewrite Z.shiftl_mul_pow2 by lia.
  rewrite Z.mod_small by lia.
  rewrite <- Z.lxor_lor, <- Z.add_nocarry_lxor; try done.
  all: apply Z.bits_inj'; intros n Hn; rewrite Z.land_spec, Z.bits_0.
  all: destruct (decide (n < 32)) as [Hlt|Hge].
  all: try (rewrite Z.mul_pow2_bits_low by lia; done).
  all: rewrite (Z.bits_above_log2 id n), andb_false_r; try done; try lia.
  all: destruct (decide (id = 0)) as [->|Hne]; [simpl; lia|].
  all: apply Z.log2_lt_pow2; try lia.
  all: apply Z.lt_le_trans with (2 ^ 32); try lia.
  all: apply Z.pow_le_mono_r; lia.
Qed.

Lemma get_entity_id_make_handle (id v : Z) :
  0 ≤ id < 2 ^ 32 → 0 ≤ v < 2 ^ 32 → get_entity_id (make_handle id v) = id.
Proof.
  intros Hid Hv. rewrite make_handle_eq by done.
  unfold get_entity_id, wrap32.
  rewrite Z.add_comm, Z.mod_add by lia. by apply Z.mod_small.
Qed.

Lemma get_entity_version_make_handle (id v : Z) :
  0 ≤ id < 2 ^ 32 → 0 ≤ v < 2 ^ 32 → get_entity_version (make_handle id v) = v.
Proof.
  intros Hid Hv. rewrite make_handle_eq by done.
  unfold get_entity_version, wrap32.
  rewrite Z.shiftr_div_pow2 by lia.
  rewrite Z.add_comm, Z.div_add by lia.
  rewrite Z.div_small by lia. simpl. by apply Z.mod_small.
Qed.

Lemma make_handle_range (id v : Z) :
  0 ≤ id < 2 ^ 32 → 0 ≤ v < 2 ^ 32 → 0 ≤ make_handle id v < 2 ^ 64.
Proof. intros Hid Hv. rewrite make_handle_eq by done. nia. Qed.

Lemma make_handle_inj (id v id' v' : Z) :
  0 ≤ id < 2 ^ 32 → 0 ≤ v < 2 ^ 32 → 0 ≤ id' < 2 ^ 32 → 0 ≤ v' < 2 ^ 32 →
  make_handle id v = make_handle id' v' → id = id' ∧ v = v'.
Proof.
  intros Hid Hv Hid' Hv' Heq.
  split.
  - rewrite <- (get_entity_id_make_handle id v), Heq by done.
    by apply get_entity_id_make_handle.
  - rewrite <- (get_entity_version_make_handle id v), Heq by done.
    by apply get_entity_version_make_handle.
Qed.


(** X1. Packing and unpacking agree: for an id and a version that fit 32
    bits, [make_handle] gives a 64-bit handle from which
    [get_entity_id] and [get_entity_version] read them back. *)
Theorem handle_round_trip (id v : Z) :
  0 ≤ id < 2 ^ 32 → 0 ≤ v < 2 ^ 32 →
  0 ≤ make_handle id v < 2 ^ 64 ∧
  get_entity_id (make_handle id v) = id ∧
  get_entity_version (make_handle id v) = v.
Proof.
  intros Hid Hv. split; [|split].
  - by apply make_handle_range.
  - by apply get_entity_id_make_handle.
  - by apply get_entity_version_make_handle.
Qed.

Lemma handle_round_trip_witness :
  0 ≤ make_handle 4 1 < 2 ^ 64 ∧
  get_entity_id (make_handle 4 1) = 4 ∧
  get_entity_version (make_handle 4 1) = 1.
Proof. apply (handle_round_trip 4 1); lia. Defined.

(** X2. Every 64-bit handle is the handle made of its own id and
    version, so two handles with the same id and the same version are the
    same handle. *)
Theorem handle_of_parts (e : Entity_Handle) :
  0 ≤ e < 2 ^ 64 →
  make_handle (get_entity_id e) (get_entity_version e) = e ∧
  ∀ e', 0 ≤ e' < 2 ^ 64 →
        get_entity_id e' = get_entity_id e →
        get_entity_version e' = get_entity_version e → e' = e.
Proof.
  assert (Hparts : ∀ x, 0 ≤ x < 2 ^ 64 →
            make_handle (get_entity_id x) (get_entity_version x) = x).
  { intros x Hx.
    rewrite make_handle_eq by apply wrap32_range.
    unfold get_entity_id, get_entity_version, wrap32.
    rewrite Z.shiftr_div_pow2 by lia.
    assert (Hq : 0 ≤ x / 2 ^ 32 < 2 ^ 32).
    { split; [apply Z.div_pos; lia|].
      apply Z.div_lt_upper_bound; lia. }
    rewrite (Z.mod_small (x / 2 ^ 32)) by done.
    pose proof (Z.div_mod x (2 ^ 32)). lia. }
  intros He. split; [by apply Hparts|].
  intros e' He' Hid Hver.
  rewrite <- (Hparts e' He'), <- (Hparts e He). by rewrite Hid, Hver.
Qed.

Lemma handle_of_parts_witness :
  make_handle (get_entity_id null_handle) (get_entity_version null_handle)
  = null_handle ∧
  ∀ e', 0 ≤ e' < 2 ^ 64 →
        get_entity_id e' = get_entity_id null_handle →
        get_entity_version e' = get_entity_version null_handle →
        e' = null_handle.
Proof. apply (handle_of_parts null_handle). unfold null_handle. lia. Defined.
(** ** Arrays *)

Global Arguments load {A} arr i : simpl never.
Global Arguments store {A} arr i x : simpl never.
Global Arguments mem_copy {B} dst src count : simpl never.
Global Arguments mem_move {A} arr dst src n : simpl never.
Global Arguments write_at {A} arr off c : simpl never.
Global Arguments read_at {A} arr off n : simpl never.
Global Arguments new_array {A} n : simpl never.

Section ArrayFacts.
Context {A : Type}.
Implicit Types (arr dst src : list (option A)) (x : A) (i j n : nat).

Lemma load_Some arr i x : load arr i = Some x ↔ arr !! i = Some (Some x).
Proof.
  unfold load. destruct (arr !! i) as [[y|]|]; simpl; split; congruence.
Qed.

Lemma load_lt arr i x : load arr i = Some x → (i < length arr)%nat.
Proof. rewrite load_Some. apply lookup_lt_Some. Qed.

Lemma load_ext arr arr' i j : arr !! i = arr' !! j → load arr i = load arr' j.
Proof. unfold load. by intros ->. Qed.

Lemma load_new_array n i : load (@new_array A n) i = None.
Proof.
  unfold load, new_array.
  destruct (replicate n None !! i) as [c|] eqn:E; [|done].
  apply lookup_replicate in E as [-> _]. done.
Qed.

Lemma store_Some arr i x :
  (i < length arr)%nat → store arr i x = Some (<[i := Some x]> arr).
Proof. intros H. unfold store. by rewrite decide_True. Qed.

Lemma store_inv arr i x arr' :
  store arr i x = Some arr' → (i < length arr)%nat ∧ arr' = <[i := Some x]> arr.
Proof.
  unfold store. destruct (decide _); [|done]. by intros [= <-].
Qed.

Lemma store_length arr i x arr' :
  store arr i x = Some arr' → length arr' = length arr.
Proof. intros [_ ->]%store_inv. apply length_insert. Qed.

Lemma load_store_eq arr i x arr' :
  store arr i x = Some arr' → load arr' i = Some x.
Proof.
  intros [Hlt ->]%store_inv. apply load_Some.
  by apply list_lookup_insert_eq.
Qed.

Lemma load_store_ne arr i j x arr' :
  store arr i x = Some arr' → i ≠ j → load arr' j = load arr j.
Proof.
  intros [Hlt ->]%store_inv Hne. apply load_ext.
  by apply list_lookup_insert_ne.
Qed.

Lemma mem_move_inv arr (d s n : nat) arr' :
  mem_move arr d s n = Some arr' →
  (d + n ≤ length arr)%nat ∧ (s + n ≤ length arr)%nat ∧
  arr' = take d arr ++ take n (drop s arr) ++ drop (d + n) arr.
Proof.
  unfold mem_move. destruct (decide _) as [[? ?]|]; [|done].
  by intros [= <-].
Qed.

Lemma mem_move_length arr (d s n : nat) arr' :
  mem_move arr d s n = Some arr' → length arr' = length arr.
Proof.
  intros (Hd & Hs & ->)%mem_move_inv.
  rewrite !length_app, !length_take, !length_drop. lia.
Qed.

Lemma mem_move_lookup_in arr (d s n : nat) arr' k :
  mem_move arr d s n = Some arr' → (k < n)%nat →
  arr' !! (d + k)%nat = arr !! (s + k)%nat.
Proof.
  intros (Hd & Hs & ->)%mem_move_inv Hk.
  rewrite lookup_app_r by (rewrite length_take; lia).
  rewrite length_take, Nat.min_l by lia.
  rewrite lookup_app_l by (rewrite length_take, length_drop; lia).
  rewrite lookup_take_lt by lia. rewrite lookup_drop. f_equal. lia.
Qed.

Lemma mem_move_lookup_out arr (d s n : nat) arr' j :
  mem_move arr d s n = Some arr' → (j < d ∨ d + n ≤ j)%nat →
  arr' !! j = arr !! j.
Proof.
  intros (Hd & Hs & ->)%mem_move_inv Hj.
  destruct (decide (j < d)%nat) as [Hlt|Hge].
  - rewrite lookup_app_l by (rewrite length_take; lia).
    by rewrite lookup_take_lt.
  - rewrite lookup_app_r by (rewrite length_take; lia).
    rewrite length_take, Nat.min_l by lia.
    rewrite lookup_app_r by (rewrite length_take, length_drop; lia).
    rewrite length_take, length_drop, Nat.min_l by lia.
    rewrite lookup_drop. f_equal. lia.
Qed.

Lemma read_at_lookup arr (off n k : nat) :
  read_at arr off n !! k =
  if decide (k < n)%nat then arr !! (off + k)%nat else None.
Proof.
  unfold read_at. case_decide.
  - by rewrite lookup_take_lt, lookup_drop.
  - apply lookup_take_ge. lia.
Qed.

Lemma read_at_ext arr arr' (off off' n : nat) :
  (∀ k, (k < n)%nat → arr !! (off + k)%nat = arr' !! (off' + k)%nat) →
  read_at arr off n = read_at arr' off' n.
Proof.
  intros H. apply list_eq. intros k. rewrite !read_at_lookup.
  case_decide; auto.
Qed.

Lemma write_at_inv arr (off : nat) (c : list A) arr' :
  write_at arr off c = Some arr' →
  (off + length c ≤ length arr)%nat ∧
  arr' = take off arr ++ (Some <$> c) ++ drop (off + length c) arr.
Proof.
  unfold write_at. destruct (decide _); [|done]. by intros [= <-].
Qed.

Lemma write_at_length arr (off : nat) (c : list A) arr' :
  write_at arr off c = Some arr' → length arr' = length arr.
Proof.
  intros [H ->]%write_at_inv.
  rewrite !length_app, length_take, length_fmap, length_drop. lia.
Qed.

Lemma read_at_write_at arr (off : nat) (c : list A) arr' :
  write_at arr off c = Some arr' →
  read_at arr' off (length c) = Some <$> c.
Proof.
  intros [H ->]%write_at_inv. unfold read_at.
  rewrite drop_app_length' by (rewrite length_take; lia).
  rewrite take_app_length'; [done|]. by rewrite length_fmap.
Qed.

End ArrayFacts.

Lemma mem_copy_inv {B : Type} (dst src : list B) (n : nat) (r : list B) :
  mem_copy dst src n = Some r →
  (n ≤ length src)%nat ∧ (n ≤ length dst)%nat ∧ r = take n src ++ drop n dst.
Proof.
  unfold mem_copy. destruct (decide _) as [[? ?]|]; [|done].
  by intros [= <-].
Qed.

Lemma mem_copy_length {B : Type} (dst src : list B) (n : nat) (r : list B) :
  mem_copy dst src n = Some r → length r = length dst.
Proof.
  intros (Hs & Hd & ->)%mem_copy_inv.
  rewrite length_app, length_take, length_drop. lia.
Qed.

Lemma mem_copy_lookup_lt {B : Type} (dst src : list B) (n : nat) (r : list B) i :
  mem_copy dst src n = Some r → (i < n)%nat → r !! i = src !! i.
Proof.
  intros (Hs & Hd & ->)%mem_copy_inv Hi.
  rewrite lookup_app_l by (rewrite length_take; lia).
  by apply lookup_take_lt.
Qed.

Lemma mem_copy_lookup_ge {B : Type} (dst src : list B) (n : nat) (r : list B) i :
  mem_copy dst src n = Some r → (n ≤ i)%nat → r !! i = dst !! i.
Proof.
  intros (Hs & Hd & ->)%mem_copy_inv Hi.
  rewrite lookup_app_r by (rewrite length_take; lia).
  rewrite length_take, Nat.min_l by lia.
  rewrite lookup_drop. f_equal. lia.
Qed.

Lemma load_insert_eq {A : Type} (arr : list (option A)) (i : nat) (x : A) :
  (i < length arr)%nat → load (<[i := Some x]> arr) i = Some x.
Proof. intros H. apply load_Some. by apply list_lookup_insert_eq. Qed.

Lemma load_insert_ne {A : Type} (arr : list (option A)) (i j : nat) (x : A) :
  i ≠ j → load (<[i := Some x]> arr) j = load arr j.
Proof. intros H. apply load_ext. by apply list_lookup_insert_ne. Qed.

(** ** Pools: membership and the swap-and-pop *)

Lemma has_true (p : Component_Pool) (e : Entity_Handle) :
  has p e = true ↔
  (slot e < sparse_capacity p)%nat ∧
  ∃ x, load (sparse p) (slot e) = Some x ∧ x ≠ -1.
Proof.
  unfold has. rewrite andb_true_iff, bool_decide_eq_true.
  destruct (load (sparse p) (slot e)) as [x|]; split.
  - intros [Hlt Hx]. split; [done|]. exists x. split; [done|].
    apply negb_true_iff, Z.eqb_neq in Hx. done.
  - intros [Hlt (y & [= <-] & Hy)]. split; [done|].
    by apply negb_true_iff, Z.eqb_neq.
  - by intros [_ ?].
  - by intros [_ (y & ? & _)].
Qed.

Lemma has_false_sparse (p : Component_Pool) (e : Entity_Handle) :
  (slot e < sparse_capacity p)%nat → load (sparse p) (slot e) = Some (-1) →
  has p e = false.
Proof.
  intros Hlt Hl. unfold has. rewrite Hl. simpl. apply andb_false_r.
Qed.

(** In a well-formed pool a positive membership test leads to the dense
    cell of that slot. *)
Lemma has_pool_inv (p : Component_Pool) (e : Entity_Handle) :
  pool_inv p → has p e = true →
  ∃ i d, (i < dense_count p)%nat ∧ load (sparse p) (slot e) = Some (Z.of_nat i) ∧
         load (dense p) i = Some d ∧ slot d = slot e.
Proof.
  intros Hinv [Hlt (x & Hx & Hne)]%has_true.
  destruct (pi_sparse p Hinv (slot e) Hlt) as (y & Hy & [->|(i & d & -> & Hi & Hd & Hs)]).
  - congruence.
  - exists i, d. split_and!; first [done|congruence].
Qed.

Lemma present_has (p : Component_Pool) (e : Entity_Handle) :
  pool_inv p → present p e → has p e = true.
Proof.
  intros Hinv (i & Hi & He).
  destruct (pi_dense p Hinv i Hi) as (d & Hd & Hlt & Hs).
  assert (d = e) as -> by congruence.
  apply has_true. split; [done|]. exists (Z.of_nat i). split; [done|lia].
Qed.

Lemma present_sparse (p : Component_Pool) (e : Entity_Handle) (i : nat) :
  pool_inv p → (i < dense_count p)%nat → load (dense p) i = Some e →
  load (sparse p) (slot e) = Some (Z.of_nat i).
Proof.
  intros Hinv Hi He.
  destruct (pi_dense p Hinv i Hi) as (d & Hd & Hlt & Hs).
  assert (d = e) as -> by congruence. done.
Qed.

(** What [swap_pop] computes on a well-formed pool that holds the slot of
    [e] at dense index [i]. *)
Lemma swap_pop_inv_Some (p : Component_Pool) (e : Entity_Handle) (i : nat) :
  pool_inv p → (i < dense_count p)%nat →
  load (sparse p) (slot e) = Some (Z.of_nat i) →
  ∃ last s1 s2 d1 b1,
    load (dense p) (dense_count p - 1) = Some last ∧
    store (sparse p) (slot last) (Z.of_nat i) = Some s1 ∧
    store (dense p) i last = Some d1 ∧
    store s1 (slot e) (-1) = Some s2 ∧
    mem_move (data p) (i * element_size p) ((count p - 1) * element_size p)
             (element_size p) = Some b1 ∧
    swap_pop p e =
      Some (mkPool (sparse_ptr p) s2 (sparse_capacity p)
                   (dense_ptr p) d1 (dense_count p - 1) (dense_capacity p)
                   (data_ptr p) b1 (count p - 1) (capacity p)
                   (element_size p) (pool_id p) (on_create p) (on_destroy p)).
Proof.
  intros Hinv Hi Hpos.
  destruct (pi_dense p Hinv (dense_count p - 1)%nat ltac:(lia))
    as (last & Hlast & Hlast_lt & Hlast_s).
  assert (Hslot_e : (slot e < length (sparse p))%nat) by by eapply load_lt.
  pose proof (pi_sparse_len p Hinv) as Hsl.
  pose proof (pi_dense_len p Hinv) as Hdl.
  pose proof (pi_dense_cap p Hinv) as Hdc.
  pose proof (pi_counts p Hinv) as Hc.
  pose proof (pi_cap p Hinv) as Hcap.
  pose proof (pi_data_len p Hinv) as Hdata.
  exists last, (<[slot last := Some (Z.of_nat i)]> (sparse p)),
    (<[slot e := Some (-1)]> (<[slot last := Some (Z.of_nat i)]> (sparse p))),
    (<[i := Some last]> (dense p)).
  assert (Hmm : (i * element_size p + element_size p ≤ length (data p) ∧
                 (count p - 1) * element_size p + element_size p
                 ≤ length (data p))%nat).
  { rewrite Hdata. split; nia. }
  eexists. split_and!; try done.
  - apply store_Some. lia.
  - apply store_Some. lia.
  - apply store_Some. rewrite length_insert. lia.
  - unfold mem_move. rewrite decide_True by done. done.
  - unfold swap_pop. rewrite Hpos, Hlast. simpl.
    rewrite (decide_False (P := dense_count p = 0%nat)) by lia. simpl.
    rewrite (store_Some (sparse p)) by lia. simpl.
    rewrite (decide_True (P := 0 ≤ Z.of_nat i)) by lia. rewrite Nat2Z.id.
    rewrite (store_Some (dense p)) by lia. simpl.
    rewrite store_Some by (rewrite length_insert; lia). simpl.
    rewrite (decide_False (P := count p = 0%nat)) by lia.
    unfold mem_move. rewrite decide_True by done. done.
Qed.

(** The pool after [swap_pop], with the facts the proofs below start from. *)
Lemma swap_pop_spec (p p' : Component_Pool) (e : Entity_Handle) :
  pool_inv p → has p e = true → swap_pop p e = Some p' →
  ∃ i d last,
    (i < dense_count p)%nat ∧
    load (sparse p) (slot e) = Some (Z.of_nat i) ∧
    load (dense p) i = Some d ∧ slot d = slot e ∧
    load (dense p) (dense_count p - 1) = Some last ∧
    (slot last < sparse_capacity p)%nat ∧
    load (sparse p) (slot last) = Some (Z.of_nat (dense_count p - 1)) ∧
    (slot e = slot last ↔ i = (dense_count p - 1)%nat) ∧
    mem_move (data p) (i * element_size p) ((count p - 1) * element_size p)
             (element_size p) = Some (data p') ∧
    p' = mkPool (sparse_ptr p)
           (<[slot e := Some (-1)]> (<[slot last := Some (Z.of_nat i)]> (sparse p)))
           (sparse_capacity p)
           (dense_ptr p) (<[i := Some last]> (dense p)) (dense_count p - 1)
           (dense_capacity p)
           (data_ptr p) (data p') (count p - 1) (capacity p)
           (element_size p) (pool_id p) (on_create p) (on_destroy p).
Proof.
  intros Hinv Hhas Hsp.
  destruct (has_pool_inv p e Hinv Hhas) as (i & d & Hi & Hpos & Hd & Hsd).
  destruct (swap_pop_inv_Some p e i Hinv Hi Hpos)
    as (last & s1 & s2 & d1 & b1 & Hlast & Hs1 & Hd1 & Hs2 & Hb1 & Heq).
  rewrite Hsp in Heq. injection Heq as ->.
  destruct (pi_dense p Hinv (dense_count p - 1)%nat ltac:(lia))
    as (last' & Hlast' & Hlast_lt & Hlast_s).
  assert (last' = last) as -> by congruence.
  apply store_inv in Hs1 as [_ ->]. apply store_inv in Hd1 as [_ ->].
  apply store_inv in Hs2 as [_ ->].
  exists i, d, last. split_and!; try done.
  split.
  - intros Heq. rewrite Heq in Hpos. rewrite Hpos in Hlast_s.
    injection Hlast_s as Hx. lia.
  - intros ->. assert (d = last) as -> by congruence. done.
Qed.

Lemma swap_pop_total (p : Component_Pool) (e : Entity_Handle) :
  pool_inv p → has p e = true → is_Some (swap_pop p e).
Proof.
  intros Hinv Hhas.
  destruct (has_pool_inv p e Hinv Hhas) as (i & d & Hi & Hpos & Hd & Hsd).
  destruct (swap_pop_inv_Some p e i Hinv Hi Hpos)
    as (last & s1 & s2 & d1 & b1 & _ & _ & _ & _ & _ & Heq).
  rewrite Heq. by eexists.
Qed.

Lemma swap_pop_pool_inv (p p' : Component_Pool) (e : Entity_Handle) :
  pool_inv p → has p e = true → swap_pop p e = Some p' → pool_inv p'.
Proof.
  intros Hinv Hhas Hsp.
  destruct (swap_pop_spec p p' e Hinv Hhas Hsp)
    as (i & d & last & Hi & Hpos & Hd & Hsd & Hlast & Hlast_lt & Hlast_s
        & Hiff & Hmm & Hp').
  pose proof (pi_sparse_len p Hinv) as Hsl.
  pose proof (pi_dense_len p Hinv) as Hdl.
  pose proof (pi_dense_cap p Hinv) as Hdc.
  pose proof (pi_counts p Hinv) as Hc.
  pose proof (pi_cap p Hinv) as Hcap.
  pose proof (pi_data_len p Hinv) as Hdata.
  assert (Hse : (slot e < sparse_capacity p)%nat).
  { apply load_lt in Hpos. lia. }
  apply mem_move_length in Hmm.
  rewrite Hp'. constructor; simpl.
  - lia.
  - lia.
  - rewrite Hp' in Hmm. simpl in Hmm. congruence.
  - lia.
  - by rewrite length_insert.
  - by rewrite !length_insert.
  - intros j Hj. destruct (decide (j = i)) as [->|Hji].
    + exists last. rewrite load_insert_eq by lia. split_and!; try done.
      rewrite load_insert_ne by (intros Heq; apply Hiff in Heq; lia).
      apply load_insert_eq. lia.
    + destruct (pi_dense p Hinv j ltac:(lia)) as (dj & Hdj & Hdj_lt & Hdj_s).
      exists dj. rewrite load_insert_ne by done. split_and!; try done.
      rewrite !load_insert_ne; [done|..].
      * intros Heq. rewrite Heq, Hdj_s in Hlast_s. injection Hlast_s. lia.
      * intros Heq. rewrite Heq, Hdj_s in Hpos. injection Hpos. lia.
  - intros s Hs. destruct (decide (s = slot e)) as [->|Hne].
    { exists (-1). split; [|by left].
      apply load_insert_eq. rewrite length_insert. lia. }
    destruct (decide (s = slot last)) as [->|Hne'].
    { exists (Z.of_nat i). rewrite load_insert_ne by done.
      rewrite load_insert_eq by lia. split; [done|]. right.
      exists i, last. split_and!; try done.
      - assert (i ≠ (dense_count p - 1)%nat); [|lia].
        intros Heq. apply Hiff in Heq. done.
      - apply load_insert_eq. lia. }
    destruct (pi_sparse p Hinv s Hs) as (x & Hx & Hcase).
    exists x. rewrite !load_insert_ne by done. split; [done|].
    destruct Hcase as [->|(j & dj & -> & Hj & Hdj & Hsj)]; [by left|right].
    assert (j ≠ i) by (intros ->; congruence).
    assert (j ≠ (dense_count p - 1)%nat) by (intros ->; congruence).
    exists j, dj. split_and!; try done; [lia|].
    by rewrite load_insert_ne.
  - apply (pi_data_null p Hinv).
  - apply (pi_sparse_null p Hinv).
  - apply (pi_dense_null p Hinv).
Qed.

Lemma swap_pop_has_self (p p' : Component_Pool) (e : Entity_Handle) :
  pool_inv p → has p e = true → swap_pop p e = Some p' → has p' e = false.
Proof.
  intros Hinv Hhas Hsp.
  destruct (swap_pop_spec p p' e Hinv Hhas Hsp)
    as (i & d & last & Hi & Hpos & Hd & Hsd & Hlast & Hlast_lt & Hlast_s
        & Hiff & Hmm & Hp').
  pose proof (pi_sparse_len p Hinv) as Hsl.
  assert (Hse : (slot e < sparse_capacity p)%nat).
  { apply load_lt in Hpos. lia. }
  apply has_false_sparse; rewrite Hp'; simpl; [done|].
  apply load_insert_eq. rewrite length_insert. lia.
Qed.

(** The dense array after [swap_pop] holds the handles it held before,
    except the one at the removed slot. *)
Lemma swap_pop_dense (p p' : Component_Pool) (e : Entity_Handle) (j : nat)
  (x : Entity_Handle) :
  pool_inv p → has p e = true → swap_pop p e = Some p' →
  (j < dense_count p')%nat → load (dense p') j = Some x →
  slot x ≠ slot e ∧ ∃ k, (k < dense_count p)%nat ∧ load (dense p) k = Some x.
Proof.
  intros Hinv Hhas Hsp Hj Hx.
  destruct (swap_pop_spec p p' e Hinv Hhas Hsp)
    as (i & d & last & Hi & Hpos & Hd & Hsd & Hlast & Hlast_lt & Hlast_s
        & Hiff & Hmm & Hp').
  pose proof (pi_dense_len p Hinv) as Hdl.
  pose proof (pi_dense_cap p Hinv) as Hdc.
  rewrite Hp' in Hj, Hx. simpl in Hj, Hx.
  destruct (decide (j = i)) as [->|Hji].
  - rewrite load_insert_eq in Hx by lia. injection Hx as <-. split.
    + intros Heq. symmetry in Heq. apply Hiff in Heq. lia.
    + exists (dense_count p - 1)%nat. split; [lia|done].
  - rewrite load_insert_ne in Hx by done. split.
    + intros Heq.
      pose proof (present_sparse p x j Hinv ltac:(lia) Hx) as Hsx.
      rewrite Heq, Hpos in Hsx. injection Hsx. lia.
    + exists j. split; [lia|done].
Qed.

Lemma Component_Pool_get_sparse (p : Component_Pool) (x : Entity_Handle) (j : nat) :
  load (sparse p) (slot x) = Some (Z.of_nat j) →
  Component_Pool_get p x = Some (j * element_size p)%nat.
Proof.
  intros H. unfold Component_Pool_get, sparse_idx. rewrite H. simpl.
  rewrite decide_True by lia. by rewrite Nat2Z.id.
Qed.

Lemma payload_sparse (p : Component_Pool) (x : Entity_Handle) (j : nat) :
  load (sparse p) (slot x) = Some (Z.of_nat j) →
  payload p x = Some (read_at (data p) (j * element_size p) (element_size p)).
Proof.
  intros H. unfold payload. by rewrite (Component_Pool_get_sparse p x j H).
Qed.

(** The entities at other slots stay in the pool, each with the payload
    cells it had. *)
Lemma swap_pop_others (p p' : Component_Pool) (e x : Entity_Handle) :
  pool_inv p → has p e = true → swap_pop p e = Some p' →
  present p x → slot x ≠ slot e →
  present p' x ∧ has p' x = true ∧ payload p' x = payload p x ∧
  is_Some (payload p x).
Proof.
  intros Hinv Hhas Hsp (j & Hj & Hx) Hne.
  pose proof (swap_pop_pool_inv p p' e Hinv Hhas Hsp) as Hinv'.
  destruct (swap_pop_spec p p' e Hinv Hhas Hsp)
    as (i & d & last & Hi & Hpos & Hd & Hsd & Hlast & Hlast_lt & Hlast_s
        & Hiff & Hmm & Hp').
  pose proof (pi_dense_len p Hinv) as Hdl.
  pose proof (pi_dense_cap p Hinv) as Hdc.
  pose proof (pi_counts p Hinv) as Hc.
  pose proof (present_sparse p x j Hinv Hj Hx) as Hsx.
  assert (Hji : j ≠ i) by (intros ->; congruence).
  rewrite (payload_sparse p x j Hsx).
  assert (Hpres : ∃ j', (j' < dense_count p')%nat ∧ load (dense p') j' = Some x ∧
            read_at (data p') (j' * element_size p') (element_size p') =
            read_at (data p) (j * element_size p) (element_size p)).
  { destruct (decide (j = dense_count p - 1)%nat) as [->|Hjl].
    - assert (x = last) as -> by congruence.
      assert (i ≠ (dense_count p - 1)%nat) by done.
      exists i. rewrite Hp' at 1 2 4 5. simpl. split_and!; [lia| |].
      + apply load_insert_eq. lia.
      + apply read_at_ext. intros k Hk.
        rewrite (mem_move_lookup_in _ _ _ _ _ k Hmm Hk). by rewrite Hc.
    - exists j. rewrite Hp' at 1 2 4 5. simpl. split_and!; [lia| |].
      + by rewrite load_insert_ne.
      + apply read_at_ext. intros k Hk.
        apply (mem_move_lookup_out _ _ _ _ _ _ Hmm). nia. }
  destruct Hpres as (j' & Hj' & Hx' & Hread).
  assert (Hpr : present p' x) by (exists j'; done).
  split_and!; [done|by apply present_has| |by eexists].
  rewrite (payload_sparse p' x j'); [by rewrite Hread|].
  by apply present_sparse.
Qed.
Global Arguments Entity_valid {U} w h : simpl never.
Global Arguments has p e : simpl never.
Global Arguments find_pool {U} w id : simpl never.
Global Arguments get_pool {U} w T : simpl never.

Global Arguments Nat.modulo _ _ : simpl never.
Global Arguments Nat.div _ _ : simpl never.

Global Arguments alloc {U} w : simpl never.

Section RegistryFacts.
Context {U : Type} (run_hook : Hook → @World U → Entity_Handle → U).
Implicit Types (w : @World U) (p : Component_Pool) (v : View).
Implicit Types (e h : Entity_Handle).

(** ** The deferred-deletion buffer *)

Lemma foldl_delete_arr w (b : list Deletion_Entry) :
  foldl (λ w' entry, delete_arr (del_ptr entry) w') w b =
  set_heap w (next_addr w)
    (foldl (λ l entry, filter (λ q, q ≠ del_ptr entry) l) (live w) b).
Proof.
  revert w. induction b as [|entry b IH]; intros w; simpl.
  - by destruct w.
  - rewrite IH. by destruct w.
Qed.

Lemma foldl_filter_not_elem (b : list Deletion_Entry) (l : list ptr) (q : ptr) :
  q ∈ foldl (λ l entry, filter (λ q, q ≠ del_ptr entry) l) l b ↔
  q ∈ l ∧ ∀ entry, entry ∈ b → q ≠ del_ptr entry.
Proof.
  revert l. induction b as [|entry b IH]; intros l; simpl.
  - split; [intros H; split; [done|] | by intros [H _]].
    intros entry Hin. by apply elem_of_nil in Hin.
  - rewrite IH, list_elem_of_filter. split.
    + intros [[Hne Hl] Hb]. split; [done|].
      intros entry' Hin. apply elem_of_cons in Hin as [->|Hin]; auto.
    + intros [Hl Hb]. split; [split; [|done]|].
      * apply Hb. by left.
      * intros entry' Hin. apply Hb. by right.
Qed.

Lemma commit_deletions_depth w :
  iteration_depth (commit_deletions w) = iteration_depth w.
Proof. unfold commit_deletions. by rewrite foldl_delete_arr. Qed.

Lemma commit_deletions_buffer w : delete_buffer (commit_deletions w) = [].
Proof. done. Qed.

Lemma commit_deletions_live w (q : ptr) :
  q ∈ live (commit_deletions w) ↔
  q ∈ live w ∧ ∀ entry, entry ∈ delete_buffer w → q ≠ del_ptr entry.
Proof.
  unfold commit_deletions. rewrite foldl_delete_arr. simpl.
  apply foldl_filter_not_elem.
Qed.

(** ** Views: [valid] *)

Lemma View_valid_current w v :
  entity v ≠ null_handle → View_valid w v = (true, w).
Proof.
  intros Hne. unfold View_valid.
  destruct (entity v =? null_handle) eqn:E; [|done].
  apply Z.eqb_eq in E. done.
Qed.

Lemma View_valid_exhausted_depth w v :
  entity v = null_handle →
  fst (View_valid w v) = false ∧
  iteration_depth (snd (View_valid w v)) = iteration_depth w - 1.
Proof.
  intros He. unfold View_valid. rewrite He, Z.eqb_refl. cbn [negb].
  case_decide; cbn [fst snd]; [|done]. by rewrite commit_deletions_depth.
Qed.

(** [n] calls of [valid] on one view, one after the other. *)
Lemma View_valid_iter_depth w v (n : nat) :
  entity v = null_handle →
  iteration_depth (Nat.iter n (λ w', snd (View_valid w' v)) w) =
  iteration_depth w - Z.of_nat n.
Proof.
  intros He. induction n as [|n IH].
  - simpl. lia.
  - rewrite Nat.iter_succ.
    destruct (View_valid_exhausted_depth
                (Nat.iter n (λ w', snd (View_valid w' v)) w) v He) as [_ ->].
    rewrite IH. lia.
Qed.

(** C3 (as amended). [valid()] returns whether a current entity exists and
    then leaves the world alone; every call that finds the view exhausted,
    the first and each later one, decrements [iteration_depth] by one and,
    when the depth is then at most zero, commits all pending deferred
    frees (the buffer is emptied and its blocks are released), when the
    depth is still positive nothing is freed. The total decrement caused by
    a view is the number of [valid()] calls made on it once exhausted. *)
Theorem View_valid_spec w v (n : nat) :
  (entity v ≠ null_handle → View_valid w v = (true, w)) ∧
  (entity v = null_handle →
   fst (View_valid w v) = false ∧
   iteration_depth (snd (View_valid w v)) = iteration_depth w - 1 ∧
   (iteration_depth w - 1 ≤ 0 →
    delete_buffer (snd (View_valid w v)) = [] ∧
    ∀ entry, entry ∈ delete_buffer w →
             del_ptr entry ∉ live (snd (View_valid w v))) ∧
   (0 < iteration_depth w - 1 →
    delete_buffer (snd (View_valid w v)) = delete_buffer w ∧
    live (snd (View_valid w v)) = live w) ∧
   iteration_depth (Nat.iter n (λ w', snd (View_valid w' v)) w) =
   iteration_depth w - Z.of_nat n).
Proof.
  split; [apply View_valid_current|].
  intros He.
  destruct (View_valid_exhausted_depth w v He) as [Hf Hd].
  assert (Hv : View_valid w v =
               let w1 := set_iteration_depth w (iteration_depth w - 1) in
               if decide (iteration_depth w - 1 ≤ 0)
               then (false, commit_deletions w1) else (false, w1)).
  { unfold View_valid. rewrite He, Z.eqb_refl. done. }
  cbn zeta in Hv.
  split; [done|]. split; [done|]. split; [|split].
  - intros Hle. rewrite Hv, decide_True by done. cbn [snd].
    split; [done|]. intros entry Hin Hlive.
    apply commit_deletions_live in Hlive as [_ Hl]. by apply (Hl entry).
  - intros Hlt. rewrite Hv, decide_False by lia. done.
  - by apply View_valid_iter_depth.
Qed.


(** ** Frames: what the allocator and the growth steps leave alone *)

Lemma heap_only_refl w : heap_only w w.
Proof. by constructor. Qed.

Lemma heap_only_trans w1 w2 w3 : heap_only w1 w2 → heap_only w2 w3 → heap_only w1 w3.
Proof.
  intros [] []. constructor; try congruence. lia.
Qed.

Lemma heap_only_same_table w w' : heap_only w w' → same_table w w'.
Proof. intros []. by constructor. Qed.

Lemma same_table_refl w : same_table w w.
Proof. by constructor. Qed.

Lemma same_table_trans w1 w2 w3 : same_table w1 w2 → same_table w2 w3 → same_table w1 w3.
Proof. intros [] []. constructor; congruence. Qed.

Lemma same_table_valid w w' h : same_table w w' → Entity_valid w' h = Entity_valid w h.
Proof.
  intros [He _ Hn _ _]. unfold Entity_valid. by rewrite He, Hn.
Qed.

Lemma alloc_heap_only w a w1 :
  alloc w = (a, w1) → a = next_addr w ∧ heap_only w w1 ∧ next_addr w1 = S (next_addr w).
Proof.
  unfold alloc. intros [= <- <-]. split_and!; try done.
  constructor; simpl; try done. lia.
Qed.

Lemma delete_arr_heap_only (a : ptr) w : heap_only w (delete_arr a w).
Proof. by constructor. Qed.

Lemma push_deletion_heap_only w ty (a : ptr) w' :
  push_deletion w ty a = Some w' → heap_only w w'.
Proof.
  unfold push_deletion. destruct (decide _); [|done]. intros [= <-].
  by constructor.
Qed.

Lemma free_or_defer_heap_only ty (a : ptr) w w' :
  free_or_defer ty a w = Some w' → heap_only w w'.
Proof.
  unfold free_or_defer. destruct (decide _).
  - intros [= <-]. apply delete_arr_heap_only.
  - apply push_deletion_heap_only.
Qed.

Lemma commit_deletions_heap_only w : heap_only w (commit_deletions w).
Proof.
  unfold commit_deletions. rewrite foldl_delete_arr. by constructor.
Qed.

Lemma grow_gt (cap : nat) : (cap < grow cap)%nat.
Proof. unfold grow. case_decide; lia. Qed.

Lemma add_grow_data_spec p w p1 w1 :
  add_grow_data p w = Some (p1, w1) →
  length (data p) = (capacity p * element_size p)%nat →
  (data_ptr p = nullptr → capacity p = 0%nat) →
  next_addr w ≠ nullptr →
  heap_only w w1 ∧
  ∃ a d cap, p1 = set_data p a d cap ∧
    length d = (cap * element_size p)%nat ∧
    ((count p ≤ capacity p)%nat → (count p < cap)%nat) ∧
    (a = nullptr → cap = 0%nat).
Proof.
  intros Hg Hlen Hnull Hnext. unfold add_grow_data in Hg.
  destruct (decide (capacity p ≤ count p)%nat) as [Hle|Hgt].
  - destruct (alloc w) as [a w0] eqn:Ha.
    apply alloc_heap_only in Ha as (-> & Hho & Hn).
    pose proof (grow_gt (capacity p)) as Hgr.
    destruct (decide (data_ptr p = nullptr)) as [Hp|Hp].
    + injection Hg as <- <-. split; [done|].
      eexists _, _, _. split_and!; [done|..].
      * unfold new_array. by rewrite length_replicate.
      * lia.
      * done.
    + destruct (mem_copy _ _ _) as [copied|] eqn:Hc; [|done]. simpl in Hg.
      destruct (free_or_defer _ _ _) as [w2|] eqn:Hf; [|done]. simpl in Hg.
      injection Hg as <- <-. split.
      { eapply heap_only_trans; [done|]. by eapply free_or_defer_heap_only. }
      eexists _, _, _. split_and!; [done|..].
      * apply mem_copy_length in Hc. rewrite Hc.
        unfold new_array. by rewrite length_replicate.
      * lia.
      * done.
  - injection Hg as <- <-. split; [apply heap_only_refl|].
    exists (data_ptr p), (data p), (capacity p). split_and!; try done.
    + by destruct p.
    + lia.
Qed.

Lemma add_grow_dense_spec p w p1 w1 :
  add_grow_dense p w = Some (p1, w1) →
  length (dense p) = dense_capacity p →
  (dense_ptr p = nullptr → dense_capacity p = 0%nat) →
  next_addr w ≠ nullptr →
  heap_only w w1 ∧
  ∃ a d cap, p1 = set_dense p a d cap ∧
    length d = cap ∧
    ((dense_count p ≤ dense_capacity p)%nat → (dense_count p < cap)%nat) ∧
    (∀ j, (j < dense_capacity p)%nat → load d j = load (dense p) j) ∧
    (a = nullptr → cap = 0%nat).
Proof.
  intros Hg Hlen Hnull Hnext. unfold add_grow_dense in Hg.
  destruct (decide (dense_capacity p ≤ dense_count p)%nat) as [Hle|Hgt].
  - destruct (alloc w) as [a w0] eqn:Ha.
    apply alloc_heap_only in Ha as (-> & Hho & Hn).
    pose proof (grow_gt (dense_capacity p)) as Hgr.
    destruct (decide (dense_ptr p = nullptr)) as [Hp|Hp].
    + injection Hg as <- <-. split; [done|].
      eexists _, _, _. split_and!; [done|..].
      * unfold new_array. by rewrite length_replicate.
      * lia.
      * intros j Hj. specialize (Hnull Hp). lia.
      * done.
    + destruct (mem_copy _ _ _) as [copied|] eqn:Hc; [|done]. simpl in Hg.
      destruct (free_or_defer _ _ _) as [w2|] eqn:Hf; [|done]. simpl in Hg.
      injection Hg as <- <-. split.
      { eapply heap_only_trans; [done|]. by eapply free_or_defer_heap_only. }
      eexists _, _, _. split_and!; [done|..].
      * apply mem_copy_length in Hc. rewrite Hc.
        unfold new_array. by rewrite length_replicate.
      * lia.
      * intros j Hj. apply load_ext.
        by apply (mem_copy_lookup_lt _ _ _ _ _ Hc).
      * done.
  - injection Hg as <- <-. split; [apply heap_only_refl|].
    exists (dense_ptr p), (dense p), (dense_capacity p). split_and!; try done.
    + by destruct p.
    + lia.
Qed.

Lemma add_grow_sparse_spec p w (eid : nat) p1 w1 :
  add_grow_sparse p w eid = Some (p1, w1) →
  length (sparse p) = sparse_capacity p →
  (sparse_ptr p = nullptr → sparse_capacity p = 0%nat) →
  next_addr w ≠ nullptr →
  heap_only w w1 ∧
  ∃ a s cap, p1 = set_sparse p a s cap ∧
    length s = cap ∧ (eid < cap)%nat ∧ (sparse_capacity p ≤ cap)%nat ∧
    (∀ j, (j < sparse_capacity p)%nat → load s j = load (sparse p) j) ∧
    (∀ j, (sparse_capacity p ≤ j < cap)%nat → load s j = Some (-1)) ∧
    (a = nullptr → cap = 0%nat).
Proof.
  intros Hg Hlen Hnull Hnext. unfold add_grow_sparse in Hg.
  destruct (decide (sparse_capacity p ≤ eid)%nat) as [Hle|Hgt].
  - destruct (alloc w) as [a w0] eqn:Ha.
    apply alloc_heap_only in Ha as (-> & Hho & Hn).
    match type of Hg with
    | ?m ≫= _ = _ => destruct m as [[copied w2]|] eqn:Hc; [|done]
    end.
    simpl in Hg. injection Hg as <- <-.
    assert (Hw2 : heap_only w w2 ∧ length copied = (eid + 1)%nat ∧
             ∀ j, (j < sparse_capacity p)%nat → copied !! j = sparse p !! j).
    { destruct (decide (sparse_ptr p = nullptr)) as [Hp|Hp].
      - injection Hc as <- <-. split_and!; [done| |].
        + unfold new_array. by rewrite length_replicate.
        + intros j Hj. specialize (Hnull Hp). lia.
      - destruct (mem_copy _ _ _) as [copied'|] eqn:Hc'; [|done]. simpl in Hc.
        destruct (free_or_defer _ _ _) as [w2'|] eqn:Hf; [|done]. simpl in Hc.
        injection Hc as <- <-. split_and!.
        + eapply heap_only_trans; [done|]. by eapply free_or_defer_heap_only.
        + apply mem_copy_length in Hc'. rewrite Hc'.
          unfold new_array. by rewrite length_replicate.
        + intros j Hj. by apply (mem_copy_lookup_lt _ _ _ _ _ Hc'). }
    destruct Hw2 as (Hho2 & Hlc & Hcop). split; [done|].
    eexists _, _, _. split_and!; [done|..].
    + rewrite length_app, length_take, length_replicate. lia.
    + lia.
    + lia.
    + intros j Hj. apply load_ext.
      rewrite lookup_app_l by (rewrite length_take; lia).
      rewrite lookup_take_lt by done. by apply Hcop.
    + intros j Hj. apply load_Some.
      rewrite lookup_app_r by (rewrite length_take; lia).
      rewrite length_take, Nat.min_l by lia.
      apply lookup_replicate_2. lia.
    + done.
  - injection Hg as <- <-. split; [apply heap_only_refl|].
    exists (sparse_ptr p), (sparse p), (sparse_capacity p).
    split_and!; try done.
    + by destruct p.
    + lia.
    + intros j Hj. lia.
Qed.

(** ** [Component_Pool::add] keeps the pool well-formed *)

Lemma has_false_inv p e :
  has p e = false → (slot e < sparse_capacity p)%nat →
  ∀ x, load (sparse p) (slot e) = Some x → x = -1.
Proof.
  intros Hhas Hlt x Hx.
  destruct (decide (x = -1)) as [|Hne]; [done|].
  assert (has p e = true); [|congruence].
  apply has_true. eauto.
Qed.

Lemma Component_Pool_add_spec w (pi : nat) e (n : nat) w' p :
  Component_Pool_add w pi e = Some (n, w') →
  pools w !! pi = Some p → pool_inv p → has p e = false →
  next_addr w ≠ nullptr →
  ∃ w5 p', heap_only w w5 ∧ w' = set_pool_at w5 pi p' ∧ pool_inv p' ∧
    n = (count p * element_size p)%nat ∧
    count p' = S (count p) ∧ dense_count p' = S (dense_count p) ∧
    element_size p' = element_size p ∧ pool_id p' = pool_id p ∧
    on_create p' = on_create p ∧ on_destroy p' = on_destroy p ∧
    load (dense p') (dense_count p) = Some e ∧
    (∀ j, (j < dense_count p)%nat → load (dense p') j = load (dense p) j).
Proof.
  intros Hadd Hp Hinv Hhas Hnext. unfold Component_Pool_add in Hadd.
  rewrite Hp in Hadd. simpl in Hadd.
  destruct (add_grow_data p w) as [[p1 w1]|] eqn:H1; [|done]. simpl in Hadd.
  destruct (add_grow_sparse _ w1 _) as [[p3 w3]|] eqn:H3; [|done].
  simpl in Hadd.
  destruct (store (sparse p3) _ _) as [s'|] eqn:Hs'; [|done]. simpl in Hadd.
  destruct (add_grow_dense _ w3) as [[p5 w5]|] eqn:H5; [|done]. simpl in Hadd.
  destruct (store (dense p5) _ _) as [d''|] eqn:Hd''; [|done]. simpl in Hadd.
  injection Hadd as <- <-.
  pose proof (pi_sparse_len p Hinv) as Hsl.
  pose proof (pi_dense_len p Hinv) as Hdl.
  pose proof (pi_dense_cap p Hinv) as Hdc.
  pose proof (pi_counts p Hinv) as Hc.
  pose proof (pi_cap p Hinv) as Hcap.
  pose proof (pi_data_len p Hinv) as Hdata.
  apply add_grow_data_spec in H1
    as (Hho1 & a1 & d1 & cap1 & -> & Hd1 & Hcap1 & Hnull1);
    [|done|apply (pi_data_null p Hinv)|done].
  apply add_grow_sparse_spec in H3
    as (Hho3 & a3 & s3 & cap3 & -> & Hs3 & Heid & Hcap3 & Hold3 & Hnew3 & Hnull3);
    [|done|apply (pi_sparse_null p Hinv)|
     destruct Hho1; simpl in *; unfold nullptr in *; lia].
  simpl in *.
  apply add_grow_dense_spec in H5
    as (Hho5 & a5 & d5 & cap5 & -> & Hd5 & Hcap5 & Hold5 & Hnull5);
    [|done|apply (pi_dense_null p Hinv)|
     destruct Hho1, Hho3; simpl in *; unfold nullptr in *; lia].
  simpl in *.
  apply store_inv in Hs' as [Hs'lt ->].
  apply store_inv in Hd'' as [Hd''lt ->].
  exists w5. eexists. split_and!; [|done|..]; simpl; try done.
  - eauto using heap_only_trans.
  - constructor; simpl.
    + lia.
    + lia.
    + done.
    + lia.
    + by rewrite length_insert.
    + by rewrite length_insert.
    + intros j Hj. destruct (decide (j = dense_count p)) as [->|Hne].
      * exists e. rewrite !load_insert_eq by lia. done.
      * destruct (pi_dense p Hinv j ltac:(lia)) as (dj & Hdj & Hdj_lt & Hdj_s).
        exists dj. rewrite load_insert_ne by done.
        rewrite Hold5 by lia. split_and!; [done|lia|].
        rewrite load_insert_ne.
        { by rewrite Hold3. }
        intros Heq. rewrite <- Heq in Hdj_s, Hdj_lt.
        pose proof (has_false_inv p e Hhas Hdj_lt _ Hdj_s). lia.
    + intros s Hs. destruct (decide (s = slot e)) as [->|Hne].
      { exists (Z.of_nat (dense_count p)). rewrite load_insert_eq by lia.
        split; [done|]. right. exists (dense_count p), e.
        split_and!; [done|lia| |done]. apply load_insert_eq. lia. }
      rewrite load_insert_ne by done.
      destruct (decide (s < sparse_capacity p)%nat) as [Hlt|Hge].
      * destruct (pi_sparse p Hinv s Hlt) as (x & Hx & Hcase).
        exists x. rewrite Hold3 by done. split; [done|].
        destruct Hcase as [->|(j & dj & -> & Hj & Hdj & Hsj)]; [by left|right].
        exists j, dj. split_and!; [done|lia| |done].
        rewrite load_insert_ne by lia. by rewrite Hold5 by lia.
      * exists (-1). split; [|by left]. apply Hnew3. lia.
    + done.
    + done.
    + done.
  - apply load_insert_eq. lia.
  - intros j Hj. rewrite load_insert_ne by lia. apply Hold5. lia.
Qed.

(** ** Pool lookup *)

Lemma find_pool_Some w (id : Z) (i : nat) :
  find_pool w id = Some i ↔
  (i < pool_count w)%nat ∧
  (∃ p, pools w !! i = Some p ∧ pool_id p = id) ∧
  ∀ j q, (j < i)%nat → pools w !! j = Some q → pool_id q ≠ id.
Proof.
  unfold find_pool. split.
  - intros Hf. apply fmap_Some in Hf as ([i' p] & Hf & ->). simpl.
    apply list_find_Some in Hf as (Hl & Hid & Hleast).
    apply lookup_take_Some in Hl as [Hl Hlt].
    split_and!; [done|by exists p|].
    intros j q Hj Hq. apply (Hleast j q); [|done].
    rewrite lookup_take_lt by lia. done.
  - intros (Hlt & (p & Hp & Hid) & Hleast).
    apply fmap_Some. exists (i, p). split; [|done].
    apply list_find_Some. split_and!; [|done|].
    + by rewrite lookup_take_lt.
    + intros j q Hq Hj. apply (Hleast j q); [done|].
      by rewrite lookup_take_lt in Hq by lia.
Qed.

Lemma find_pool_None w (id : Z) :
  find_pool w id = None ↔
  ∀ j q, (j < pool_count w)%nat → pools w !! j = Some q → pool_id q ≠ id.
Proof.
  unfold find_pool. rewrite fmap_None, list_find_None, Forall_lookup. split.
  - intros H j q Hj Hq. apply (H j q). by rewrite lookup_take_lt.
  - intros H j q Hq. apply lookup_take_Some in Hq as [Hq Hj]. by apply (H j q).
Qed.

(** The pool [get_pool] makes for a type seen for the first time. *)
Lemma get_pool_spec w (T : Comp) (i : nat) w' :
  get_pool w T = Some (i, w') → pools_inv w →
  (find_pool w (comp_id T) = Some i ∧ w' = w) ∨
  (find_pool w (comp_id T) = None ∧ i = pool_count w ∧
   ∃ w0 (a : ptr) (k : nat),
     heap_only w w0 ∧ a ≠ nullptr ∧
     (i < length (pools w) + k)%nat ∧
     w' = set_pool_count
            (set_pools_arr w0 a
               (<[i := Component_Pool_init Component_Pool_default
                          (comp_id T) (comp_size T)]>
                  (pools w ++ replicate k Component_Pool_default))
               (length (pools w) + k)%nat)
            (S i)).
Proof.
  intros Hg Hinv. unfold get_pool in Hg.
  destruct (find_pool w (comp_id T)) as [i'|] eqn:Hf.
  { injection Hg as <- <-. by left. }
  right. split; [done|].
  pose proof (wi_pools_len w Hinv) as Hlen.
  pose proof (wi_pool_count w Hinv) as Hcnt.
  destruct (decide (pool_capacity w ≤ pool_count w)%nat) as [Hle|Hgt].
  - destruct (alloc w) as [a w0] eqn:Ha.
    apply alloc_heap_only in Ha as (-> & Hho & Hn).
    cbv beta iota zeta in Hg.
    pose proof (grow_gt (pool_capacity w)) as Hgr.
    pose proof (wi_next_addr w Hinv) as Hnext.
    set (newcap := grow (pool_capacity w)) in *.
    assert (Hw1 : ∃ w0', heap_only w w0' ∧
      (if decide (pools_ptr w = nullptr)
       then Some (set_pools_arr w0 (next_addr w)
                    (replicate newcap Component_Pool_default) newcap)
       else mem_copy (replicate newcap Component_Pool_default) (pools w)
                     (pool_capacity w)
            ≫= λ copied, free_or_defer COMPONENT_POOL (pools_ptr w) w0
            ≫= λ w0', Some (set_pools_arr w0' (next_addr w) copied newcap)) =
      Some (set_pools_arr w0' (next_addr w)
              (pools w ++ replicate (newcap - pool_capacity w)
                                    Component_Pool_default) newcap)).
    { destruct (decide (pools_ptr w = nullptr)) as [Hp|Hp].
      - exists w0. split; [done|].
        pose proof (wi_pools_null w Hinv Hp) as Hz.
        assert (pools w = []) as -> by (apply nil_length_inv; lia).
        rewrite Hz, Nat.sub_0_r. done.
      - unfold mem_copy. rewrite decide_True
          by (rewrite length_replicate; lia). simpl.
        destruct (free_or_defer _ _ _) as [w0'|] eqn:Hfd.
        + simpl. exists w0'. split.
          { eapply heap_only_trans; [done|]. by eapply free_or_defer_heap_only. }
          rewrite take_ge by lia.
          rewrite drop_replicate. done.
        + exfalso. unfold mem_copy in Hg.
          rewrite decide_True in Hg by (rewrite length_replicate; lia).
          done. }
    destruct Hw1 as (w0' & Hho' & Heq). rewrite Heq in Hg. simpl in Hg.
    assert (Hpc : pool_count w0' = pool_count w) by by destruct Hho'.
    rewrite Hpc in Hg.
    rewrite lookup_app_r in Hg by lia.
    rewrite lookup_replicate_2 in Hg by lia. simpl in Hg.
    injection Hg as <- <-.
    split; [done|].
    exists w0', (next_addr w), (newcap - pool_capacity w)%nat.
    split_and!; [done|done|lia|].
    unfold set_pool_at. simpl.
    replace (length (pools w) + (newcap - pool_capacity w))%nat with newcap by lia.
    done.
  - simpl in Hg.
    destruct (pools w !! pool_count w) as [p|] eqn:Hp; [|done]. simpl in Hg.
    injection Hg as <- <-.
    pose proof (wi_tail w Hinv _ _ (Nat.le_refl _) Hp) as ->.
    split; [done|].
    exists w, (pools_ptr w), 0%nat. split_and!.
    + apply heap_only_refl.
    + intros Hn. pose proof (wi_pools_null w Hinv Hn). lia.
    + lia.
    + simpl. rewrite app_nil_r, Nat.add_0_r, Hlen. by destruct w.
Qed.

Lemma pool_inv_default : pool_inv Component_Pool_default.
Proof. constructor; simpl; try done; intros; lia. Qed.

Lemma pool_inv_init_default (id : Z) (sz : nat) :
  pool_inv (Component_Pool_init Component_Pool_default id sz).
Proof. constructor; simpl; try done; intros; lia. Qed.

Lemma get_pool_props w (T : Comp) (i : nat) w' :
  get_pool w T = Some (i, w') → pools_inv w →
  pools_inv w' ∧ same_table w w' ∧ (i < pool_count w')%nat ∧
  find_pool w' (comp_id T) = Some i ∧
  (∀ j p, pools w' !! j = Some p →
          pools w !! j = Some p ∨ dense_count p = 0%nat) ∧
  iteration_depth w' = iteration_depth w ∧ uptr w' = uptr w ∧
  (pool_count w ≤ pool_count w')%nat.
Proof.
  intros Hg Hinv.
  destruct (get_pool_spec w T i w' Hg Hinv)
    as [[Hf ->]|(Hf & -> & w0 & a & k & Hho & Ha & Hi & ->)].
  { split_and!; [done|apply same_table_refl| |done| |done|done|lia].
    - by apply find_pool_Some in Hf as [? _].
    - intros j p Hp. by left. }
  pose proof (wi_pools_len w Hinv) as Hlen.
  pose proof (wi_pool_count w Hinv) as Hcnt.
  assert (Hlook : ∀ j p,
    (<[pool_count w := Component_Pool_init Component_Pool_default
                         (comp_id T) (comp_size T)]>
       (pools w ++ replicate k Component_Pool_default)) !! j = Some p →
    (j = pool_count w ∧
     p = Component_Pool_init Component_Pool_default (comp_id T) (comp_size T)) ∨
    (j ≠ pool_count w ∧
     (pools w !! j = Some p ∨
      ((length (pools w) ≤ j)%nat ∧ p = Component_Pool_default)))).
  { intros j p Hp. destruct (decide (j = pool_count w)) as [->|Hne].
    - left. rewrite list_lookup_insert_eq in Hp
        by (rewrite length_app, length_replicate; lia).
      by injection Hp as <-.
    - right. split; [done|]. rewrite list_lookup_insert_ne in Hp by done.
      apply lookup_app_Some in Hp as [Hp|[Hge Hp]]; [by left|right].
      apply lookup_replicate in Hp as [-> _]. done. }
  split_and!; simpl.
  - constructor; simpl.
    + intros j p Hp. apply Hlook in Hp as [[_ ->]|[_ [Hp|[_ ->]]]].
      * apply pool_inv_init_default.
      * by apply (wi_pools w Hinv j).
      * apply pool_inv_default.
    + intros j p Hj Hp. apply Hlook in Hp as [[-> _]|[_ [Hp|[_ ->]]]].
      * lia.
      * apply (wi_tail w Hinv j); [lia|done].
      * done.
    + rewrite length_insert, length_app, length_replicate. done.
    + lia.
    + done.
    + pose proof (wi_next_addr w Hinv). destruct Hho.
      unfold nullptr in *. lia.
  - destruct Hho. by constructor.
  - lia.
  - apply find_pool_Some. simpl. split_and!; [lia| |].
    + eexists. split.
      * apply list_lookup_insert_eq. rewrite length_app, length_replicate. lia.
      * done.
    + intros j q Hj Hq. rewrite list_lookup_insert_ne in Hq by lia.
      rewrite lookup_app_l in Hq by lia.
      pose proof (proj1 (find_pool_None w (comp_id T)) Hf) as Hnone.
      by apply (Hnone j q).
  - intros j p Hp. apply Hlook in Hp as [[_ ->]|[_ [Hp|[_ ->]]]]; auto.
  - by destruct Hho.
  - by destruct Hho.
  - lia.
Qed.

Lemma get_pool_found w (T : Comp) (i : nat) :
  find_pool w (comp_id T) = Some i → get_pool w T = Some (i, w).
Proof. intros H. unfold get_pool. by rewrite H. Qed.

Lemma get_pool_idem w (T : Comp) (i : nat) w' :
  get_pool w T = Some (i, w') → pools_inv w → get_pool w' T = Some (i, w').
Proof.
  intros Hg Hinv. apply get_pool_found.
  by apply (get_pool_props w T i w' Hg Hinv).
Qed.

Lemma get_pool_lookup w (T : Comp) (i : nat) w' :
  get_pool w T = Some (i, w') → pools_inv w →
  ∃ p, pools w' !! i = Some p ∧ pool_id p = comp_id T ∧ pool_inv p.
Proof.
  intros Hg Hinv.
  destruct (get_pool_props w T i w' Hg Hinv) as (Hinv' & _ & _ & Hf & _).
  apply find_pool_Some in Hf as (_ & (p & Hp & Hid) & _).
  exists p. split_and!; try done. by apply (wi_pools w' Hinv' i).
Qed.

(** ** The identity table and its free list *)

Lemma Entity_valid_true w h :
  Entity_valid w h = true ↔
  (slot h < entity_count w)%nat ∧ load (entities w) (slot h) = Some h.
Proof.
  unfold Entity_valid.
  by rewrite andb_true_iff, !bool_decide_eq_true.
Qed.

Lemma slot_id h : Z.of_nat (slot h) = get_entity_id h.
Proof.
  unfold slot. apply Z2Nat.id. unfold get_entity_id. apply wrap32_range.
Qed.

Lemma slot_make_handle (f : nat) (v : Z) :
  Z.of_nat f < 2 ^ 32 → 0 ≤ v < 2 ^ 32 → slot (make_handle (Z.of_nat f) v) = f.
Proof.
  intros Hf Hv. unfold slot.
  rewrite get_entity_id_make_handle by lia. apply Nat2Z.id.
Qed.

Lemma is_chain_insert (es : list (option Entity_Handle)) (head : Z)
  (chain : list nat) (i : nat) (x : Entity_Handle) :
  i ∉ chain → is_chain es head chain → is_chain (<[i := Some x]> es) head chain.
Proof.
  revert head. induction chain as [|f rest IH]; intros head Hni Hch; [done|].
  simpl in *. destruct Hch as (-> & c & Hc & Hrest).
  apply not_elem_of_cons in Hni as [Hne Hni].
  split; [done|]. exists c. split; [|by apply IH].
  by rewrite load_insert_ne.
Qed.

Lemma is_chain_head (es : list (option Entity_Handle)) (head : Z)
  (chain : list nat) :
  is_chain es head chain →
  (head = null_entity_id ∧ chain = []) ∨
  (∃ f rest, chain = f :: rest ∧ head = Z.of_nat f).
Proof.
  destruct chain as [|f rest]; simpl.
  - intros ->. by left.
  - intros (-> & _). right. by exists f, rest.
Qed.

Lemma is_chain_head_range (es : list (option Entity_Handle)) (head : Z)
  (chain : list nat) (n : nat) :
  is_chain es head chain → (∀ f, f ∈ chain → (f < n)%nat) →
  Z.of_nat n ≤ 2 ^ 32 - 1 →
  0 ≤ head < 2 ^ 32 ∧ (head = null_entity_id → chain = []).
Proof.
  intros Hch Hlt Hn.
  destruct (is_chain_head es head chain Hch) as [[-> ->]|(f & rest & -> & ->)].
  - unfold null_entity_id. split; [lia|done].
  - assert (f < n)%nat by (apply Hlt; by left).
    unfold null_entity_id. split; [lia|]. intros Heq. lia.
Qed.

(** The cell of a free slot never names its own slot. *)
Lemma is_chain_cell (es : list (option Entity_Handle)) (head : Z)
  (chain : list nat) (n f : nat) :
  is_chain es head chain → NoDup chain → (∀ g, g ∈ chain → (g < n)%nat) →
  Z.of_nat n ≤ 2 ^ 32 - 1 → f ∈ chain →
  ∃ c, load es f = Some c ∧ get_entity_id c ≠ Z.of_nat f.
Proof.
  revert head. induction chain as [|g rest IH]; intros head Hch Hnd Hlt Hn Hin.
  { by apply elem_of_nil in Hin. }
  simpl in Hch. destruct Hch as (-> & c & Hc & Hrest).
  apply NoDup_cons in Hnd as [Hg Hnd].
  apply elem_of_cons in Hin as [->|Hin].
  - exists c. split; [done|].
    assert (g < n)%nat by (apply Hlt; by left).
    destruct (is_chain_head es _ rest Hrest) as [[-> ->]|(f' & rest' & -> & ->)].
    + unfold null_entity_id. lia.
    + intros Heq. apply Nat2Z.inj in Heq as ->. apply Hg. by left.
  - apply (IH _ Hrest Hnd); [|done|done].
    intros g' Hg'. apply Hlt. by right.
Qed.

Lemma chain_not_valid w (chain : list nat) (alive : list Entity_Handle) h :
  table_inv w chain alive → slot h ∈ chain → Entity_valid w h = false.
Proof.
  intros Hinv Hin.
  destruct (is_chain_cell _ _ _ _ _ (ti_chain _ _ _ Hinv) (ti_chain_nodup _ _ _ Hinv)
              (ti_chain_lt _ _ _ Hinv) (ti_bound _ _ _ Hinv) Hin)
    as (c & Hc & Hne).
  destruct (Entity_valid w h) eqn:Hv; [|done].
  apply Entity_valid_true in Hv as [_ Hl].
  rewrite Hl in Hc. injection Hc as <-. by rewrite slot_id in Hne.
Qed.

Lemma valid_not_in_chain w (chain : list nat) (alive : list Entity_Handle) h :
  table_inv w chain alive → Entity_valid w h = true → slot h ∉ chain.
Proof.
  intros Hinv Hv Hin. by rewrite (chain_not_valid w chain alive h) in Hv.
Qed.

Lemma table_inv_same_table w w' (chain : list nat) (alive : list Entity_Handle) :
  same_table w w' → table_inv w chain alive → table_inv w' chain alive.
Proof.
  intros Hst [].
  pose proof (same_table_valid w w') as Hv.
  destruct Hst as [He Hcap Hcnt Hal Hav].
  constructor; rewrite ?He, ?Hcap, ?Hcnt, ?Hal, ?Hav; try done.
  intros h. rewrite Hv; [done|]. by constructor.
Qed.

Lemma table_alive_bound w (chain : list nat) (alive : list Entity_Handle) :
  table_inv w chain alive → Z.of_nat (length alive) ≤ 2 ^ 32 - 1.
Proof.
  intros Hinv. pose proof (ti_total _ _ _ Hinv). pose proof (ti_bound _ _ _ Hinv).
  lia.
Qed.

Lemma same_pools_refl w : same_pools w w.
Proof. by constructor. Qed.

Lemma same_pools_trans w1 w2 w3 : same_pools w1 w2 → same_pools w2 w3 → same_pools w1 w3.
Proof. intros [] []. constructor; try congruence. lia. Qed.

Lemma heap_only_same_pools w w' : heap_only w w' → same_pools w w'.
Proof. intros []. by constructor. Qed.

Lemma pools_inv_same_pools w w' : same_pools w w' → pools_inv w → pools_inv w'.
Proof.
  intros [Hp Hc Hcap Hptr Hn] []. constructor; rewrite ?Hp, ?Hc, ?Hcap, ?Hptr; try done.
  unfold nullptr in *. lia.
Qed.

Lemma stored_same_pools w w' d : same_pools w w' → stored w' d ↔ stored w d.
Proof. intros [Hp _ _ _ _]. unfold stored. by rewrite Hp. Qed.

(** [generate_entity], entered from [new_entity] with an empty free list. *)
Lemma generate_entity_spec w e w' :
  generate_entity w = Some (e, w') →
  length (entities w) = entity_capacity w →
  (entity_count w ≤ entity_capacity w)%nat →
  e = make_handle (wrap32 (Z.of_nat (entity_count w))) 0 ∧
  same_pools w w' ∧
  entity_count w' = S (entity_count w) ∧
  length (entities w') = entity_capacity w' ∧
  (entity_count w' ≤ entity_capacity w')%nat ∧
  load (entities w') (entity_count w) = Some e ∧
  (∀ j, j ≠ entity_count w → (j < length (entities w))%nat →
        load (entities w') j = load (entities w) j) ∧
  avail_id w' = avail_id w ∧ alive_count w' = alive_count w ∧
  iteration_depth w' = iteration_depth w ∧ uptr w' = uptr w.
Proof.
  intros Hg Hlen Hcap. unfold generate_entity in Hg.
  match type of Hg with
  | ?m ≫= _ = _ => destruct m as [w1|] eqn:Hw1; [|done]
  end.
  simpl in Hg.
  destruct (store (entities w1) _ _) as [es|] eqn:Hst; [|done]. simpl in Hg.
  injection Hg as <- <-.
  assert (H1 : same_pools w w1 ∧ entity_count w1 = entity_count w ∧
               length (entities w1) = entity_capacity w1 ∧
               (entity_count w < entity_capacity w1)%nat ∧
               (∀ j, (j < length (entities w))%nat →
                     entities w1 !! j = entities w !! j) ∧
               avail_id w1 = avail_id w ∧ alive_count w1 = alive_count w ∧
               iteration_depth w1 = iteration_depth w ∧ uptr w1 = uptr w).
  { destruct (decide (entity_capacity w ≤ entity_count w)%nat) as [Hle|Hgt].
    - destruct (alloc w) as [a w0] eqn:Ha.
      apply alloc_heap_only in Ha as (-> & Hho & Hn).
      cbv beta iota zeta in Hw1.
      destruct (mem_copy _ _ _) as [copied|] eqn:Hc; [|done]. simpl in Hw1.
      injection Hw1 as <-. simpl.
      pose proof (grow_gt (entity_capacity w)).
      pose proof (mem_copy_length _ _ _ _ Hc) as Hcl.
      unfold new_array in Hcl. rewrite length_replicate in Hcl.
      destruct Hho. split_and!; simpl.
      + constructor; simpl; done.
      + done.
      + done.
      + lia.
      + intros j Hj. apply (mem_copy_lookup_lt _ _ _ _ _ Hc). lia.
      + done.
      + done.
      + done.
      + done.
    - injection Hw1 as <-.
      split_and!; [apply same_pools_refl|done|done|lia|done..]. }
  destruct H1 as (Hsp & Hcnt & Hlen1 & Hlt1 & Hold & Hav & Hal & Hit & Hup).
  rewrite Hcnt in *.
  pose proof (store_length _ _ _ _ Hst) as Hsl.
  split_and!; simpl.
  - done.
  - destruct Hsp. by constructor.
  - done.
  - congruence.
  - lia.
  - by apply (load_store_eq _ _ _ _ Hst).
  - intros j Hne Hj. rewrite (load_store_ne _ _ _ _ _ Hst) by done.
    apply load_ext. by apply Hold.
  - done.
  - done.
  - done.
  - done.
Qed.

Lemma get_entity_version_range h : 0 ≤ get_entity_version h < 2 ^ 32.
Proof. apply wrap32_range. Qed.

Lemma wrap64_small (x : Z) : 0 ≤ x < 2 ^ 64 → wrap64 x = x.
Proof. intros H. unfold wrap64. by apply Z.mod_small. Qed.

(** [new_entity] on a well-formed table. *)
Lemma new_entity_inv w (chain : list nat) (alive : list Entity_Handle) e w' :
  table_inv w chain alive → new_entity w = Some (e, w') →
  Z.of_nat (entity_count w') ≤ 2 ^ 32 - 1 →
  same_pools w w' ∧ iteration_depth w' = iteration_depth w ∧
  uptr w' = uptr w ∧
  Entity_valid w e = false ∧
  (∀ h, Entity_valid w' h = true ↔ h = e ∨ Entity_valid w h = true) ∧
  (entity_count w ≤ entity_count w')%nat ∧
  (∃ chain', table_inv w' chain' (e :: alive)) ∧
  (∀ s c, (s < entity_count w)%nat → load (entities w) s = Some c →
     ∃ c', load (entities w') s = Some c' ∧
           get_entity_version c' = get_entity_version c).
Proof.
  intros Hinv Hnew Hbound. unfold new_entity in Hnew.
  pose proof (ti_len _ _ _ Hinv) as Hlen.
  pose proof (ti_cap _ _ _ Hinv) as Hcap.
  pose proof (ti_total _ _ _ Hinv) as Htot.
  pose proof (ti_alive_count _ _ _ Hinv) as Hac.
  pose proof (table_alive_bound _ _ _ Hinv) as Hab.
  pose proof (ti_chain _ _ _ Hinv) as Hch.
  pose proof (ti_chain_nodup _ _ _ Hinv) as Hnd.
  pose proof (ti_chain_lt _ _ _ Hinv) as Hclt.
  pose proof (ti_alive _ _ _ Hinv) as Hal.
  set (w1 := set_alive_count w (wrap64 (alive_count w + 1))) in *.
  assert (Hac1 : alive_count w1 = Z.of_nat (S (length alive))).
  { simpl. rewrite Hac, wrap64_small; lia. }
  simpl in Hnew.
  destruct (decide (avail_id w = null_entity_id)) as [Hnull|Hnn].
  - apply generate_entity_spec in Hnew
      as (He & Hsp & Hcnt & Hlen' & Hcap' & Hle & Hold & Hav & Halc & Hit & Hup);
      [|done|done].
    simpl in *.
    assert (chain = []) as ->.
    { eapply is_chain_head_range; [done..| |done]. apply (ti_bound _ _ _ Hinv). }
    rewrite wrap32_small in He by lia.
    assert (Hslot : slot e = entity_count w).
    { rewrite He. apply slot_make_handle; lia. }
    assert (Hnv : Entity_valid w e = false).
    { destruct (Entity_valid w e) eqn:Hv; [|done].
      apply Entity_valid_true in Hv as [Hv _]. lia. }
    assert (Hiff : ∀ h, Entity_valid w' h = true ↔ h = e ∨ Entity_valid w h = true).
    { intros h. rewrite !Entity_valid_true, Hcnt. split.
      - intros [Hlt Hl]. destruct (decide (slot h = entity_count w)) as [Heq|Hne].
        + left. rewrite Heq, Hle in Hl. by injection Hl.
        + right. split; [lia|]. rewrite Hold in Hl by lia. done.
      - intros [->|[Hlt Hl]].
        + rewrite Hslot. split; [lia|done].
        + split; [lia|]. rewrite Hold by lia. done. }
    split_and!; [by destruct Hsp|done|done|done|done|lia| |].
    + exists []. constructor.
      * done.
      * done.
      * done.
      * simpl. congruence.
      * apply NoDup_nil_2.
      * intros g Hg. by apply elem_of_nil in Hg.
      * intros h. rewrite elem_of_cons, Hal. symmetry. apply Hiff.
      * apply NoDup_cons. split; [|apply (ti_alive_nodup _ _ _ Hinv)].
        intros Hin. apply Hal in Hin. congruence.
      * simpl. congruence.
      * simpl in *. lia.
    + intros s c Hs Hc. exists c. split; [|done].
      pose proof (load_lt _ _ _ Hc).
      rewrite Hold; [done|lia|done].
  - assert (Hne : chain ≠ []).
    { intros ->. simpl in Hch. done. }
    destruct chain as [|f rest]; [done|]. simpl in Hch.
    destruct Hch as (Hav & c & Hc & Hrest).
    apply NoDup_cons in Hnd as [Hf Hnd].
    assert (Hflt : (f < entity_count w)%nat) by (apply Hclt; by left).
    pose proof (ti_bound _ _ _ Hinv) as Hb.
    unfold recycle_entity in Hnew. simpl in Hnew.
    rewrite Hav, Nat2Z.id, Hc in Hnew. simpl in Hnew.
    rewrite store_Some in Hnew by lia. simpl in Hnew.
    injection Hnew as <- <-.
    set (r := make_handle (Z.of_nat f) (get_entity_version c)).
    assert (Hslot : slot r = f).
    { apply slot_make_handle; [lia|apply get_entity_version_range]. }
    assert (Hnv : Entity_valid w r = false).
    { eapply chain_not_valid; [done|]. rewrite Hslot. by left. }
    assert (Hiff : ∀ h, Entity_valid
              (set_entities (set_avail_id w1 (get_entity_id c))
                 (<[f:=Some r]> (entities w))) h = true
              ↔ h = r ∨ Entity_valid w h = true).
    { intros h. rewrite !Entity_valid_true. simpl. split.
      - intros [Hlt Hl]. destruct (decide (slot h = f)) as [Heq|Hne'].
        + left. rewrite Heq, load_insert_eq in Hl by lia. by injection Hl.
        + right. split; [lia|]. by rewrite load_insert_ne in Hl.
      - intros [->|[Hlt Hl]].
        + rewrite Hslot. split; [lia|]. apply load_insert_eq. lia.
        + split; [lia|]. rewrite load_insert_ne; [done|].
          intros Heq. eapply (valid_not_in_chain w (f :: rest) alive h Hinv).
          * by apply Entity_valid_true.
          * rewrite <- Heq. by left. }
    split_and!; [by constructor|done|done|done|done|simpl; lia| |].
    + exists rest. constructor.
      * simpl. by rewrite length_insert.
      * done.
      * done.
      * simpl. by apply is_chain_insert.
      * done.
      * intros g Hg. simpl. apply Hclt. by right.
      * intros h. rewrite elem_of_cons, Hal. symmetry. apply Hiff.
      * apply NoDup_cons. split; [|apply (ti_alive_nodup _ _ _ Hinv)].
        intros Hin. apply Hal in Hin. congruence.
      * done.
      * simpl in *. lia.
    + intros s c0 Hs Hc0. simpl.
      destruct (decide (s = f)) as [->|Hsf].
      * exists r. rewrite load_insert_eq by lia. split; [done|].
        assert (c0 = c) as -> by congruence.
        apply get_entity_version_make_handle; [lia|].
        apply get_entity_version_range.
      * exists c0. by rewrite load_insert_ne.
Qed.


(** The table part of [Entity::destroy]: [release_entity] and the
    decrement of [alive_count]. *)
Lemma release_entity_inv w (chain : list nat) (alive : list Entity_Handle) e :
  table_inv w chain alive → Entity_valid w e = true →
  ∃ w1, release_entity w e (wrap32 (get_entity_version e + 1)) = Some w1 ∧
    let w' := set_alive_count w1 (wrap64 (alive_count w1 - 1)) in
    same_pools w w' ∧ iteration_depth w' = iteration_depth w ∧
    uptr w' = uptr w ∧ entity_count w' = entity_count w ∧
    avail_id w' = get_entity_id e ∧
    (∀ h, Entity_valid w' h = true ↔ h ≠ e ∧ Entity_valid w h = true) ∧
    (∃ alive', table_inv w' (slot e :: chain) alive') ∧
    (∀ s, s ≠ slot e → load (entities w') s = load (entities w) s) ∧
    (∃ c', load (entities w') (slot e) = Some c' ∧
           get_entity_id c' = avail_id w ∧
           get_entity_version c' = wrap32 (get_entity_version e + 1)).
Proof.
  intros Hinv Hv.
  pose proof (ti_len _ _ _ Hinv) as Hlen.
  pose proof (ti_cap _ _ _ Hinv) as Hcap.
  pose proof (ti_bound _ _ _ Hinv) as Hb.
  pose proof (ti_total _ _ _ Hinv) as Htot.
  pose proof (ti_alive_count _ _ _ Hinv) as Hac.
  pose proof (table_alive_bound _ _ _ Hinv) as Hab.
  pose proof (ti_chain _ _ _ Hinv) as Hch.
  pose proof (ti_chain_nodup _ _ _ Hinv) as Hnd.
  pose proof (ti_chain_lt _ _ _ Hinv) as Hclt.
  pose proof (ti_alive _ _ _ Hinv) as Hal.
  pose proof (valid_not_in_chain _ _ _ _ Hinv Hv) as Hnin.
  pose proof (proj1 (Entity_valid_true w e) Hv) as [Hslt Hle].
  destruct (is_chain_head_range _ _ _ _ Hch Hclt Hb) as [Hav Havn].
  set (nv := wrap32 (get_entity_version e + 1)).
  assert (Hnv : 0 ≤ nv < 2 ^ 32) by apply wrap32_range.
  set (c' := make_handle (avail_id w) nv).
  exists (set_avail_id (set_entities w (<[slot e := Some c']> (entities w)))
                       (get_entity_id e)).
  split.
  { unfold release_entity. fold (slot e). rewrite store_Some by lia. done. }
  intros w'.
  assert (Hiff : ∀ h, Entity_valid w' h = true
                      ↔ h ≠ e ∧ Entity_valid w h = true).
  { intros h. rewrite !Entity_valid_true. unfold w'. simpl. split.
    - intros [Hlt Hl]. destruct (decide (slot h = slot e)) as [Heq|Hne].
      + exfalso. rewrite Heq, load_insert_eq in Hl by lia.
        injection Hl as <-.
        assert (Hid : get_entity_id c' = avail_id w)
          by (apply get_entity_id_make_handle; lia).
        rewrite <- slot_id, Heq in Hid.
        destruct (is_chain_head _ _ _ Hch) as [[Hn _]|(f & rest & -> & Hf)].
        * rewrite Hn in Hid. unfold null_entity_id in Hid. lia.
        * rewrite Hf in Hid. apply Nat2Z.inj in Hid. apply Hnin.
          rewrite Hid. by left.
      + rewrite load_insert_ne in Hl by done. split_and!; [|done|done].
        intros ->. done.
    - intros [Hne [Hlt Hl]]. split; [done|].
      rewrite load_insert_ne; [done|].
      intros Heq. rewrite <- Heq in Hl. congruence. }
  assert (Hin : e ∈ alive) by by apply Hal.
  apply list_elem_of_split in Hin as (l1 & l2 & ->).
  pose proof (ti_alive_nodup _ _ _ Hinv) as Hand.
  apply NoDup_app in Hand as (Hnd1 & Hdisj & Hnd2).
  apply NoDup_cons in Hnd2 as [He2 Hnd2].
  rewrite length_app in *. simpl in Htot, Hab, Hac.
  split_and!; [by constructor|done|done|done|done|done| | |].
  - exists (l1 ++ l2). unfold w'. constructor.
    + simpl. by rewrite length_insert.
    + done.
    + done.
    + simpl. split; [by rewrite slot_id|].
      exists c'. split; [apply load_insert_eq; lia|].
      unfold c'. rewrite get_entity_id_make_handle by lia.
      by apply is_chain_insert.
    + by apply NoDup_cons.
    + intros f Hf. simpl. apply elem_of_cons in Hf as [->|Hf]; [done|].
      by apply Hclt.
    + fold w'. intros h. rewrite Hiff, <- Hal, !elem_of_app, elem_of_cons. split.
      * intros [Hh|Hh]; (split; [|tauto]); intros ->; [|done].
        apply (Hdisj e Hh). by left.
      * intros [Hne [Hh|[->|Hh]]]; tauto.
    + apply NoDup_app. split_and!; [done| |done].
      intros x Hx Hx2. apply (Hdisj x Hx). by right.
    + simpl. rewrite Hac, wrap64_small by lia. rewrite length_app. lia.
    + simpl. rewrite length_app. lia.
  - intros s Hs. unfold w'. simpl. by rewrite load_insert_ne.
  - exists c'. unfold w'. simpl. split_and!.
    + apply load_insert_eq. lia.
    + apply get_entity_id_make_handle; lia.
    + apply get_entity_version_make_handle; lia.
Qed.

(** ** Hooks, single pools of the world, and [Entity::destroy] *)

Lemma fire_same_pools (f : option Hook) w e : same_pools w (fire run_hook f w e).
Proof. destruct f; by constructor. Qed.

Lemma fire_same_table (f : option Hook) w e : same_table w (fire run_hook f w e).
Proof. destruct f; by constructor. Qed.

Lemma fire_iteration_depth (f : option Hook) w e :
  iteration_depth (fire run_hook f w e) = iteration_depth w.
Proof. by destruct f. Qed.

Lemma fire_pools (f : option Hook) w e : pools (fire run_hook f w e) = pools w.
Proof. by destruct f. Qed.

Lemma fire_pool_count (f : option Hook) w e :
  pool_count (fire run_hook f w e) = pool_count w.
Proof. by destruct f. Qed.

Lemma set_pool_at_same_table w (i : nat) p : same_table w (set_pool_at w i p).
Proof. by constructor. Qed.

Lemma pools_inv_set_pool_at w (i : nat) p :
  pools_inv w → (i < pool_count w)%nat → pool_inv p →
  pools_inv (set_pool_at w i p).
Proof.
  intros [] Hi Hp. constructor; simpl; try done.
  - intros j q Hq. destruct (decide (i = j)) as [->|Hne].
    + rewrite list_lookup_insert_eq in Hq by lia. by injection Hq as <-.
    + rewrite list_lookup_insert_ne in Hq by done. eauto.
  - intros j q Hj Hq. rewrite list_lookup_insert_ne in Hq by lia. eauto.
  - by rewrite length_insert.
Qed.

Lemma has_slot p e e' : slot e = slot e' → has p e = has p e'.
Proof. intros H. unfold has. by rewrite H. Qed.

Lemma not_has_dense p e (k : nat) (d : Entity_Handle) :
  pool_inv p → has p e = false → (k < dense_count p)%nat →
  load (dense p) k = Some d → slot d ≠ slot e.
Proof.
  intros Hinv Hhas Hk Hd Heq.
  assert (has p d = true) by (apply present_has; [done|by exists k]).
  rewrite (has_slot p d e Heq) in *. congruence.
Qed.

Lemma Component_Pool_remove_spec w (pi : nat) e p :
  pools w !! pi = Some p → pool_inv p → has p e = true →
  ∃ p', swap_pop p e = Some p' ∧
        Component_Pool_remove run_hook w pi e =
        Some (set_pool_at (fire run_hook (on_destroy p) w e) pi p').
Proof.
  intros Hp Hinv Hhas.
  destruct (swap_pop_total p e Hinv Hhas) as [p' Hsp].
  exists p'. split; [done|].
  unfold Component_Pool_remove. rewrite Hp. simpl. by rewrite Hsp.
Qed.

Lemma for_range_total {S : Type} (I : nat → S → Prop) (body : nat → S → option S)
  (n start : nat) (s : S) :
  I start s →
  (∀ i s, (start ≤ i < start + n)%nat → I i s →
          ∃ s', body i s = Some s' ∧ I (Datatypes.S i) s') →
  ∃ s', for_range start n body s = Some s' ∧ I (start + n)%nat s'.
Proof.
  revert start s. induction n as [|n IH]; intros start s Hs Hbody.
  - exists s. rewrite Nat.add_0_r. done.
  - destruct (Hbody start s ltac:(lia) Hs) as (s1 & Hb & Hs1).
    destruct (IH (Datatypes.S start) s1 Hs1) as (s' & Hf & Hs').
    { intros i s2 Hi. apply Hbody. lia. }
    exists s'. simpl. rewrite Hb. simpl. split; [done|].
    by replace (start + Datatypes.S n)%nat with (Datatypes.S start + n)%nat by lia.
Qed.

(** The loop of [destroy] takes the entity out of every pool and touches
    nothing but the pools and the user data. *)
Lemma destroy_loop_spec w e :
  pools_inv w →
  ∃ w1, for_range 0 (pool_count w) (destroy_step run_hook e) w = Some w1 ∧
    pools_inv w1 ∧ same_table w w1 ∧ pool_count w1 = pool_count w ∧
    iteration_depth w1 = iteration_depth w ∧
    (∀ d, stored w1 d → stored w d ∧ slot d ≠ slot e).
Proof.
  intros Hinv.
  destruct (for_range_total
    (λ i w1, pools_inv w1 ∧ same_table w w1 ∧ pool_count w1 = pool_count w ∧
             iteration_depth w1 = iteration_depth w ∧
             (∀ d, stored w1 d → stored w d) ∧
             (∀ j p, (j < i)%nat → pools w1 !! j = Some p → has p e = false))
    (destroy_step run_hook e) (pool_count w) 0 w) as (w1 & Hf & HI).
  { split_and!; [done|apply same_table_refl|done|done|done|].
    intros j p Hj. lia. }
  { intros i w1 Hi (Hinv1 & Hst & Hpc & Hit & Hsto & Hhas).
    pose proof (wi_pools_len w1 Hinv1) as Hlen.
    pose proof (wi_pool_count w1 Hinv1) as Hcnt.
    destruct (lookup_lt_is_Some_2 (pools w1) i ltac:(lia)) as [p Hp].
    pose proof (wi_pools w1 Hinv1 i p Hp) as Hpinv.
    unfold destroy_step. rewrite Hp. simpl.
    destruct (has p e) eqn:Hh.
    - destruct (Component_Pool_remove_spec w1 i e p Hp Hpinv Hh)
        as (p' & Hsp & ->).
      eexists. split; [done|].
      pose proof (swap_pop_pool_inv p p' e Hpinv Hh Hsp) as Hpinv'.
      split_and!.
      + apply pools_inv_set_pool_at; [|by rewrite fire_pool_count; lia|done].
        eapply pools_inv_same_pools; [apply fire_same_pools|done].
      + eapply same_table_trans; [done|].
        eapply same_table_trans; [apply fire_same_table|].
        apply set_pool_at_same_table.
      + simpl. by rewrite fire_pool_count.
      + simpl. by rewrite fire_iteration_depth.
      + intros d (j & q & k & Hq & Hk & Hd). apply Hsto.
        simpl in Hq. rewrite fire_pools in Hq.
        destruct (decide (i = j)) as [->|Hne].
        * rewrite list_lookup_insert_eq in Hq by lia. injection Hq as <-.
          destruct (swap_pop_dense p p' e k d Hpinv Hh Hsp Hk Hd)
            as (_ & k' & Hk' & Hd').
          by exists j, p, k'.
        * rewrite list_lookup_insert_ne in Hq by done. by exists j, q, k.
      + intros j q Hj Hq. simpl in Hq. rewrite fire_pools in Hq.
        destruct (decide (i = j)) as [->|Hne].
        * rewrite list_lookup_insert_eq in Hq by lia. injection Hq as <-.
          exact (swap_pop_has_self p _ e Hpinv Hh Hsp).
        * rewrite list_lookup_insert_ne in Hq by done.
          apply (Hhas j q); [lia|done].
    - exists w1. split; [done|]. split_and!; try done.
      intros j q Hj Hq. destruct (decide (i = j)) as [->|Hne].
      + congruence.
      + apply (Hhas j q); [lia|done]. }
  simpl in HI. destruct HI as (Hinv1 & Hst & Hpc & Hit & Hsto & Hhas).
  exists w1. split_and!; try done.
  intros d Hd. split; [by apply Hsto|].
  destruct Hd as (j & q & k & Hq & Hk & Hd).
  pose proof (wi_pools w1 Hinv1 j q Hq) as Hqinv.
  destruct (decide (j < pool_count w)%nat) as [Hj|Hj].
  - eapply not_has_dense; [done| |done|done]. by apply (Hhas j q).
  - rewrite (wi_tail w1 Hinv1 j q) in Hk by (rewrite ?Hpc; done || lia).
    simpl in Hk. lia.
Qed.

(** ** Every operation keeps the world well-formed *)

Lemma world_inv_frame w w' : world_inv w → pool_step w w' → world_inv w'.
Proof.
  intros [Hp (chain & alive & Ht) Hs] [Hst Hp' Hsto]. constructor.
  - done.
  - exists chain, alive. by eapply table_inv_same_table.
  - intros d Hd. rewrite (same_table_valid w w' d Hst).
    destruct (Hsto d Hd) as [Hd'|Hd']; [by apply Hs|done].
Qed.

Lemma pool_step_same w w' :
  pools_inv w → same_table w w' → same_pools w w' → pool_step w w'.
Proof.
  intros Hinv Hst Hsp. constructor; [done| |].
  - by eapply pools_inv_same_pools.
  - intros d Hd. left. by apply (stored_same_pools w w' d Hsp).
Qed.

Lemma pool_step_refl w : pools_inv w → pool_step w w.
Proof.
  intros H. apply pool_step_same; [done|apply same_table_refl|apply same_pools_refl].
Qed.

Lemma pool_step_trans w1 w2 w3 : pool_step w1 w2 → pool_step w2 w3 → pool_step w1 w3.
Proof.
  intros [Ht1 Hp1 Hs1] [Ht2 Hp2 Hs2]. constructor; [|done|].
  - by eapply same_table_trans.
  - intros d Hd. destruct (Hs2 d Hd) as [Hd2|Hv2].
    + by apply Hs1.
    + right. by rewrite <- (same_table_valid w1 w2).
Qed.

Lemma world_inv_same w w' :
  world_inv w → same_table w w' → same_pools w w' → world_inv w'.
Proof.
  intros Hinv Hst Hsp. apply (world_inv_frame w w' Hinv).
  apply pool_step_same; [by destruct Hinv|done|done].
Qed.

Lemma Entity_destroy_inv w e :
  world_inv w → Entity_valid w e = true →
  ∃ w', Entity_destroy run_hook w e = Some w' ∧ world_inv w' ∧
    entity_count w' = entity_count w ∧
    iteration_depth w' = iteration_depth w ∧
    avail_id w' = get_entity_id e ∧
    (∀ h, Entity_valid w' h = true ↔ h ≠ e ∧ Entity_valid w h = true) ∧
    (∀ s, s ≠ slot e → load (entities w') s = load (entities w) s) ∧
    (∃ c', load (entities w') (slot e) = Some c' ∧
           get_entity_id c' = avail_id w ∧
           get_entity_version c' = wrap32 (get_entity_version e + 1)).
Proof.
  intros [Hp (chain & alive & Ht) Hs] Hv.
  destruct (destroy_loop_spec w e Hp) as (w1 & Hloop & Hp1 & Hst1 & Hpc1 & Hit1 & Hsto1).
  pose proof (table_inv_same_table w w1 chain alive Hst1 Ht) as Ht1.
  assert (Hv1 : Entity_valid w1 e = true) by by rewrite (same_table_valid w w1).
  destruct (release_entity_inv w1 chain alive e Ht1 Hv1)
    as (w2 & Hrel & Hsp & Hit & Hup & Hcnt & Hav & Hiff & (alive' & Ht') & Hold & Hnew).
  cbv zeta in *.
  eexists. split.
  { unfold Entity_destroy. rewrite Hv, Hloop. simpl. rewrite Hrel. simpl. done. }
  destruct Hst1 as [He1 Hcap1 Hcnt1 Hal1 Hav1].
  split_and!.
  - constructor.
    + by eapply pools_inv_same_pools.
    + by exists (slot e :: chain), alive'.
    + intros d Hd. apply (proj1 (stored_same_pools _ _ d Hsp)) in Hd.
      destruct (Hsto1 d Hd) as [Hd0 Hne]. apply Hiff.
      split; [by intros ->|].
      rewrite (same_table_valid w w1); [by apply Hs|by constructor].
  - congruence.
  - congruence.
  - done.
  - intros h. rewrite Hiff. rewrite (same_table_valid w w1); [done|by constructor].
  - intros s Hne. rewrite Hold by done. by rewrite He1.
  - destruct Hnew as (c' & Hc' & Hid & Hver). exists c'.
    split_and!; [done|congruence|done].
Qed.

Lemma new_entity_world_inv w e w' :
  world_inv w → new_entity w = Some (e, w') →
  Z.of_nat (entity_count w') ≤ 2 ^ 32 - 1 →
  world_inv w' ∧ Entity_valid w e = false ∧
  (∀ h, Entity_valid w' h = true ↔ h = e ∨ Entity_valid w h = true).
Proof.
  intros [Hp (chain & alive & Ht) Hs] Hnew Hb.
  destruct (new_entity_inv w chain alive e w' Ht Hnew Hb)
    as (Hsp & Hit & Hup & Hnv & Hiff & Hle & (chain' & Ht') & Hver).
  split_and!; [|done|done].
  constructor.
  - by eapply pools_inv_same_pools.
  - by exists chain', (e :: alive).
  - intros d Hd. apply (proj1 (stored_same_pools _ _ d Hsp)) in Hd.
    apply Hiff. right. by apply Hs.
Qed.

Lemma get_pool_stored w (T : Comp) (i : nat) w' d :
  get_pool w T = Some (i, w') → pools_inv w → stored w' d → stored w d.
Proof.
  intros Hg Hinv (j & p & k & Hp & Hk & Hd).
  destruct (get_pool_props w T i w' Hg Hinv) as (_ & _ & _ & _ & Hold & _).
  destruct (Hold j p Hp) as [Hp'|Hz]; [|lia].
  by exists j, p, k.
Qed.

Lemma get_pool_pool_step w (T : Comp) (i : nat) w' :
  get_pool w T = Some (i, w') → pools_inv w → pool_step w w'.
Proof.
  intros Hg Hp.
  destruct (get_pool_props w T i w' Hg Hp) as (Hp' & Hst & _).
  constructor; [done..|].
  intros d Hd. left. by eapply get_pool_stored.
Qed.

Lemma Entity_has_spec w h (T : Comp) (b : bool) w' :
  Entity_has w h T = Some (b, w') →
  Entity_valid w h = true ∧
  ∃ i p, get_pool w T = Some (i, w') ∧ pools w' !! i = Some p ∧ b = has p h.
Proof.
  unfold Entity_has. destruct (Entity_valid w h); [|done].
  destruct (get_pool w T) as [[i w1]|] eqn:Hg; [|done]. simpl.
  destruct (pools w1 !! i) as [p|] eqn:Hp; [|done]. simpl.
  intros [= <- <-]. split; [done|]. by exists i, p.
Qed.

Lemma pool_inv_set_data_len p (d : list (option Z)) :
  pool_inv p → length d = length (data p) →
  pool_inv (set_data p (data_ptr p) d (capacity p)).
Proof.
  intros [] Hlen. constructor; simpl; try done. congruence.
Qed.

Lemma pool_inv_set_on_create p (f : option Hook) :
  pool_inv p → pool_inv (set_on_create p f).
Proof. intros []. by constructor. Qed.

Lemma pool_inv_set_on_destroy p (f : option Hook) :
  pool_inv p → pool_inv (set_on_destroy p f).
Proof. intros []. by constructor. Qed.

(** Replacing a pool by one with the same dense array stores nothing new. *)
Lemma stored_set_pool_at w (i : nat) p p' d :
  pools w !! i = Some p →
  (∀ k, (k < dense_count p')%nat → load (dense p') k = Some d →
        ∃ k', (k' < dense_count p)%nat ∧ load (dense p) k' = Some d) →
  stored (set_pool_at w i p') d → stored w d.
Proof.
  intros Hp Hsub (j & q & k & Hq & Hk & Hd). simpl in Hq.
  destruct (decide (i = j)) as [->|Hne].
  - rewrite list_lookup_insert_eq in Hq by by eapply lookup_lt_Some.
    injection Hq as <-. destruct (Hsub k Hk Hd) as (k' & Hk' & Hd').
    by exists j, p, k'.
  - rewrite list_lookup_insert_ne in Hq by done. by exists j, q, k.
Qed.

Lemma Entity_add_spec w h (T : Comp) (c : list Z) w' :
  Entity_add run_hook w h T c = Some w' → pools_inv w →
  Entity_valid w h = true ∧
  ∃ (i : nat) w1 p w5 p' (d : list (option Z)),
    get_pool w T = Some (i, w1) ∧ pools w1 !! i = Some p ∧
    pool_id p = comp_id T ∧ has p h = false ∧
    heap_only w1 w5 ∧ pool_inv p' ∧
    count p' = S (count p) ∧ dense_count p' = S (dense_count p) ∧
    element_size p' = element_size p ∧ pool_id p' = pool_id p ∧
    on_create p' = on_create p ∧
    load (dense p') (dense_count p) = Some h ∧
    (∀ j, (j < dense_count p)%nat → load (dense p') j = load (dense p) j) ∧
    write_at (data p') (count p * element_size p) c = Some d ∧
    w' = fire run_hook (on_create p')
           (set_pool_at (set_pool_at w5 i p') i
              (set_data p' (data_ptr p') d (capacity p'))) h.
Proof.
  intros Hadd Hinv. unfold Entity_add in Hadd.
  destruct (Entity_valid w h) eqn:Hv; [|done]. split; [done|].
  destruct (Entity_has w h T) as [[b w1]|] eqn:Hhas; [|done]. simpl in Hadd.
  destruct b; [done|].
  apply Entity_has_spec in Hhas as (_ & i & p & Hg & Hp & Hb).
  rewrite (get_pool_idem w T i w1 Hg Hinv) in Hadd. simpl in Hadd.
  destruct (get_pool_props w T i w1 Hg Hinv) as (Hinv1 & _ & Hi & Hf & _).
  destruct (Component_Pool_add w1 i h) as [[n w3]|] eqn:Hcadd; [|done].
  simpl in Hadd.
  pose proof (wi_pools w1 Hinv1 i p Hp) as Hpinv.
  destruct (Component_Pool_add_spec w1 i h n w3 p Hcadd Hp Hpinv (eq_sym Hb)
              (wi_next_addr w1 Hinv1))
    as (w5 & p' & Hho & -> & Hpinv' & -> & Hc' & Hdc' & Hes & Hid & Hoc & Hod
        & Hnewd & Holdd).
  assert (Hlt : (i < length (pools w5))%nat).
  { destruct Hho as [_ _ _ _ _ _ _ Hps _ _ _ _ _]. rewrite Hps.
    by eapply lookup_lt_Some. }
  simpl in Hadd. rewrite list_lookup_insert_eq in Hadd by done.
  simpl in Hadd.
  destruct (write_at (data p') _ c) as [d|] eqn:Hw; [|done]. simpl in Hadd.
  injection Hadd as <-.
  apply find_pool_Some in Hf as (_ & (p0 & Hp0 & Hid0) & _).
  assert (p0 = p) as -> by congruence.
  exists i, w1, p, w5, p', d. split_and!; done.
Qed.

Lemma Entity_add_pool_step w h (T : Comp) (c : list Z) w' :
  Entity_add run_hook w h T c = Some w' → pools_inv w → pool_step w w'.
Proof.
  intros Hadd Hp.
  destruct (Entity_add_spec w h T c w' Hadd Hp)
    as (Hv & i & w1 & p & w5 & p' & d & Hg & Hpi & Hid & Hhas & Hho & Hpinv'
        & Hc' & Hdc' & Hes & Hid' & Hoc & Hnewd & Holdd & Hw & ->).
  destruct (get_pool_props w T i w1 Hg Hp) as (Hinv1 & Hst1 & Hi & Hf & _).
  assert (Hst : same_table w
    (fire run_hook (on_create p')
       (set_pool_at (set_pool_at w5 i p') i
          (set_data p' (data_ptr p') d (capacity p'))) h)).
  { eapply same_table_trans; [done|].
    eapply same_table_trans; [by apply heap_only_same_table|].
    eapply same_table_trans; [apply set_pool_at_same_table|].
    eapply same_table_trans; [apply set_pool_at_same_table|].
    apply fire_same_table. }
  assert (Hpc5 : pool_count w5 = pool_count w1) by by destruct Hho.
  assert (Hps5 : pools w5 = pools w1) by by destruct Hho.
  constructor; [done| |].
  - eapply pools_inv_same_pools; [apply fire_same_pools|].
    apply pools_inv_set_pool_at.
    + apply pools_inv_set_pool_at; [|lia|done].
      eapply pools_inv_same_pools; [by apply heap_only_same_pools|done].
    + simpl. lia.
    + apply pool_inv_set_data_len; [done|]. by eapply write_at_length.
  - intros d0 Hd0.
    apply (proj1 (stored_same_pools _ _ d0 (fire_same_pools (on_create p') _ h)))
      in Hd0.
    destruct Hd0 as (j & q & k & Hq & Hk & Hd0).
    cbn [pools set_pool_at set_pools_arr] in Hq.
    rewrite list_insert_insert_eq in Hq.
    destruct (decide (i = j)) as [->|Hne].
    + rewrite list_lookup_insert_eq in Hq
        by (rewrite Hps5; by eapply lookup_lt_Some).
      injection Hq as <-. simpl in Hk, Hd0.
      destruct (decide (k = dense_count p)) as [->|Hnk].
      * right. congruence.
      * left. eapply get_pool_stored; [done..|].
        exists j, p, k. split_and!; [done|lia|].
        rewrite <- Holdd by lia. done.
    + rewrite list_lookup_insert_ne in Hq by done. rewrite Hps5 in Hq.
      left. eapply get_pool_stored; [done..|]. by exists j, q, k.
Qed.

Lemma Entity_has_pool_step w h (T : Comp) (b : bool) w' :
  Entity_has w h T = Some (b, w') → pools_inv w → pool_step w w'.
Proof.
  intros (_ & i & p & Hg & _)%Entity_has_spec Hinv.
  by eapply get_pool_pool_step.
Qed.

Lemma Entity_get_pool_step w h (T : Comp) (r : list (option Z)) w' :
  Entity_get w h T = Some (r, w') → pools_inv w → pool_step w w'.
Proof.
  intros Hget Hinv. unfold Entity_get in Hget.
  destruct (Entity_valid w h); [|done].
  destruct (Entity_has w h T) as [[b w1]|] eqn:Hhas; [|done]. simpl in Hget.
  destruct b; [|done].
  pose proof (Entity_has_pool_step w h T _ w1 Hhas Hinv) as Hst1.
  apply Entity_has_spec in Hhas as (_ & i & p & Hg & Hp & Hb).
  rewrite (get_pool_idem w T i w1 Hg Hinv) in Hget.
  simpl in Hget. rewrite Hp in Hget. simpl in Hget.
  destruct (Component_Pool_get p h); [|done]. simpl in Hget.
  by injection Hget as _ <-.
Qed.

Lemma Entity_remove_spec w h (T : Comp) w' :
  Entity_remove run_hook w h T = Some w' → pools_inv w →
  Entity_valid w h = true ∧
  ∃ (i : nat) w1 p p',
    get_pool w T = Some (i, w1) ∧ pools w1 !! i = Some p ∧
    pool_id p = comp_id T ∧ has p h = true ∧ swap_pop p h = Some p' ∧
    w' = set_pool_at (fire run_hook (on_destroy p) w1 h) i p'.
Proof.
  intros Hrem Hinv. unfold Entity_remove in Hrem.
  destruct (Entity_valid w h); [|done]. split; [done|].
  destruct (Entity_has w h T) as [[b w1]|] eqn:Hhas; [|done]. simpl in Hrem.
  destruct b; [|done].
  apply Entity_has_spec in Hhas as (_ & i & p & Hg & Hp & Hb).
  rewrite (get_pool_idem w T i w1 Hg Hinv) in Hrem. simpl in Hrem.
  destruct (get_pool_props w T i w1 Hg Hinv) as (Hinv1 & _ & Hi & Hf & _).
  pose proof (wi_pools w1 Hinv1 i p Hp) as Hpinv.
  destruct (Component_Pool_remove_spec w1 i h p Hp Hpinv (eq_sym Hb))
    as (p' & Hsp & Heq).
  rewrite Heq in Hrem. injection Hrem as <-.
  apply find_pool_Some in Hf as (_ & (p0 & Hp0 & Hid0) & _).
  assert (p0 = p) as -> by congruence.
  by exists i, w1, p, p'.
Qed.

Lemma Entity_remove_pool_step w h (T : Comp) w' :
  Entity_remove run_hook w h T = Some w' → pools_inv w → pool_step w w'.
Proof.
  intros Hrem Hp.
  destruct (Entity_remove_spec w h T w' Hrem Hp)
    as (Hv & i & w1 & p & p' & Hg & Hpi & Hid & Hhas & Hsp & ->).
  destruct (get_pool_props w T i w1 Hg Hp) as (Hinv1 & Hst1 & Hi & Hf & _).
  pose proof (wi_pools w1 Hinv1 i p Hpi) as Hpinv.
  assert (Hst : same_table w
            (set_pool_at (fire run_hook (on_destroy p) w1 h) i p')).
  { eapply same_table_trans; [done|].
    eapply same_table_trans; [apply fire_same_table|].
    apply set_pool_at_same_table. }
  constructor; [done| |].
  - apply pools_inv_set_pool_at.
    + eapply pools_inv_same_pools; [apply fire_same_pools|done].
    + by rewrite fire_pool_count.
    + by eapply swap_pop_pool_inv.
  - intros d Hd. left. eapply get_pool_stored; [done..|].
    apply (stored_set_pool_at (fire run_hook (on_destroy p) w1 h) i p p') in Hd.
    + by apply (proj1 (stored_same_pools _ _ d
                         (fire_same_pools (on_destroy p) w1 h))) in Hd.
    + by rewrite fire_pools.
    + intros k Hk Hdk.
      destruct (swap_pop_dense p p' h k d Hpinv Hhas Hsp Hk Hdk)
        as (_ & k' & Hk' & Hd').
      by exists k'.
Qed.

Lemma set_create_func_pool_step w (T : Comp) (f : Hook) w' :
  set_create_func w T f = Some w' → pools_inv w → pool_step w w'.
Proof.
  intros Hset Hpi. unfold set_create_func in Hset.
  destruct (get_pool w T) as [[i w1]|] eqn:Hg; [|done]. simpl in Hset.
  destruct (pools w1 !! i) as [p|] eqn:Hp; [|done]. simpl in Hset.
  injection Hset as <-.
  destruct (get_pool_props w T i w1 Hg Hpi) as (Hinv1 & Hst1 & Hi & Hf & _).
  assert (Hst : same_table w (set_pool_at w1 i (set_on_create p (Some f)))).
  { eapply same_table_trans; [done|]. apply set_pool_at_same_table. }
  constructor; [done| |].
  - apply pools_inv_set_pool_at; [done..|].
    apply pool_inv_set_on_create. by apply (wi_pools w1 Hinv1 i).
  - intros d Hd. left. eapply get_pool_stored; [done..|].
    apply (stored_set_pool_at w1 i p _ d Hp) in Hd; [done|].
    intros k Hk Hdk. by exists k.
Qed.

Lemma set_destroy_func_pool_step w (T : Comp) (f : Hook) w' :
  set_destroy_func w T f = Some w' → pools_inv w → pool_step w w'.
Proof.
  intros Hset Hpi. unfold set_destroy_func in Hset.
  destruct (get_pool w T) as [[i w1]|] eqn:Hg; [|done]. simpl in Hset.
  destruct (pools w1 !! i) as [p|] eqn:Hp; [|done]. simpl in Hset.
  injection Hset as <-.
  destruct (get_pool_props w T i w1 Hg Hpi) as (Hinv1 & Hst1 & Hi & Hf & _).
  assert (Hst : same_table w (set_pool_at w1 i (set_on_destroy p (Some f)))).
  { eapply same_table_trans; [done|]. apply set_pool_at_same_table. }
  constructor; [done| |].
  - apply pools_inv_set_pool_at; [done..|].
    apply pool_inv_set_on_destroy. by apply (wi_pools w1 Hinv1 i).
  - intros d Hd. left. eapply get_pool_stored; [done..|].
    apply (stored_set_pool_at w1 i p _ d Hp) in Hd; [done|].
    intros k Hk Hdk. by exists k.
Qed.

Lemma for_range_inv {S : Type} (I : S → Prop) (body : nat → S → option S)
  (n start : nat) (s s' : S) :
  for_range start n body s = Some s' → I s →
  (∀ i s s', body i s = Some s' → I s → I s') → I s'.
Proof.
  revert start s. induction n as [|n IH]; intros start s Hf Hs Hbody.
  - simpl in Hf. by injection Hf as <-.
  - simpl in Hf. destruct (body start s) as [s1|] eqn:Hb; [|done].
    simpl in Hf. eapply IH; [done| |done]. by eapply Hbody.
Qed.

(** What [collect_garbage] does to one pool. *)
Lemma shrink_pool_spec (i : nat) w w' :
  shrink_pool i w = Some w' →
  w' = w ∨
  ∃ p w2 (a : ptr) (copied : list (option Z)) (cap : nat),
    pools w !! i = Some p ∧ (8 < count p)%nat ∧ (count p * 2 < capacity p)%nat ∧
    cap = (if decide (count p mod 8 ≠ 0)%nat
           then count p + (8 - count p mod 8) else count p)%nat ∧
    mem_copy (new_array (cap * element_size p)) (data p) cap = Some copied ∧
    heap_only w w2 ∧ a = next_addr w ∧
    w' = set_pool_at w2 i (set_data p a copied cap).
Proof.
  unfold shrink_pool. intros Hs.
  destruct (pools w !! i) as [p|] eqn:Hp; [|done].
  cbn -[alloc mem_copy Nat.modulo] in Hs.
  destruct (decide _) as [[H8 H2]|]; [|injection Hs as <-; by left].
  destruct (alloc w) as [a w1] eqn:Ha.
  apply alloc_heap_only in Ha as (-> & Hho & Hn).
  destruct (mem_copy _ _ _) as [copied|] eqn:Hc; [|done].
  cbn -[alloc mem_copy Nat.modulo] in Hs.
  injection Hs as <-. right.
  exists p, (delete_arr (data_ptr p) w1), (next_addr w), copied.
  eexists. split_and!; [done|done|done|reflexivity|exact Hc| |done|done].
  eapply heap_only_trans; [done|]. apply delete_arr_heap_only.
Qed.

Lemma ceil8_ge (n : nat) :
  (n ≤ (if decide (n mod 8 ≠ 0)%nat then n + (8 - n mod 8) else n))%nat.
Proof. case_decide; lia. Qed.

Lemma shrink_pool_pool_step (i : nat) w w' :
  shrink_pool i w = Some w' → pools_inv w → pool_step w w'.
Proof.
  intros Hs Hpi.
  destruct (shrink_pool_spec i w w' Hs)
    as [->|(p & w2 & a & copied & cap & Hp & H8 & H2 & Hcap & Hc & Hho & Ha & ->)].
  { by apply pool_step_refl. }
  pose proof (wi_pools w Hpi i p Hp) as Hpinv.
  assert (Hst : same_table w (set_pool_at w2 i (set_data p a copied cap))).
  { eapply same_table_trans; [by apply heap_only_same_table|].
    apply set_pool_at_same_table. }
  constructor; [done| |].
  - assert (Hi : (i < pool_count w)%nat).
    { destruct (decide (i < pool_count w)%nat); [done|].
      rewrite (wi_tail w Hpi i p) in H8 by (done || lia). simpl in H8. lia. }
    apply pools_inv_set_pool_at.
    + eapply pools_inv_same_pools; [by apply heap_only_same_pools|done].
    + destruct Hho. lia.
    + pose proof (ceil8_ge (count p)) as Hge. rewrite <- Hcap in Hge.
      destruct Hpinv. constructor; simpl; try done.
      * apply mem_copy_length in Hc. rewrite Hc.
        unfold new_array. by rewrite length_replicate.
      * intros ->. by destruct (wi_next_addr w Hpi).
  - intros d Hd. left.
    assert (Hp2 : pools w2 !! i = Some p) by (destruct Hho; congruence).
    apply (stored_set_pool_at w2 i p _ d Hp2) in Hd.
    + by apply (proj1 (stored_same_pools w w2 d (heap_only_same_pools _ _ Hho))).
    + intros k Hk Hdk. by exists k.
Qed.

Lemma collect_garbage_pool_step w w' :
  collect_garbage w = Some w' → pools_inv w → pool_step w w'.
Proof.
  intros Hgc Hinv. unfold collect_garbage in Hgc.
  pose proof (commit_deletions_heap_only w) as Hho.
  assert (H1 : pool_step w (commit_deletions w)).
  { apply pool_step_same; [done|by apply heap_only_same_table|].
    by apply heap_only_same_pools. }
  apply (for_range_inv (λ w1, pool_step w w1) _ _ _ _ _ Hgc H1).
  intros i s s' Hs Hst. eapply pool_step_trans; [done|].
  apply (shrink_pool_pool_step i s s' Hs). by destruct Hst.
Qed.

Lemma new_view_world w (types : list Z) v w' :
  new_view w types = Some (v, w') →
  w' = set_iteration_depth w (iteration_depth w + 1).
Proof.
  unfold new_view. destruct (decide _); [|done].
  destruct (resolve_types _ _ _) as [v0|]; [|by intros [= _ <-]].
  destruct (v_pool v0 ≫= _) as [drv|]; [|by intros [= _ <-]].
  destruct (decide _); [|by intros [= _ <-]].
  destruct (load _ _) as [e|]; [|done]. simpl.
  destruct (View_contains _ _ _); [by intros [= _ <-]|].
  destruct (View_next _ _) as [v2|]; [|done]. simpl. by intros [= _ <-].
Qed.

Lemma View_valid_frame w v :
  same_table w (snd (View_valid w v)) ∧ same_pools w (snd (View_valid w v)).
Proof.
  unfold View_valid. destruct (negb _); [by split|].
  case_decide; simpl.
  - pose proof (commit_deletions_heap_only
                  (set_iteration_depth w (iteration_depth w - 1))) as Hho.
    split.
    + eapply same_table_trans; [|by apply heap_only_same_table]. done.
    + eapply same_pools_trans; [|by apply heap_only_same_pools]. done.
  - by split.
Qed.

(** ** Which reallocations are deferred *)

(** With a view open, [free_or_defer] keeps the block live and appends it
    to the delete buffer. This is the path [Component_Pool::add] and
    [get_pool] take for the arrays they outgrow. *)
Lemma free_or_defer_deferred (ty : Delete_Type) (a : ptr) w w' :
  0 < iteration_depth w →
  free_or_defer ty a w = Some w' →
  live w' = live w ∧ delete_buffer w' = delete_buffer w ++ [mkEntry ty a].
Proof.
  intros Hd. unfold free_or_defer, push_deletion.
  rewrite decide_False by lia.
  destruct (decide _); [|done]. by intros [= <-].
Qed.

(** [generate_entity] has no such test: whenever it replaces the identity
    table the old block leaves the live blocks at once and the delete
    buffer is untouched, whatever the iteration depth. *)
Lemma generate_entity_frees_at_once w e w' :
  (entity_capacity w ≤ entity_count w)%nat →
  generate_entity w = Some (e, w') →
  (entities_ptr w ∉ live w') ∧
  delete_buffer w' = delete_buffer w ∧
  iteration_depth w' = iteration_depth w.
Proof.
  intros Hfull. unfold generate_entity.
  rewrite decide_True by done.
  cbn -[mem_copy grow store].
  destruct (mem_copy _ _ _) as [copied|]; [|done].
  cbn -[mem_copy grow store].
  unfold alloc. cbn -[mem_copy grow store].
  match goal with
  | |- context [store ?a ?k ?x] => destruct (store a k x) as [es|]; [|done]
  end.
  cbn -[mem_copy grow store]. intros [= <- <-]. simpl.
  split; [|done]. by intros [? _]%list_elem_of_filter.
Qed.

(** What a shrink in [collect_garbage] leaves in the new buffer: the first
    [capacity] cells of the old one (the new capacity, counted in
    elements), and cells never written after them. *)
Lemma shrink_pool_data (i : nat) w w' p :
  shrink_pool i w = Some w' →
  pools w !! i = Some p →
  (8 < count p)%nat → (count p * 2 < capacity p)%nat →
  ∃ p', pools w' !! i = Some p' ∧
    capacity p' = (if decide (count p mod 8 ≠ 0)%nat
                   then count p + (8 - count p mod 8) else count p)%nat ∧
    (capacity p' ≤ length (data p))%nat ∧
    data p' = take (capacity p') (data p) ++
              replicate (capacity p' * element_size p - capacity p') None ∧
    sparse p' = sparse p ∧ sparse_capacity p' = sparse_capacity p ∧
    dense p' = dense p ∧ count p' = count p ∧
    element_size p' = element_size p.
Proof.
  intros Hs Hp H8 H2.
  unfold shrink_pool in Hs. rewrite Hp in Hs.
  cbn -[alloc mem_copy Nat.modulo] in Hs.
  rewrite decide_True in Hs by done.
  unfold alloc in Hs.
  destruct (mem_copy _ _ _) as [copied|] eqn:Hc; [|done].
  cbn -[mem_copy Nat.modulo] in Hs. injection Hs as <-.
  eexists. simpl.
  rewrite list_lookup_insert_eq by by eapply lookup_lt_Some.
  split; [reflexivity|]. simpl.
  apply mem_copy_inv in Hc as (Hle & _ & ->).
  split_and!; [done|done| |done..].
  f_equal. unfold new_array. by rewrite drop_replicate.
Qed.

(** So every byte of the new buffer from offset [capacity] on is
    indeterminate, although elements are [element_size] bytes apart. *)
Lemma shrink_pool_tail_lost (i : nat) w w' p p' (j : nat) :
  shrink_pool i w = Some w' →
  pools w !! i = Some p → pools w' !! i = Some p' →
  (8 < count p)%nat → (count p * 2 < capacity p)%nat →
  (capacity p' ≤ j < capacity p' * element_size p)%nat →
  data p' !! j = Some None.
Proof.
  intros Hs Hp Hp' H8 H2 Hj.
  destruct (shrink_pool_data i w w' p Hs Hp H8 H2)
    as (q & Hq & _ & Hle & Hd & _).
  rewrite Hp' in Hq. injection Hq as <-.
  rewrite Hd, lookup_app_r by (rewrite length_take; lia).
  rewrite length_take, Nat.min_l by lia.
  apply lookup_replicate. split; [done|lia].
Qed.

(** ** Steps and runs *)

Lemma basic_inv_pool_step w w' : basic_inv w → pool_step w w' → basic_inv w'.
Proof.
  intros [Hp Hl Hc] [[He Hcap Hcnt _ _] Hp' _]. constructor; [done|congruence..].
Qed.

Lemma pool_step_entity_count w w' : pool_step w w' → entity_count w' = entity_count w.
Proof. by intros [[_ _ Hcnt _ _] _ _]. Qed.

Lemma recycle_entity_frame w e w' :
  recycle_entity w = Some (e, w') →
  same_pools w w' ∧ entity_count w' = entity_count w ∧
  entity_capacity w' = entity_capacity w ∧
  length (entities w') = length (entities w).
Proof.
  unfold recycle_entity.
  destruct (load _ _) as [cur|]; [|done]. simpl.
  destruct (store _ _ _) as [es|] eqn:Hst; [|done]. simpl.
  intros [= <- <-]. simpl. split_and!; [by constructor|done|done|].
  by apply store_length in Hst.
Qed.

Lemma release_entity_frame w e (v : Z) w' :
  release_entity w e v = Some w' →
  same_pools w w' ∧ entity_count w' = entity_count w ∧
  entity_capacity w' = entity_capacity w ∧
  length (entities w') = length (entities w).
Proof.
  unfold release_entity.
  destruct (store _ _ _) as [es|] eqn:Hst; [|done]. simpl.
  intros [= <-]. simpl. split_and!; [by constructor|done|done|].
  by apply store_length in Hst.
Qed.

Lemma new_entity_basic w e w' :
  basic_inv w → new_entity w = Some (e, w') →
  basic_inv w' ∧ (entity_count w ≤ entity_count w')%nat.
Proof.
  intros [Hp Hl Hc] Hnew. unfold new_entity in Hnew.
  set (w1 := set_alive_count w (wrap64 (alive_count w + 1))) in *.
  assert (Hsp1 : same_pools w w1) by by constructor.
  destruct (decide _).
  - apply generate_entity_spec in Hnew
      as (_ & Hsp & Hcnt & Hlen' & Hcap' & _); [|done|done].
    simpl in Hcnt. split; [|lia]. constructor; [|done|done].
    eapply pools_inv_same_pools; [|done]. by eapply same_pools_trans.
  - apply recycle_entity_frame in Hnew as (Hsp & Hcnt & Hcap & Hlen).
    simpl in *. split; [|lia]. constructor; [|congruence|congruence].
    eapply pools_inv_same_pools; [|done]. by eapply same_pools_trans.
Qed.

Lemma Entity_destroy_basic w e w' :
  basic_inv w → Entity_destroy run_hook w e = Some w' →
  basic_inv w' ∧ entity_count w' = entity_count w.
Proof.
  intros [Hp Hl Hc] Hd. unfold Entity_destroy in Hd.
  destruct (Entity_valid w e); [|done].
  destruct (destroy_loop_spec w e Hp) as (w1 & Hloop & Hp1 & Hst1 & _).
  rewrite Hloop in Hd. simpl in Hd.
  destruct (release_entity _ _ _) as [w2|] eqn:Hrel; [|done]. simpl in Hd.
  injection Hd as <-.
  apply release_entity_frame in Hrel as (Hsp & Hcnt & Hcap & Hlen).
  destruct Hst1 as [He1 Hcap1 Hcnt1 _ _].
  split; [|simpl; congruence].
  constructor; simpl; [|congruence..].
  eapply (pools_inv_same_pools w1); [|done].
  destruct Hsp. by constructor.
Qed.

Lemma step_pool_step w (o : Op) w' :
  pools_inv w → step run_hook w o = Some w' →
  (pool_step w w' ∧ ∀ s, destroys_of s [o] = 0%nat) ∨
  (o = OpNewEntity) ∨ (∃ h, o = OpDestroy h).
Proof.
  intros Hp Hs. destruct o as [|h|h T|h T c|h T|h T|T f|T f| |types|v];
    simpl in Hs; [by right; left|by right; right; exists h|left; split; [|done]..].
  - destruct (Entity_has w h T) as [[b w1]|] eqn:Hh; [|done].
    injection Hs as <-. by eapply Entity_has_pool_step.
  - by eapply Entity_add_pool_step.
  - destruct (Entity_get w h T) as [[r w1]|] eqn:Hg; [|done].
    injection Hs as <-. by eapply Entity_get_pool_step.
  - by eapply Entity_remove_pool_step.
  - by eapply set_create_func_pool_step.
  - by eapply set_destroy_func_pool_step.
  - by eapply collect_garbage_pool_step.
  - destruct (new_view w types) as [[v w1]|] eqn:Hv; [|done].
    injection Hs as <-. apply new_view_world in Hv as ->.
    by apply pool_step_same.
  - injection Hs as <-. destruct (View_valid_frame w v).
    by apply pool_step_same.
Qed.

Lemma step_basic w (o : Op) w' :
  basic_inv w → step run_hook w o = Some w' →
  basic_inv w' ∧ (entity_count w ≤ entity_count w')%nat.
Proof.
  intros Hb Hs.
  destruct (step_pool_step w o w' (bi_pools w Hb) Hs) as [[Hps _]|[->|[h ->]]].
  - split; [by eapply basic_inv_pool_step|].
    by rewrite (pool_step_entity_count w w').
  - simpl in Hs. destruct (new_entity w) as [[e w1]|] eqn:Hn; [|done].
    injection Hs as <-. by eapply new_entity_basic.
  - simpl in Hs. destruct (Entity_destroy_basic w h w' Hb Hs) as [? ->]. done.
Qed.

Lemma step_world_inv w (o : Op) w' :
  world_inv w → step run_hook w o = Some w' →
  Z.of_nat (entity_count w') ≤ 2 ^ 32 - 1 → world_inv w'.
Proof.
  intros Hinv Hs Hb.
  destruct (step_pool_step w o w' (wi_pools_inv w Hinv) Hs) as [[Hps _]|[->|[h ->]]].
  - by eapply world_inv_frame.
  - simpl in Hs. destruct (new_entity w) as [[e w1]|] eqn:Hn; [|done].
    injection Hs as <-. by eapply new_entity_world_inv.
  - simpl in Hs.
    assert (Hv : Entity_valid w h = true).
    { unfold Entity_destroy in Hs. by destruct (Entity_valid w h). }
    destruct (Entity_destroy_inv w h Hinv Hv) as (w2 & Hd & Hinv' & _).
    congruence.
Qed.

Lemma world_inv_basic w : world_inv w → basic_inv w.
Proof.
  intros [Hp (chain & alive & Ht) _].
  constructor; [done|apply (ti_len _ _ _ Ht)|apply (ti_cap _ _ _ Ht)].
Qed.

Lemma run_basic w (ops : list Op) w' :
  basic_inv w → run run_hook w ops = Some w' →
  basic_inv w' ∧ (entity_count w ≤ entity_count w')%nat.
Proof.
  revert w. induction ops as [|o ops IH]; intros w Hb Hr; simpl in Hr.
  - injection Hr as <-. done.
  - destruct (step run_hook w o) as [w1|] eqn:Hs; [|done]. simpl in Hr.
    destruct (step_basic w o w1 Hb Hs) as [Hb1 Hle1].
    destruct (IH w1 Hb1 Hr) as [Hb' Hle']. split; [done|lia].
Qed.

Lemma run_world_inv w (ops : list Op) w' :
  world_inv w → run run_hook w ops = Some w' →
  Z.of_nat (entity_count w') ≤ 2 ^ 32 - 1 → world_inv w'.
Proof.
  revert w. induction ops as [|o ops IH]; intros w Hinv Hr Hb; simpl in Hr.
  - by injection Hr as <-.
  - destruct (step run_hook w o) as [w1|] eqn:Hs; [|done]. simpl in Hr.
    destruct (step_basic w o w1 (world_inv_basic w Hinv) Hs) as [Hb1 _].
    destruct (run_basic w1 ops w' Hb1 Hr) as [_ Hle].
    apply (IH w1); [|done|done].
    apply (step_world_inv w o w1 Hinv Hs). lia.
Qed.

Lemma pools_inv_init (u : U) : pools_inv (World_init u).
Proof.
  constructor; simpl; try done.
Qed.

Lemma world_inv_init (u : U) : world_inv (World_init u).
Proof.
  constructor.
  - apply pools_inv_init.
  - exists [], []. constructor; simpl; try done.
    + apply NoDup_nil_2.
    + intros f Hf. by apply elem_of_nil in Hf.
    + intros h. split; [intros Hh; by apply elem_of_nil in Hh|].
      intros Hv. apply Entity_valid_true in Hv as [Hv _]. simpl in Hv. lia.
    + apply NoDup_nil_2.
  - intros d (j & p & k & Hp & _). done.
Qed.

Lemma run_app w (ops1 ops2 : list Op) :
  run run_hook w (ops1 ++ ops2) =
  run run_hook w ops1 ≫= (λ w1, run run_hook w1 ops2).
Proof.
  revert w. induction ops1 as [|o ops1 IH]; intros w; simpl; [done|].
  destruct (step run_hook w o); simpl; [apply IH|done].
Qed.

(** ** Reachable worlds *)

Lemma run_init_basic (u : U) (ops : list Op) w :
  run run_hook (World_init u) ops = Some w → basic_inv w.
Proof.
  intros Hr. eapply run_basic; [|done].
  apply world_inv_basic, world_inv_init.
Qed.

Lemma run_init_world_inv (u : U) (ops : list Op) w :
  run run_hook (World_init u) ops = Some w →
  Z.of_nat (entity_count w) ≤ 2 ^ 32 - 1 → world_inv w.
Proof. intros Hr Hb. eapply run_world_inv; [apply world_inv_init|done..]. Qed.

Lemma present_slot_inj p (x e : Entity_Handle) :
  pool_inv p → present p x → present p e → slot x = slot e → x = e.
Proof.
  intros Hinv (j & Hj & Hx) (i & Hi & He) Heq.
  pose proof (present_sparse p x j Hinv Hj Hx) as Hsx.
  pose proof (present_sparse p e i Hinv Hi He) as Hse.
  rewrite Heq, Hse in Hsx. injection Hsx as Hij. apply Nat2Z.inj in Hij as ->.
  congruence.
Qed.

(** With hooks that leave the world alone: in a world reached by any
    admissible sequence, removing an entity [e] that a pool holds
    succeeds; afterwards the pool's membership test for [e] is false, and
    every other entity the pool held is still in it, with payload cells
    equal to those it had before the call. *)
Theorem Component_Pool_remove_frame (u : U) (ops : list Op) w (pi : nat) p e :
  run run_hook (World_init u) ops = Some w →
  pools w !! pi = Some p → present p e →
  ∃ w' p', Component_Pool_remove run_hook w pi e = Some w' ∧
    pools w' !! pi = Some p' ∧ has p' e = false ∧
    ∀ x, present p x → x ≠ e →
         present p' x ∧ has p' x = true ∧
         is_Some (payload p x) ∧ payload p' x = payload p x.
Proof.
  intros Hr Hp Hpres.
  pose proof (bi_pools w (run_init_basic u ops w Hr)) as Hpools.
  pose proof (wi_pools w Hpools pi p Hp) as Hinv.
  pose proof (present_has p e Hinv Hpres) as Hhas.
  destruct (Component_Pool_remove_spec w pi e p Hp Hinv Hhas) as (p' & Hsp & Hrem).
  eexists _, p'. split; [done|]. split_and!.
  - simpl. rewrite fire_pools. apply list_lookup_insert_eq.
    by eapply lookup_lt_Some.
  - by eapply swap_pop_has_self.
  - intros x Hx Hne.
    assert (Hslot : slot x ≠ slot e).
    { intros Heq. by apply Hne, (present_slot_inj p). }
    destruct (swap_pop_others p p' e x Hinv Hhas Hsp Hx Hslot)
      as (Hpx & Hhx & Hpay & Hsome).
    done.
Qed.

(** With hooks that leave the world alone: after any admissible sequence
    of operations every pool of the world satisfies the sparse-set
    invariant: each dense index [k] below
    the count [n] holds a handle whose sparse entry is [k]; every entity
    [e] the dense array holds answers [has] true, and its sparse entry is
    an index in [0, n) at which the dense array holds [e] itself. When the
    world has at most 2^32 - 1 slots, the entities the pool holds are
    exactly the live handles for which [has] is true, so the same is true
    of every live entity the pool has. *)
Theorem sparse_set_invariant (u : U) (ops : list Op) w (i : nat) p :
  run run_hook (World_init u) ops = Some w →
  pools w !! i = Some p →
  count p = dense_count p ∧
  (∀ k, (k < dense_count p)%nat →
        ∃ d, load (dense p) k = Some d ∧
             load (sparse p) (slot d) = Some (Z.of_nat k)) ∧
  (∀ e, present p e →
        has p e = true ∧
        ∃ k, load (sparse p) (slot e) = Some (Z.of_nat k) ∧
             (k < dense_count p)%nat ∧ load (dense p) k = Some e) ∧
  (Z.of_nat (entity_count w) ≤ 2 ^ 32 - 1 →
   ∀ e, present p e ↔ Entity_valid w e = true ∧ has p e = true).
Proof.
  intros Hr Hp.
  pose proof (bi_pools w (run_init_basic u ops w Hr)) as Hpools.
  pose proof (wi_pools w Hpools i p Hp) as Hpinv.
  split_and!.
  - apply (pi_counts p Hpinv).
  - intros k Hk. destruct (pi_dense p Hpinv k Hk) as (d & Hd & _ & Hs).
    by exists d.
  - intros e Hpres. split; [by apply present_has|].
    destruct Hpres as (k & Hk & Hd). exists k.
    split_and!; [by apply present_sparse|done|done].
  - intros Hb e.
    pose proof (run_init_world_inv u ops w Hr Hb) as Hinv. split.
    + intros Hpres. split; [|by apply present_has].
      destruct Hpres as (k & Hk & Hd).
      apply (wi_stored_live w Hinv). by exists i, p, k.
    + intros [Hv Hhas].
      destruct (has_pool_inv p e Hpinv Hhas) as (k & d & Hk & Hs & Hd & Hsd).
      exists k. split; [done|].
      assert (Hvd : Entity_valid w d = true).
      { apply (wi_stored_live w Hinv). by exists i, p, k. }
      apply Entity_valid_true in Hv as [_ Hle].
      apply Entity_valid_true in Hvd as [_ Hld].
      rewrite Hsd in Hld. congruence.
Qed.



(** ** Versions *)

Lemma wrap32_add_l (a b : Z) : wrap32 (wrap32 a + b) = wrap32 (a + b).
Proof. unfold wrap32. apply Zplus_mod_idemp_l. Qed.

Lemma step_version w (o : Op) w' (s : nat) (c : Entity_Handle) :
  world_inv w → step run_hook w o = Some w' →
  Z.of_nat (entity_count w') ≤ 2 ^ 32 - 1 →
  (s < entity_count w)%nat → load (entities w) s = Some c →
  ∃ c', load (entities w') s = Some c' ∧
        get_entity_version c' =
        wrap32 (get_entity_version c + Z.of_nat (destroys_of s [o])).
Proof.
  intros Hinv Hs Hb Hlt Hc.
  assert (Hv0 : wrap32 (get_entity_version c + 0) = get_entity_version c).
  { rewrite Z.add_0_r. apply wrap32_small, get_entity_version_range. }
  destruct (step_pool_step w o w' (wi_pools_inv w Hinv) Hs)
    as [[Hps Hz]|[->|[h ->]]].
  - exists c. rewrite (Hz s). change (Z.of_nat 0) with 0. rewrite Hv0.
    split; [|done]. destruct Hps as [[He _ _ _ _] _ _]. by rewrite He.
  - simpl in Hs. destruct (new_entity w) as [[e w1]|] eqn:Hn; [|done].
    injection Hs as <-.
    destruct (wi_table w Hinv) as (chain & alive & Ht).
    destruct (new_entity_inv w chain alive e w1 Ht Hn Hb)
      as (_ & _ & _ & _ & _ & _ & _ & Hver).
    destruct (Hver s c Hlt Hc) as (c' & Hc' & Hvc). exists c'.
    change (Z.of_nat (destroys_of s [OpNewEntity])) with 0. by rewrite Hv0.
  - simpl in Hs.
    assert (Hv : Entity_valid w h = true).
    { unfold Entity_destroy in Hs. by destruct (Entity_valid w h). }
    destruct (Entity_destroy_inv w h Hinv Hv)
      as (w2 & Hd & _ & _ & _ & _ & _ & Hold & (c' & Hc' & _ & Hvc')).
    assert (w2 = w') as -> by congruence.
    cbn [destroys_of]. destruct (decide (slot h = s)) as [<-|Hne].
    + exists c'. split; [done|].
      apply Entity_valid_true in Hv as [_ Hl].
      assert (c = h) as -> by congruence. done.
    + exists c. rewrite Hold by done. change (Z.of_nat 0) with 0.
      by rewrite Hv0.
Qed.

Lemma destroys_of_cons (s : nat) (o : Op) (ops : list Op) :
  destroys_of s (o :: ops) = (destroys_of s [o] + destroys_of s ops)%nat.
Proof. destruct o; simpl; try done. by case_decide. Qed.

Lemma run_version w (ops : list Op) w' (s : nat) (c : Entity_Handle) :
  world_inv w → run run_hook w ops = Some w' →
  Z.of_nat (entity_count w') ≤ 2 ^ 32 - 1 →
  (s < entity_count w)%nat → load (entities w) s = Some c →
  ∃ c', load (entities w') s = Some c' ∧
        get_entity_version c' =
        wrap32 (get_entity_version c + Z.of_nat (destroys_of s ops)).
Proof.
  revert w c. induction ops as [|o ops IH]; intros w c Hinv Hr Hb Hlt Hc.
  - simpl in Hr. injection Hr as <-. exists c. split; [done|]. simpl.
    rewrite Z.add_0_r. symmetry. apply wrap32_small, get_entity_version_range.
  - simpl in Hr. destruct (step run_hook w o) as [w1|] eqn:Hs; [|done].
    simpl in Hr.
    destruct (step_basic w o w1 (world_inv_basic w Hinv) Hs) as [Hb1 Hle1].
    destruct (run_basic w1 ops w' Hb1 Hr) as [_ Hle].
    assert (Hbound1 : Z.of_nat (entity_count w1) ≤ 2 ^ 32 - 1) by lia.
    pose proof (step_world_inv w o w1 Hinv Hs Hbound1) as Hinv1.
    destruct (step_version w o w1 s c Hinv Hs Hbound1 Hlt Hc) as (c1 & Hc1 & Hv1).
    destruct (IH w1 c1 Hinv1 Hr Hb ltac:(lia) Hc1) as (c' & Hc' & Hv').
    exists c'. split; [done|].
    rewrite Hv', Hv1, wrap32_add_l, (destroys_of_cons s o ops).
    by rewrite Nat2Z.inj_add, Z.add_assoc.
Qed.

(** C4 (as amended). Once [destroy(e)] has been called on a live handle
    [e], [valid()] on [e] is false, and it is still false after any
    further admissible sequence of operations in which the slot of [e] is
    destroyed fewer than 2^32 - 1 times: until then the version stored at
    the slot differs from the version of [e]. *)
Theorem destroyed_handle_stays_invalid (u : U) (ops0 ops : list Op) w0 w1 w2 e :
  run run_hook (World_init u) ops0 = Some w0 →
  Entity_valid w0 e = true →
  Entity_destroy run_hook w0 e = Some w1 →
  run run_hook w1 ops = Some w2 →
  Z.of_nat (entity_count w2) ≤ 2 ^ 32 - 1 →
  Z.of_nat (destroys_of (slot e) ops) < 2 ^ 32 - 1 →
  Entity_valid w1 e = false ∧ Entity_valid w2 e = false.
Proof.
  intros Hr0 Hv Hd Hr Hb Hk.
  pose proof (run_init_basic u ops0 w0 Hr0) as Hb0.
  destruct (Entity_destroy_basic w0 e w1 Hb0 Hd) as [Hb1 Hcnt1].
  destruct (run_basic w1 ops w2 Hb1 Hr) as [_ Hle].
  pose proof (run_init_world_inv u ops0 w0 Hr0 ltac:(lia)) as Hinv0.
  destruct (Entity_destroy_inv w0 e Hinv0 Hv)
    as (w1' & Hd' & Hinv1 & _ & _ & _ & Hiff & _ & (c1 & Hc1 & _ & Hv1)).
  assert (w1' = w1) as -> by congruence.
  split.
  { destruct (Entity_valid w1 e) eqn:E; [|done]. apply Hiff in E as [? _]. done. }
  pose proof (proj1 (Entity_valid_true w0 e) Hv) as [Hslt _].
  destruct (run_version w1 ops w2 (slot e) c1 Hinv1 Hr Hb ltac:(lia) Hc1)
    as (c2 & Hc2 & Hv2).
  destruct (Entity_valid w2 e) eqn:E; [|done]. exfalso.
  apply Entity_valid_true in E as [_ Hl].
  assert (c2 = e) as -> by congruence.
  rewrite Hv1, wrap32_add_l in Hv2.
  pose proof (get_entity_version_range e) as Hrange.
  set (v := get_entity_version e) in *.
  set (k := Z.of_nat (destroys_of (slot e) ops)) in *.
  assert (Hk0 : 0 ≤ k) by (unfold k; lia).
  unfold wrap32 in Hv2.
  destruct (decide (v + 1 + k < 2 ^ 32)) as [Hsmall|Hbig].
  - rewrite Z.mod_small in Hv2 by lia. lia.
  - replace (v + 1 + k) with ((v + 1 + k - 2 ^ 32) + 1 * 2 ^ 32) in Hv2 by lia.
    rewrite Z.mod_add in Hv2 by lia.
    rewrite Z.mod_small in Hv2 by lia. lia.
Qed.


(** ** Hooks *)

Lemma has_set_data p (a : ptr) (d : list (option Z)) (cap : nat) e :
  has (set_data p a d cap) e = has p e.
Proof. done. Qed.

(** The world the create hook receives: the payload is already stored. *)
Lemma Entity_add_before_hook w h (T : Comp) (c : list Z) w' :
  pools_inv w → Entity_add run_hook w h T c = Some w' →
  length c = comp_size T →
  ∃ w4 (i : nat) p,
    find_pool w4 (comp_id T) = Some i ∧ pools w4 !! i = Some p ∧
    Entity_get w4 h T = Some (Some <$> c, w4) ∧
    w' = fire run_hook (on_create p) w4 h.
Proof.
  intros Hp Hadd Hlen.
  destruct (Entity_add_spec w h T c w' Hadd Hp)
    as (Hv & i & w1 & p & w5 & p' & d & Hg & Hpi & Hid & Hhas & Hho & Hpinv'
        & Hc' & Hdc' & Hes & Hid' & Hoc & Hnewd & Holdd & Hw & ->).
  destruct (get_pool_props w T i w1 Hg Hp) as (Hinv1 & Hst1 & Hi & Hf & _).
  pose proof (wi_pools w1 Hinv1 i p Hpi) as Hpinv.
  assert (Hps5 : pools w5 = pools w1) by by destruct Hho.
  assert (Hpc5 : pool_count w5 = pool_count w1) by by destruct Hho.
  assert (Hilt : (i < length (pools w1))%nat) by by eapply lookup_lt_Some.
  assert (Hst4 : same_table w
            (set_pool_at (set_pool_at w5 i p') i
               (set_data p' (data_ptr p') d (capacity p')))).
  { eapply same_table_trans; [done|].
    eapply same_table_trans; [by apply heap_only_same_table|].
    eapply same_table_trans; apply set_pool_at_same_table. }
  remember (set_data p' (data_ptr p') d (capacity p')) as p'' eqn:Hp''.
  remember (set_pool_at (set_pool_at w5 i p') i p'') as w4 eqn:Hw4.
  assert (Hp4 : pools w4 !! i = Some p'').
  { rewrite Hw4. simpl. rewrite list_insert_insert_eq.
    apply list_lookup_insert_eq. by rewrite Hps5. }
  assert (Hf4 : find_pool w4 (comp_id T) = Some i).
  { apply find_pool_Some in Hf as (_ & _ & Hleast).
    apply find_pool_Some. split_and!.
    - rewrite Hw4. simpl. lia.
    - exists p''. split; [done|]. rewrite Hp''. simpl. congruence.
    - intros j q Hj Hq. rewrite Hw4 in Hq. simpl in Hq.
      rewrite list_insert_insert_eq, list_lookup_insert_ne in Hq by lia.
      rewrite Hps5 in Hq. by apply (Hleast j q). }
  assert (Hpres : present p' h).
  { exists (dense_count p). split; [lia|done]. }
  assert (Hsparse : load (sparse p'') (slot h) = Some (Z.of_nat (dense_count p))).
  { rewrite Hp''. apply (present_sparse p' h (dense_count p) Hpinv'); [lia|done]. }
  assert (Hhas'' : has p'' h = true).
  { rewrite Hp'', has_set_data. by apply present_has. }
  exists w4, i, p''. split_and!; [done|done| |by rewrite Hp''].
  unfold Entity_get, Entity_has.
  rewrite (same_table_valid w w4 h Hst4), Hv.
  rewrite (get_pool_found w4 T i Hf4). simpl. rewrite Hp4. simpl.
  rewrite Hhas''.
  rewrite (get_pool_found w4 T i Hf4). simpl. rewrite Hp4. simpl.
  rewrite (Component_Pool_get_sparse p'' h (dense_count p) Hsparse). simpl.
  do 2 f_equal. rewrite <- Hlen.
  assert (Hd'' : data p'' = d) by by rewrite Hp''.
  assert (Hes'' : element_size p'' = element_size p) by by rewrite Hp''.
  rewrite Hd'', Hes'', <- (pi_counts p Hpinv).
  apply (read_at_write_at _ _ _ _ Hw).
Qed.

(** C9. [Entity::add] fires the create hook on a world in which the
    payload is already stored: [get<T>()] on the entity, in the world the
    hook receives, returns the value passed to [add]. [Pool::remove] fires
    the destroy hook on the world as it is before the swap-and-pop: in the
    world the hook receives the pool is untouched, it still has the entity
    and the payload the entity held can be read; the swap-and-pop, after
    which the pool no longer has the entity, is applied afterwards. *)
Theorem hooks_fire_order (u : U) (ops : list Op) w :
  run run_hook (World_init u) ops = Some w →
  (∀ h (T : Comp) (c : list Z) w',
     Entity_add run_hook w h T c = Some w' → length c = comp_size T →
     ∃ w4 (i : nat) p,
       find_pool w4 (comp_id T) = Some i ∧ pools w4 !! i = Some p ∧
       Entity_get w4 h T = Some (Some <$> c, w4) ∧
       w' = fire run_hook (on_create p) w4 h ∧
       (∀ f, on_create p = Some f → uptr w' = run_hook f w4 h)) ∧
  (∀ (pi : nat) p e w',
     pools w !! pi = Some p → has p e = true →
     Component_Pool_remove run_hook w pi e = Some w' →
     ∃ p' (cells : list (option Z)),
       payload p e = Some cells ∧ length cells = element_size p ∧
       swap_pop p e = Some p' ∧ has p' e = false ∧
       w' = set_pool_at (fire run_hook (on_destroy p) w e) pi p' ∧
       (∀ f, on_destroy p = Some f → uptr w' = run_hook f w e)).
Proof.
  intros Hr. pose proof (bi_pools w (run_init_basic u ops w Hr)) as Hp.
  split.
  - intros h T c w' Hadd Hlen.
    destruct (Entity_add_before_hook w h T c w' Hp Hadd Hlen)
      as (w4 & i & p & Hf & Hpi & Hget & ->).
    exists w4, i, p. split_and!; [done..|].
    intros f Hf'. by rewrite Hf'.
  - intros pi p e w' Hpi Hhas Hrem.
    pose proof (wi_pools w Hp pi p Hpi) as Hpinv.
    destruct (Component_Pool_remove_spec w pi e p Hpi Hpinv Hhas)
      as (p' & Hsp & Heq).
    rewrite Heq in Hrem. injection Hrem as <-.
    destruct (has_pool_inv p e Hpinv Hhas) as (k & d & Hk & Hs & Hd & Hsd).
    exists p', (read_at (data p) (k * element_size p) (element_size p)).
    split_and!.
    + by apply payload_sparse.
    + unfold read_at. rewrite length_take, length_drop.
      pose proof (pi_data_len p Hpinv). pose proof (pi_cap p Hpinv).
      pose proof (pi_counts p Hpinv). nia.
    + done.
    + by eapply swap_pop_has_self.
    + done.
    + intros f Hf. simpl. by rewrite Hf.
Qed.

(** ** Views: the current entity and [get] *)



Lemma resolve_types_spec w (types : list Z) v0 v :
  resolve_types w types v0 = Some v →
  ∃ pis : list nat,
    Forall2 (λ t pi, find_pool w t = Some pi) types pis ∧
    to_pool v = to_pool v0 ++ types ∧ v_pools v = v_pools v0 ++ pis ∧
    v_pool_count v = v_pool_count v0.
Proof.
  revert v0. induction types as [|t ts IH]; intros v0 Hr; simpl in Hr.
  - injection Hr as <-. exists []. rewrite !app_nil_r. by split_and!.
  - destruct (find_pool w t) as [ii|] eqn:Hf; [|done].
    apply IH in Hr as (pis & Hall & Htp & Hvp & Hc). simpl in *.
    exists (ii :: pis). split_and!; [by constructor|..|done].
    + by rewrite Htp, <- app_assoc.
    + by rewrite Hvp, <- app_assoc.
Qed.





(** ** Components through the entity façade *)

Lemma find_pool_fire (f : option Hook) w e (id : Z) :
  find_pool (fire run_hook f w e) id = find_pool w id.
Proof. unfold find_pool. by rewrite fire_pools, fire_pool_count. Qed.

Lemma Entity_has_found w h (T : Comp) (i : nat) p :
  find_pool w (comp_id T) = Some i → pools w !! i = Some p →
  Entity_has w h T = if Entity_valid w h then Some (has p h, w) else None.
Proof.
  intros Hf Hp. unfold Entity_has.
  rewrite (get_pool_found w T i Hf). simpl. by rewrite Hp.
Qed.

Lemma Entity_get_found w h (T : Comp) (i : nat) p :
  find_pool w (comp_id T) = Some i → pools w !! i = Some p →
  Entity_get w h T =
  if Entity_valid w h then
    if has p h then
      off ← Component_Pool_get p h;
      Some (read_at (data p) off (comp_size T), w)
    else None
  else None.
Proof.
  intros Hf Hp. unfold Entity_get.
  rewrite (Entity_has_found w h T i p Hf Hp).
  destruct (Entity_valid w h); [|done]. simpl.
  destruct (has p h); [|done].
  rewrite (get_pool_found w T i Hf). simpl. by rewrite Hp.
Qed.

(** X3. A component that was added can be read back: after
    [add<T>(c)] has returned, [has<T>()] answers true, [get<T>()]
    returns the bytes of [c], and a second [add<T>] on the same entity is
    refused by the assertion. *)
Theorem Entity_add_get_round_trip (u : U) (ops : list Op) w h (T : Comp)
  (c : list Z) w' :
  run run_hook (World_init u) ops = Some w →
  Entity_add run_hook w h T c = Some w' → length c = comp_size T →
  Entity_has w' h T = Some (true, w') ∧
  Entity_get w' h T = Some (Some <$> c, w') ∧
  ∀ c', Entity_add run_hook w' h T c' = None.
Proof.
  intros Hr Hadd Hlen.
  pose proof (bi_pools w (run_init_basic u ops w Hr)) as Hp.
  destruct (Entity_add_before_hook w h T c w' Hp Hadd Hlen)
    as (w4 & i & p & Hf & Hpi & Hget & ->).
  rewrite (Entity_get_found w4 h T i p Hf Hpi) in Hget.
  destruct (Entity_valid w4 h) eqn:Hv; [|done].
  destruct (has p h) eqn:Hhas; [|done].
  destruct (Component_Pool_get p h) as [off|] eqn:Hoff; [|done].
  simpl in Hget. injection Hget as Hread.
  set (w' := fire run_hook (on_create p) w4 h).
  assert (Hf' : find_pool w' (comp_id T) = Some i).
  { unfold w'. by rewrite find_pool_fire. }
  assert (Hpi' : pools w' !! i = Some p).
  { unfold w'. by rewrite fire_pools. }
  assert (Hv' : Entity_valid w' h = true).
  { unfold w'. by rewrite (same_table_valid _ _ h (fire_same_table _ w4 h)). }
  assert (Hhas' : Entity_has w' h T = Some (true, w')).
  { by rewrite (Entity_has_found w' h T i p Hf' Hpi'), Hv', Hhas. }
  split_and!.
  - done.
  - rewrite (Entity_get_found w' h T i p Hf' Hpi'), Hv', Hhas, Hoff. simpl.
    by rewrite Hread.
  - intros c'. unfold Entity_add. by rewrite Hv', Hhas'.
Qed.

(** *** What [add] leaves alone *)

Lemma add_grow_data_keeps p w p1 w1 :
  add_grow_data p w = Some (p1, w1) →
  (data_ptr p = nullptr → capacity p = 0%nat) →
  ∀ j, (j < capacity p * element_size p)%nat → data p1 !! j = data p !! j.
Proof.
  intros Hg Hnull j Hj. unfold add_grow_data in Hg.
  destruct (decide (capacity p ≤ count p)%nat); [|by injection Hg as <- <-].
  destruct (alloc w) as [a w0].
  destruct (decide (data_ptr p = nullptr)) as [Hp|Hp].
  - specialize (Hnull Hp). lia.
  - destruct (mem_copy _ _ _) as [copied|] eqn:Hc; [|done]. simpl in Hg.
    destruct (free_or_defer _ _ _); [|done]. simpl in Hg.
    injection Hg as <- <-. simpl.
    by apply (mem_copy_lookup_lt _ _ _ _ _ Hc).
Qed.

Lemma Component_Pool_add_keeps w (pi : nat) e (n : nat) w' p :
  Component_Pool_add w pi e = Some (n, w') →
  pools w !! pi = Some p → pool_inv p → next_addr w ≠ nullptr →
  ∃ p', pools w' !! pi = Some p' ∧
    (∀ j, (j < capacity p * element_size p)%nat → data p' !! j = data p !! j) ∧
    (∀ s, (s < sparse_capacity p)%nat → s ≠ slot e →
          load (sparse p') s = load (sparse p) s) ∧
    (∀ j, j ≠ pi → pools w' !! j = pools w !! j).
Proof.
  intros Hadd Hp Hinv Hnext. unfold Component_Pool_add in Hadd.
  rewrite Hp in Hadd. simpl in Hadd.
  destruct (add_grow_data p w) as [[p1 w1]|] eqn:H1; [|done]. simpl in Hadd.
  destruct (add_grow_sparse _ w1 _) as [[p3 w3]|] eqn:H3; [|done].
  simpl in Hadd.
  destruct (store (sparse p3) _ _) as [s'|] eqn:Hs'; [|done]. simpl in Hadd.
  destruct (add_grow_dense _ w3) as [[p5 w5]|] eqn:H5; [|done]. simpl in Hadd.
  destruct (store (dense p5) _ _) as [d''|] eqn:Hd''; [|done]. simpl in Hadd.
  injection Hadd as <- <-.
  pose proof (add_grow_data_keeps p w p1 w1 H1 (pi_data_null p Hinv)) as Hkeep.
  apply add_grow_data_spec in H1
    as (Hho1 & a1 & d1 & cap1 & -> & Hd1 & Hcap1 & Hnull1);
    [|apply (pi_data_len p Hinv)|apply (pi_data_null p Hinv)|done].
  apply add_grow_sparse_spec in H3
    as (Hho3 & a3 & s3 & cap3 & -> & Hs3 & Heid & Hcap3 & Hold3 & Hnew3 & Hnull3);
    [|apply (pi_sparse_len p Hinv)|apply (pi_sparse_null p Hinv)|
     destruct Hho1; simpl in *; unfold nullptr in *; lia].
  simpl in *.
  apply add_grow_dense_spec in H5
    as (Hho5 & a5 & d5 & cap5 & -> & Hd5 & Hcap5 & Hold5 & Hnull5);
    [|apply (pi_dense_len p Hinv)|apply (pi_dense_null p Hinv)|
     destruct Hho1, Hho3; simpl in *; unfold nullptr in *; lia].
  simpl in *.
  apply store_inv in Hs' as [Hs'lt ->].
  assert (Hps : pools w5 = pools w).
  { destruct Hho1, Hho3, Hho5. congruence. }
  eexists. split_and!.
  - rewrite Hps. apply list_lookup_insert_eq. by eapply lookup_lt_Some.
  - done.
  - simpl. intros s Hs Hne. rewrite load_insert_ne by done. by apply Hold3.
  - intros j Hne. rewrite Hps. by apply list_lookup_insert_ne.
Qed.

Lemma get_pool_keeps w (T : Comp) (i : nat) w1 (j : nat) p :
  get_pool w T = Some (i, w1) → pools_inv w →
  (j < pool_count w)%nat → pools w !! j = Some p → pools w1 !! j = Some p.
Proof.
  intros Hg Hinv Hj Hp.
  destruct (get_pool_spec w T i w1 Hg Hinv)
    as [[_ ->]|(_ & -> & w0 & a & k & Hho & _ & _ & ->)]; [done|].
  simpl. rewrite list_lookup_insert_ne by lia.
  by apply lookup_app_l_Some.
Qed.

Lemma present_lt_pool_count w (j : nat) p x :
  pools_inv w → pools w !! j = Some p → present p x → (j < pool_count w)%nat.
Proof.
  intros Hinv Hp (k & Hk & _).
  destruct (decide (j < pool_count w)%nat) as [|Hge]; [done|].
  rewrite (wi_tail w Hinv j p) in Hk by (lia || done). simpl in Hk. lia.
Qed.

Lemma present_payload p x :
  pool_inv p → present p x →
  ∃ k, (k < count p)%nat ∧ load (sparse p) (slot x) = Some (Z.of_nat k) ∧
       payload p x = Some (read_at (data p) (k * element_size p) (element_size p)).
Proof.
  intros Hinv (k & Hk & Hd). exists k.
  pose proof (present_sparse p x k Hinv Hk Hd) as Hs.
  split_and!; [rewrite (pi_counts p Hinv); done|done|by apply payload_sparse].
Qed.

Lemma Entity_add_unfold w h (T : Comp) (c : list Z) w' :
  Entity_add run_hook w h T c = Some w' → pools_inv w →
  ∃ (i : nat) w1 p (n : nat) w3 p3 (d : list (option Z)),
    Entity_valid w h = true ∧
    get_pool w T = Some (i, w1) ∧ pools w1 !! i = Some p ∧ has p h = false ∧
    Component_Pool_add w1 i h = Some (n, w3) ∧ pools w3 !! i = Some p3 ∧
    write_at (data p3) n c = Some d ∧
    w' = fire run_hook (on_create p3)
           (set_pool_at w3 i (set_data p3 (data_ptr p3) d (capacity p3))) h.
Proof.
  intros Hadd Hinv. unfold Entity_add in Hadd.
  destruct (Entity_valid w h) eqn:Hv; [|done].
  destruct (Entity_has w h T) as [[b w1]|] eqn:Hhas; [|done]. simpl in Hadd.
  destruct b; [done|].
  apply Entity_has_spec in Hhas as (_ & i & p & Hg & Hp & Hb).
  rewrite (get_pool_idem w T i w1 Hg Hinv) in Hadd. simpl in Hadd.
  destruct (Component_Pool_add w1 i h) as [[n w3]|] eqn:Hcadd; [|done].
  simpl in Hadd.
  destruct (pools w3 !! i) as [p3|] eqn:Hp3; [|done]. simpl in Hadd.
  destruct (write_at (data p3) n c) as [d|] eqn:Hw; [|done]. simpl in Hadd.
  injection Hadd as <-.
  by exists i, w1, p, n, w3, p3, d.
Qed.

(** X4. Adding a component disturbs nothing else: every handle keeps
    its validity, and every entity a pool held before the call is still
    held by the pool at the same index, with the same payload bytes. *)
Theorem Entity_add_frame (u : U) (ops : list Op) w h (T : Comp)
  (c : list Z) w' :
  run run_hook (World_init u) ops = Some w →
  Entity_add run_hook w h T c = Some w' →
  (∀ e, Entity_valid w' e = Entity_valid w e) ∧
  ∀ (j : nat) p x, pools w !! j = Some p → present p x →
    ∃ p', pools w' !! j = Some p' ∧ has p' x = true ∧
          is_Some (payload p x) ∧ payload p' x = payload p x.
Proof.
  intros Hr Hadd.
  pose proof (bi_pools w (run_init_basic u ops w Hr)) as Hinv.
  pose proof (Entity_add_pool_step w h T c w' Hadd Hinv) as Hstep.
  split.
  { intros e. apply same_table_valid. apply (ps_table _ _ Hstep). }
  destruct (Entity_add_unfold w h T c w' Hadd Hinv)
    as (i & w1 & p & n & w3 & p3 & d & Hv & Hg & Hp & Hhas & Hcadd & Hp3
        & Hw & ->).
  destruct (get_pool_props w T i w1 Hg Hinv) as (Hinv1 & _).
  pose proof (wi_pools w1 Hinv1 i p Hp) as Hpinv.
  destruct (Component_Pool_add_spec w1 i h n w3 p Hcadd Hp Hpinv Hhas
              (wi_next_addr w1 Hinv1))
    as (w5 & q & Hho & Hw3 & Hqinv & Hn & Hc' & Hdc' & Hes & _ & _ & _
        & Hnewd & Holdd).
  destruct (Component_Pool_add_keeps w1 i h n w3 p Hcadd Hp Hpinv
              (wi_next_addr w1 Hinv1))
    as (q' & Hq' & Hdata & Hsparse & Hothers).
  assert (q' = p3) as -> by congruence.
  assert (q = p3) as ->.
  { rewrite Hw3 in Hp3. simpl in Hp3.
    rewrite list_lookup_insert_eq in Hp3; [congruence|].
    rewrite (ho_pools _ _ Hho). by eapply lookup_lt_Some. }
  intros j p0 x Hp0 Hx.
  pose proof (wi_pools w Hinv j p0 Hp0) as Hp0inv.
  pose proof (present_lt_pool_count w j p0 x Hinv Hp0 Hx) as Hj.
  pose proof (get_pool_keeps w T i w1 j p0 Hg Hinv Hj Hp0) as Hp0'.
  destruct (present_payload p0 x Hp0inv Hx) as (k & Hk & Hsk & Hpay).
  rewrite fire_pools. simpl.
  destruct (decide (j = i)) as [->|Hne].
  - assert (p0 = p) as -> by congruence.
    rewrite list_lookup_insert_eq by by eapply lookup_lt_Some.
    eexists. split; [done|].
    assert (Hslot : slot x ≠ slot h).
    { intros Heq. apply present_has in Hx; [|done].
      unfold has in Hx, Hhas. rewrite Heq in Hx. congruence. }
    assert (Hlt : (slot x < sparse_capacity p)%nat).
    { apply present_has in Hx; [|done]. by apply has_true in Hx as [? _]. }
    assert (Hsk' : load (sparse p3) (slot x) = Some (Z.of_nat k)).
    { by rewrite Hsparse. }
    split_and!.
    + rewrite has_set_data. apply has_true.
      split; [|exists (Z.of_nat k); split; [done|lia]].
      pose proof (pi_sparse_len p3 Hqinv). apply load_lt in Hsk'. lia.
    + by rewrite Hpay.
    + rewrite Hpay. rewrite (payload_sparse _ x k) by done. simpl.
      f_equal. rewrite Hes. apply read_at_ext. intros m Hm.
      apply write_at_inv in Hw as [Hwlen ->].
      pose proof (pi_cap p Hpinv).
      rewrite lookup_app_l by (rewrite length_take; nia).
      rewrite lookup_take_lt by nia.
      apply Hdata. nia.
  - rewrite list_lookup_insert_ne by done.
    rewrite (Hothers j Hne), Hp0'.
    exists p0. split_and!; [done|by apply present_has|by rewrite Hpay|done].
Qed.

(** *** After [remove] *)

Lemma get_pool_has_found w (T : Comp) (i : nat) w1 p h :
  get_pool w T = Some (i, w1) → pools_inv w →
  pools w1 !! i = Some p → has p h = true →
  w1 = w ∧ find_pool w (comp_id T) = Some i.
Proof.
  intros Hg Hinv Hp Hhas.
  destruct (get_pool_spec w T i w1 Hg Hinv)
    as [[Hf ->]|(_ & -> & w0 & a & k & Hho & _ & Hlt & ->)]; [done|].
  simpl in Hp. rewrite list_lookup_insert_eq in Hp.
  - injection Hp as <-. done.
  - rewrite length_app, length_replicate. lia.
Qed.

Lemma find_pool_set_pool_at w (i : nat) p p' (id : Z) :
  pools w !! i = Some p → pool_id p' = pool_id p →
  find_pool (set_pool_at w i p') id = find_pool w id.
Proof.
  intros Hp Hid.
  assert (Hlt : (i < length (pools w))%nat) by by eapply lookup_lt_Some.
  assert (Hlook : ∀ j q, pools (set_pool_at w i p') !! j = Some q →
            ∃ q0, pools w !! j = Some q0 ∧ pool_id q0 = pool_id q).
  { intros j q Hq. simpl in Hq. destruct (decide (j = i)) as [->|Hne].
    - rewrite list_lookup_insert_eq in Hq by done. injection Hq as <-.
      by exists p.
    - rewrite list_lookup_insert_ne in Hq by done. by exists q. }
  destruct (find_pool w id) as [k|] eqn:Hfind.
  - apply find_pool_Some in Hfind as (Hk & (q & Hq & Hqid) & Hleast).
    apply find_pool_Some. split_and!; [done| |].
    + simpl. destruct (decide (k = i)) as [->|Hne].
      * exists p'. rewrite list_lookup_insert_eq by done. split; [done|].
        congruence.
      * exists q. by rewrite list_lookup_insert_ne.
    + intros j y Hj Hy. destruct (Hlook j y Hy) as (y0 & Hy0 & <-).
      by apply (Hleast j y0).
  - rewrite find_pool_None in Hfind. apply find_pool_None.
    intros j y Hj Hy. destruct (Hlook j y Hy) as (y0 & Hy0 & <-).
    by apply (Hfind j y0).
Qed.

(** X5. A component that was removed is gone, and only it: after
    [remove<T>()] has returned, [has<T>()] answers false and [get<T>()]
    and a second [remove<T>()] are refused by the assertion; every handle
    keeps its validity, and every component held for another slot, like
    every component of another type the same entity has, is still there
    with the same payload bytes. *)
Theorem Entity_remove_then (u : U) (ops : list Op) w h (T : Comp) w' :
  run run_hook (World_init u) ops = Some w →
  Entity_remove run_hook w h T = Some w' →
  Entity_has w' h T = Some (false, w') ∧
  Entity_get w' h T = None ∧
  Entity_remove run_hook w' h T = None ∧
  (∀ e, Entity_valid w' e = Entity_valid w e) ∧
  ∀ (j : nat) p x, pools w !! j = Some p → present p x →
    pool_id p ≠ comp_id T ∨ slot x ≠ slot h →
    ∃ p', pools w' !! j = Some p' ∧ has p' x = true ∧
          is_Some (payload p x) ∧ payload p' x = payload p x.
Proof.
  intros Hr Hrem.
  pose proof (bi_pools w (run_init_basic u ops w Hr)) as Hinv.
  destruct (Entity_remove_spec w h T w' Hrem Hinv)
    as (Hv & i & w1 & p & p' & Hg & Hp & Hid & Hhas & Hsp & ->).
  destruct (get_pool_has_found w T i w1 p h Hg Hinv Hp Hhas) as [-> Hf].
  pose proof (wi_pools w Hinv i p Hp) as Hpinv.
  destruct (swap_pop_spec p p' h Hpinv Hhas Hsp)
    as (k0 & d0 & last0 & _ & _ & _ & _ & _ & _ & _ & _ & _ & Hp'eq).
  assert (Hid' : pool_id p' = pool_id p) by by rewrite Hp'eq.
  set (w2 := fire run_hook (on_destroy p) w h).
  assert (Hp2 : pools w2 !! i = Some p) by (unfold w2; by rewrite fire_pools).
  assert (Hf' : find_pool (set_pool_at w2 i p') (comp_id T) = Some i).
  { rewrite (find_pool_set_pool_at w2 i p p' _ Hp2 Hid').
    unfold w2. by rewrite find_pool_fire. }
  assert (Hp' : pools (set_pool_at w2 i p') !! i = Some p').
  { simpl. apply list_lookup_insert_eq. by eapply lookup_lt_Some. }
  assert (Hst : same_table w (set_pool_at w2 i p')).
  { eapply same_table_trans; [apply fire_same_table|].
    apply set_pool_at_same_table. }
  assert (Hv' : Entity_valid (set_pool_at w2 i p') h = true).
  { by rewrite (same_table_valid _ _ h Hst). }
  pose proof (swap_pop_has_self p p' h Hpinv Hhas Hsp) as Hgone.
  assert (Hhas' : Entity_has (set_pool_at w2 i p') h T
                  = Some (false, set_pool_at w2 i p')).
  { by rewrite (Entity_has_found _ h T i p' Hf' Hp'), Hv', Hgone. }
  split_and!.
  - done.
  - by rewrite (Entity_get_found _ h T i p' Hf' Hp'), Hv', Hgone.
  - unfold Entity_remove. by rewrite Hv', Hhas'.
  - intros e. by apply same_table_valid.
  - intros j p0 x Hp0 Hx Hor. simpl. unfold w2. rewrite fire_pools.
    pose proof (wi_pools w Hinv j p0 Hp0) as Hp0inv.
    destruct (decide (j = i)) as [->|Hne].
    + assert (Heq0 : p0 = p) by congruence. subst p0.
      rewrite list_lookup_insert_eq by by eapply lookup_lt_Some.
      destruct Hor as [Hor|Hslot]; [done|].
      destruct (swap_pop_others p p' h x Hpinv Hhas Hsp Hx Hslot)
        as (_ & Hhx & Hpay & Hsome).
      by exists p'.
    + rewrite list_lookup_insert_ne by done.
      exists p0. split_and!; [done|by apply present_has| |done].
      destruct (present_payload p0 x Hp0inv Hx) as (k & _ & _ & ->). done.
Qed.

(** *** [destroy] and the pools *)

Lemma has_default e : has Component_Pool_default e = false.
Proof.
  unfold has. rewrite bool_decide_eq_false_2; [done|]. simpl. lia.
Qed.

(** The loop of [destroy]: no pool is left with a component for the slot,
    and what the pools hold for other slots stays, payload included. *)
Lemma destroy_loop_frame w h w1 :
  pools_inv w →
  for_range 0 (pool_count w) (destroy_step run_hook h) w = Some w1 →
  pool_count w1 = pool_count w ∧
  (∀ (j : nat) q, pools w1 !! j = Some q → has q h = false) ∧
  (∀ (j : nat) p x, pools w !! j = Some p → present p x → slot x ≠ slot h →
     ∃ q, pools w1 !! j = Some q ∧ present q x ∧ payload q x = payload p x).
Proof.
  intros Hinv Hloop.
  destruct (for_range_total
    (λ i w1, pools_inv w1 ∧ pool_count w1 = pool_count w ∧
             (∀ j q, (j < i)%nat → pools w1 !! j = Some q → has q h = false) ∧
             (∀ (j : nat) p x, pools w !! j = Some p → present p x →
                slot x ≠ slot h →
                ∃ q, pools w1 !! j = Some q ∧ present q x ∧
                     payload q x = payload p x))
    (destroy_step run_hook h) (pool_count w) 0 w) as (w1' & Hf & HI).
  { split_and!; [done|done|intros; lia|].
    intros j p x Hp Hx _. by exists p. }
  { intros i w2 Hi (Hinv2 & Hpc & Hhas & Hkeep).
    pose proof (wi_pools_len w2 Hinv2) as Hlen.
    pose proof (wi_pool_count w2 Hinv2) as Hcnt.
    destruct (lookup_lt_is_Some_2 (pools w2) i ltac:(lia)) as [p Hp].
    pose proof (wi_pools w2 Hinv2 i p Hp) as Hpinv.
    unfold destroy_step. rewrite Hp. simpl.
    destruct (has p h) eqn:Hh.
    - destruct (Component_Pool_remove_spec w2 i h p Hp Hpinv Hh)
        as (p' & Hsp & ->).
      eexists. split; [done|].
      pose proof (swap_pop_pool_inv p p' h Hpinv Hh Hsp) as Hpinv'.
      split_and!.
      + apply pools_inv_set_pool_at; [|by rewrite fire_pool_count; lia|done].
        eapply pools_inv_same_pools; [apply fire_same_pools|done].
      + simpl. by rewrite fire_pool_count.
      + intros j q Hj Hq. simpl in Hq. rewrite fire_pools in Hq.
        destruct (decide (i = j)) as [->|Hne].
        * rewrite list_lookup_insert_eq in Hq by lia. injection Hq as <-.
          exact (swap_pop_has_self p _ h Hpinv Hh Hsp).
        * rewrite list_lookup_insert_ne in Hq by done.
          apply (Hhas j q); [lia|done].
      + intros j p0 x Hp0 Hx Hslot.
        destruct (Hkeep j p0 x Hp0 Hx Hslot) as (q & Hq & Hqx & Hpay).
        simpl. rewrite fire_pools.
        destruct (decide (i = j)) as [->|Hne].
        * assert (q = p) as -> by congruence.
          rewrite list_lookup_insert_eq by lia.
          destruct (swap_pop_others p p' h x Hpinv Hh Hsp Hqx Hslot)
            as (Hx' & _ & Hpay' & _).
          exists p'. split_and!; [done|done|congruence].
        * rewrite list_lookup_insert_ne by done. by exists q.
    - exists w2. split; [done|]. split_and!; try done.
      intros j q Hj Hq. destruct (decide (i = j)) as [->|Hne].
      + congruence.
      + apply (Hhas j q); [lia|done]. }
  simpl in HI. rewrite Hloop in Hf. injection Hf as <-.
  destruct HI as (Hinv1 & Hpc & Hhas & Hkeep).
  split_and!; [done| |done].
  intros j q Hq.
  destruct (decide (j < pool_count w)%nat) as [Hj|Hj]; [by apply (Hhas j q)|].
  rewrite (wi_tail w1 Hinv1 j q) by (rewrite ?Hpc; done || lia).
  apply has_default.
Qed.

(** X6. [destroy] takes the entity out of every pool and out of nothing
    else: afterwards no pool has a component for the handle, no pool was
    added or dropped, and every component held for another slot is still
    there with the same payload bytes. *)
Theorem Entity_destroy_components (u : U) (ops : list Op) w h w' :
  run run_hook (World_init u) ops = Some w →
  Entity_destroy run_hook w h = Some w' →
  pool_count w' = pool_count w ∧
  (∀ (j : nat) q, pools w' !! j = Some q → has q h = false) ∧
  ∀ (j : nat) p x, pools w !! j = Some p → present p x → slot x ≠ slot h →
    ∃ q, pools w' !! j = Some q ∧ has q x = true ∧
         is_Some (payload p x) ∧ payload q x = payload p x.
Proof.
  intros Hr Hd.
  pose proof (bi_pools w (run_init_basic u ops w Hr)) as Hinv.
  unfold Entity_destroy in Hd.
  destruct (Entity_valid w h); [|done].
  destruct (for_range _ _ _ _) as [w1|] eqn:Hloop; [|done]. simpl in Hd.
  destruct (release_entity _ _ _) as [w2|] eqn:Hrel; [|done]. simpl in Hd.
  injection Hd as <-.
  destruct (destroy_loop_frame w h w1 Hinv Hloop) as (Hpc & Hgone & Hkeep).
  destruct (destroy_loop_spec w h Hinv) as (w1' & Hloop' & Hinv1 & _).
  rewrite Hloop in Hloop'. injection Hloop' as <-.
  apply release_entity_frame in Hrel as ([Hps Hpc2 _ _ _] & _).
  simpl. rewrite Hps, Hpc2.
  split_and!; [done|done|].
  intros j p x Hp Hx Hslot.
  destruct (Hkeep j p x Hp Hx Hslot) as (q & Hq & Hqx & Hpay).
  exists q. split_and!; [done| | |done].
  - apply present_has; [|done]. by apply (wi_pools w1 Hinv1 j q).
  - destruct (present_payload p x (wi_pools w Hinv j p Hp) Hx)
      as (k & _ & _ & ->). done.
Qed.

(** ** Creating entities *)

(** [new_entity] cannot fail on a well-formed identity table. *)
Lemma new_entity_total w (chain : list nat) (alive : list Entity_Handle) :
  table_inv w chain alive →
  ∃ e w', new_entity w = Some (e, w') ∧ (entity_count w' ≤ S (entity_count w))%nat.
Proof.
  intros Ht. unfold new_entity.
  pose proof (ti_len _ _ _ Ht) as Hlen.
  pose proof (ti_cap _ _ _ Ht) as Hcap.
  set (w1 := set_alive_count w (wrap64 (alive_count w + 1))).
  destruct (decide (avail_id w1 = null_entity_id)) as [Hnull|Hrec].
  - unfold generate_entity. simpl.
    destruct (decide (entity_capacity w ≤ entity_count w)%nat) as [Hfull|Hroom].
    + pose proof (grow_gt (entity_capacity w)) as Hgr.
      unfold alloc, mem_copy, new_array. simpl.
      rewrite decide_True by (rewrite length_replicate; lia). simpl.
      unfold store.
      rewrite decide_True.
      * simpl. eexists _, _. split; [done|]. simpl. lia.
      * rewrite length_app, length_take, length_drop, length_replicate. lia.
    + simpl. unfold store. rewrite decide_True by lia. simpl.
      eexists _, _. split; [done|]. simpl. lia.
  - unfold recycle_entity. simpl in *.
    destruct (is_chain_head _ _ _ (ti_chain _ _ _ Ht))
      as [[Hn _]|(f & rest & Hch & Hhead)]; [done|].
    pose proof (ti_chain _ _ _ Ht) as Hc. rewrite Hch in Hc. simpl in Hc.
    destruct Hc as (_ & c & Hload & _).
    rewrite Hhead, Nat2Z.id, Hload. simpl.
    unfold store. rewrite decide_True by by eapply load_lt. simpl.
    eexists _, _. split; [done|]. simpl. lia.
Qed.

(** X7. [new_entity] never fails while a slot id is left, and the entity
    it returns is new: its handle was not valid before and is valid now,
    every handle that was valid stays valid, [count()] grows by one, the
    pools are untouched, and no pool has a component for the new handle,
    also when its slot is a recycled one. The world is one reached by
    calls whose hooks left the world alone. *)
Theorem new_entity_fresh (u : U) (ops : list Op) w :
  run run_hook (World_init u) ops = Some w →
  Z.of_nat (entity_count w) < 2 ^ 32 - 1 →
  ∃ e w', new_entity w = Some (e, w') ∧
    Entity_valid w e = false ∧ Entity_valid w' e = true ∧
    (∀ h, Entity_valid w h = true → Entity_valid w' h = true) ∧
    World_count w' = World_count w + 1 ∧
    pools w' = pools w ∧
    ∀ (j : nat) p, pools w' !! j = Some p → has p e = false.
Proof.
  intros Hr Hb.
  pose proof (run_init_world_inv u ops w Hr ltac:(lia)) as Hinv.
  destruct (wi_table w Hinv) as (chain & alive & Ht).
  destruct (new_entity_total w chain alive Ht) as (e & w' & Hnew & Hcnt).
  assert (Hb' : Z.of_nat (entity_count w') ≤ 2 ^ 32 - 1) by lia.
  destruct (new_entity_inv w chain alive e w' Ht Hnew Hb')
    as (Hsp & _ & _ & Hnv & Hiff & _ & (chain' & Ht') & _).
  exists e, w'. split_and!; try done.
  - apply Hiff. by left.
  - intros h Hh. apply Hiff. by right.
  - unfold World_count.
    rewrite (ti_alive_count _ _ _ Ht'), (ti_alive_count _ _ _ Ht). simpl. lia.
  - apply (sp_pools _ _ Hsp).
  - intros j p Hp. rewrite (sp_pools _ _ Hsp) in Hp.
    destruct (has p e) eqn:Hhas; [|done].
    pose proof (wi_pools w (wi_pools_inv w Hinv) j p Hp) as Hpinv.
    destruct (has_pool_inv p e Hpinv Hhas) as (k & d & Hk & _ & Hd & Hsd).
    assert (Hvd : Entity_valid w d = true).
    { apply (wi_stored_live w Hinv). by exists j, p, k. }
    assert (Hvd' : Entity_valid w' d = true) by (apply Hiff; by right).
    assert (Hve' : Entity_valid w' e = true) by (apply Hiff; by left).
    apply Entity_valid_true in Hvd' as [_ Hld].
    apply Entity_valid_true in Hve' as [_ Hle].
    rewrite Hsd in Hld. congruence.
Qed.

(** ** [World::at] *)

Lemma is_chain_link (es : list (option Entity_Handle)) (head : Z)
  (chain : list nat) (f : nat) :
  is_chain es head chain → f ∈ chain →
  ∃ c, load es f = Some c ∧
       (get_entity_id c = null_entity_id ∨
        ∃ g, g ∈ chain ∧ get_entity_id c = Z.of_nat g).
Proof.
  revert head. induction chain as [|f0 rest IH]; intros head Hch Hin.
  { by apply elem_of_nil in Hin. }
  simpl in Hch. destruct Hch as (-> & c0 & Hc0 & Hrest).
  apply elem_of_cons in Hin as [->|Hin].
  - exists c0. split; [done|].
    destruct (is_chain_head _ _ _ Hrest) as [[Hn _]|(g & rest' & -> & Hg)].
    + by left.
    + right. exists g. split; [|done]. right. by left.
  - destruct (IH _ Hrest Hin) as (c & Hc & Hcase). exists c. split; [done|].
    destruct Hcase as [?|(g & Hg & ?)]; [by left|right].
    exists g. split; [by right|done].
Qed.

(** Every slot below [entity_count] is either free or the slot of a live
    handle. *)
Lemma slot_free_or_live w (chain : list nat) (alive : list Entity_Handle)
  (i : nat) :
  table_inv w chain alive → (i < entity_count w)%nat →
  i ∈ chain ∨ ∃ h, Entity_valid w h = true ∧ slot h = i.
Proof.
  intros Ht Hi.
  assert (Hnd : NoDup ((slot <$> alive) ++ chain)).
  { apply NoDup_app. split_and!.
    - apply NoDup_fmap_2_strong; [|apply (ti_alive_nodup _ _ _ Ht)].
      intros x y Hx Hy Hxy.
      apply (ti_alive _ _ _ Ht), Entity_valid_true in Hx as [_ Hx].
      apply (ti_alive _ _ _ Ht), Entity_valid_true in Hy as [_ Hy].
      rewrite Hxy in Hx. congruence.
    - intros s (h & -> & Hh)%list_elem_of_fmap.
      apply (valid_not_in_chain w chain alive h Ht).
      by apply (ti_alive _ _ _ Ht).
    - apply (ti_chain_nodup _ _ _ Ht). }
  assert (Hsub : ∀ s, s ∈ (slot <$> alive) ++ chain → s ∈ seq 0 (entity_count w)).
  { intros s Hs. apply elem_of_seq. split; [lia|]. simpl.
    apply elem_of_app in Hs as [(h & -> & Hh)%list_elem_of_fmap|Hs].
    - by apply (ti_alive _ _ _ Ht), Entity_valid_true in Hh as [? _].
    - by apply (ti_chain_lt _ _ _ Ht). }
  assert (Hperm : (slot <$> alive) ++ chain ≡ₚ seq 0 (entity_count w)).
  { apply submseteq_length_Permutation; [by apply NoDup_submseteq|].
    rewrite length_seq, length_app, length_fmap.
    pose proof (ti_total _ _ _ Ht). lia. }
  assert (Hin : i ∈ (slot <$> alive) ++ chain).
  { rewrite Hperm. apply elem_of_seq. lia. }
  apply elem_of_app in Hin as [(h & -> & Hh)%list_elem_of_fmap|Hin];
    [right|by left].
  exists h. split; [|done]. by apply (ti_alive _ _ _ Ht).
Qed.

(** X19. [at(i)] gives back whatever the identity table holds: for an
    index below the number of slots ever made it returns a handle, which
    is valid exactly when it is the handle of slot [i] itself, that is
    when the slot is in use; for a freed slot it returns the free-list
    link stored there, a handle of another slot that is not valid. *)
Theorem World_at_valid (u : U) (ops : list Op) w (i : nat) :
  run run_hook (World_init u) ops = Some w →
  Z.of_nat (entity_count w) ≤ 2 ^ 32 - 1 →
  (i < entity_count w)%nat →
  ∃ h, World_at w i = Some h ∧
       (Entity_valid w h = true ↔ slot h = i).
Proof.
  intros Hr Hb Hi.
  pose proof (run_init_world_inv u ops w Hr Hb) as Hinv.
  destruct (wi_table w Hinv) as (chain & alive & Ht).
  unfold World_at.
  destruct (slot_free_or_live w chain alive i Ht Hi)
    as [Hfree|(h & Hv & <-)].
  - destruct (is_chain_link _ _ _ i (ti_chain _ _ _ Ht) Hfree)
      as (c & Hc & Hcase).
    destruct (is_chain_cell _ _ _ _ _ (ti_chain _ _ _ Ht)
                (ti_chain_nodup _ _ _ Ht) (ti_chain_lt _ _ _ Ht)
                (ti_bound _ _ _ Ht) Hfree) as (c' & Hc' & Hne).
    assert (c' = c) as -> by congruence.
    exists c. split; [done|].
    assert (Hslot : slot c ≠ i).
    { intros <-. by rewrite slot_id in Hne. }
    assert (Hnv : Entity_valid w c = false).
    { destruct Hcase as [Hnull|(g & Hg & Hid)].
      - destruct (Entity_valid w c) eqn:Hv; [|done].
        apply Entity_valid_true in Hv as [Hlt _].
        pose proof (slot_id c). unfold null_entity_id in *. lia.
      - apply (chain_not_valid w chain alive c Ht).
        assert (slot c = g) as ->; [|done].
        unfold slot. rewrite Hid. apply Nat2Z.id. }
    rewrite Hnv. split; [done|]. intros Heq. by destruct Hslot.
  - exists h. pose proof Hv as Hv'.
    apply Entity_valid_true in Hv' as [_ Hl]. by rewrite Hl.
Qed.

(** ** The registered component types *)

Lemma pool_sig_lookup w (j : nat) (id : Z) (es : nat) :
  pool_sig w !! j = Some (id, es) ↔
  (j < pool_count w)%nat ∧
  ∃ p, pools w !! j = Some p ∧ pool_id p = id ∧ element_size p = es.
Proof.
  unfold pool_sig. rewrite list_lookup_fmap. split.
  - intros H. destruct (take _ _ !! j) as [p|] eqn:Hp; [|done].
    apply lookup_take_Some in Hp as [Hp Hj]. simpl in H.
    injection H as <- <-. split; [done|]. by exists p.
  - intros (Hj & p & Hp & <- & <-).
    by rewrite lookup_take_lt, Hp.
Qed.

Lemma pool_sig_same_pools w w' : same_pools w w' → pool_sig w' = pool_sig w.
Proof. intros [Hp Hc _ _ _]. unfold pool_sig. by rewrite Hp, Hc. Qed.

Lemma pool_sig_set_pool_at w (i : nat) p p' :
  pools w !! i = Some p → pool_id p' = pool_id p →
  element_size p' = element_size p →
  pool_sig (set_pool_at w i p') = pool_sig w.
Proof.
  intros Hp Hid Hes. unfold pool_sig. simpl.
  apply list_eq. intros j. rewrite !list_lookup_fmap.
  destruct (decide (j < pool_count w)%nat) as [Hj|Hj].
  - rewrite !lookup_take_lt by done.
    destruct (decide (j = i)) as [->|Hne].
    + rewrite list_lookup_insert_eq by by eapply lookup_lt_Some.
      rewrite Hp. simpl. by rewrite Hid, Hes.
    + by rewrite list_lookup_insert_ne.
  - by rewrite !lookup_take_ge by lia.
Qed.

Lemma sig_step_refl w w' : pool_sig w' = pool_sig w → sig_step w w'.
Proof. intros H. by left. Qed.

Lemma sig_step_then w w1 w' :
  sig_step w w1 → pool_sig w' = pool_sig w1 → sig_step w w'.
Proof.
  intros [H|(T & Hf & H)] Heq; [left|right; exists T; split; [done|]];
    congruence.
Qed.

Lemma get_pool_sig w (T : Comp) (i : nat) w1 :
  get_pool w T = Some (i, w1) → pools_inv w → sig_step w w1.
Proof.
  intros Hg Hinv.
  destruct (get_pool_spec w T i w1 Hg Hinv)
    as [[_ ->]|(Hf & -> & w0 & a & k & Hho & _ & Hlt & ->)]; [by left|].
  right. exists T. split; [done|].
  pose proof (wi_pools_len w Hinv) as Hlen.
  pose proof (wi_pool_count w Hinv) as Hcnt.
  unfold pool_sig. simpl.
  rewrite (take_S_r _ _ (Component_Pool_init Component_Pool_default
                           (comp_id T) (comp_size T))).
  - rewrite fmap_app. simpl. f_equal.
    rewrite take_insert_ge by lia. by rewrite take_app_le by lia.
  - apply list_lookup_insert_eq. rewrite length_app, length_replicate. lia.
Qed.

Lemma Entity_has_sig w h (T : Comp) (b : bool) w' :
  Entity_has w h T = Some (b, w') → pools_inv w → sig_step w w'.
Proof.
  intros Hh Hinv. apply Entity_has_spec in Hh as (_ & i & p & Hg & _).
  by eapply get_pool_sig.
Qed.

Lemma Entity_add_sig w h (T : Comp) (c : list Z) w' :
  Entity_add run_hook w h T c = Some w' → pools_inv w → sig_step w w'.
Proof.
  intros Hadd Hinv.
  destruct (Entity_add_spec w h T c w' Hadd Hinv)
    as (_ & i & w1 & p & w5 & p' & d & Hg & Hpi & _ & _ & Hho & _
        & _ & _ & Hes & Hid' & _ & _ & _ & _ & ->).
  eapply sig_step_then; [by eapply get_pool_sig|].
  rewrite <- (pool_sig_same_pools w1 w5 (heap_only_same_pools _ _ Hho)).
  assert (Hp5 : pools w5 !! i = Some p) by by rewrite (ho_pools _ _ Hho).
  unfold pool_sig. rewrite fire_pools, fire_pool_count.
  change (pool_sig (set_pool_at (set_pool_at w5 i p') i
                      (set_data p' (data_ptr p') d (capacity p')))
          = pool_sig w5).
  rewrite (pool_sig_set_pool_at _ i p'); [|simpl|done|done].
  - by apply (pool_sig_set_pool_at w5 i p).
  - apply list_lookup_insert_eq. by eapply lookup_lt_Some.
Qed.

Lemma Entity_remove_sig w h (T : Comp) w' :
  Entity_remove run_hook w h T = Some w' → pools_inv w → sig_step w w'.
Proof.
  intros Hrem Hinv.
  destruct (Entity_remove_spec w h T w' Hrem Hinv)
    as (_ & i & w1 & p & p' & Hg & Hp & _ & Hhas & Hsp & ->).
  destruct (get_pool_props w T i w1 Hg Hinv) as (Hinv1 & _).
  pose proof (wi_pools w1 Hinv1 i p Hp) as Hpinv.
  destruct (swap_pop_spec p p' h Hpinv Hhas Hsp)
    as (k0 & d0 & last0 & _ & _ & _ & _ & _ & _ & _ & _ & _ & Hp'eq).
  eapply sig_step_then; [by eapply get_pool_sig|].
  rewrite (pool_sig_set_pool_at _ i p p').
  - apply pool_sig_same_pools, fire_same_pools.
  - by rewrite fire_pools.
  - by rewrite Hp'eq.
  - by rewrite Hp'eq.
Qed.

Lemma Entity_get_sig w h (T : Comp) (r : list (option Z)) w' :
  Entity_get w h T = Some (r, w') → pools_inv w → sig_step w w'.
Proof.
  intros Hget Hinv. unfold Entity_get in Hget.
  destruct (Entity_valid w h); [|done].
  destruct (Entity_has w h T) as [[b w1]|] eqn:Hh; [|done]. simpl in Hget.
  destruct b; [|done].
  apply Entity_has_spec in Hh as (_ & i & p & Hg & Hp & _).
  rewrite (get_pool_idem w T i w1 Hg Hinv) in Hget. simpl in Hget.
  rewrite Hp in Hget. simpl in Hget.
  destruct (Component_Pool_get p h); [|done]. simpl in Hget.
  injection Hget as _ <-. by eapply get_pool_sig.
Qed.

Lemma set_hook_sig w (T : Comp) (i : nat) w1 p p' :
  get_pool w T = Some (i, w1) → pools_inv w → pools w1 !! i = Some p →
  pool_id p' = pool_id p → element_size p' = element_size p →
  sig_step w (set_pool_at w1 i p').
Proof.
  intros Hg Hinv Hp Hid Hes.
  eapply sig_step_then; [by eapply get_pool_sig|].
  by apply (pool_sig_set_pool_at w1 i p).
Qed.

Lemma destroy_loop_sig w h w1 :
  pools_inv w →
  for_range 0 (pool_count w) (destroy_step run_hook h) w = Some w1 →
  pool_sig w1 = pool_sig w.
Proof.
  intros Hinv Hloop.
  apply (for_range_inv (λ s, pools_inv s ∧ pool_sig s = pool_sig w)
           _ _ _ _ _ Hloop); [done|].
  intros i s s' Hs [Hinvs Hsig]. unfold destroy_step in Hs.
  destruct (pools s !! i) as [p|] eqn:Hp; [|done]. simpl in Hs.
  destruct (has p h) eqn:Hh; [|injection Hs as <-; done].
  pose proof (wi_pools s Hinvs i p Hp) as Hpinv.
  destruct (Component_Pool_remove_spec s i h p Hp Hpinv Hh) as (p' & Hsp & Heq).
  rewrite Heq in Hs. injection Hs as <-.
  destruct (swap_pop_spec p p' h Hpinv Hh Hsp)
    as (k0 & d0 & last0 & _ & _ & _ & _ & _ & _ & _ & _ & _ & Hp'eq).
  assert (Hi : (i < pool_count s)%nat).
  { destruct (decide (i < pool_count s)%nat) as [|Hge]; [done|].
    rewrite (wi_tail s Hinvs i p) in Hh by (lia || done).
    by rewrite has_default in Hh. }
  split.
  - apply pools_inv_set_pool_at.
    + eapply pools_inv_same_pools; [apply fire_same_pools|done].
    + by rewrite fire_pool_count.
    + by eapply swap_pop_pool_inv.
  - rewrite (pool_sig_set_pool_at _ i p p').
    + rewrite <- Hsig. apply pool_sig_same_pools, fire_same_pools.
    + by rewrite fire_pools.
    + by rewrite Hp'eq.
    + by rewrite Hp'eq.
Qed.

Lemma Entity_destroy_sig w h w' :
  Entity_destroy run_hook w h = Some w' → pools_inv w →
  pool_sig w' = pool_sig w.
Proof.
  intros Hd Hinv. unfold Entity_destroy in Hd.
  destruct (Entity_valid w h); [|done].
  destruct (for_range _ _ _ _) as [w1|] eqn:Hloop; [|done]. simpl in Hd.
  destruct (release_entity _ _ _) as [w2|] eqn:Hrel; [|done]. simpl in Hd.
  injection Hd as <-.
  apply release_entity_frame in Hrel as (Hsp & _).
  rewrite <- (destroy_loop_sig w h w1 Hinv Hloop).
  rewrite <- (pool_sig_same_pools w1 w2 Hsp). done.
Qed.

Lemma collect_garbage_sig w w' :
  collect_garbage w = Some w' → pools_inv w → pool_sig w' = pool_sig w.
Proof.
  intros Hgc Hinv. unfold collect_garbage in Hgc.
  pose proof (heap_only_same_pools _ _ (commit_deletions_heap_only w)) as Hsp.
  apply (for_range_inv (λ s, pool_sig s = pool_sig w) _ _ _ _ _ Hgc).
  { by apply pool_sig_same_pools. }
  intros i s s' Hs Hsig.
  destruct (shrink_pool_spec i s s' Hs)
    as [->|(p & w2 & a & copied & cap & Hp & _ & _ & _ & _ & Hho & _ & ->)];
    [done|].
  rewrite (pool_sig_set_pool_at w2 i p); [|by rewrite (ho_pools _ _ Hho)|done..].
  rewrite <- Hsig. apply pool_sig_same_pools. by apply heap_only_same_pools.
Qed.

Lemma new_entity_same_pools w e w' :
  new_entity w = Some (e, w') →
  length (entities w) = entity_capacity w →
  (entity_count w ≤ entity_capacity w)%nat → same_pools w w'.
Proof.
  intros Hnew Hl Hc. unfold new_entity in Hnew.
  set (w1 := set_alive_count w (wrap64 (alive_count w + 1))) in *.
  assert (Hsp1 : same_pools w w1) by by constructor.
  destruct (decide _).
  - apply generate_entity_spec in Hnew as (_ & Hsp & _); [|done|done].
    by eapply same_pools_trans.
  - apply recycle_entity_frame in Hnew as (Hsp & _).
    by eapply same_pools_trans.
Qed.

Lemma step_sig w (o : Op) w' :
  basic_inv w → step run_hook w o = Some w' → sig_step w w'.
Proof.
  intros [Hinv Hl Hc] Hs. destruct o; simpl in Hs.
  - destruct (new_entity w) as [[e w1]|] eqn:Hnew; [|done].
    injection Hs as <-. apply sig_step_refl, pool_sig_same_pools.
    by eapply new_entity_same_pools.
  - apply sig_step_refl. by eapply Entity_destroy_sig.
  - destruct (Entity_has w h T) as [[b w1]|] eqn:Hh; [|done].
    injection Hs as <-. by eapply Entity_has_sig.
  - by eapply Entity_add_sig.
  - destruct (Entity_get w h T) as [[r w1]|] eqn:Hg; [|done].
    injection Hs as <-. by eapply Entity_get_sig.
  - by eapply Entity_remove_sig.
  - unfold set_create_func in Hs.
    destruct (get_pool w T) as [[i w1]|] eqn:Hg; [|done]. simpl in Hs.
    destruct (pools w1 !! i) as [p|] eqn:Hp; [|done].
    injection Hs as <-. by eapply set_hook_sig.
  - unfold set_destroy_func in Hs.
    destruct (get_pool w T) as [[i w1]|] eqn:Hg; [|done]. simpl in Hs.
    destruct (pools w1 !! i) as [p|] eqn:Hp; [|done].
    injection Hs as <-. by eapply set_hook_sig.
  - apply sig_step_refl. by eapply collect_garbage_sig.
  - destruct (new_view w types) as [[v w1]|] eqn:Hv; [|done].
    injection Hs as <-. apply new_view_world in Hv as ->.
    by apply sig_step_refl.
  - injection Hs as <-. apply sig_step_refl, pool_sig_same_pools.
    apply View_valid_frame.
Qed.

Lemma find_pool_sig w (id : Z) (i : nat) :
  find_pool w id = Some i ↔
  (∃ es, pool_sig w !! i = Some (id, es)) ∧
  ∀ j id' es', (j < i)%nat → pool_sig w !! j = Some (id', es') → id' ≠ id.
Proof.
  rewrite find_pool_Some. split.
  - intros (Hi & (p & Hp & Hid) & Hleast). split.
    + exists (element_size p). apply pool_sig_lookup. split; [done|by exists p].
    + intros j id' es' Hj (Hjc & q & Hq & <- & _)%pool_sig_lookup.
      by apply (Hleast j q).
  - intros ((es & (Hi & p & Hp & Hid & _)%pool_sig_lookup) & Hleast).
    split_and!; [done|by exists p|].
    intros j q Hj Hq. apply (Hleast j (pool_id q) (element_size q) Hj).
    apply pool_sig_lookup. split; [lia|by exists q].
Qed.

Lemma find_pool_None_sig w (id : Z) :
  find_pool w id = None ↔ id ∉ (pool_sig w).*1.
Proof.
  rewrite find_pool_None, list_elem_of_fmap. split.
  - intros H ([id' es] & -> & Hin). simpl in *.
    apply list_elem_of_lookup in Hin as [j Hj].
    apply pool_sig_lookup in Hj as (Hj & q & Hq & Hid & _).
    by apply (H j q).
  - intros H j q Hj Hq Hid. apply H.
    exists (id, element_size q). split; [done|].
    apply list_elem_of_lookup. exists j. apply pool_sig_lookup.
    split; [done|by exists q].
Qed.

Lemma run_sig w (ops : list Op) w' :
  basic_inv w → run run_hook w ops = Some w' →
  pool_sig w `prefix_of` pool_sig w' ∧
  (NoDup (pool_sig w).*1 → NoDup (pool_sig w').*1).
Proof.
  revert w. induction ops as [|o ops IH]; intros w Hinv Hr; simpl in Hr.
  - injection Hr as <-. done.
  - destruct (step run_hook w o) as [w1|] eqn:Hs; [|done]. simpl in Hr.
    pose proof (step_sig w o w1 Hinv Hs) as Hsig.
    pose proof (step_basic w o w1 Hinv Hs) as [Hinv1 _].
    destruct (IH w1 Hinv1 Hr) as [Hpre Hnd].
    destruct Hsig as [Heq|(T & Hf & Heq)].
    + rewrite Heq in *. done.
    + split.
      * etrans; [|done]. rewrite Heq. by apply prefix_app_r.
      * intros Hnd0. apply Hnd. rewrite Heq, fmap_app. simpl.
        apply NoDup_app. split_and!; [done| |apply NoDup_singleton].
        intros x Hx ->%list_elem_of_singleton.
        by apply find_pool_None_sig in Hf.
Qed.

Lemma pool_sig_length w : pools_inv w → length (pool_sig w) = pool_count w.
Proof.
  intros Hinv. unfold pool_sig. rewrite length_fmap, length_take.
  pose proof (wi_pools_len w Hinv). pose proof (wi_pool_count w Hinv). lia.
Qed.

(** X8. Component types are registered once and for good: whatever
    calls follow, a type that has a pool keeps the index [get_pool] finds
    it at, the pool at an index keeps its type id and element size, and no
    two pools in use ever carry the same type id. *)
Theorem pool_registry_stable (u : U) (ops1 ops2 : list Op) w w' :
  run run_hook (World_init u) ops1 = Some w →
  run run_hook w ops2 = Some w' →
  (pool_count w ≤ pool_count w')%nat ∧
  (∀ (id : Z) (i : nat), find_pool w id = Some i → find_pool w' id = Some i) ∧
  (∀ (i : nat) p, (i < pool_count w)%nat → pools w !! i = Some p →
     ∃ p', pools w' !! i = Some p' ∧ pool_id p' = pool_id p ∧
           element_size p' = element_size p) ∧
  (∀ (i j : nat) p q, (i < pool_count w')%nat → (j < pool_count w')%nat →
     pools w' !! i = Some p → pools w' !! j = Some q →
     pool_id p = pool_id q → i = j).
Proof.
  intros Hr1 Hr2.
  pose proof (run_init_basic u ops1 w Hr1) as Hb.
  destruct (run_basic w ops2 w' Hb Hr2) as [Hb' _].
  destruct (run_sig (World_init u) ops1 w
              (world_inv_basic _ (world_inv_init u)) Hr1) as [_ Hnd0].
  destruct (run_sig w ops2 w' Hb Hr2) as [[more Hpre] Hnd1].
  assert (Hnd : NoDup (pool_sig w').*1).
  { apply Hnd1, Hnd0. apply NoDup_nil_2. }
  pose proof (pool_sig_length w (bi_pools w Hb)) as Hlen.
  pose proof (pool_sig_length w' (bi_pools w' Hb')) as Hlen'.
  assert (Hkeep : ∀ (i : nat) x, pool_sig w !! i = Some x →
                                 pool_sig w' !! i = Some x).
  { intros i x Hx. rewrite Hpre. by apply lookup_app_l_Some. }
  split_and!.
  - rewrite <- Hlen, <- Hlen', Hpre, length_app. lia.
  - intros id i [(es & Hes) Hleast]%find_pool_sig.
    apply find_pool_sig. split; [exists es; by apply Hkeep|].
    intros j id' es' Hj Hj'.
    apply (Hleast j id' es' Hj).
    rewrite Hpre in Hj'. rewrite lookup_app_l in Hj'; [done|].
    apply lookup_lt_Some in Hes. lia.
  - intros i p Hi Hp.
    assert (Hs : pool_sig w !! i = Some (pool_id p, element_size p)).
    { apply pool_sig_lookup. split; [done|by exists p]. }
    apply Hkeep, pool_sig_lookup in Hs as (_ & p' & Hp' & Hid & Hes).
    by exists p'.
  - intros i j p q Hi Hj Hp Hq Hid.
    apply (NoDup_lookup _ i j (pool_id p) Hnd).
    + rewrite list_lookup_fmap.
      rewrite (proj2 (pool_sig_lookup w' i (pool_id p) (element_size p)));
        [done|]. split; [done|by exists p].
    + rewrite list_lookup_fmap.
      rewrite (proj2 (pool_sig_lookup w' j (pool_id q) (element_size q)));
        [by rewrite Hid|]. split; [done|by exists q].
Qed.

(** X9. [has<T>()] is not a read-only query: asked about a type that
    has no pool yet, it answers false and registers the type, so the
    world leaves the call with one pool more, an empty pool of [T]'s id
    and element size at the end of the pool array; the pools that were
    there and the identity table are as before. *)
Theorem Entity_has_registers_pool (u : U) (ops : list Op) w h (T : Comp)
  (b : bool) w' :
  run run_hook (World_init u) ops = Some w →
  find_pool w (comp_id T) = None →
  Entity_has w h T = Some (b, w') →
  b = false ∧
  pool_count w' = S (pool_count w) ∧
  find_pool w' (comp_id T) = Some (pool_count w) ∧
  (∃ p, pools w' !! pool_count w = Some p ∧ pool_id p = comp_id T ∧
        element_size p = comp_size T ∧ count p = 0%nat) ∧
  (∀ (j : nat) p, (j < pool_count w)%nat → pools w !! j = Some p →
                  pools w' !! j = Some p) ∧
  (∀ e, Entity_valid w' e = Entity_valid w e).
Proof.
  intros Hr Hnone Hh.
  pose proof (bi_pools w (run_init_basic u ops w Hr)) as Hinv.
  apply Entity_has_spec in Hh as (_ & i & p & Hg & Hp & ->).
  destruct (get_pool_props w T i w' Hg Hinv) as (_ & Hst & _ & Hf & _).
  destruct (get_pool_spec w T i w' Hg Hinv)
    as [[Hsome _]|(_ & -> & w0 & a & k & Hho & _ & Hlt & Hw')]; [congruence|].
  assert (Hnew : pools w' !! pool_count w =
                 Some (Component_Pool_init Component_Pool_default
                         (comp_id T) (comp_size T))).
  { rewrite Hw'. simpl. apply list_lookup_insert_eq.
    rewrite length_app, length_replicate. lia. }
  rewrite Hnew in Hp. injection Hp as <-.
  split_and!.
  - done.
  - by rewrite Hw'.
  - done.
  - eexists. split; [done|]. done.
  - intros j q Hj Hq. by apply (get_pool_keeps w T (pool_count w) w' j q).
  - intros e. by apply same_table_valid.
Qed.

(** ** Iterating a view *)

Lemma View_contains_ext w v v' h :
  v_pools v = v_pools v' → v_pool_count v = v_pool_count v' →
  View_contains w v h = View_contains w v' h.
Proof. intros Hp Hc. unfold View_contains. by rewrite Hp, Hc. Qed.

Lemma next_loop_ext w v v' drv (i : nat) :
  v_pools v = v_pools v' → v_pool_count v = v_pool_count v' →
  next_loop w v drv i = next_loop w v' drv i.
Proof.
  intros Hp Hc. induction i as [|i IH]; simpl; [done|].
  destruct (load (dense drv) i) as [e|]; [|done]. simpl.
  by rewrite (View_contains_ext w v v' e Hp Hc), IH.
Qed.

Lemma visited_below_ext w v v' drv (i : nat) :
  v_pools v = v_pools v' → v_pool_count v = v_pool_count v' →
  visited_below w v drv i = visited_below w v' drv i.
Proof.
  intros Hp Hc. induction i as [|i IH]; simpl; [done|].
  destruct (load (dense drv) i) as [e|]; [|done].
  by rewrite (View_contains_ext w v v' e Hp Hc), IH.
Qed.

(** Where the loop of [next] stops: at the first entity below the cursor
    that the view contains, or at the null handle when there is none. *)
Lemma next_loop_visited w v drv (i : nat) :
  (∀ k, (k < i)%nat → ∃ d, load (dense drv) k = Some d ∧ d ≠ null_handle) →
  ∃ (i' : nat) e, next_loop w v drv i = Some (i', e) ∧
    ((visited_below w v drv i = [] ∧ e = null_handle ∧ i' = 0%nat) ∨
     (e ≠ null_handle ∧ (i' < i)%nat ∧ load (dense drv) i' = Some e ∧
      visited_below w v drv i = e :: visited_below w v drv i')).
Proof.
  induction i as [|i IH]; intros Hd; simpl.
  - exists 0%nat, null_handle. split; [done|]. by left.
  - destruct (Hd i ltac:(lia)) as (d & Hl & Hne). rewrite Hl. simpl.
    assert (Hnb : negb (d =? null_handle) = true).
    { apply negb_true_iff, Z.eqb_neq. done. }
    rewrite Hnb. simpl.
    destruct (View_contains w v d) eqn:Hc; simpl.
    + exists i, d. split; [done|]. right. split_and!; [done|lia|done|done].
    + destruct IH as (i' & e & Hn & Hcase).
      { intros k Hk. apply Hd. lia. }
      exists i', e. split; [done|].
      destruct Hcase as [?|(? & ? & ? & ?)]; [by left|right].
      split_and!; [done|lia|done|done].
Qed.

Lemma visited_below_elem w v drv (n : nat) e :
  (∀ k, (k < n)%nat → is_Some (load (dense drv) k)) →
  e ∈ visited_below w v drv n ↔
  ∃ k, (k < n)%nat ∧ load (dense drv) k = Some e ∧ View_contains w v e = true.
Proof.
  induction n as [|n IH]; intros Hd; simpl.
  - split; [by intros ?%elem_of_nil|]. intros (k & Hk & _). lia.
  - destruct (Hd n ltac:(lia)) as [d Hl]. rewrite Hl.
    assert (IH' := IH (λ k Hk, Hd k ltac:(lia))).
    destruct (View_contains w v d) eqn:Hc.
    + rewrite elem_of_cons, IH'. split.
      * intros [->|(k & Hk & Hlk & Hck)];
          [exists n; split_and!; [lia|done|done]|].
        exists k. split_and!; [lia|done|done].
      * intros (k & Hk & Hlk & Hck).
        destruct (decide (k = n)) as [->|Hne]; [left; congruence|right].
        exists k. split_and!; [lia|done|done].
    + rewrite IH'. split.
      * intros (k & Hk & Hlk & Hck). exists k. split_and!; [lia|done|done].
      * intros (k & Hk & Hlk & Hck).
        destruct (decide (k = n)) as [->|Hne]; [congruence|].
        exists k. split_and!; [lia|done|done].
Qed.

Lemma visited_below_NoDup w v drv (n : nat) :
  (∀ k, (k < n)%nat → is_Some (load (dense drv) k)) →
  (∀ j k d, (j < n)%nat → (k < n)%nat → load (dense drv) j = Some d →
            load (dense drv) k = Some d → j = k) →
  NoDup (visited_below w v drv n).
Proof.
  induction n as [|n IH]; intros Hd Hinj; simpl; [apply NoDup_nil_2|].
  assert (IH' : NoDup (visited_below w v drv n)).
  { apply IH; [intros k Hk; apply Hd; lia|].
    intros j k d Hj Hk. apply Hinj; lia. }
  destruct (load (dense drv) n) as [d|] eqn:Hl; [|apply NoDup_nil_2].
  destruct (View_contains w v d); [|done].
  apply NoDup_cons. split; [|done].
  intros (k & Hk & Hlk & _)%visited_below_elem.
  - assert (k = n) by (apply (Hinj k n d); (lia || done)). lia.
  - intros k Hk. apply Hd. lia.
Qed.

Lemma View_valid_null w v :
  entity v = null_handle → View_valid w v = View_valid w View_empty.
Proof. intros He. unfold View_valid. by rewrite He. Qed.

Lemma View_valid_empty_false w : fst (View_valid w View_empty) = false.
Proof. by apply View_valid_exhausted_depth. Qed.

(** The loop from a cursor position on: it visits what is left below. *)
Lemma View_drain_from w (pi : nat) drv :
  pools w !! pi = Some drv →
  (∀ k, (k < dense_count drv)%nat →
        ∃ d, load (dense drv) k = Some d ∧ d ≠ null_handle) →
  ∀ (m i : nat) v, (i ≤ m)%nat → (i ≤ dense_count drv)%nat →
    v_pool v = Some pi →
    next_loop w v drv i = Some (idx v, entity v) →
    ∀ n, (length (visited_below w v drv i) < n)%nat →
      View_drain n w v =
      Some (visited_below w v drv i, snd (View_valid w View_empty)).
Proof.
  intros Hp Hnn m. induction m as [|m IH]; intros i v Him Hi Hvp Hn n Hlen.
  - assert (i = 0%nat) as -> by lia. simpl in *. injection Hn as Hidx Hent.
    destruct n as [|n]; [lia|]. simpl.
    rewrite (View_valid_null w v) by done.
    pose proof (View_valid_empty_false w) as Hf.
    destruct (View_valid w View_empty) as [ok w1]. simpl in Hf. by subst ok.
  - destruct (next_loop_visited w v drv i) as (i' & e & Hn' & Hcase).
    { intros k Hk. apply Hnn. lia. }
    rewrite Hn in Hn'. injection Hn' as Hidx Hent.
    destruct n as [|n]; [lia|]. simpl.
    destruct Hcase as [(Hvis & -> & ->)|(Hne & Hlt & Hl & Hvis)].
    + rewrite (View_valid_null w v) by done. rewrite Hvis.
      pose proof (View_valid_empty_false w) as Hf.
      destruct (View_valid w View_empty) as [ok w1]. simpl in Hf. by subst ok.
    + rewrite (View_valid_current w v) by congruence.
      rewrite Hvis in Hlen |- *. simpl in Hlen.
      assert (Hnext : ∃ v', View_next w v = Some v' ∧ v_pool v' = Some pi ∧
                v_pools v' = v_pools v ∧ v_pool_count v' = v_pool_count v ∧
                next_loop w v' drv i' = Some (idx v', entity v')).
      { unfold View_next. rewrite Hidx.
        destruct i' as [|i''].
        - eexists. split; [done|]. simpl. by split_and!.
        - rewrite Hvp. cbn [mbind option_bind]. rewrite Hp.
          cbn [mbind option_bind].
          destruct (next_loop_visited w v drv (S i'')) as (j & x & Hj & _).
          { intros k Hk. apply Hnn. lia. }
          rewrite Hj. cbn [mbind option_bind]. eexists. split; [done|].
          cbn [v_pool v_pools v_pool_count idx entity].
          split_and!; [done|done|done|].
          rewrite <- Hj. by apply next_loop_ext. }
      destruct Hnext as (v' & -> & Hvp' & Hps' & Hpc' & Hn'').
      simpl.
      rewrite (IH i' v' ltac:(lia) ltac:(lia) Hvp' Hn'' n).
      * simpl. unfold View_get_entity. rewrite Hent.
        by rewrite (visited_below_ext w v' v drv i' Hps' Hpc').
      * rewrite (visited_below_ext w v' v drv i' Hps' Hpc'). lia.
Qed.

Lemma null_handle_not_valid w :
  Z.of_nat (entity_count w) ≤ 2 ^ 32 - 1 → Entity_valid w null_handle = false.
Proof.
  intros Hb. destruct (Entity_valid w null_handle) eqn:Hv; [|done].
  apply Entity_valid_true in Hv as [Hlt _].
  pose proof (slot_id null_handle) as Hs.
  assert (get_entity_id null_handle = 2 ^ 32 - 1) as Hid by reflexivity.
  lia.
Qed.

Lemma View_contains_true w v h :
  View_contains w v h = true ↔
  ∀ pi, pi ∈ take (v_pool_count v) (v_pools v) →
        ∃ p, pools w !! pi = Some p ∧ has p h = true.
Proof.
  unfold View_contains. rewrite forallb_forall. split.
  - intros H pi Hpi. apply list_elem_of_In in Hpi. specialize (H pi Hpi).
    destruct (pools w !! pi) as [p|]; [|done]. by exists p.
  - intros H pi Hpi. apply list_elem_of_In in Hpi.
    by destruct (H pi Hpi) as (p & -> & Hh).
Qed.

Lemma resolve_types_None w (types : list Z) v0 :
  resolve_types w types v0 = None → ∃ t, t ∈ types ∧ find_pool w t = None.
Proof.
  revert v0. induction types as [|t ts IH]; intros v0 Hr; simpl in Hr; [done|].
  destruct (find_pool w t) as [ii|] eqn:Hf.
  - destruct (IH _ Hr) as (t' & Hin & Hn). exists t'. split; [by right|done].
  - exists t. split; [by left|done].
Qed.

(** The driver pool [_new_view] settles on is one of the listed pools,
    and none of them holds fewer elements. *)
Lemma resolve_types_driver w (types : list Z) v0 v :
  resolve_types w types v0 = Some v →
  (∀ pi, pi ∈ v_pools v0 → is_Some (pools w !! pi)) →
  (∀ d, v_pool v0 = Some d →
     d ∈ v_pools v0 ∧
     ∀ q pi p, pools w !! d = Some q → pi ∈ v_pools v0 →
               pools w !! pi = Some p → (count q ≤ count p)%nat) →
  (v_pools v0 ≠ [] → is_Some (v_pool v0)) →
  (∀ pi, pi ∈ v_pools v → is_Some (pools w !! pi)) ∧
  (∀ d, v_pool v = Some d →
     d ∈ v_pools v ∧
     ∀ q pi p, pools w !! d = Some q → pi ∈ v_pools v →
               pools w !! pi = Some p → (count q ≤ count p)%nat) ∧
  (v_pools v ≠ [] → is_Some (v_pool v)).
Proof.
  revert v0. induction types as [|t ts IH]; intros v0 Hr Hall Hdrv Hsome;
    simpl in Hr.
  - injection Hr as <-. done.
  - destruct (find_pool w t) as [ii|] eqn:Hf; [|done].
    apply find_pool_Some in Hf as (_ & (p & Hp & _) & _).
    apply IH in Hr; [done|..]; cbn [v_pools v_pool].
    + intros pi [Hpi|Hpi]%elem_of_app; [by apply Hall|].
      apply list_elem_of_singleton in Hpi as ->. by rewrite Hp.
    + intros d Hd. destruct (v_pool v0) as [d0|] eqn:Hd0.
      * destruct (Hdrv d0 eq_refl) as [Hin Hmin].
        destruct (Hall d0 Hin) as [q0 Hq0].
        rewrite Hp, Hq0 in Hd.
        destruct (decide (count p < count q0)%nat) as [Hlt|Hge];
          injection Hd as <-.
        -- split; [apply elem_of_app; right; by left|].
           intros q pi p' Hq [Hpi|Hpi]%elem_of_app Hp';
             [|apply list_elem_of_singleton in Hpi as ->].
           ++ assert (q = p) as -> by congruence.
              pose proof (Hmin q0 pi p' Hq0 Hpi Hp'). lia.
           ++ assert (q = p') by congruence. subst. lia.
        -- split; [apply elem_of_app; by left|].
           intros q pi p' Hq [Hpi|Hpi]%elem_of_app Hp';
             [|apply list_elem_of_singleton in Hpi as ->].
           ++ by apply (Hmin q pi p').
           ++ assert (q = q0) as -> by congruence.
              assert (p' = p) as -> by congruence. lia.
      * injection Hd as <-.
        assert (v_pools v0 = []) as ->.
        { destruct (v_pools v0) eqn:E; [done|].
          destruct Hsome as [? ?]; done. }
        split; [by left|].
        intros q pi p' Hq Hpi Hp'. apply list_elem_of_singleton in Hpi as ->.
        assert (q = p') by congruence. subst. lia.
    + intros _. destruct (v_pool v0) as [d0|]; [|done].
      destruct (pools w !! ii), (pools w !! d0); try done.
      by destruct (decide _).
Qed.

(** The view [_new_view] returns: empty when a type has no pool, and
    otherwise placed where [next] would stop coming from the top of the
    driver pool. *)
Lemma new_view_cursor w (types : list Z) v w1 :
  new_view w types = Some (v, w1) → pools_inv w →
  (∀ (j : nat) p (k : nat) d, pools w !! j = Some p → (k < dense_count p)%nat →
     load (dense p) k = Some d → d ≠ null_handle) →
  (entity v = null_handle ∧ ∃ t, t ∈ types ∧ find_pool w t = None) ∨
  (Forall2 (λ t pi, find_pool w t = Some pi) types (v_pools v) ∧
   v_pool_count v = length types ∧
   ((types = [] ∧ entity v = null_handle) ∨
    ∃ (pi : nat) drv,
      v_pool v = Some pi ∧ pi ∈ v_pools v ∧ pools w !! pi = Some drv ∧
      (∀ pj p, pj ∈ v_pools v → pools w !! pj = Some p →
               (count drv ≤ count p)%nat) ∧
      next_loop w1 v drv (dense_count drv) = Some (idx v, entity v))).
Proof.
  intros Hnv Hinv Hnn. unfold new_view in Hnv.
  destruct (decide _); [|done].
  set (w0 := set_iteration_depth w (iteration_depth w + 1)) in *.
  assert (Hfp : ∀ t, find_pool w0 t = find_pool w t) by done.
  assert (Hps : pools w0 = pools w) by done.
  destruct (resolve_types w0 types _) as [v0|] eqn:Hr.
  2: { injection Hnv as <- <-. left. split; [done|].
       destruct (resolve_types_None _ _ _ Hr) as (t & Hin & Hn).
       exists t. split; [done|exact Hn]. }
  right.
  pose proof Hr as Hr'.
  apply resolve_types_spec in Hr as (pis & Hall & Htp & Hvp & Hc).
  simpl in Htp, Hvp, Hc.
  apply resolve_types_driver in Hr' as (Hlook & Hdrv & Hsome); cbn [v_pools v_pool].
  2: { by intros pi ?%elem_of_nil. }
  2: { done. }
  2: { done. }
  assert (Hall' : Forall2 (λ t pi, find_pool w t = Some pi) types (v_pools v0)).
  { rewrite Hvp. eapply Forall2_impl; [done|]. intros t pi H. exact H. }
  destruct (v_pool v0) as [pi|] eqn:Hpi; cbn [mbind option_bind] in Hnv.
  2: { injection Hnv as <- <-. cbn [v_pools v_pool_count entity].
       split_and!; [done|done|]. left. split; [|done].
       destruct types as [|t ts]; [done|].
       rewrite Hvp in Hsome. exfalso.
       destruct pis as [|pi0 pis']; [by inversion Hall|].
       by destruct Hsome. }
  destruct (Hdrv pi eq_refl) as [Hin Hmin].
  destruct (Hlook pi Hin) as [drv Hdrv0]. rewrite Hdrv0 in Hnv.
  pose proof (wi_pools w Hinv pi drv Hdrv0) as Hpinv.
  pose proof (pi_counts drv Hpinv) as Hcnt.
  assert (Hmin' : ∀ pj p, pj ∈ v_pools v0 → pools w !! pj = Some p →
                          (count drv ≤ count p)%nat).
  { intros pj p Hpj Hp. by apply (Hmin drv pj p). }
  destruct (decide (count drv ≠ 0)%nat) as [Hne|He].
  2: { injection Hnv as <- <-. cbn [v_pools v_pool_count entity v_pool idx].
       split_and!; [done|done|]. right. exists pi, drv.
       split_and!; [done..|].
       assert (dense_count drv = 0%nat) as -> by lia. done. }
  destruct (load (dense drv) (count drv - 1)) as [e|] eqn:Hl; [|done].
  cbn [mbind option_bind] in Hnv.
  assert (Henn : e ≠ null_handle).
  { apply (Hnn pi drv (count drv - 1)%nat e); [done|lia|done]. }
  assert (Hnb : negb (e =? null_handle) = true).
  { by apply negb_true_iff, Z.eqb_neq. }
  assert (Hdc : dense_count drv = S (count drv - 1)) by lia.
  remember (mkView (to_pool v0) (v_pools v0) (v_pool_count v0) (Some pi)
                   (count drv - 1) e) as v1 eqn:Hv1.
  assert (Hf1 : v_pools v1 = v_pools v0 ∧ v_pool_count v1 = v_pool_count v0 ∧
            v_pool v1 = Some pi ∧ idx v1 = (count drv - 1)%nat ∧ entity v1 = e).
  { by rewrite Hv1. }
  destruct Hf1 as (Hps1 & Hpc1 & Hvp1 & Hidx1 & Hent1).
  clear Hv1.
  destruct (View_contains w0 v1 e) eqn:Hcon.
  - injection Hnv as <- <-. rewrite Hps1, Hpc1.
    split_and!; [done|done|]. right. exists pi, drv.
    split_and!; [done|done|done|done|].
    rewrite Hdc, Hidx1, Hent1. cbn [next_loop]. rewrite Hl.
    cbn [mbind option_bind]. by rewrite Hnb, Hcon.
  - destruct (View_next w0 v1) as [v2|] eqn:Hnx; [|done].
    cbn [mbind option_bind] in Hnv. injection Hnv as <- <-.
    assert (Hv2 : v_pools v2 = v_pools v1 ∧ v_pool_count v2 = v_pool_count v1 ∧
              v_pool v2 = Some pi ∧
              next_loop w0 v1 drv (count drv - 1) = Some (idx v2, entity v2)).
    { unfold View_next in Hnx. rewrite Hidx1 in Hnx.
      destruct (count drv - 1)%nat as [|n] eqn:Hn.
      - injection Hnx as <-. done.
      - rewrite Hvp1 in Hnx. cbn [mbind option_bind] in Hnx.
        rewrite Hdrv0 in Hnx. cbn [mbind option_bind] in Hnx.
        destruct (next_loop w0 v1 drv (S n)) as [[i2 e2]|] eqn:Hn2; [|done].
        cbn [mbind option_bind] in Hnx. injection Hnx as <-. done. }
    destruct Hv2 as (Hps2 & Hpc2 & Hvp2 & Hn2).
    rewrite Hps2, Hpc2, Hps1, Hpc1.
    split_and!; [done|done|]. right. exists pi, drv.
    split_and!; [done|done|done|done|].
    rewrite Hdc. cbn [next_loop]. rewrite Hl. cbn [mbind option_bind].
    rewrite Hnb, (View_contains_ext w0 v2 v1 e Hps2 Hpc2), Hcon.
    cbn [negb andb]. rewrite <- Hn2. by apply next_loop_ext.
Qed.

Lemma stored_not_null w (j : nat) p (k : nat) d :
  world_inv w → pools w !! j = Some p → (k < dense_count p)%nat →
  load (dense p) k = Some d → d ≠ null_handle.
Proof.
  intros Hinv Hp Hk Hd ->.
  assert (Hv : Entity_valid w null_handle = true).
  { apply (wi_stored_live w Hinv). by exists j, p, k. }
  destruct (wi_table w Hinv) as (chain & alive & Ht).
  rewrite null_handle_not_valid in Hv; [done|]. apply (ti_bound _ _ _ Ht).
Qed.

Lemma has_live_present w (j : nat) p e :
  world_inv w → pools w !! j = Some p →
  Entity_valid w e = true → has p e = true → present p e.
Proof.
  intros Hinv Hp Hv Hhas.
  pose proof (wi_pools w (wi_pools_inv w Hinv) j p Hp) as Hpinv.
  destruct (has_pool_inv p e Hpinv Hhas) as (k & d & Hk & _ & Hd & Hsd).
  exists k. split; [done|].
  assert (Hvd : Entity_valid w d = true).
  { apply (wi_stored_live w Hinv). by exists j, p, k. }
  apply Entity_valid_true in Hv as [_ Hle].
  apply Entity_valid_true in Hvd as [_ Hld].
  rewrite Hsd in Hld. congruence.
Qed.

(** X10. The loop [for (v = new_view<Ts...>(); v.valid(); v.next())]
    whose body leaves the world alone visits exactly the live entities
    that have every listed component, each of them once, and ends: the
    [valid()] that returns false brings [iteration_depth] back to what
    it was before [new_view], and the pools are as they were. A type that
    has no pool yet makes the loop visit nothing. The world is one reached
    by calls whose hooks left the world alone. *)
Theorem View_iteration_visits (u : U) (ops : list Op) w (types : list Z)
  v w1 :
  run run_hook (World_init u) ops = Some w →
  Z.of_nat (entity_count w) ≤ 2 ^ 32 - 1 →
  types ≠ [] →
  new_view w types = Some (v, w1) →
  ∃ (l : list Entity_Handle) w2,
    (∀ n, (length l < n)%nat → View_drain n w1 v = Some (l, w2)) ∧
    NoDup l ∧
    (∀ e, e ∈ l ↔
          Entity_valid w e = true ∧
          ∀ t, t ∈ types →
               ∃ (i : nat) p, find_pool w t = Some i ∧ pools w !! i = Some p ∧
                              has p e = true) ∧
    iteration_depth w2 = iteration_depth w ∧
    pools w2 = pools w.
Proof.
  intros Hr Hb Hty Hnv.
  pose proof (run_init_world_inv u ops w Hr Hb) as Hinv.
  pose proof (wi_pools_inv w Hinv) as Hpools.
  pose proof (new_view_world w types v w1 Hnv) as Hw1.
  assert (Hps1 : pools w1 = pools w) by by rewrite Hw1.
  assert (Hd1 : iteration_depth w1 = iteration_depth w + 1) by by rewrite Hw1.
  assert (Hend : iteration_depth (snd (View_valid w1 View_empty))
                 = iteration_depth w ∧
                 pools (snd (View_valid w1 View_empty)) = pools w).
  { split.
    - destruct (View_valid_exhausted_depth w1 View_empty eq_refl) as [_ ->].
      lia.
    - destruct (View_valid_frame w1 View_empty) as [_ [Hp _ _ _ _]].
      congruence. }
  destruct (new_view_cursor w types v w1 Hnv Hpools)
    as [(Hnull & t & Hin & Hnone)|(Hall & Hpc & Hcase)].
  { intros j p k d. by apply stored_not_null. }
  - exists [], (snd (View_valid w1 View_empty)). split_and!.
    + intros [|n] Hn; [simpl in Hn; lia|]. simpl.
      rewrite (View_valid_null w1 v Hnull).
      pose proof (View_valid_empty_false w1) as Hf.
      destruct (View_valid w1 View_empty) as [ok w2]. simpl in Hf. by subst ok.
    + apply NoDup_nil_2.
    + intros e. split; [by intros ?%elem_of_nil|].
      intros [_ Hhas]. destruct (Hhas t Hin) as (i & p & Hf & _). congruence.
    + apply Hend.
    + apply Hend.
  - destruct Hcase as [[-> _]|(pi & drv & Hvp & Hpin & Hdrv & _ & Hcur)];
      [done|].
    pose proof (wi_pools w Hpools pi drv Hdrv) as Hpinv.
    assert (Hdrv1 : pools w1 !! pi = Some drv) by by rewrite Hps1.
    assert (Hloads : ∀ k, (k < dense_count drv)%nat →
              ∃ d, load (dense drv) k = Some d ∧ d ≠ null_handle).
    { intros k Hk. destruct (pi_dense drv Hpinv k Hk) as (d & Hd & _).
      exists d. split; [done|]. by eapply (stored_not_null w pi drv k). }
    exists (visited_below w1 v drv (dense_count drv)),
           (snd (View_valid w1 View_empty)).
    assert (Htake : take (v_pool_count v) (v_pools v) = v_pools v).
    { apply take_ge. rewrite Hpc. by rewrite (Forall2_length _ _ _ Hall). }
    split_and!.
    + intros n Hn.
      by apply (View_drain_from w1 pi drv Hdrv1 Hloads (dense_count drv)
                  (dense_count drv) v).
    + apply visited_below_NoDup.
      * intros k Hk. destruct (Hloads k Hk) as (d & -> & _). done.
      * intros j k d Hj Hk Hdj Hdk.
        pose proof (present_sparse drv d j Hpinv Hj Hdj) as Hsj.
        pose proof (present_sparse drv d k Hpinv Hk Hdk) as Hsk.
        rewrite Hsj in Hsk. injection Hsk as Hsk. lia.
    + intros e. rewrite visited_below_elem.
      2: { intros k Hk. destruct (Hloads k Hk) as (d & -> & _). done. }
      split.
      * intros (k & Hk & Hd & Hcon).
        rewrite View_contains_true, Htake in Hcon. split.
        { apply (wi_stored_live w Hinv). by exists pi, drv, k. }
        intros t Ht. apply list_elem_of_lookup in Ht as [n Hn].
        destruct (Forall2_lookup_l _ _ _ _ _ Hall Hn) as (pj & Hpj & Hf).
        destruct (Hcon pj) as (p & Hp & Hhas).
        { by eapply list_elem_of_lookup_2. }
        exists pj, p. rewrite Hps1 in Hp. done.
      * intros [Hv Hhas].
        assert (Hevery : ∀ pj, pj ∈ v_pools v →
                  ∃ p, pools w !! pj = Some p ∧ has p e = true).
        { intros pj Hpj. apply list_elem_of_lookup in Hpj as [n Hn].
          destruct (Forall2_lookup_r _ _ _ _ _ Hall Hn) as (t & Ht & Hf).
          destruct (Hhas t) as (i & p & Hf' & Hp & Hh).
          { by eapply list_elem_of_lookup_2. }
          exists p. split; [congruence|done]. }
        destruct (Hevery pi Hpin) as (p & Hp & Hh).
        assert (p = drv) as -> by congruence.
        destruct (has_live_present w pi drv e Hinv Hdrv Hv Hh) as (k & Hk & Hd).
        exists k. split_and!; [done|done|].
        apply View_contains_true. rewrite Htake.
        intros pj Hpj. rewrite Hps1. by apply Hevery.
    + apply Hend.
    + apply Hend.
Qed.

Lemma resolve_types_unregistered w (types : list Z) v0 (t : Z) :
  t ∈ types → find_pool w t = None → resolve_types w types v0 = None.
Proof.
  revert v0. induction types as [|t' ts IH]; intros v0 Hin Hn;
    [by apply elem_of_nil in Hin|].
  simpl. apply elem_of_cons in Hin as [->|Hin].
  - by rewrite Hn.
  - destruct (find_pool w t'); [|done]. by apply IH.
Qed.

(** X11. A view over a type that has no pool yet is empty, and asking
    for it registers nothing: [new_view] returns a view whose first
    [valid()] is false, the world differs only by the incremented
    [iteration_depth], and that [valid()] brings the depth back. *)
Theorem new_view_unregistered w (types : list Z) (t : Z) :
  (length types ≤ View_max)%nat → t ∈ types → find_pool w t = None →
  let w1 := set_iteration_depth w (iteration_depth w + 1) in
  new_view w types = Some (View_empty, w1) ∧
  pools w1 = pools w ∧ pool_count w1 = pool_count w ∧
  find_pool w1 t = None ∧
  fst (View_valid w1 View_empty) = false ∧
  iteration_depth (snd (View_valid w1 View_empty)) = iteration_depth w.
Proof.
  intros Hlen Hin Hnone w1. split_and!; try done.
  - unfold new_view. rewrite decide_True by done.
    by rewrite (resolve_types_unregistered _ types _ t Hin).
  - apply View_valid_empty_false.
  - destruct (View_valid_exhausted_depth w1 View_empty eq_refl) as [_ ->].
    simpl. lia.
Qed.

Lemma new_view_fields w (types : list Z) v w1 :
  new_view w types = Some (v, w1) →
  v = View_empty ∨
  ∃ v0, resolve_types w1 types
          (mkView [] [] (length types) None 0 null_handle) = Some v0 ∧
        v_pools v = v_pools v0 ∧ v_pool v = v_pool v0.
Proof.
  intros Hnv. pose proof (new_view_world w types v w1 Hnv) as Hw1.
  unfold new_view in Hnv. destruct (decide _); [|done].
  rewrite <- Hw1 in Hnv.
  destruct (resolve_types w1 types _) as [v0|] eqn:Hr.
  2: { injection Hnv as <-. by left. }
  right. exists v0. split; [done|].
  destruct (v_pool v0 ≫= _) as [drv|].
  2: { injection Hnv as <-. done. }
  destruct (decide _).
  2: { injection Hnv as <-. done. }
  destruct (load (dense drv) _) as [e|]; [|done].
  cbn [mbind option_bind] in Hnv.
  destruct (View_contains w1 _ e).
  - injection Hnv as <-. done.
  - destruct (View_next w1 _) as [v2|] eqn:Hnx; [|done].
    cbn [mbind option_bind] in Hnv. injection Hnv as <-.
    unfold View_next in Hnx. cbn [idx v_pool] in Hnx.
    destruct (count drv - 1)%nat.
    + injection Hnx as <-. done.
    + destruct (v_pool v0) as [pi|]; [|done]. cbn [mbind option_bind] in Hnx.
      destruct (pools w1 !! pi); [|done]. cbn [mbind option_bind] in Hnx.
      destruct (next_loop _ _ _ _) as [[i2 e2]|]; [|done].
      cbn [mbind option_bind] in Hnx. injection Hnx as <-. done.
Qed.

(** X12. A view walks the smallest pool: the driver pool [_new_view]
    settles on is the pool of one of the listed types, and none of the
    listed pools holds fewer elements. *)
Theorem new_view_driver_smallest w (types : list Z) v w1 (pi : nat) drv :
  new_view w types = Some (v, w1) →
  v_pool v = Some pi → pools w !! pi = Some drv →
  pi ∈ v_pools v ∧
  (∃ t, t ∈ types ∧ find_pool w t = Some pi) ∧
  ∀ (t : Z) (pj : nat) p, t ∈ types → find_pool w t = Some pj →
    pools w !! pj = Some p → (count drv ≤ count p)%nat.
Proof.
  intros Hnv Hvp Hdrv.
  pose proof (new_view_world w types v w1 Hnv) as Hw1.
  destruct (new_view_fields w types v w1 Hnv) as [->|(v0 & Hr & Hps & Hp)];
    [done|].
  assert (Hps1 : pools w1 = pools w) by by rewrite Hw1.
  assert (Hfp : ∀ t, find_pool w1 t = find_pool w t) by by rewrite Hw1.
  pose proof Hr as Hr'.
  apply resolve_types_spec in Hr as (pis & Hall & _ & Hvp0 & _).
  simpl in Hvp0.
  apply resolve_types_driver in Hr' as (_ & Hmin & _); cbn [v_pools v_pool];
    [|by intros ? ?%elem_of_nil|done|done].
  rewrite Hp in Hvp. destruct (Hmin pi Hvp) as [Hin Hle].
  rewrite Hps. split_and!.
  - done.
  - rewrite Hvp0 in Hin. apply list_elem_of_lookup in Hin as [n Hn].
    destruct (Forall2_lookup_r _ _ _ _ _ Hall Hn) as (t & Ht & Hf).
    exists t. split; [by eapply list_elem_of_lookup_2|]. by rewrite <- Hfp.
  - intros t pj p Ht Hf Hpj.
    apply (Hle drv pj p); [by rewrite Hps1| |by rewrite Hps1].
    apply list_elem_of_lookup in Ht as [n Hn].
    destruct (Forall2_lookup_l _ _ _ _ _ Hall Hn) as (pj' & Hpj' & Hf').
    rewrite Hfp in Hf'. assert (pj' = pj) as -> by congruence.
    rewrite Hvp0. by eapply list_elem_of_lookup_2.
Qed.


(** ** Reallocation while a view is open *)

Lemma defers_refl w : defers w w.
Proof. by split_and!. Qed.

Lemma defers_trans w1 w2 w3 : defers w1 w2 → defers w2 w3 → defers w1 w3.
Proof.
  intros (Hd & Hl & Hb) (Hd' & Hl' & Hb'). split_and!.
  - congruence.
  - intros H. etrans; [by apply Hl|]. apply Hl'. by rewrite Hd.
  - intros H. rewrite Hb' by by rewrite Hd. by apply Hb.
Qed.

Lemma defers_same w w' :
  iteration_depth w' = iteration_depth w → live w' = live w →
  delete_buffer w' = delete_buffer w → defers w w'.
Proof. intros Hd Hl Hb. split_and!; [done|by rewrite Hl|done]. Qed.

Lemma alloc_defers w a w1 : alloc w = (a, w1) → defers w w1.
Proof.
  unfold alloc. intros [= <- <-]. split_and!; simpl; [done| |done].
  intros _ x Hx. by right.
Qed.

Lemma free_or_defer_defers (ty : Delete_Type) (a : ptr) w w' :
  free_or_defer ty a w = Some w' → defers w w'.
Proof.
  unfold free_or_defer, push_deletion. destruct (decide (iteration_depth w ≤ 0)).
  - intros [= <-]. split_and!; simpl; [done|lia|done].
  - destruct (decide _); [|done]. intros [= <-].
    split_and!; simpl; [done|done|lia].
Qed.

Lemma add_grow_data_defers p w p1 w1 :
  add_grow_data p w = Some (p1, w1) → defers w w1.
Proof.
  unfold add_grow_data. intros Hg.
  destruct (decide _); [|injection Hg as _ <-; apply defers_refl].
  destruct (alloc w) as [a w0] eqn:Ha. apply alloc_defers in Ha.
  destruct (decide _); [by injection Hg as _ <-|].
  destruct (mem_copy _ _ _); [|done]. simpl in Hg.
  destruct (free_or_defer _ _ _) as [w2|] eqn:Hf; [|done]. simpl in Hg.
  injection Hg as _ <-. eapply defers_trans; [done|].
  by eapply free_or_defer_defers.
Qed.

Lemma add_grow_dense_defers p w p1 w1 :
  add_grow_dense p w = Some (p1, w1) → defers w w1.
Proof.
  unfold add_grow_dense. intros Hg.
  destruct (decide _); [|injection Hg as _ <-; apply defers_refl].
  destruct (alloc w) as [a w0] eqn:Ha. apply alloc_defers in Ha.
  destruct (decide _); [by injection Hg as _ <-|].
  destruct (mem_copy _ _ _); [|done]. simpl in Hg.
  destruct (free_or_defer _ _ _) as [w2|] eqn:Hf; [|done]. simpl in Hg.
  injection Hg as _ <-. eapply defers_trans; [done|].
  by eapply free_or_defer_defers.
Qed.

Lemma add_grow_sparse_defers p w (eid : nat) p1 w1 :
  add_grow_sparse p w eid = Some (p1, w1) → defers w w1.
Proof.
  unfold add_grow_sparse. intros Hg.
  destruct (decide _); [|injection Hg as _ <-; apply defers_refl].
  destruct (alloc w) as [a w0] eqn:Ha. apply alloc_defers in Ha.
  destruct (decide (sparse_ptr p = nullptr)).
  - simpl in Hg. by injection Hg as _ <-.
  - destruct (mem_copy _ _ _); [|done]. simpl in Hg.
    destruct (free_or_defer _ _ _) as [w2|] eqn:Hf; [|done]. simpl in Hg.
    injection Hg as _ <-. eapply defers_trans; [done|].
    by eapply free_or_defer_defers.
Qed.

Lemma Component_Pool_add_defers w (pi : nat) e (n : nat) w' :
  Component_Pool_add w pi e = Some (n, w') → defers w w'.
Proof.
  intros Hadd. unfold Component_Pool_add in Hadd.
  destruct (pools w !! pi) as [p|]; [|done]. simpl in Hadd.
  destruct (add_grow_data p w) as [[p1 w1]|] eqn:H1; [|done]. simpl in Hadd.
  destruct (add_grow_sparse _ w1 _) as [[p3 w3]|] eqn:H3; [|done].
  simpl in Hadd.
  destruct (store (sparse p3) _ _) as [s'|]; [|done]. simpl in Hadd.
  destruct (add_grow_dense _ w3) as [[p5 w5]|] eqn:H5; [|done]. simpl in Hadd.
  destruct (store (dense p5) _ _) as [d''|]; [|done]. simpl in Hadd.
  injection Hadd as _ <-.
  apply add_grow_data_defers in H1. apply add_grow_sparse_defers in H3.
  apply add_grow_dense_defers in H5.
  eapply defers_trans; [done|]. eapply defers_trans; [done|].
  eapply defers_trans; [done|]. by apply defers_same.
Qed.

Lemma get_pool_defers w (T : Comp) (i : nat) w' :
  get_pool w T = Some (i, w') → defers w w'.
Proof.
  unfold get_pool. intros Hg.
  destruct (find_pool w (comp_id T)); [injection Hg as _ <-; apply defers_refl|].
  match type of Hg with
  | ?m ≫= _ = _ => destruct m as [w1|] eqn:Hw1; [|done]
  end.
  simpl in Hg. destruct (pools w1 !! pool_count w1); [|done]. simpl in Hg.
  injection Hg as _ <-.
  assert (Hw : defers w w1).
  { destruct (decide _); [|injection Hw1 as <-; apply defers_refl].
    destruct (alloc w) as [a w0] eqn:Ha. apply alloc_defers in Ha.
    destruct (decide _).
    - injection Hw1 as <-. eapply defers_trans; [done|]. by apply defers_same.
    - destruct (mem_copy _ _ _); [|done]. simpl in Hw1.
      destruct (free_or_defer _ _ _) as [w2|] eqn:Hf; [|done]. simpl in Hw1.
      injection Hw1 as <-. eapply defers_trans; [done|].
      eapply defers_trans; [by eapply free_or_defer_defers|].
      by apply defers_same. }
  eapply defers_trans; [done|]. by apply defers_same.
Qed.

Lemma fire_defers (f : option Hook) w e : defers w (fire run_hook f w e).
Proof. destruct f; by apply defers_same. Qed.

(** X13. Adding a component releases no memory while a view is open:
    with [iteration_depth] above zero every block that was allocated
    before [add<T>] is still allocated after it, the buffers it outgrew
    included; with no view open nothing is queued for later. The depth
    itself is unchanged. *)
Theorem Entity_add_defers (u : U) (ops : list Op) w h (T : Comp)
  (c : list Z) w' :
  run run_hook (World_init u) ops = Some w →
  Entity_add run_hook w h T c = Some w' →
  iteration_depth w' = iteration_depth w ∧
  (0 < iteration_depth w → ∀ a, a ∈ live w → a ∈ live w') ∧
  (iteration_depth w ≤ 0 → delete_buffer w' = delete_buffer w).
Proof.
  intros Hr Hadd.
  pose proof (bi_pools w (run_init_basic u ops w Hr)) as Hinv.
  destruct (Entity_add_unfold w h T c w' Hadd Hinv)
    as (i & w1 & p & n & w3 & p3 & d & _ & Hg & _ & _ & Hcadd & _ & _ & ->).
  assert (Hdef : defers w
            (fire run_hook (on_create p3)
               (set_pool_at w3 i (set_data p3 (data_ptr p3) d (capacity p3))) h)).
  { eapply defers_trans; [by eapply get_pool_defers|].
    eapply defers_trans; [by eapply Component_Pool_add_defers|].
    eapply defers_trans; [|apply fire_defers]. by apply defers_same. }
  destruct Hdef as (Hd & Hl & Hb). split_and!; [done| |done].
  intros Hpos a Ha. by apply (Hl Hpos).
Qed.

(** ** [collect_garbage] *)

Lemma for_range_inv_idx {S : Type} (I : nat → S → Prop)
  (body : nat → S → option S) (n start : nat) (s s' : S) :
  for_range start n body s = Some s' → I start s →
  (∀ i s s', (start ≤ i < start + n)%nat → body i s = Some s' →
             I i s → I (Datatypes.S i) s') →
  I (start + n)%nat s'.
Proof.
  revert start s. induction n as [|n IH]; intros start s Hf Hs Hbody.
  - simpl in Hf. injection Hf as <-. by rewrite Nat.add_0_r.
  - simpl in Hf. destruct (body start s) as [s1|] eqn:Hb; [|done].
    simpl in Hf.
    replace (start + Datatypes.S n)%nat with (Datatypes.S start + n)%nat by lia.
    apply (IH (Datatypes.S start) s1 Hf).
    + apply (Hbody start s s1); [lia|done|done].
    + intros i s2 s3 Hi. apply Hbody. lia.
Qed.

Lemma for_range_fixed {S : Type} (body : nat → S → option S) (n start : nat)
  (s : S) :
  (∀ i, (start ≤ i < start + n)%nat → body i s = Some s) →
  for_range start n body s = Some s.
Proof.
  revert start. induction n as [|n IH]; intros start Hb; simpl; [done|].
  rewrite Hb by lia. simpl. apply IH. intros i Hi. apply Hb. lia.
Qed.

(** What one turn of the loop does to the pools: pool [i] keeps
    everything but its buffer and capacity, the others are untouched. *)
Lemma shrink_pool_frame (i : nat) w w' :
  shrink_pool i w = Some w' →
  same_table w w' ∧ pool_count w' = pool_count w ∧
  iteration_depth w' = iteration_depth w ∧
  delete_buffer w' = delete_buffer w ∧
  length (pools w') = length (pools w) ∧
  (∀ j, j ≠ i → pools w' !! j = pools w !! j) ∧
  ∀ p, pools w !! i = Some p →
    ∃ p', pools w' !! i = Some p' ∧
      sparse p' = sparse p ∧ sparse_capacity p' = sparse_capacity p ∧
      dense p' = dense p ∧ dense_count p' = dense_count p ∧
      count p' = count p ∧ element_size p' = element_size p ∧
      pool_id p' = pool_id p ∧
      (capacity p' ≤ capacity p)%nat ∧
      ¬ (8 < count p' ∧ count p' * 2 < capacity p')%nat ∧
      (∀ k, (k < capacity p')%nat → (k < length (data p))%nat →
            data p' !! k = data p !! k).
Proof.
  intros Hs. unfold shrink_pool in Hs.
  destruct (pools w !! i) as [p|] eqn:Hp; [|done].
  cbn -[alloc mem_copy Nat.modulo] in Hs.
  destruct (decide _) as [[H8 H2]|Hno].
  - unfold alloc in Hs.
    destruct (mem_copy _ _ _) as [copied|] eqn:Hc; [|done].
    cbn -[mem_copy Nat.modulo] in Hs. injection Hs as <-.
    pose proof (Nat.mod_upper_bound (count p) 8 ltac:(lia)) as Hmod.
    split_and!; simpl; try done.
    + by rewrite length_insert.
    + intros j Hj. by rewrite list_lookup_insert_ne.
    + intros q [= <-]. eexists.
      rewrite list_lookup_insert_eq by by eapply lookup_lt_Some.
      split; [done|]. simpl. split_and!; try done.
      * case_decide; lia.
      * case_decide; lia.
      * intros k Hk Hlen. by apply (mem_copy_lookup_lt _ _ _ _ _ Hc).
  - injection Hs as <-. split_and!; try done.
    intros q [= <-]. exists p. split_and!; try done.
Qed.

(** X14. [collect_garbage] never changes what the world holds: every
    handle keeps its validity, no pool is added or dropped, each pool
    keeps its sparse and dense arrays, its count and so its answers to
    [has], and its capacity does not grow and stays at least the count; the
    delete buffer is left empty, and the iteration depth as it was. *)
Theorem collect_garbage_frame (u : U) (ops : list Op) w w' :
  run run_hook (World_init u) ops = Some w →
  collect_garbage w = Some w' →
  (∀ e, Entity_valid w' e = Entity_valid w e) ∧
  pool_count w' = pool_count w ∧
  iteration_depth w' = iteration_depth w ∧
  delete_buffer w' = [] ∧
  ∀ (j : nat) p, pools w !! j = Some p →
    ∃ p', pools w' !! j = Some p' ∧
      sparse p' = sparse p ∧ dense p' = dense p ∧ count p' = count p ∧
      element_size p' = element_size p ∧
      (∀ e, has p' e = has p e) ∧
      (count p' ≤ capacity p' ≤ capacity p)%nat.
Proof.
  intros Hr Hgc.
  pose proof (bi_pools w (run_init_basic u ops w Hr)) as Hinv.
  pose proof (collect_garbage_pool_step w w' Hgc Hinv) as Hstep.
  unfold collect_garbage in Hgc.
  pose proof (commit_deletions_heap_only w) as Hho.
  set (w0 := commit_deletions w) in *.
  assert (HI : pool_count w' = pool_count w ∧
               iteration_depth w' = iteration_depth w ∧
               delete_buffer w' = [] ∧
               ∀ (j : nat) p, pools w !! j = Some p →
                 ∃ p', pools w' !! j = Some p' ∧
                   sparse p' = sparse p ∧
                   sparse_capacity p' = sparse_capacity p ∧
                   dense p' = dense p ∧ count p' = count p ∧
                   element_size p' = element_size p ∧
                   (capacity p' ≤ capacity p)%nat).
  { apply (for_range_inv
             (λ s, pool_count s = pool_count w ∧
                   iteration_depth s = iteration_depth w ∧
                   delete_buffer s = [] ∧
                   ∀ (j : nat) p, pools w !! j = Some p →
                     ∃ p', pools s !! j = Some p' ∧
                       sparse p' = sparse p ∧
                       sparse_capacity p' = sparse_capacity p ∧
                       dense p' = dense p ∧ count p' = count p ∧
                       element_size p' = element_size p ∧
                       (capacity p' ≤ capacity p)%nat)
             _ _ _ _ _ Hgc).
    - split_and!; [apply (ho_pool_count _ _ Hho)|
                   apply (ho_iteration_depth _ _ Hho)|done|].
      intros j p Hp. exists p. rewrite (ho_pools _ _ Hho). by split_and!.
    - intros i s s' Hs (Hpc & Hd & Hb & Hkeep).
      destruct (shrink_pool_frame i s s' Hs)
        as (_ & Hpc' & Hd' & Hb' & _ & Hoth & Hat).
      split_and!; [congruence..|].
      intros j p Hp. destruct (Hkeep j p Hp) as (q & Hq & Hs1 & Hs2 & Hs3 & Hs4 & Hs5 & Hs6).
      destruct (decide (j = i)) as [->|Hne].
      + destruct (Hat q Hq)
          as (q' & Hq' & Ht1 & Ht2 & Ht3 & _ & Ht4 & Ht5 & _ & Ht6 & _).
        exists q'. split_and!; [done|congruence..|lia].
      + exists q. rewrite (Hoth j Hne). by split_and!. }
  destruct HI as (Hpc & Hd & Hb & Hkeep).
  split_and!; [|done..|].
  { intros e. apply same_table_valid. apply (ps_table _ _ Hstep). }
  intros j p Hp.
  destruct (Hkeep j p Hp) as (p' & Hp' & Hs1 & Hs2 & Hs3 & Hs4 & Hs5 & Hs6).
  exists p'. split_and!; try done.
  - intros e. unfold has. by rewrite Hs1, Hs2.
  - apply (pi_cap p' (wi_pools w' (ps_pools _ _ Hstep) j p' Hp')).
Qed.

(** X15. A second [collect_garbage] finds nothing left to do: called
    again right after a call that returned, it leaves the world exactly as
    it is. *)
Theorem collect_garbage_idempotent (u : U) (ops : list Op) w w' :
  run run_hook (World_init u) ops = Some w →
  collect_garbage w = Some w' →
  collect_garbage w' = Some w'.
Proof.
  intros Hr Hgc.
  pose proof (bi_pools w (run_init_basic u ops w Hr)) as Hinv.
  pose proof (collect_garbage_pool_step w w' Hgc Hinv) as Hstep.
  pose proof (ps_pools _ _ Hstep) as Hinv'.
  unfold collect_garbage in Hgc.
  set (w0 := commit_deletions w) in *.
  assert (HI : delete_buffer w' = [] ∧ pool_count w' = pool_count w0 ∧
            length (pools w') = length (pools w0) ∧
            ∀ (j : nat) p, (j < 0 + pool_count w0)%nat →
              pools w' !! j = Some p →
              ¬ (8 < count p ∧ count p * 2 < capacity p)%nat).
  { apply (for_range_inv_idx
             (λ k s, delete_buffer s = [] ∧ pool_count s = pool_count w0 ∧
                     length (pools s) = length (pools w0) ∧
                     ∀ (j : nat) p, (j < k)%nat → pools s !! j = Some p →
                       ¬ (8 < count p ∧ count p * 2 < capacity p)%nat)
             _ _ _ _ _ Hgc).
    - split_and!; [done|done|done|]. intros j p Hj. lia.
    - intros i s s' Hi Hs (Hb & Hpc & Hlen & Hdone).
      destruct (shrink_pool_frame i s s' Hs)
        as (_ & Hpc' & _ & Hb' & Hlen' & Hoth & Hat).
      split_and!; [congruence..|].
      intros j p Hj Hp. destruct (decide (j = i)) as [->|Hne].
      + destruct (lookup_lt_is_Some_2 (pools s) i) as [q Hq].
        { rewrite <- Hlen'. by eapply lookup_lt_Some. }
        destruct (Hat q Hq) as (q' & Hq' & Hrest).
        assert (q' = p) as -> by congruence.
        by destruct Hrest as (_ & _ & _ & _ & _ & _ & _ & _ & Hno & _).
      + rewrite (Hoth j Hne) in Hp. apply (Hdone j p); [lia|done]. }
  destruct HI as (Hb & Hpc & Hlen & Hdone).
  assert (Hcommit : commit_deletions w' = w').
  { unfold commit_deletions. rewrite Hb. simpl.
    destruct w'. simpl in Hb. by rewrite Hb. }
  unfold collect_garbage. rewrite Hcommit.
  apply for_range_fixed. intros i Hi.
  destruct (lookup_lt_is_Some_2 (pools w') i) as [p Hp].
  { pose proof (wi_pools_len w' Hinv'). pose proof (wi_pool_count w' Hinv').
    lia. }
  unfold shrink_pool. rewrite Hp. cbn -[alloc mem_copy Nat.modulo].
  rewrite decide_False; [done|]. apply (Hdone i p); [lia|done].
Qed.

(** ** Ownership of the allocated blocks *)

Lemma heap_ok_perm (own own' pend alive : list ptr) (next : ptr) :
  own ≡ₚ own' → heap_ok own pend alive next → heap_ok own' pend alive next.
Proof. intros Hp (Hl & Hrest). split; [|done]. by rewrite <- Hp. Qed.

Lemma heap_ok_nonnull (own pend alive : list ptr) (next : ptr) (a : ptr) :
  heap_ok own pend alive next → a ∈ alive → a ≠ nullptr.
Proof.
  intros (Hl & _) Ha. rewrite Hl in Ha.
  by apply list_elem_of_filter in Ha as [? _].
Qed.

Lemma filter_all {A : Type} (P : A → Prop) `{∀ x, Decision (P x)} (l : list A) :
  (∀ x, x ∈ l → P x) → filter P l = l.
Proof.
  induction l as [|x l IH]; intros Hall; [done|].
  rewrite filter_cons_True by (apply Hall; by left).
  f_equal. apply IH. intros y Hy. apply Hall. by right.
Qed.

(** A buffer is replaced by a fresh block and released at once. *)
Lemma heap_ok_alloc_free (old : ptr) (rest pend alive : list ptr) (next : ptr) :
  heap_ok (old :: rest) pend alive next →
  heap_ok (next :: rest) pend (filter (λ q, q ≠ old) (next :: alive)) (S next).
Proof.
  intros Hok. pose proof Hok as (Hl & Hnd & Hlt & Hnn).
  assert (Hfresh : next ∉ alive).
  { intros Hin. specialize (Hlt _ Hin). lia. }
  split_and!.
  - simpl. rewrite (filter_cons_True (λ a : ptr, a ≠ nullptr) next) by exact Hnn.
    destruct (decide (old = nullptr)) as [->|Hne].
    + simpl in Hl.
      rewrite (filter_cons_False (λ a : ptr, a ≠ nullptr)) in Hl
        by (intros Hx; by apply Hx).
      rewrite (filter_cons_True (λ q : ptr, q ≠ nullptr) next) by exact Hnn.
      rewrite filter_all; [by rewrite Hl|].
      intros x Hx. by eapply heap_ok_nonnull.
    + simpl in Hl.
      rewrite (filter_cons_True (λ a : ptr, a ≠ nullptr)) in Hl by exact Hne.
      assert (Hold : old ∈ alive) by (rewrite Hl; by left).
      rewrite (filter_cons_True (λ q : ptr, q ≠ old) next)
        by (specialize (Hlt _ Hold); lia).
      apply Permutation_skip. rewrite Hl.
      rewrite (filter_cons_False (λ q : ptr, q ≠ old))
        by (intros Hx; by apply Hx).
      rewrite filter_all; [done|]. intros x Hx ->.
      rewrite Hl in Hnd. by apply NoDup_cons in Hnd as [? _].
  - apply NoDup_filter. by apply NoDup_cons.
  - intros a [_ Ha]%list_elem_of_filter.
    apply elem_of_cons in Ha as [->|Ha]; [lia|]. specialize (Hlt _ Ha). lia.
  - done.
Qed.

(** A buffer is replaced by a fresh block and queued. *)
Lemma heap_ok_alloc_defer (old : ptr) (rest pend alive : list ptr) (next : ptr) :
  old ≠ nullptr →
  heap_ok (old :: rest) pend alive next →
  heap_ok (next :: rest) (pend ++ [old]) (next :: alive) (S next).
Proof.
  intros Hne (Hl & Hnd & Hlt & Hnn). split_and!.
  - simpl. rewrite (filter_cons_True (λ a : ptr, a ≠ nullptr) next) by exact Hnn.
    apply Permutation_skip. rewrite Hl. simpl.
    rewrite (filter_cons_True (λ a : ptr, a ≠ nullptr) old) by exact Hne.
    rewrite app_assoc, (filter_app _ (rest ++ pend)). simpl.
    rewrite (filter_cons_True (λ a : ptr, a ≠ nullptr) old) by exact Hne.
    rewrite filter_nil.
    by rewrite <- Permutation_cons_append.
  - apply NoDup_cons. split; [|done]. intros Hin. specialize (Hlt _ Hin). lia.
  - intros a [->|Ha]%elem_of_cons; [lia|]. specialize (Hlt _ Ha). lia.
  - done.
Qed.

(** A buffer that was not there yet gets a fresh block. *)
Lemma heap_ok_alloc_null (rest pend alive : list ptr) (next : ptr) :
  heap_ok (nullptr :: rest) pend alive next →
  heap_ok (next :: rest) pend (next :: alive) (S next).
Proof.
  intros Hok. pose proof (heap_ok_alloc_free _ _ _ _ _ Hok) as Hok'.
  rewrite filter_all in Hok'; [done|].
  intros x [->|Hx]%elem_of_cons.
  - by destruct Hok as (_ & _ & _ & ?).
  - by apply (heap_ok_nonnull _ _ _ _ x Hok).
Qed.

Lemma heap_ok_next (own pend alive : list ptr) (next next' : ptr) :
  (next ≤ next')%nat → heap_ok own pend alive next → heap_ok own pend alive next'.
Proof.
  intros Hle (Hl & Hnd & Hlt & Hnn). split_and!; [done|done| |].
  - intros a Ha. specialize (Hlt a Ha). lia.
  - unfold nullptr in *. lia.
Qed.

Lemma foldl_filter_NoDup (b : list Deletion_Entry) (l : list ptr) :
  NoDup l → NoDup (foldl (λ l entry, filter (λ q, q ≠ del_ptr entry) l) l b).
Proof.
  revert l. induction b as [|entry b IH]; intros l Hnd; [done|].
  simpl. apply IH. by apply NoDup_filter.
Qed.

(** The blocks waiting are released. *)
Lemma heap_ok_commit (own alive : list ptr) (b : list Deletion_Entry) (next : ptr) :
  heap_ok own (del_ptr <$> b) alive next →
  heap_ok own []
    (foldl (λ l entry, filter (λ q, q ≠ del_ptr entry) l) alive b) next.
Proof.
  intros (Hl & Hnd & Hlt & Hnn).
  assert (Hnd' : NoDup (filter (λ a, a ≠ nullptr) (own ++ (del_ptr <$> b)))).
  { by rewrite <- Hl. }
  rewrite filter_app in Hnd'. apply NoDup_app in Hnd' as (Hown & Hdisj & _).
  split_and!.
  - apply NoDup_Permutation.
    + by apply foldl_filter_NoDup.
    + by rewrite app_nil_r.
    + intros x. rewrite foldl_filter_not_elem, app_nil_r, Hl, filter_app,
        elem_of_app. split.
      * intros [[Hx|Hx] Hno]; [done|].
        apply list_elem_of_filter in Hx as [_ Hx].
        apply list_elem_of_fmap in Hx as (entry & -> & Hentry).
        by destruct (Hno entry Hentry).
      * intros Hx. split; [by left|].
        intros entry Hentry ->. apply (Hdisj _ Hx).
        apply list_elem_of_filter. split.
        -- by apply list_elem_of_filter in Hx as [? _].
        -- apply list_elem_of_fmap. by exists entry.
  - by apply foldl_filter_NoDup.
  - intros a [Ha _]%foldl_filter_not_elem. by apply Hlt.
  - done.
Qed.

Lemma heap_ok_nn (own own' pend alive : list ptr) (next : ptr) :
  filter (λ a, a ≠ nullptr) own ≡ₚ filter (λ a, a ≠ nullptr) own' →
  heap_ok own pend alive next → heap_ok own' pend alive next.
Proof.
  intros Hp (Hl & Hrest). split; [|done].
  rewrite Hl, !filter_app. by rewrite Hp.
Qed.

(** *** The pointers of a world *)

Lemma delete_insert_same {A : Type} (l : list A) (i : nat) (x : A) :
  delete i (<[i := x]> l) = delete i l.
Proof.
  rewrite !delete_take_drop. by rewrite take_insert_ge, drop_insert_lt by lia.
Qed.

Lemma owned_pool w (i : nat) p :
  pools w !! i = Some p → owned w ≡ₚ pool_ptrs p ++ owned_but w i.
Proof.
  intros Hp. unfold owned, owned_but.
  rewrite (delete_Permutation (pools w) i p Hp) at 1. rewrite bind_cons.
  apply (Permutation_app_swap_app [entities_ptr w; pools_ptr w]).
Qed.

Lemma owned_set_pool_at w (i : nat) p' :
  (i < length (pools w))%nat →
  owned (set_pool_at w i p') ≡ₚ pool_ptrs p' ++ owned_but w i.
Proof.
  intros Hi. rewrite (owned_pool (set_pool_at w i p') i p').
  - unfold owned_but. simpl. by rewrite delete_insert_same.
  - simpl. by apply list_lookup_insert_eq.
Qed.

Lemma heap_inv_same w w' :
  owned w' ≡ₚ owned w → pending w' = pending w → live w' = live w →
  (next_addr w ≤ next_addr w')%nat → heap_inv w → heap_inv w'.
Proof.
  unfold heap_inv. intros Ho -> -> Hn Hinv.
  eapply heap_ok_next; [done|]. by eapply heap_ok_perm.
Qed.

Lemma heap_inv_local w (i : nat) p :
  pools w !! i = Some p → heap_inv w ↔ heap_inv (set_pool_at w i p).
Proof.
  intros Hp.
  assert (Ho : owned (set_pool_at w i p) ≡ₚ owned w).
  { rewrite owned_set_pool_at by by eapply lookup_lt_Some.
    by rewrite <- owned_pool. }
  split; intros Hinv.
  - by apply (heap_inv_same w).
  - by apply (heap_inv_same (set_pool_at w i p)).
Qed.

Lemma heap_inv_set_pool_ptrs w (i : nat) p p' :
  (i < length (pools w))%nat → pool_ptrs p' = pool_ptrs p →
  heap_inv (set_pool_at w i p) → heap_inv (set_pool_at w i p').
Proof.
  intros Hi Hptrs. apply heap_inv_same; try done.
  by rewrite !owned_set_pool_at, Hptrs by done.
Qed.

(** One buffer of the pool held in a local is replaced by the block at
    [next_addr]; the old one is released, queued, or was not there. *)
Lemma heap_inv_replace w w' (i : nat) p p' (pre post : list ptr) (old : ptr) :
  (i < length (pools w))%nat →
  pool_ptrs p = pre ++ old :: post →
  pool_ptrs p' = pre ++ next_addr w :: post →
  pools w' = pools w → entities_ptr w' = entities_ptr w →
  pools_ptr w' = pools_ptr w →
  next_addr w' = S (next_addr w) →
  (live w' = filter (λ q, q ≠ old) (next_addr w :: live w) ∧
   pending w' = pending w) ∨
  (old ≠ nullptr ∧ live w' = next_addr w :: live w ∧
   pending w' = pending w ++ [old]) ∨
  (old = nullptr ∧ live w' = next_addr w :: live w ∧
   pending w' = pending w) →
  heap_inv (set_pool_at w i p) → heap_inv (set_pool_at w' i p').
Proof.
  intros Hi Hp Hp' Hps He Hpp Hn Hcase Hinv. unfold heap_inv in *.
  assert (Hob : owned_but w' i = owned_but w i).
  { unfold owned_but. by rewrite Hps, He, Hpp. }
  apply (heap_ok_perm _ (old :: (pre ++ post ++ owned_but w i))) in Hinv.
  2: { rewrite owned_set_pool_at, Hp by done.
       rewrite <- app_assoc. simpl. symmetry. apply Permutation_middle. }
  apply (heap_ok_perm (next_addr w :: (pre ++ post ++ owned_but w i))).
  { rewrite owned_set_pool_at, Hp', Hob by (by rewrite Hps).
    rewrite <- app_assoc. simpl. apply Permutation_middle. }
  change (pending (set_pool_at w' i p')) with (pending w').
  change (live (set_pool_at w' i p')) with (live w').
  change (next_addr (set_pool_at w' i p')) with (next_addr w').
  change (pending (set_pool_at w i p)) with (pending w) in Hinv.
  change (live (set_pool_at w i p)) with (live w) in Hinv.
  change (next_addr (set_pool_at w i p)) with (next_addr w) in Hinv.
  rewrite Hn.
  destruct Hcase as [[-> ->]|[(Hne & -> & ->)|(-> & -> & ->)]].
  - by apply heap_ok_alloc_free.
  - by apply heap_ok_alloc_defer.
  - by apply heap_ok_alloc_null.
Qed.

Lemma add_grow_data_heap p w p1 w1 (i : nat) :
  add_grow_data p w = Some (p1, w1) → (i < length (pools w))%nat →
  heap_inv (set_pool_at w i p) →
  heap_inv (set_pool_at w1 i p1) ∧ pools w1 = pools w.
Proof.
  intros Hg Hi Hinv. unfold add_grow_data in Hg.
  destruct (decide _); [|by injection Hg as <- <-].
  unfold alloc in Hg.
  destruct (decide (data_ptr p = nullptr)) as [Hnull|Hnn].
  - injection Hg as <- <-. split; [|done].
    apply (heap_inv_replace w _ i p _ [sparse_ptr p; dense_ptr p] []
             (data_ptr p)); try done.
    right; right. done.
  - destruct (mem_copy _ _ _); [|done]. cbn [mbind option_bind] in Hg.
    unfold free_or_defer, push_deletion in Hg. simpl in Hg.
    destruct (decide (iteration_depth w ≤ 0)).
    + injection Hg as <- <-. split; [|done].
      apply (heap_inv_replace w _ i p _ [sparse_ptr p; dense_ptr p] []
               (data_ptr p)); try done.
      left. done.
    + destruct (decide _); [|done]. injection Hg as <- <-. split; [|done].
      apply (heap_inv_replace w _ i p _ [sparse_ptr p; dense_ptr p] []
               (data_ptr p)); try done.
      right; left. split_and!; [done|done|].
      unfold pending. simpl. by rewrite fmap_app.
Qed.

Lemma add_grow_dense_heap p w p1 w1 (i : nat) :
  add_grow_dense p w = Some (p1, w1) → (i < length (pools w))%nat →
  heap_inv (set_pool_at w i p) →
  heap_inv (set_pool_at w1 i p1) ∧ pools w1 = pools w.
Proof.
  intros Hg Hi Hinv. unfold add_grow_dense in Hg.
  destruct (decide _); [|by injection Hg as <- <-].
  unfold alloc in Hg.
  destruct (decide (dense_ptr p = nullptr)) as [Hnull|Hnn].
  - injection Hg as <- <-. split; [|done].
    apply (heap_inv_replace w _ i p _ [sparse_ptr p] [data_ptr p]
             (dense_ptr p)); try done.
    right; right. done.
  - destruct (mem_copy _ _ _); [|done]. cbn [mbind option_bind] in Hg.
    unfold free_or_defer, push_deletion in Hg. simpl in Hg.
    destruct (decide (iteration_depth w ≤ 0)).
    + injection Hg as <- <-. split; [|done].
      apply (heap_inv_replace w _ i p _ [sparse_ptr p] [data_ptr p]
               (dense_ptr p)); try done.
      left. done.
    + destruct (decide _); [|done]. injection Hg as <- <-. split; [|done].
      apply (heap_inv_replace w _ i p _ [sparse_ptr p] [data_ptr p]
               (dense_ptr p)); try done.
      right; left. split_and!; [done|done|].
      unfold pending. simpl. by rewrite fmap_app.
Qed.

Lemma add_grow_sparse_heap p w (eid : nat) p1 w1 (i : nat) :
  add_grow_sparse p w eid = Some (p1, w1) → (i < length (pools w))%nat →
  heap_inv (set_pool_at w i p) →
  heap_inv (set_pool_at w1 i p1) ∧ pools w1 = pools w.
Proof.
  intros Hg Hi Hinv. unfold add_grow_sparse in Hg.
  destruct (decide _); [|by injection Hg as <- <-].
  unfold alloc in Hg.
  destruct (decide (sparse_ptr p = nullptr)) as [Hnull|Hnn].
  - cbn [mbind option_bind] in Hg. injection Hg as <- <-. split; [|done].
    apply (heap_inv_replace w _ i p _ [] [dense_ptr p; data_ptr p]
             (sparse_ptr p)); try done.
    right; right. done.
  - destruct (mem_copy _ _ _); [|done]. cbn [mbind option_bind] in Hg.
    unfold free_or_defer, push_deletion in Hg. simpl in Hg.
    destruct (decide (iteration_depth w ≤ 0)).
    + cbn [mbind option_bind] in Hg. injection Hg as <- <-. split; [|done].
      apply (heap_inv_replace w _ i p _ [] [dense_ptr p; data_ptr p]
               (sparse_ptr p)); try done.
      left. done.
    + destruct (decide _); [|done]. cbn [mbind option_bind] in Hg.
      injection Hg as <- <-. split; [|done].
      apply (heap_inv_replace w _ i p _ [] [dense_ptr p; data_ptr p]
               (sparse_ptr p)); try done.
      right; left. split_and!; [done|done|].
      unfold pending. simpl. by rewrite fmap_app.
Qed.

Lemma Component_Pool_add_heap w (pi : nat) e (n : nat) w' :
  Component_Pool_add w pi e = Some (n, w') → heap_inv w → heap_inv w'.
Proof.
  intros Hadd Hinv. unfold Component_Pool_add in Hadd.
  destruct (pools w !! pi) as [p|] eqn:Hp; [|done]. simpl in Hadd.
  assert (Hi : (pi < length (pools w))%nat) by by eapply lookup_lt_Some.
  apply (heap_inv_local w pi p Hp) in Hinv.
  destruct (add_grow_data p w) as [[p1 w1]|] eqn:H1; [|done]. simpl in Hadd.
  destruct (add_grow_data_heap p w p1 w1 pi H1 Hi Hinv) as [Hinv1 Hps1].
  assert (Hi1 : (pi < length (pools w1))%nat) by by rewrite Hps1.
  apply (heap_inv_set_pool_ptrs w1 pi p1 (set_count p1 (S (count p1))) Hi1)
    in Hinv1; [|done].
  destruct (add_grow_sparse _ w1 _) as [[p3 w3]|] eqn:H3; [|done].
  simpl in Hadd.
  destruct (add_grow_sparse_heap _ w1 _ p3 w3 pi H3 Hi1 Hinv1) as [Hinv3 Hps3].
  assert (Hi3 : (pi < length (pools w3))%nat) by by rewrite Hps3.
  destruct (store (sparse p3) _ _) as [s'|]; [|done]. simpl in Hadd.
  apply (heap_inv_set_pool_ptrs w3 pi p3
           (set_sparse p3 (sparse_ptr p3) s' (sparse_capacity p3)) Hi3)
    in Hinv3; [|done].
  destruct (add_grow_dense _ w3) as [[p5 w5]|] eqn:H5; [|done]. simpl in Hadd.
  destruct (add_grow_dense_heap _ w3 p5 w5 pi H5 Hi3 Hinv3) as [Hinv5 Hps5].
  assert (Hi5 : (pi < length (pools w5))%nat) by by rewrite Hps5.
  destruct (store (dense p5) _ _) as [d''|]; [|done]. simpl in Hadd.
  injection Hadd as _ <-.
  by apply (heap_inv_set_pool_ptrs w5 pi p5).
Qed.

Lemma default_ptrs_null (k : nat) :
  filter (λ a, a ≠ nullptr) (replicate k Component_Pool_default ≫= pool_ptrs) = [].
Proof.
  induction k as [|k IH]; [done|]. cbn [replicate]. rewrite bind_cons.
  rewrite filter_app, IH, app_nil_r. done.
Qed.

Lemma heap_inv_fire (f : option Hook) w e :
  heap_inv w → heap_inv (fire run_hook f w e).
Proof. destruct f; [|done]. by apply heap_inv_same. Qed.

Lemma get_pool_heap w (T : Comp) (i : nat) w' :
  get_pool w T = Some (i, w') → pools_inv w → heap_inv w → heap_inv w'.
Proof.
  intros Hg Hpinv Hinv. unfold get_pool in Hg.
  destruct (find_pool w (comp_id T)); [by injection Hg as _ <-|].
  match type of Hg with
  | ?m ≫= _ = _ => destruct m as [w1|] eqn:Hw1; [|done]
  end.
  cbn [mbind option_bind] in Hg.
  destruct (pools w1 !! pool_count w1) as [p|] eqn:Hp; [|done].
  cbn [mbind option_bind] in Hg. injection Hg as _ <-.
  assert (Hinv1 : heap_inv w1).
  { destruct (decide _); [|by injection Hw1 as <-].
    unfold alloc in Hw1.
    pose proof (wi_pools_len w Hpinv) as Hlen.
    destruct (decide (pools_ptr w = nullptr)) as [Hnull|Hnn].
    - injection Hw1 as <-.
      pose proof (wi_pools_null w Hpinv Hnull) as Hcap.
      assert (Hnil : pools w = []).
      { apply length_zero_iff_nil. lia. }
      unfold heap_inv in *. simpl.
      apply (heap_ok_nn [next_addr w; entities_ptr w]).
      { unfold owned. simpl.
        rewrite (filter_cons (λ a : ptr, a ≠ nullptr) (entities_ptr w)
                   (next_addr w :: _)).
        rewrite (filter_cons (λ a : ptr, a ≠ nullptr) (next_addr w)
                   (replicate _ _ ≫= _)).
        rewrite default_ptrs_null.
        rewrite (filter_cons (λ a : ptr, a ≠ nullptr) (next_addr w)),
          (filter_cons (λ a : ptr, a ≠ nullptr) (entities_ptr w)), filter_nil.
        destruct (decide (next_addr w ≠ nullptr)),
                 (decide (entities_ptr w ≠ nullptr)); try done.
        apply Permutation_swap. }
      apply heap_ok_alloc_null.
      eapply heap_ok_perm; [|exact Hinv].
      unfold owned. rewrite Hnil, Hnull. apply Permutation_swap.
    - destruct (mem_copy _ _ _) as [copied|] eqn:Hc; [|done].
      cbn [mbind option_bind] in Hw1.
      apply mem_copy_inv in Hc as (_ & Hle & ->).
      rewrite length_replicate in Hle.
      assert (Hcopied :
        filter (λ a, a ≠ nullptr)
          ((take (pool_capacity w) (pools w) ++
            drop (pool_capacity w)
              (replicate (grow (pool_capacity w)) Component_Pool_default))
           ≫= pool_ptrs)
        = filter (λ a, a ≠ nullptr) (pools w ≫= pool_ptrs)).
      { rewrite take_ge by lia. rewrite drop_replicate, bind_app, filter_app.
        by rewrite default_ptrs_null, app_nil_r. }
      assert (Hold : owned w ≡ₚ
                pools_ptr w :: entities_ptr w :: (pools w ≫= pool_ptrs)).
      { unfold owned. apply Permutation_swap. }
      assert (Hnew : ∀ bs : list ptr,
        filter (λ a, a ≠ nullptr) (next_addr w :: entities_ptr w :: bs) ≡ₚ
        filter (λ a, a ≠ nullptr) (entities_ptr w :: next_addr w :: bs)).
      { intros bs. by rewrite Permutation_swap. }
      unfold free_or_defer, push_deletion in Hw1. simpl in Hw1.
      destruct (decide (iteration_depth w ≤ 0)).
      + injection Hw1 as <-. unfold heap_inv in *. simpl.
        apply (heap_ok_nn (next_addr w :: entities_ptr w ::
                           (pools w ≫= pool_ptrs))).
        { rewrite Hnew. unfold owned. simpl.
          rewrite !(filter_cons (λ a : ptr, a ≠ nullptr) _ (_ :: _)).
          rewrite !(filter_cons (λ a : ptr, a ≠ nullptr) _ (_ ≫= _)).
          by rewrite Hcopied. }
        apply heap_ok_alloc_free. by eapply heap_ok_perm.
      + destruct (decide _); [|done]. injection Hw1 as <-.
        unfold heap_inv in *. simpl.
        apply (heap_ok_nn (next_addr w :: entities_ptr w ::
                           (pools w ≫= pool_ptrs))).
        { rewrite Hnew. unfold owned. simpl.
          rewrite !(filter_cons (λ a : ptr, a ≠ nullptr) _ (_ :: _)).
          rewrite !(filter_cons (λ a : ptr, a ≠ nullptr) _ (_ ≫= _)).
          by rewrite Hcopied. }
        unfold pending. simpl. rewrite fmap_app. simpl.
        apply heap_ok_alloc_defer; [done|]. by eapply heap_ok_perm. }
  apply (heap_inv_same
           (set_pool_at w1 (pool_count w1)
              (Component_Pool_init p (comp_id T) (comp_size T)))); try done.
  apply (heap_inv_set_pool_ptrs w1 (pool_count w1) p);
    [by eapply lookup_lt_Some|done|].
  by apply (heap_inv_local w1 (pool_count w1) p).
Qed.

Lemma new_entity_heap w e w' :
  new_entity w = Some (e, w') → heap_inv w → heap_inv w'.
Proof.
  intros Hnew Hinv. unfold new_entity in Hnew.
  set (w1 := set_alive_count w (wrap64 (alive_count w + 1))) in *.
  assert (Hinv1 : heap_inv w1) by by apply (heap_inv_same w).
  clearbody w1. clear Hinv.
  destruct (decide _).
  - unfold generate_entity in Hnew.
    match type of Hnew with
    | ?m ≫= _ = _ => destruct m as [w2|] eqn:Hw2; [|done]
    end.
    cbn [mbind option_bind] in Hnew.
    destruct (store _ _ _) as [es|]; [|done]. cbn [mbind option_bind] in Hnew.
    injection Hnew as _ <-.
    apply (heap_inv_same w2); try done.
    destruct (decide _); [|by injection Hw2 as <-].
    unfold alloc in Hw2.
    destruct (mem_copy _ _ _) as [copied|]; [|done].
    cbn [mbind option_bind] in Hw2. injection Hw2 as <-.
    unfold heap_inv in *. simpl. unfold owned. simpl.
    by apply heap_ok_alloc_free.
  - unfold recycle_entity in Hnew.
    destruct (load _ _) as [cur|]; [|done]. cbn [mbind option_bind] in Hnew.
    destruct (store _ _ _) as [es|]; [|done]. cbn [mbind option_bind] in Hnew.
    injection Hnew as _ <-. by apply (heap_inv_same w1).
Qed.

Lemma shrink_pool_heap (i : nat) w w' :
  shrink_pool i w = Some w' → heap_inv w → heap_inv w'.
Proof.
  intros Hs Hinv. unfold shrink_pool in Hs.
  destruct (pools w !! i) as [p|] eqn:Hp; [|done].
  cbn -[alloc mem_copy Nat.modulo] in Hs.
  destruct (decide _); [|by injection Hs as <-].
  unfold alloc in Hs.
  destruct (mem_copy _ _ _) as [copied|]; [|done].
  cbn -[mem_copy Nat.modulo] in Hs. injection Hs as <-.
  apply (heap_inv_local w i p Hp) in Hinv.
  apply (heap_inv_replace w _ i p _ [sparse_ptr p; dense_ptr p] []
           (data_ptr p)); try done.
  - by eapply lookup_lt_Some.
  - left. done.
Qed.

Lemma commit_deletions_heap w : heap_inv w → heap_inv (commit_deletions w).
Proof.
  intros Hinv. unfold heap_inv in *.
  unfold commit_deletions. rewrite foldl_delete_arr. simpl.
  by apply heap_ok_commit.
Qed.

Lemma collect_garbage_heap w w' :
  collect_garbage w = Some w' → heap_inv w → heap_inv w'.
Proof.
  intros Hgc Hinv. unfold collect_garbage in Hgc.
  apply (for_range_inv heap_inv _ _ _ _ _ Hgc).
  - by apply commit_deletions_heap.
  - intros i s s' Hs. by apply (shrink_pool_heap i).
Qed.

Lemma swap_pop_ptrs p e p' : swap_pop p e = Some p' → pool_ptrs p' = pool_ptrs p.
Proof.
  unfold swap_pop. intros H.
  destruct (load (sparse p) (slot e)); [|done]. cbn [mbind option_bind] in H.
  destruct (decide (dense_count p = 0)%nat); [done|].
  destruct (load (dense p) _); [|done]. cbn [mbind option_bind] in H.
  destruct (store (sparse p) _ _); [|done]. cbn [mbind option_bind] in H.
  destruct (decide (0 ≤ _)); [|done].
  destruct (store (dense p) _ _); [|done]. cbn [mbind option_bind] in H.
  destruct (store _ _ _); [|done]. cbn [mbind option_bind] in H.
  destruct (decide (count p = 0)%nat); [done|].
  destruct (mem_move _ _ _ _); [|done]. cbn [mbind option_bind] in H.
  by injection H as <-.
Qed.

Lemma Component_Pool_remove_heap w (pi : nat) e w' :
  Component_Pool_remove run_hook w pi e = Some w' → heap_inv w → heap_inv w'.
Proof.
  intros Hrem Hinv. unfold Component_Pool_remove in Hrem.
  destruct (pools w !! pi) as [p|] eqn:Hp; [|done].
  cbn [mbind option_bind] in Hrem.
  destruct (swap_pop p e) as [p'|] eqn:Hsp; [|done].
  cbn [mbind option_bind] in Hrem. injection Hrem as <-.
  apply (heap_inv_fire (on_destroy p) w e) in Hinv.
  apply (heap_inv_set_pool_ptrs _ pi p).
  - rewrite fire_pools. by eapply lookup_lt_Some.
  - by eapply swap_pop_ptrs.
  - apply (heap_inv_local (fire run_hook (on_destroy p) w e) pi p);
      [by rewrite fire_pools|done].
Qed.

Lemma Entity_destroy_heap w h w' :
  Entity_destroy run_hook w h = Some w' → heap_inv w → heap_inv w'.
Proof.
  intros Hd Hinv. unfold Entity_destroy in Hd.
  destruct (Entity_valid w h); [|done].
  destruct (for_range _ _ _ _) as [w1|] eqn:Hloop; [|done].
  cbn [mbind option_bind] in Hd.
  unfold release_entity in Hd.
  destruct (store _ _ _) as [es|]; [|done]. cbn [mbind option_bind] in Hd.
  injection Hd as <-.
  apply (heap_inv_same w1); try done.
  apply (for_range_inv heap_inv _ _ _ _ _ Hloop Hinv).
  intros i s s' Hs Hinvs. unfold destroy_step in Hs.
  destruct (pools s !! i) as [p|]; [|done]. cbn [mbind option_bind] in Hs.
  destruct (has p h); [|by injection Hs as <-].
  by eapply Component_Pool_remove_heap.
Qed.

Lemma Entity_add_heap w h (T : Comp) (c : list Z) w' :
  Entity_add run_hook w h T c = Some w' → pools_inv w →
  heap_inv w → heap_inv w'.
Proof.
  intros Hadd Hpinv Hinv.
  destruct (Entity_add_unfold w h T c w' Hadd Hpinv)
    as (i & w1 & p & n & w3 & p3 & d & _ & Hg & _ & _ & Hcadd & Hp3 & _ & ->).
  apply heap_inv_fire.
  apply (heap_inv_set_pool_ptrs w3 i p3); [by eapply lookup_lt_Some|done|].
  apply (heap_inv_local w3 i p3); [done|].
  eapply Component_Pool_add_heap; [done|]. by eapply get_pool_heap.
Qed.

Lemma Entity_remove_heap w h (T : Comp) w' :
  Entity_remove run_hook w h T = Some w' → pools_inv w →
  heap_inv w → heap_inv w'.
Proof.
  intros Hrem Hpinv Hinv.
  destruct (Entity_remove_spec w h T w' Hrem Hpinv)
    as (_ & i & w1 & p & p' & Hg & Hp & _ & _ & Hsp & ->).
  apply (heap_inv_set_pool_ptrs _ i p).
  - rewrite fire_pools. by eapply lookup_lt_Some.
  - by eapply swap_pop_ptrs.
  - apply (heap_inv_local (fire run_hook (on_destroy p) w1 h) i p);
      [by rewrite fire_pools|].
    apply heap_inv_fire. by eapply get_pool_heap.
Qed.

Lemma step_heap w (o : Op) w' :
  pools_inv w → step run_hook w o = Some w' → heap_inv w → heap_inv w'.
Proof.
  intros Hpinv Hs Hinv. destruct o; simpl in Hs.
  - destruct (new_entity w) as [[e w1]|] eqn:Hnew; [|done].
    injection Hs as <-. by eapply new_entity_heap.
  - by eapply Entity_destroy_heap.
  - destruct (Entity_has w h T) as [[b w1]|] eqn:Hh; [|done].
    injection Hs as <-.
    apply Entity_has_spec in Hh as (_ & i & p & Hg & _).
    by eapply get_pool_heap.
  - by eapply Entity_add_heap.
  - destruct (Entity_get w h T) as [[r w1]|] eqn:Hget; [|done].
    injection Hs as <-. unfold Entity_get in Hget.
    destruct (Entity_valid w h); [|done].
    destruct (Entity_has w h T) as [[b w2]|] eqn:Hh; [|done].
    cbn [mbind option_bind] in Hget. destruct b; [|done].
    apply Entity_has_spec in Hh as (_ & i & p & Hg & Hp & _).
    rewrite (get_pool_idem w T i w2 Hg Hpinv) in Hget.
    cbn [mbind option_bind] in Hget. rewrite Hp in Hget.
    cbn [mbind option_bind] in Hget.
    destruct (Component_Pool_get p h); [|done].
    cbn [mbind option_bind] in Hget. injection Hget as _ <-.
    by eapply get_pool_heap.
  - by eapply Entity_remove_heap.
  - unfold set_create_func in Hs.
    destruct (get_pool w T) as [[i w1]|] eqn:Hg; [|done].
    cbn [mbind option_bind] in Hs.
    destruct (pools w1 !! i) as [p|] eqn:Hp; [|done].
    injection Hs as <-.
    apply (heap_inv_set_pool_ptrs w1 i p); [by eapply lookup_lt_Some|done|].
    apply (heap_inv_local w1 i p); [done|]. by eapply get_pool_heap.
  - unfold set_destroy_func in Hs.
    destruct (get_pool w T) as [[i w1]|] eqn:Hg; [|done].
    cbn [mbind option_bind] in Hs.
    destruct (pools w1 !! i) as [p|] eqn:Hp; [|done].
    injection Hs as <-.
    apply (heap_inv_set_pool_ptrs w1 i p); [by eapply lookup_lt_Some|done|].
    apply (heap_inv_local w1 i p); [done|]. by eapply get_pool_heap.
  - by eapply collect_garbage_heap.
  - destruct (new_view w types) as [[v w1]|] eqn:Hv; [|done].
    injection Hs as <-. apply new_view_world in Hv as ->.
    by apply (heap_inv_same w).
  - injection Hs as <-. unfold View_valid.
    destruct (negb _); [done|]. simpl.
    destruct (decide _); simpl.
    + apply commit_deletions_heap. by apply (heap_inv_same w).
    + by apply (heap_inv_same w).
Qed.

Lemma heap_inv_init (u : U) : heap_inv (World_init u).
Proof.
  unfold heap_inv, heap_ok. simpl. split_and!; [done|apply NoDup_nil_2| |done].
  by intros a ?%elem_of_nil.
Qed.

Lemma run_heap w (ops : list Op) w' :
  basic_inv w → run run_hook w ops = Some w' → heap_inv w → heap_inv w'.
Proof.
  revert w. induction ops as [|o ops IH]; intros w Hb Hr Hinv; simpl in Hr.
  - by injection Hr as <-.
  - destruct (step run_hook w o) as [w1|] eqn:Hs; [|done]. simpl in Hr.
    pose proof (step_basic w o w1 Hb Hs) as [Hb1 _].
    apply (IH w1 Hb1 Hr). by eapply step_heap; [apply (bi_pools w Hb)|..].
Qed.

(** X17. No block is leaked and none is shared: after any sequence of
    calls the allocated blocks are, each exactly once, the buffers the
    world and its pools point to and the blocks waiting in the delete
    buffer; so every buffer pointer that is not null points to an
    allocated block, and no two of them point to the same one. *)
Theorem heap_blocks_owned (u : U) (ops : list Op) w :
  run run_hook (World_init u) ops = Some w →
  live w ≡ₚ filter (λ a, a ≠ nullptr) (owned w ++ pending w) ∧
  NoDup (live w) ∧
  (∀ a, a ∈ owned w → a ≠ nullptr → a ∈ live w) ∧
  (∀ a, a ∈ live w → a ∈ owned w ∨ a ∈ pending w).
Proof.
  intros Hr.
  pose proof (run_heap (World_init u) ops w
                (world_inv_basic _ (world_inv_init u)) Hr (heap_inv_init u))
    as (Hl & Hnd & _).
  split_and!; [done|done| |].
  - intros a Ha Hne. rewrite Hl. apply list_elem_of_filter. split; [done|].
    apply elem_of_app. by left.
  - intros a Ha. rewrite Hl in Ha.
    apply list_elem_of_filter in Ha as [_ Ha]. by apply elem_of_app in Ha.
Qed.

(** *** The destructor *)

Lemma deinit_hooks_total (f : Hook) p w :
  pool_inv p →
  ∃ w1, for_range 0 (dense_count p)
          (λ k w', d ← load (dense p) k; Some (fire run_hook (Some f) w' d)) w
        = Some w1 ∧
        live w1 = live w ∧ pools w1 = pools w ∧
        entities_ptr w1 = entities_ptr w ∧ pools_ptr w1 = pools_ptr w.
Proof.
  intros Hpinv.
  destruct (for_range_total
    (λ (_ : nat) w1, live w1 = live w ∧ pools w1 = pools w ∧
                     entities_ptr w1 = entities_ptr w ∧
                     pools_ptr w1 = pools_ptr w)
    (λ k w', d ← load (dense p) k; Some (fire run_hook (Some f) w' d))
    (dense_count p) 0 w) as (w1 & Hf & HI); [done| |by exists w1].
  intros k s Hk HI.
  destruct (pi_dense p Hpinv k ltac:(lia)) as (d & Hd & _).
  rewrite Hd. cbn [mbind option_bind]. eexists. split; [done|]. done.
Qed.

Lemma Component_Pool_deinit_spec (i : nat) w p :
  pools w !! i = Some p → pool_inv p →
  ∃ w1, Component_Pool_deinit run_hook i w = Some w1 ∧
        pools w1 = pools w ∧ entities_ptr w1 = entities_ptr w ∧
        pools_ptr w1 = pools_ptr w ∧
        live w1 = filter (λ q, q ≠ data_ptr p)
                    (filter (λ q, q ≠ dense_ptr p)
                       (filter (λ q, q ≠ sparse_ptr p) (live w))).
Proof.
  intros Hp Hpinv. unfold Component_Pool_deinit. rewrite Hp.
  cbn [mbind option_bind].
  destruct (on_destroy p) as [f|].
  - destruct (deinit_hooks_total f p w Hpinv) as (w1 & -> & Hl & Hps & He & Hpp).
    cbn [mbind option_bind]. eexists. split; [done|]. simpl.
    by rewrite Hl.
  - cbn [mbind option_bind]. eexists. split; [done|]. done.
Qed.

(** X18. The destructor releases what the world owns and nothing
    else: on the world any sequence of calls leaves, [~World] runs to its
    end, and the blocks still allocated afterwards are exactly the blocks
    that were waiting in the delete buffer. A world with an empty delete
    buffer is destroyed without a leak; one destroyed while deferred frees
    are pending leaks them. *)
Theorem World_destroy_releases (u : U) (ops : list Op) w :
  run run_hook (World_init u) ops = Some w →
  ∃ w', World_destroy run_hook w = Some w' ∧
        live w' ≡ₚ filter (λ a, a ≠ nullptr) (pending w) ∧
        (delete_buffer w = [] → live w' = []).
Proof.
  intros Hr.
  pose proof (run_init_basic u ops w Hr) as Hb.
  pose proof (bi_pools w Hb) as Hpinv.
  pose proof (run_heap (World_init u) ops w
                (world_inv_basic _ (world_inv_init u)) Hr (heap_inv_init u))
    as (Hl & Hnd & _).
  pose proof (wi_pools_len w Hpinv) as Hlen.
  pose proof (wi_pool_count w Hpinv) as Hcnt.
  destruct (for_range_total
    (λ (k : nat) s, pools s = pools w ∧ entities_ptr s = entities_ptr w ∧
                    pools_ptr s = pools_ptr w ∧ NoDup (live s) ∧
                    ∀ a, a ∈ live s ↔
                         a ∈ live w ∧ a ∉ take k (pools w) ≫= pool_ptrs)
    (Component_Pool_deinit run_hook) (pool_count w) 0 w) as (w1 & Hf & HI).
  { split_and!; [done..|]. intros a. split; [|by intros [? _]].
    intros Ha. split; [done|]. by intros ?%elem_of_nil. }
  { intros i s Hi (Hps & He & Hpp & Hnds & Hlive).
    destruct (lookup_lt_is_Some_2 (pools w) i ltac:(lia)) as [p Hp].
    pose proof (wi_pools w Hpinv i p Hp) as Hp_inv.
    destruct (Component_Pool_deinit_spec i s p) as (s' & -> & Hps' & He' & Hpp' & Hl');
      [by rewrite Hps|done|].
    eexists. split; [done|]. split_and!; [congruence..| |].
    - rewrite Hl'. by do 3 apply NoDup_filter.
    - intros a. rewrite Hl', !list_elem_of_filter, Hlive.
      rewrite (take_S_r _ _ p Hp), bind_app, elem_of_app.
      assert (Hone : a ∈ [p] ≫= pool_ptrs ↔
                a = sparse_ptr p ∨ a = dense_ptr p ∨ a = data_ptr p).
      { rewrite list_elem_of_bind. unfold pool_ptrs. split.
        - intros (q & Hq & Hin). apply list_elem_of_singleton in Hin as ->.
          rewrite !elem_of_cons, elem_of_nil in Hq. tauto.
        - intros Ha. exists p. split; [|by left].
          rewrite !elem_of_cons, elem_of_nil. tauto. }
      rewrite Hone. tauto. }
  simpl in HI. destruct HI as (Hps & He & Hpp & Hnd1 & Hlive).
  unfold World_destroy. rewrite Hf. cbn [mbind option_bind].
  eexists. split; [done|]. simpl.
  assert (Hmem : ∀ a, a ∈ filter (λ q, q ≠ entities_ptr w1)
                            (filter (λ q, q ≠ pools_ptr w1) (live w1)) ↔
                      a ∈ filter (λ a, a ≠ nullptr) (pending w)).
  { intros a. rewrite !list_elem_of_filter, Hlive, He, Hpp.
    assert (Hnd' : NoDup (filter (λ a, a ≠ nullptr) (owned w ++ pending w))).
    { by rewrite <- Hl. }
    rewrite filter_app in Hnd'. apply NoDup_app in Hnd' as (_ & Hdisj & _).
    assert (Hown : a ≠ nullptr →
              a ∈ owned w ↔
              a = entities_ptr w ∨ a = pools_ptr w ∨
              a ∈ take (pool_count w) (pools w) ≫= pool_ptrs).
    { intros Hne. unfold owned. rewrite !elem_of_cons.
      rewrite <- (take_drop (pool_count w) (pools w)) at 1.
      rewrite bind_app, elem_of_app.
      assert (Htail : a ∉ drop (pool_count w) (pools w) ≫= pool_ptrs).
      { intros (p & Hin & Hp)%list_elem_of_bind.
        apply list_elem_of_lookup in Hp as [k Hk].
        rewrite lookup_drop in Hk.
        rewrite (wi_tail w Hpinv (pool_count w + k)%nat p) in Hin by (lia || done).
        unfold pool_ptrs in Hin. simpl in Hin.
        rewrite !elem_of_cons, elem_of_nil in Hin. tauto. }
      tauto. }
    rewrite Hl, filter_app, elem_of_app, !list_elem_of_filter. split.
    - intros (Hne1 & Hne2 & [[Hne Hin]|[Hne Hin]] & Hnot); [|done].
      apply (Hown Hne) in Hin. tauto.
    - intros [Hne Hin].
      assert (Hno : a ∉ owned w).
      { intros Ho. apply (Hdisj a); by apply list_elem_of_filter. }
      split_and!.
      + intros ->. apply Hno. unfold owned. by left.
      + intros ->. apply Hno. unfold owned. right. by left.
      + by right.
      + intros Hin'. apply Hno. apply (Hown Hne). by right; right. }
  split.
  - apply NoDup_Permutation; [by do 2 apply NoDup_filter| |done].
    assert (Hnd' : NoDup (filter (λ a, a ≠ nullptr) (owned w ++ pending w))).
    { by rewrite <- Hl. }
    rewrite filter_app in Hnd'. by apply NoDup_app in Hnd' as (_ & _ & ?).
  - intros Hempty.
    apply elem_of_nil_inv. intros a Ha. apply Hmem in Ha.
    unfold pending in Ha. rewrite Hempty in Ha. by apply elem_of_nil in Ha.
Qed.

(** ** Hooks that call the world *)

Section Asking.
Context (asks : Hook → list Comp).

(** A hook that asks nothing is a hook that leaves the world alone. *)
Lemma fire_asking_observer (h : option Hook) w e :
  (∀ f, asks f = []) →
  fire_asking run_hook asks h w e = Some (fire run_hook h w e).
Proof. intros Ha. destruct h as [f|]; [|done]. simpl. by rewrite (Ha f). Qed.

Lemma Component_Pool_remove_this_observer w (pi : nat) e :
  (∀ f, asks f = []) →
  Component_Pool_remove_this run_hook asks w pi e =
  Component_Pool_remove run_hook w pi e.
Proof.
  intros Ha. unfold Component_Pool_remove_this, Component_Pool_remove.
  destruct (pools w !! pi) as [p|] eqn:Hp; [|done]. simpl.
  rewrite (fire_asking_observer _ _ _ Ha). simpl.
  assert (Hptr : pools_ptr (fire run_hook (on_destroy p) w e) = pools_ptr w)
    by by destruct (on_destroy p).
  rewrite decide_True by done.
  by rewrite fire_pools, Hp.
Qed.

Lemma Entity_remove_asking_observer w h (T : Comp) :
  (∀ f, asks f = []) →
  Entity_remove_asking run_hook asks w h T = Entity_remove run_hook w h T.
Proof.
  intros Ha. unfold Entity_remove_asking, Entity_remove.
  destruct (Entity_valid w h); [|done].
  destruct (Entity_has w h T) as [[[] w1]|]; [|done..]. simpl.
  destruct (get_pool w1 T) as [[i w2]|]; [|done]. simpl.
  by apply Component_Pool_remove_this_observer.
Qed.

(** [get_pool] for a type without a pool when the pool array is full:
    the array is replaced by a fresh block, and the old block is queued
    or released. *)
Lemma get_pool_moves_array w (T : Comp) w0 :
  pools_inv w → find_pool w (comp_id T) = None →
  (pool_capacity w ≤ pool_count w)%nat → pools_ptr w ≠ nullptr →
  free_or_defer COMPONENT_POOL (pools_ptr w)
    (set_heap w (S (next_addr w)) (next_addr w :: live w)) = Some w0 →
  ∃ w', get_pool w T = Some (pool_count w, w') ∧
    pools_ptr w' = next_addr w ∧ live w' = live w0 ∧
    delete_buffer w' = delete_buffer w0 ∧
    is_Some (pools w' !! pool_count w) ∧
    (∀ i, (i < pool_count w)%nat → pools w' !! i = pools w !! i).
Proof.
  intros Hinv Hf Hfull Hnn Hfd.
  pose proof (wi_pools_len w Hinv) as Hlen.
  pose proof (wi_pool_count w Hinv) as Hcnt.
  pose proof (grow_gt (pool_capacity w)) as Hgr.
  pose proof (free_or_defer_heap_only _ _ _ _ Hfd) as Hho.
  assert (Hps : pools w0 = pools w) by by destruct Hho.
  assert (Hpc : pool_count w0 = pool_count w) by by destruct Hho.
  unfold get_pool. rewrite Hf. rewrite decide_True by done.
  unfold alloc. cbv beta iota zeta.
  rewrite decide_False by done.
  unfold mem_copy. rewrite decide_True by (rewrite length_replicate; lia).
  simpl. rewrite Hfd. simpl. rewrite Hpc.
  rewrite take_ge by lia. rewrite drop_replicate.
  rewrite lookup_app_r by lia.
  rewrite lookup_replicate_2 by lia. simpl.
  eexists. split; [done|]. simpl. split_and!; try done.
  - apply lookup_lt_is_Some. rewrite length_insert, length_app, length_replicate.
    lia.
  - intros i Hi. rewrite list_lookup_insert_ne by lia.
    rewrite lookup_app_l by lia. done.
Qed.

(** What the one query [e.has<T>()] of a hook does to a world whose pool
    array is full, for a type [T] without a pool. *)
Lemma ask_moves_array w (T : Comp) e w0 :
  pools_inv w → Entity_valid w e = true →
  find_pool w (comp_id T) = None →
  (pool_capacity w ≤ pool_count w)%nat → pools_ptr w ≠ nullptr →
  free_or_defer COMPONENT_POOL (pools_ptr w)
    (set_heap w (S (next_addr w)) (next_addr w :: live w)) = Some w0 →
  ∃ w', ask_all [T] w e = Some w' ∧
    pools_ptr w' = next_addr w ∧ live w' = live w0 ∧
    (∀ i, (i < pool_count w)%nat → pools w' !! i = pools w !! i).
Proof.
  intros Hinv Hv Hf Hfull Hnn Hfd.
  destruct (get_pool_moves_array w T w0 Hinv Hf Hfull Hnn Hfd)
    as (w' & Hg & Hptr & Hlive & _ & [q Hq] & Hsame).
  exists w'. split; [|done].
  simpl. unfold Entity_has. rewrite Hv, Hg. simpl. by rewrite Hq.
Qed.

Lemma has_lt_pool_count w (pi : nat) p e :
  pools_inv w → pools w !! pi = Some p → has p e = true → (pi < pool_count w)%nat.
Proof.
  intros Hinv Hp Hhas.
  destruct (decide (pi < pool_count w)%nat) as [|Hge]; [done|].
  rewrite (wi_tail w Hinv pi p) in Hhas by (lia || done).
  by rewrite has_default in Hhas.
Qed.

Lemma pools_ptr_live w (pi : nat) p :
  pools_inv w → heap_inv w → pools w !! pi = Some p →
  pools_ptr w ≠ nullptr ∧ pools_ptr w ∈ live w ∧ (pools_ptr w < next_addr w)%nat.
Proof.
  intros Hinv (Hl & _ & Hlt & _) Hp.
  assert (Hnn : pools_ptr w ≠ nullptr).
  { intros Hn. pose proof (wi_pools_null w Hinv Hn) as Hz.
    pose proof (wi_pools_len w Hinv) as Hlen.
    apply lookup_lt_Some in Hp. lia. }
  assert (Hin : pools_ptr w ∈ live w).
  { rewrite Hl. apply list_elem_of_filter. split; [done|].
    apply elem_of_app. left. unfold owned.
    apply list_elem_of_further, list_elem_of_here. }
  split_and!; [done|done|by apply Hlt].
Qed.

(** The pool the world holds after a [remove] that went on through a
    copy of the pool: the cells of the swap-and-pop, the counters of
    before. The round trip of the sparse set fails at the last index. *)
Lemma with_buffers_of_broken p p' e :
  pool_inv p → has p e = true → swap_pop p e = Some p' →
  has (with_buffers_of p p') e = false ∧
  dense_count (with_buffers_of p p') = dense_count p ∧
  count (with_buffers_of p p') = count p ∧
  ∃ d, load (dense (with_buffers_of p p')) (dense_count p - 1) = Some d ∧
       load (sparse (with_buffers_of p p')) (slot d) ≠
       Some (Z.of_nat (dense_count p - 1)).
Proof.
  intros Hinv Hhas Hsp.
  pose proof (swap_pop_has_self p p' e Hinv Hhas Hsp) as Hself.
  destruct (swap_pop_spec p p' e Hinv Hhas Hsp)
    as (i & d0 & last & Hi & Hpos & Hd & Hsd & Hlast & Hlast_lt & Hlast_s
        & Hiff & Hmm & Hp').
  pose proof (pi_sparse_len p Hinv) as Hsl.
  pose proof (pi_dense_len p Hinv) as Hdl.
  pose proof (pi_dense_cap p Hinv) as Hdc.
  assert (Hse : (slot e < sparse_capacity p)%nat).
  { by apply has_true in Hhas as [? _]. }
  assert (Hsc : sparse_capacity p' = sparse_capacity p) by (by rewrite Hp').
  assert (Hds : dense p' = <[i := Some last]> (dense p)) by (by rewrite Hp').
  assert (Hss : sparse p' = <[slot e := Some (-1)]>
                  (<[slot last := Some (Z.of_nat i)]> (sparse p)))
    by (by rewrite Hp').
  split_and!; [|done|done|].
  - unfold has in Hself |- *. simpl. by rewrite Hsc in Hself.
  - exists last. simpl. rewrite Hds, Hss. split.
    + destruct (decide (i = dense_count p - 1)%nat) as [->|Hne].
      * apply load_insert_eq. lia.
      * rewrite load_insert_ne by done. done.
    + destruct (decide (slot e = slot last)) as [Heq|Hne].
      * rewrite <- Heq. rewrite load_insert_eq by (rewrite length_insert; lia).
        intros [= Hx]. lia.
      * rewrite load_insert_ne by done.
        rewrite load_insert_eq by lia.
        intros [= Hx]. apply Nat2Z.inj in Hx. apply Hne, Hiff. done.
Qed.

(** X21. The destroy hook of a pool asks [e.has<T>()] for a type that has no
    pool, the pool array is full, and a view is open. [remove] returns,
    and the world's pool has lost the entity but kept its counters: the
    pool array was replaced inside the hook, and [dense_count--] and
    [count--] went to the old array, which waits in the delete buffer. *)
Theorem remove_this_loses_counters (u : U) (ops : list Op) w (pi : nat) p e
    (f : Hook) (T : Comp) :
  run run_hook (World_init u) ops = Some w →
  pools w !! pi = Some p → has p e = true → Entity_valid w e = true →
  on_destroy p = Some f → asks f = [T] →
  find_pool w (comp_id T) = None →
  (pool_capacity w ≤ pool_count w)%nat →
  0 < iteration_depth w →
  (length (delete_buffer w) < max_delete_buffer)%nat →
  ∃ w' p' q,
    Component_Pool_remove_this run_hook asks w pi e = Some w' ∧
    pools_ptr w' ≠ pools_ptr w ∧ pools_ptr w ∈ live w' ∧
    swap_pop p e = Some p' ∧
    pools w' !! pi = Some q ∧ q = with_buffers_of p p' ∧
    has q e = false ∧
    dense_count q = dense_count p ∧ count q = count p ∧
    ∃ d, load (dense q) (dense_count q - 1) = Some d ∧
         load (sparse q) (slot d) ≠ Some (Z.of_nat (dense_count q - 1)).
Proof.
  intros Hr Hp Hhas Hv Hod Ha Hf Hfull Hdepth Hroom.
  pose proof (run_init_basic u ops w Hr) as Hb.
  pose proof (bi_pools w Hb) as Hpools.
  pose proof (run_heap (World_init u) ops w
                (world_inv_basic _ (world_inv_init u)) Hr (heap_inv_init u))
    as Hheap.
  destruct (pools_ptr_live w pi p Hpools Hheap Hp) as (Hnn & Hin & Hlt).
  pose proof (wi_pools w Hpools pi p Hp) as Hpinv.
  pose proof (has_lt_pool_count w pi p e Hpools Hp Hhas) as Hpi.
  destruct (swap_pop_total p e Hpinv Hhas) as [p' Hsp].
  set (wa := set_heap w (S (next_addr w)) (next_addr w :: live w)).
  assert (Hfd : free_or_defer COMPONENT_POOL (pools_ptr w) wa =
                Some (set_delete_buffer wa
                        (delete_buffer wa ++ [mkEntry COMPONENT_POOL (pools_ptr w)]))).
  { unfold free_or_defer, push_deletion. rewrite decide_False by (simpl; lia).
    by rewrite decide_True by done. }
  destruct (ask_moves_array w T e _ Hpools Hv Hf Hfull Hnn Hfd)
    as (w1 & Hask & Hptr & Hlive & Hsame).
  simpl in Hlive.
  destruct (with_buffers_of_broken p p' e Hpinv Hhas Hsp)
    as (Hh & Hdc & Hc & d & Hd & Hs).
  exists (set_pool_at (set_uptr w1 (run_hook f w1 e)) pi (with_buffers_of p p')),
         p', (with_buffers_of p p').
  assert (Hq : pools w1 !! pi = Some p) by (rewrite Hsame by done; done).
  split_and!.
  - unfold Component_Pool_remove_this. rewrite Hp. simpl. rewrite Hod. simpl.
    rewrite Ha, Hask. simpl.
    rewrite decide_False by (rewrite Hptr; lia).
    rewrite decide_True by (rewrite Hlive; by right).
    rewrite Hsp. simpl. rewrite Hq. done.
  - simpl. rewrite Hptr. lia.
  - simpl. rewrite Hlive. by right.
  - done.
  - simpl. apply list_lookup_insert_eq. by eapply lookup_lt_Some.
  - done.
  - done.
  - done.
  - done.
  - exists d. rewrite Hdc. done.
Qed.

(** X22. The same call with no view open: the hook returns, the array [this]
    points into has been released by then, and [remove] goes on through
    the dangling pointer. *)
Theorem remove_this_dangles (u : U) (ops : list Op) w (pi : nat) p e
    (f : Hook) (T : Comp) :
  run run_hook (World_init u) ops = Some w →
  pools w !! pi = Some p → has p e = true → Entity_valid w e = true →
  on_destroy p = Some f → asks f = [T] →
  find_pool w (comp_id T) = None →
  (pool_capacity w ≤ pool_count w)%nat →
  iteration_depth w ≤ 0 →
  ∃ w1, fire_asking run_hook asks (on_destroy p) w e = Some w1 ∧
    pools_ptr w1 ≠ pools_ptr w ∧ (pools_ptr w ∉ live w1) ∧
    Component_Pool_remove_this run_hook asks w pi e = None.
Proof.
  intros Hr Hp Hhas Hv Hod Ha Hf Hfull Hdepth.
  pose proof (run_init_basic u ops w Hr) as Hb.
  pose proof (bi_pools w Hb) as Hpools.
  pose proof (run_heap (World_init u) ops w
                (world_inv_basic _ (world_inv_init u)) Hr (heap_inv_init u))
    as Hheap.
  destruct (pools_ptr_live w pi p Hpools Hheap Hp) as (Hnn & Hin & Hlt).
  set (wa := set_heap w (S (next_addr w)) (next_addr w :: live w)).
  assert (Hfd : free_or_defer COMPONENT_POOL (pools_ptr w) wa =
                Some (delete_arr (pools_ptr w) wa)).
  { unfold free_or_defer. by rewrite decide_True by (simpl; lia). }
  destruct (ask_moves_array w T e _ Hpools Hv Hf Hfull Hnn Hfd)
    as (w1 & Hask & Hptr & Hlive & Hsame).
  simpl in Hlive.
  assert (Hnot : pools_ptr w ∉ live w1).
  { rewrite Hlive. intros Hx. apply list_elem_of_filter in Hx as [Hx _].
    by apply Hx. }
  exists (set_uptr w1 (run_hook f w1 e)). split_and!.
  - rewrite Hod. simpl. by rewrite Ha, Hask.
  - simpl. rewrite Hptr. lia.
  - done.
  - unfold Component_Pool_remove_this. rewrite Hp. simpl. rewrite Hod. simpl.
    rewrite Ha, Hask. simpl.
    rewrite decide_False by (rewrite Hptr; lia).
    by rewrite decide_False by done.
Qed.

End Asking.
End RegistryFacts.

(** * Concrete runs *)

(** C1. Seventeen entities get a four-byte component, eight lose it, and
    [collect_garbage] is called with no view open. The pool has 9 elements
    at capacity 32, so it is shrunk, and its capacity becomes 16; entity 8
    still answers [has] true, but its payload, [8 8 8 8] before the call,
    is indeterminate afterwards: only [capacity] bytes were copied into
    the new buffer, not [count * element_size]. *)
Theorem collect_garbage_loses_payload :
  ∃ w w', run no_hooks (World_init tt) gc_scenario = Some w ∧
    iteration_depth w = 0 ∧
    count (pool_at w 0) = 9%nat ∧ capacity (pool_at w 0) = 32%nat ∧
    element_size (pool_at w 0) = 4%nat ∧
    has (pool_at w 0) 8 = true ∧
    payload (pool_at w 0) 8 = Some (replicate 4 (Some 8)) ∧
    collect_garbage w = Some w' ∧
    capacity (pool_at w' 0) = 16%nat ∧
    has (pool_at w' 0) 8 = true ∧
    payload (pool_at w' 0) 8 = Some (replicate 4 None).
Proof.
  eexists _, _. split; [vm_compute; reflexivity|].
  do 6 (split; [vm_compute; reflexivity|]).
  split; [vm_compute; reflexivity|].
  split_and!; vm_compute; reflexivity.
Qed.

(** C2. Eight entities fill the identity table, and a view over a
    component of entity 0 is open ([iteration_depth] is 1). [new_entity]
    then replaces the table: the old block, at address 1, is released at
    once (it is no longer among the live blocks) and nothing is put on
    the deferred-deletion buffer. *)
Theorem identity_table_freed_during_iteration :
  ∃ w e w', run no_hooks (World_init tt) open_view_scenario = Some w ∧
    iteration_depth w = 1 ∧ entities_ptr w = 1%nat ∧
    live w = [5; 4; 3; 2; 1]%nat ∧ delete_buffer w = [] ∧
    new_entity w = Some (e, w') ∧
    iteration_depth w' = 1 ∧ entities_ptr w' = 6%nat ∧
    live w' = [6; 5; 4; 3; 2]%nat ∧ delete_buffer w' = [].
Proof.
  eexists _, _, _. split; [vm_compute; reflexivity|].
  do 4 (split; [vm_compute; reflexivity|]).
  split; [vm_compute; reflexivity|].
  split_and!; vm_compute; reflexivity.
Qed.

(** The deferral that [Component_Pool::add] does perform: in the same
    situation, growing the sparse array of the pool defers the old
    block. *)
Example sparse_array_deferred_during_iteration :
  ∃ w w', run no_hooks (World_init tt) open_view_scenario = Some w ∧
    step no_hooks w (add_transform 1) = Some w' ∧
    sparse_ptr (pool_at w 0) = 4%nat ∧
    delete_buffer w' = [mkEntry I64 4%nat] ∧
    live w' = [6; 5; 4; 3; 2; 1]%nat.
Proof.
  eexists _, _. split; [vm_compute; reflexivity|].
  split; [vm_compute; reflexivity|].
  split_and!; vm_compute; reflexivity.
Qed.

(** C3, counterexample. A view over a type that has no pool is exhausted
    from the start; [iteration_depth] is 1 after its construction, 0 after
    the first [valid()] and -1 after the second: this one view has
    decremented the depth twice. *)
Lemma View_valid_decrements_twice :
  ∃ v w1, new_view (World_init tt) [7] = Some (v, w1) ∧
    iteration_depth w1 = 1 ∧
    fst (View_valid w1 v) = false ∧
    iteration_depth (snd (View_valid w1 v)) = 0 ∧
    fst (View_valid (snd (View_valid w1 v)) v) = false ∧
    iteration_depth (snd (View_valid (snd (View_valid w1 v)) v)) = -1.
Proof.
  eexists _, _. split; [vm_compute; reflexivity|].
  split_and!; vm_compute; reflexivity.
Qed.

Lemma View_valid_spec_witness :
  let w := world_after [OpNewView [7]] in
  fst (View_valid w View_empty) = false ∧
  iteration_depth (snd (View_valid w View_empty)) = iteration_depth w - 1.
Proof.
  intros w.
  destruct (@View_valid_spec unit w View_empty 1) as [_ H].
  destruct (H eq_refl) as (H1 & H2 & _). split; [exact H1|exact H2].
Defined.

(** ** A destroy hook that calls the world *)

(** C7. Two entities have a [Transform]; eight component types are
    registered, so the pool array, of capacity 8, is full; the destroy
    hook of [Transform] asks [e.has<T>()] for a ninth type; a view is
    open. [remove<Transform>()] on entity 0 returns. Inside the hook the
    pool array was replaced, the old array waits in the delete buffer, and
    [remove] went on through its element. In the world the call leaves,
    the pool of [Transform] has lost entity 0 and its [dense_count] and
    [count] are still 2: index 1 is below the count and holds entity 1,
    whose sparse entry is 0. *)
Theorem sparse_set_broken_by_asking_hook :
  ∃ w w' p,
    run no_hooks (World_init tt) (full_registry 2) = Some w ∧
    pool_count w = 8%nat ∧ pool_capacity w = 8%nat ∧ iteration_depth w = 1 ∧
    find_pool w (comp_id (Marker 8)) = None ∧
    (on_destroy <$> pools w !! 0%nat) = Some (Some 1%nat) ∧
    Entity_remove_asking no_hooks asks_ninth w 0 Transform = Some w' ∧
    pools_ptr w = 2%nat ∧ pools_ptr w' = 7%nat ∧
    delete_buffer w' = [mkEntry COMPONENT_POOL 2%nat] ∧
    pools w' !! 0%nat = Some p ∧
    has p 0 = false ∧ dense_count p = 2%nat ∧ count p = 2%nat ∧
    load (dense p) 0 = Some 1 ∧ load (dense p) 1 = Some 1 ∧
    load (sparse p) (slot 1) = Some 0.
Proof.
  eexists _, _, _. split; [vm_compute; reflexivity|].
  do 5 (split; [vm_compute; reflexivity|]).
  split; [vm_compute; reflexivity|].
  do 3 (split; [vm_compute; reflexivity|]).
  split; [vm_compute; reflexivity|].
  split_and!; vm_compute; reflexivity.
Qed.

(** C6. Three entities have a [Transform], with bytes [0 0 0 0],
    [1 1 1 1] and [2 2 2 2], in the situation above. [remove<Transform>()]
    on entity 0 leaves the pool with the counters of three elements.
    Entity 2 is then assigned [9 9 9 9] through [get<Transform>()], and
    entity 1 loses its [Transform]: that [remove] takes the cell at index
    2, which is no longer in use, for the last element, so entity 2, which
    was in the pool with the bytes [9 9 9 9], is in it with the bytes
    [2 2 2 2] afterwards. *)
Theorem payload_overwritten_after_asking_hook :
  ∃ w1 w2 w3 p1 p2 p3,
    remove_first_asking 3 = Some w1 ∧
    pools w1 !! 0%nat = Some p1 ∧
    dense_count p1 = 3%nat ∧ count p1 = 3%nat ∧ has p1 0 = false ∧
    Entity_get_assign w1 2 Transform (replicate 4 9) = Some w2 ∧
    pools w2 !! 0%nat = Some p2 ∧
    has p2 1 = true ∧ has p2 2 = true ∧
    load (dense p2) 0 = Some 2 ∧ load (dense p2) 1 = Some 1 ∧
    payload p2 2 = Some (replicate 4 (Some 9)) ∧
    Entity_remove_asking no_hooks asks_ninth w2 1 Transform = Some w3 ∧
    pools w3 !! 0%nat = Some p3 ∧
    has p3 1 = false ∧ has p3 2 = true ∧
    payload p3 2 = Some (replicate 4 (Some 2)).
Proof.
  eexists _, _, _, _, _, _. split; [vm_compute; reflexivity|].
  split; [vm_compute; reflexivity|].
  do 3 (split; [vm_compute; reflexivity|]).
  split; [vm_compute; reflexivity|].
  split; [vm_compute; reflexivity|].
  do 5 (split; [vm_compute; reflexivity|]).
  split; [vm_compute; reflexivity|].
  split; [vm_compute; reflexivity|].
  split_and!; vm_compute; reflexivity.
Qed.

(** With no view open the old pool array is released inside the hook:
    [remove] goes on through a dangling pointer. *)
Lemma remove_this_dangles_witness :
  let w := world_after (full_registry_no_view 2) in
  ∃ w1, fire_asking no_hooks asks_ninth (on_destroy (pool_at w 0)) w 0 = Some w1 ∧
    pools_ptr w1 ≠ pools_ptr w ∧ (pools_ptr w ∉ live w1) ∧
    Component_Pool_remove_this no_hooks asks_ninth w 0 0 = None.
Proof.
  intros w.
  apply (@remove_this_dangles unit no_hooks asks_ninth tt
           (full_registry_no_view 2) w 0 (pool_at w 0) 0 1%nat (Marker 8)).
  - vm_compute; reflexivity.
  - vm_compute; reflexivity.
  - vm_compute; reflexivity.
  - vm_compute; reflexivity.
  - vm_compute; reflexivity.
  - vm_compute; reflexivity.
  - vm_compute; reflexivity.
  - vm_compute; lia.
  - vm_compute. discriminate.
Defined.

Lemma remove_this_loses_counters_witness :
  let w := world_after (full_registry 2) in
  ∃ w' p' q,
    Component_Pool_remove_this no_hooks asks_ninth w 0 0 = Some w' ∧
    pools_ptr w' ≠ pools_ptr w ∧ pools_ptr w ∈ live w' ∧
    swap_pop (pool_at w 0) 0 = Some p' ∧
    pools w' !! 0%nat = Some q ∧ q = with_buffers_of (pool_at w 0) p' ∧
    has q 0 = false ∧
    dense_count q = dense_count (pool_at w 0) ∧ count q = count (pool_at w 0) ∧
    ∃ d, load (dense q) (dense_count q - 1) = Some d ∧
         load (sparse q) (slot d) ≠ Some (Z.of_nat (dense_count q - 1)).
Proof.
  intros w.
  apply (@remove_this_loses_counters unit no_hooks asks_ninth tt
           (full_registry 2) w 0 (pool_at w 0) 0 1%nat (Marker 8)).
  - vm_compute; reflexivity.
  - vm_compute; reflexivity.
  - vm_compute; reflexivity.
  - vm_compute; reflexivity.
  - vm_compute; reflexivity.
  - vm_compute; reflexivity.
  - vm_compute; reflexivity.
  - vm_compute; lia.
  - vm_compute; reflexivity.
  - vm_compute; lia.
Defined.

(** ** Version wrap-around *)

(** The one-slot world with its slot live at version [k]. *)
Lemma churn_new_entity (k : Z) :
  0 ≤ k < 2 ^ 32 →
  new_entity (churn_world k) =
  Some (make_handle 0 k,
        @mkWorld unit 1%nat (Some (make_handle 0 k) :: replicate 7 None)
                 8 1 1 null_entity_id nullptr [] 0 0 [] 0 2%nat [1%nat] tt).
Proof.
  intros Hk. unfold new_entity, recycle_entity.
  cbn -[make_handle get_entity_id get_entity_version wrap64 Entity_destroy].
  rewrite decide_False by (unfold null_entity_id; lia).
  change (Z.to_nat 0) with 0%nat. unfold load, store.
  cbn -[make_handle get_entity_id get_entity_version wrap64].
  rewrite get_entity_version_make_handle by (unfold null_entity_id; lia).
  rewrite get_entity_id_make_handle by (unfold null_entity_id; lia).
  done.
Qed.

Lemma churn_destroy (k : Z) :
  0 ≤ k < 2 ^ 32 →
  Entity_destroy no_hooks
    (@mkWorld unit 1%nat (Some (make_handle 0 k) :: replicate 7 None)
              8 1 1 null_entity_id nullptr [] 0 0 [] 0 2%nat [1%nat] tt)
    (make_handle 0 k) =
  Some (churn_world (wrap32 (k + 1))).
Proof.
  intros Hk.
  pose proof (get_entity_id_make_handle 0 k ltac:(lia) Hk) as Hid.
  pose proof (get_entity_version_make_handle 0 k ltac:(lia) Hk) as Hver.
  assert (Hslot : slot (make_handle 0 k) = 0%nat) by (unfold slot; by rewrite Hid).
  remember (make_handle 0 k) as h eqn:Hh.
  unfold Entity_destroy, Entity_valid. rewrite Hslot.
  cbn -[make_handle get_entity_id get_entity_version wrap64 wrap32].
  rewrite (bool_decide_eq_true_2 (0 < 1)%nat) by lia.
  rewrite bool_decide_eq_true_2 by done.
  cbn -[make_handle get_entity_id get_entity_version wrap64 wrap32 release_entity].
  unfold release_entity. rewrite Hid, Hver.
  change (Z.to_nat 0) with 0%nat. unfold store.
  cbn -[make_handle get_entity_id get_entity_version wrap32].
  done.
Qed.

(** One [new_entity]/[destroy] pair on the one-slot world bumps the
    version stored at the slot. *)
Lemma churn_step (k : Z) :
  0 ≤ k < 2 ^ 32 → churn (churn_world k) = Some (churn_world (wrap32 (k + 1))).
Proof.
  intros Hk. unfold churn. rewrite (churn_new_entity k Hk).
  cbn [mbind option_bind]. by apply churn_destroy.
Qed.

Lemma churn_iter (n : N) (k : Z) :
  0 ≤ k < 2 ^ 32 →
  N.iter n (λ ow, ow ≫= churn) (Some (churn_world k)) =
  Some (churn_world (wrap32 (k + Z.of_N n))).
Proof.
  intros Hk. induction n as [|n IH] using N.peano_ind.
  - cbn [N.iter]. rewrite Z.add_0_r, wrap32_small by done. done.
  - rewrite N.iter_succ, IH. cbn [mbind option_bind].
    rewrite churn_step by apply wrap32_range.
    rewrite wrap32_add_l. do 2 f_equal. rewrite N2Z.inj_succ. f_equal. lia.
Qed.

(** C4, counterexample. The first entity of a fresh world, [e], is
    destroyed; 2^32 - 1 pairs of [new_entity] and [destroy] follow, and
    one more [new_entity]. The slot has then been recycled 2^32 times, the
    version has wrapped around to the version of [e], and [valid()] on
    the old handle [e] is true again. *)
Lemma stale_handle_valid_again :
  ∃ w0 w1 w2 w3,
    new_entity (World_init tt) = Some (make_handle 0 0, w0) ∧
    Entity_valid w0 (make_handle 0 0) = true ∧
    Entity_destroy no_hooks w0 (make_handle 0 0) = Some w1 ∧
    Entity_valid w1 (make_handle 0 0) = false ∧
    N.iter (2 ^ 32 - 1) (λ ow, ow ≫= churn) (Some w1) = Some w2 ∧
    new_entity w2 = Some (make_handle 0 0, w3) ∧
    Entity_valid w3 (make_handle 0 0) = true.
Proof.
  eexists _, (churn_world 1), (churn_world 0), _.
  split; [vm_compute; reflexivity|].
  split; [vm_compute; reflexivity|].
  split; [vm_compute; reflexivity|].
  split; [vm_compute; reflexivity|].
  split.
  { rewrite (churn_iter (2 ^ 32 - 1) 1 ltac:(lia)).
    replace (wrap32 (1 + Z.of_N (2 ^ 32 - 1))) with 0
      by (vm_compute; reflexivity).
    reflexivity. }
  split; [vm_compute; reflexivity|].
  vm_compute; reflexivity.
Qed.

(** ** The theorems at concrete runs *)

Lemma destroyed_handle_stays_invalid_witness :
  Entity_valid (world_after [OpNewEntity; OpDestroy 0]) 0 = false ∧
  Entity_valid
    (world_after [OpNewEntity; OpDestroy 0; OpNewEntity;
                  OpDestroy (make_handle 0 1); OpNewEntity]) 0 = false.
Proof.
  apply (@destroyed_handle_stays_invalid unit no_hooks tt
           [OpNewEntity]
           [OpNewEntity; OpDestroy (make_handle 0 1); OpNewEntity]
           (world_after [OpNewEntity])
           (world_after [OpNewEntity; OpDestroy 0])).
  - vm_compute; reflexivity.
  - vm_compute; reflexivity.
  - vm_compute; reflexivity.
  - vm_compute; reflexivity.
  - apply Z.leb_le. vm_compute; reflexivity.
  - apply Z.ltb_lt. vm_compute; reflexivity.
Defined.


Lemma Component_Pool_remove_frame_witness :
  ∃ w' p', Component_Pool_remove no_hooks (world_after three_transforms) 0 1
           = Some w' ∧
    pools w' !! 0%nat = Some p' ∧ has p' 1 = false ∧
    ∀ x, present (pool_at (world_after three_transforms) 0) x → x ≠ 1 →
         present p' x ∧ has p' x = true ∧
         is_Some (payload (pool_at (world_after three_transforms) 0) x) ∧
         payload p' x = payload (pool_at (world_after three_transforms) 0) x.
Proof.
  apply (@Component_Pool_remove_frame unit no_hooks tt three_transforms).
  - vm_compute; reflexivity.
  - vm_compute; reflexivity.
  - exists 1%nat. split; [vm_compute; lia|vm_compute; reflexivity].
Defined.

Lemma sparse_set_invariant_witness :
  let w := world_after three_transforms in
  let p := pool_at w 0 in
  count p = dense_count p ∧
  (∀ k, (k < dense_count p)%nat →
        ∃ d, load (dense p) k = Some d ∧
             load (sparse p) (slot d) = Some (Z.of_nat k)) ∧
  (∀ e, present p e →
        has p e = true ∧
        ∃ k, load (sparse p) (slot e) = Some (Z.of_nat k) ∧
             (k < dense_count p)%nat ∧ load (dense p) k = Some e) ∧
  (Z.of_nat (entity_count w) ≤ 2 ^ 32 - 1 →
   ∀ e, present p e ↔ Entity_valid w e = true ∧ has p e = true).
Proof.
  apply (@sparse_set_invariant unit no_hooks tt three_transforms
           (world_after three_transforms) 0).
  - vm_compute; reflexivity.
  - vm_compute; reflexivity.
Defined.


Lemma hooks_fire_order_witness :
  (∃ w4 (i : nat) p,
    find_pool w4 (comp_id Tag) = Some i ∧ pools w4 !! i = Some p ∧
    Entity_get w4 0 Tag = Some (Some <$> replicate 8 88, w4) ∧
    logged_world_after (hooked_tag ++ [OpAdd 0 Tag (replicate 8 88)]) =
    fire log_hook (on_create p) w4 0 ∧
    (∀ f, on_create p = Some f →
          uptr (logged_world_after (hooked_tag ++ [OpAdd 0 Tag (replicate 8 88)]))
          = log_hook f w4 0)) ∧
  (let w := logged_world_after (hooked_tag ++ [OpAdd 0 Tag (replicate 8 88)]) in
   let p := pool_at w 0 in
   let w' := default w (Component_Pool_remove log_hook w 0 0) in
   ∃ p' (cells : list (option Z)),
     payload p 0 = Some cells ∧ length cells = element_size p ∧
     swap_pop p 0 = Some p' ∧ has p' 0 = false ∧
     w' = set_pool_at (fire log_hook (on_destroy p) w 0) 0 p' ∧
     (∀ f, on_destroy p = Some f → uptr w' = log_hook f w 0)).
Proof.
  split.
  - apply (proj1 (@hooks_fire_order Seen log_hook [] hooked_tag
                    (logged_world_after hooked_tag)
                    ltac:(vm_compute; reflexivity))).
    + vm_compute; reflexivity.
    + vm_compute; reflexivity.
  - apply (proj2 (@hooks_fire_order Seen log_hook []
                    (hooked_tag ++ [OpAdd 0 Tag (replicate 8 88)])
                    (logged_world_after
                       (hooked_tag ++ [OpAdd 0 Tag (replicate 8 88)]))
                    ltac:(vm_compute; reflexivity))).
    + vm_compute; reflexivity.
    + vm_compute; reflexivity.
    + vm_compute; reflexivity.
Defined.

(** What the hooks of the run above logged: the create hook saw the bytes
    passed to [add], the destroy hook the bytes held at [destroy]. *)
Example hooks_saw_payload :
  uptr (logged_world_after (hooked_tag ++ [OpAdd 0 Tag (replicate 8 88)]))
  = [(1%nat, 0, Some (replicate 8 (Some 88)))] ∧
  uptr (logged_world_after
          (hooked_tag ++ [OpAdd 0 Tag (replicate 8 88); OpDestroy 0]))
  = [(1%nat, 0, Some (replicate 8 (Some 88)));
     (2%nat, 0, Some (replicate 8 (Some 88)))].
Proof. split; vm_compute; reflexivity. Qed.


(** The same run, evaluated: asking the view over ([Tag], [Transform])
    for a type it does not list returns the reference to the [Tag]
    payload. *)
Example View_get_unlisted_evaluated :
  let v := fst (view_after two_tagged [comp_id Tag; comp_id Transform]) in
  let w' := snd (view_after two_tagged [comp_id Tag; comp_id Transform]) in
  entity v = 1 ∧ View_get w' v 99 = Some (0%nat, 8%nat) ∧
  View_get w' v (comp_id Tag) = Some (0%nat, 8%nat) ∧
  View_get w' v (comp_id Transform) = Some (1%nat, 4%nat).
Proof. vm_compute. by split_and!. Qed.

(** ** More theorems at concrete runs *)

Lemma Entity_add_get_round_trip_witness :
  let w' := world_after (spawn 2 ++ [OpAdd 0 Tag (replicate 8 7)]) in
  Entity_has w' 0 Tag = Some (true, w') ∧
  Entity_get w' 0 Tag = Some (Some <$> replicate 8 7, w') ∧
  ∀ c', Entity_add no_hooks w' 0 Tag c' = None.
Proof.
  apply (@Entity_add_get_round_trip unit no_hooks tt (spawn 2)
           (world_after (spawn 2))).
  - vm_compute; reflexivity.
  - vm_compute; reflexivity.
  - vm_compute; reflexivity.
Defined.

Lemma Entity_add_frame_witness :
  let w := world_after three_transforms in
  let w' := world_after (three_transforms ++ [OpAdd 1 Tag (replicate 8 9)]) in
  (∀ e, Entity_valid w' e = Entity_valid w e) ∧
  ∀ (j : nat) p x, pools w !! j = Some p → present p x →
    ∃ p', pools w' !! j = Some p' ∧ has p' x = true ∧
          is_Some (payload p x) ∧ payload p' x = payload p x.
Proof.
  apply (@Entity_add_frame unit no_hooks tt three_transforms
           (world_after three_transforms) 1 Tag (replicate 8 9)).
  - vm_compute; reflexivity.
  - vm_compute; reflexivity.
Defined.

Lemma Entity_remove_then_witness :
  let w := world_after two_tagged in
  let w' := world_after (two_tagged ++ [OpRemove 0 Tag]) in
  Entity_has w' 0 Tag = Some (false, w') ∧
  Entity_get w' 0 Tag = None ∧
  Entity_remove no_hooks w' 0 Tag = None ∧
  (∀ e, Entity_valid w' e = Entity_valid w e) ∧
  ∀ (j : nat) p x, pools w !! j = Some p → present p x →
    pool_id p ≠ comp_id Tag ∨ slot x ≠ slot 0 →
    ∃ p', pools w' !! j = Some p' ∧ has p' x = true ∧
          is_Some (payload p x) ∧ payload p' x = payload p x.
Proof.
  apply (@Entity_remove_then unit no_hooks tt two_tagged
           (world_after two_tagged) 0 Tag).
  - vm_compute; reflexivity.
  - vm_compute; reflexivity.
Defined.

Lemma Entity_destroy_components_witness :
  let w := world_after two_tagged in
  let w' := world_after (two_tagged ++ [OpDestroy 0]) in
  pool_count w' = pool_count w ∧
  (∀ (j : nat) q, pools w' !! j = Some q → has q 0 = false) ∧
  ∀ (j : nat) p x, pools w !! j = Some p → present p x → slot x ≠ slot 0 →
    ∃ q, pools w' !! j = Some q ∧ has q x = true ∧
         is_Some (payload p x) ∧ payload q x = payload p x.
Proof.
  apply (@Entity_destroy_components unit no_hooks tt two_tagged
           (world_after two_tagged) 0).
  - vm_compute; reflexivity.
  - vm_compute; reflexivity.
Defined.

Lemma new_entity_fresh_witness :
  let w := world_after freed_middle in
  ∃ e w', new_entity w = Some (e, w') ∧
    Entity_valid w e = false ∧ Entity_valid w' e = true ∧
    (∀ h, Entity_valid w h = true → Entity_valid w' h = true) ∧
    World_count w' = World_count w + 1 ∧
    pools w' = pools w ∧
    ∀ (j : nat) p, pools w' !! j = Some p → has p e = false.
Proof.
  apply (@new_entity_fresh unit no_hooks tt freed_middle).
  - vm_compute; reflexivity.
  - apply Z.ltb_lt. vm_compute; reflexivity.
Defined.

Lemma pool_registry_stable_witness :
  let w := world_after three_transforms in
  let w' := world_after (three_transforms ++
                         [OpAdd 1 Tag (replicate 8 9); OpCollectGarbage]) in
  (pool_count w ≤ pool_count w')%nat ∧
  (∀ (id : Z) (i : nat), find_pool w id = Some i → find_pool w' id = Some i) ∧
  (∀ (i : nat) p, (i < pool_count w)%nat → pools w !! i = Some p →
     ∃ p', pools w' !! i = Some p' ∧ pool_id p' = pool_id p ∧
           element_size p' = element_size p) ∧
  (∀ (i j : nat) p q, (i < pool_count w')%nat → (j < pool_count w')%nat →
     pools w' !! i = Some p → pools w' !! j = Some q →
     pool_id p = pool_id q → i = j).
Proof.
  apply (@pool_registry_stable unit no_hooks tt three_transforms
           [OpAdd 1 Tag (replicate 8 9); OpCollectGarbage]).
  - vm_compute; reflexivity.
  - vm_compute; reflexivity.
Defined.

Lemma Entity_has_registers_pool_witness :
  let w := world_after (spawn 1) in
  let w' := world_after (spawn 1 ++ [OpHas 0 Tag]) in
  false = false ∧
  pool_count w' = S (pool_count w) ∧
  find_pool w' (comp_id Tag) = Some (pool_count w) ∧
  (∃ p, pools w' !! pool_count w = Some p ∧ pool_id p = comp_id Tag ∧
        element_size p = comp_size Tag ∧ count p = 0%nat) ∧
  (∀ (j : nat) p, (j < pool_count w)%nat → pools w !! j = Some p →
                  pools w' !! j = Some p) ∧
  (∀ e, Entity_valid w' e = Entity_valid w e).
Proof.
  apply (@Entity_has_registers_pool unit no_hooks tt (spawn 1)
           (world_after (spawn 1)) 0 Tag false).
  - vm_compute; reflexivity.
  - vm_compute; reflexivity.
  - vm_compute; reflexivity.
Defined.

Lemma View_iteration_visits_witness :
  let w := world_after two_tagged in
  let types := [comp_id Tag; comp_id Transform] in
  let v := fst (view_after two_tagged types) in
  let w1 := snd (view_after two_tagged types) in
  ∃ (l : list Entity_Handle) w2,
    (∀ n, (length l < n)%nat → View_drain n w1 v = Some (l, w2)) ∧
    NoDup l ∧
    (∀ e, e ∈ l ↔
          Entity_valid w e = true ∧
          ∀ t, t ∈ types →
               ∃ (i : nat) p, find_pool w t = Some i ∧ pools w !! i = Some p ∧
                              has p e = true) ∧
    iteration_depth w2 = iteration_depth w ∧
    pools w2 = pools w.
Proof.
  apply (@View_iteration_visits unit no_hooks tt two_tagged).
  - vm_compute; reflexivity.
  - apply Z.leb_le. vm_compute; reflexivity.
  - discriminate.
  - vm_compute; reflexivity.
Defined.

(** The loop of the run above visits entity 1, then entity 0. *)
Example View_iteration_evaluated :
  let types := [comp_id Tag; comp_id Transform] in
  fst <$> View_drain 3 (snd (view_after two_tagged types))
            (fst (view_after two_tagged types))
  = Some [1; 0].
Proof. vm_compute; reflexivity. Qed.

Lemma new_view_unregistered_witness :
  let w := world_after (spawn 1) in
  let w1 := set_iteration_depth w (iteration_depth w + 1) in
  new_view w [comp_id Tag] = Some (View_empty, w1) ∧
  pools w1 = pools w ∧ pool_count w1 = pool_count w ∧
  find_pool w1 (comp_id Tag) = None ∧
  fst (View_valid w1 View_empty) = false ∧
  iteration_depth (snd (View_valid w1 View_empty)) = iteration_depth w.
Proof.
  apply (@new_view_unregistered unit (world_after (spawn 1)) [comp_id Tag]
           (comp_id Tag)).
  - vm_compute; lia.
  - apply list_elem_of_here.
  - vm_compute; reflexivity.
Defined.

Lemma new_view_driver_smallest_witness :
  let w := world_after (three_transforms ++ [OpAdd 1 Tag (replicate 8 9)]) in
  let types := [comp_id Transform; comp_id Tag] in
  let v := fst (default (View_empty, w) (new_view w types)) in
  let drv := pool_at w 1 in
  (1%nat ∈ v_pools v) ∧
  (∃ t, t ∈ types ∧ find_pool w t = Some 1%nat) ∧
  ∀ (t : Z) (pj : nat) p, t ∈ types → find_pool w t = Some pj →
    pools w !! pj = Some p → (count drv ≤ count p)%nat.
Proof.
  apply (@new_view_driver_smallest unit
           (world_after (three_transforms ++ [OpAdd 1 Tag (replicate 8 9)]))
           [comp_id Transform; comp_id Tag] _
           (snd (default (View_empty, world_after [])
                   (new_view (world_after (three_transforms ++
                                [OpAdd 1 Tag (replicate 8 9)]))
                             [comp_id Transform; comp_id Tag])))).
  - vm_compute; reflexivity.
  - vm_compute; reflexivity.
  - vm_compute; reflexivity.
Defined.

Lemma Entity_add_defers_witness :
  let w := world_after open_view_scenario in
  let w' := world_after deferred_scenario in
  iteration_depth w' = iteration_depth w ∧
  (0 < iteration_depth w → ∀ a, a ∈ live w → a ∈ live w') ∧
  (iteration_depth w ≤ 0 → delete_buffer w' = delete_buffer w).
Proof.
  apply (@Entity_add_defers unit no_hooks tt open_view_scenario
           (world_after open_view_scenario) (make_handle 1 0) Transform
           (replicate 4 1)).
  - vm_compute; reflexivity.
  - vm_compute; reflexivity.
Defined.

Lemma collect_garbage_frame_witness :
  let w := world_after gc_scenario in
  let w' := world_after (gc_scenario ++ [OpCollectGarbage]) in
  (∀ e, Entity_valid w' e = Entity_valid w e) ∧
  pool_count w' = pool_count w ∧
  iteration_depth w' = iteration_depth w ∧
  delete_buffer w' = [] ∧
  ∀ (j : nat) p, pools w !! j = Some p →
    ∃ p', pools w' !! j = Some p' ∧
      sparse p' = sparse p ∧ dense p' = dense p ∧ count p' = count p ∧
      element_size p' = element_size p ∧
      (∀ e, has p' e = has p e) ∧
      (count p' ≤ capacity p' ≤ capacity p)%nat.
Proof.
  apply (@collect_garbage_frame unit no_hooks tt gc_scenario).
  - vm_compute; reflexivity.
  - vm_compute; reflexivity.
Defined.

Lemma collect_garbage_idempotent_witness :
  let w' := world_after (gc_scenario ++ [OpCollectGarbage]) in
  collect_garbage w' = Some w'.
Proof.
  apply (@collect_garbage_idempotent unit no_hooks tt gc_scenario
           (world_after gc_scenario)).
  - vm_compute; reflexivity.
  - vm_compute; reflexivity.
Defined.

Lemma heap_blocks_owned_witness :
  let w := world_after deferred_scenario in
  live w ≡ₚ filter (λ a, a ≠ nullptr) (owned w ++ pending w) ∧
  NoDup (live w) ∧
  (∀ a, a ∈ owned w → a ≠ nullptr → a ∈ live w) ∧
  (∀ a, a ∈ live w → a ∈ owned w ∨ a ∈ pending w).
Proof.
  apply (@heap_blocks_owned unit no_hooks tt deferred_scenario).
  vm_compute; reflexivity.
Defined.

Lemma World_destroy_releases_witness :
  let w := world_after deferred_scenario in
  ∃ w', World_destroy no_hooks w = Some w' ∧
        live w' ≡ₚ filter (λ a, a ≠ nullptr) (pending w) ∧
        (delete_buffer w = [] → live w' = []).
Proof.
  apply (@World_destroy_releases unit no_hooks tt deferred_scenario).
  vm_compute; reflexivity.
Defined.

(** In the run above the sparse array the pool outgrew, block 4, is still
    waiting when the world is destroyed, and is all that is left. *)
Example World_destroy_evaluated :
  pending (world_after deferred_scenario) = [4%nat] ∧
  live <$> World_destroy no_hooks (world_after deferred_scenario)
  = Some [4%nat] ∧
  live <$> World_destroy no_hooks (world_after two_tagged) = Some [].
Proof. split_and!; vm_compute; reflexivity. Qed.

Lemma World_at_valid_witness :
  let w := world_after freed_middle in
  ∃ h, World_at w 1 = Some h ∧ (Entity_valid w h = true ↔ slot h = 1%nat).
Proof.
  apply (@World_at_valid unit no_hooks tt freed_middle).
  - vm_compute; reflexivity.
  - apply Z.leb_le. vm_compute; reflexivity.
  - vm_compute; lia.
Defined.


(** ** Component ids *)

Lemma ids_after_snoc (calls : list Type_Name) (T : Type_Name) :
  ids_after (calls ++ [T]) = snd (get_component_id T (ids_after calls)).
Proof. unfold ids_after. by rewrite foldl_app. Qed.

Lemma ids_after_inv (calls : list Type_Name) :
  Z.of_nat (length calls) < 2 ^ 64 →
  let s := ids_after calls in
  0 ≤ next_id s ≤ Z.of_nat (length calls) ∧
  (∀ T, T ∈ calls ↔ is_Some (known s T)) ∧
  (∀ T id, known s T = Some id → 0 ≤ id < next_id s) ∧
  (∀ T T' id, known s T = Some id → known s T' = Some id → T = T').
Proof.
  induction calls as [|T calls IH] using rev_ind; intros Hlen s.
  - subst s. simpl. split_and!; [lia|lia| | |].
    + intros T. split; [by intros ?%elem_of_nil|]. by intros [? ?].
    + intros T id. done.
    + intros T T' id. done.
  - rewrite length_app in Hlen. simpl in Hlen.
    destruct (IH ltac:(lia)) as (Hn & Hin & Hlt & Hinj).
    subst s. rewrite ids_after_snoc, length_app. simpl.
    unfold get_component_id.
    destruct (known (ids_after calls) T) as [id|] eqn:Hk; simpl.
    + split_and!; [lia|lia| |done|done].
      intros T'. rewrite elem_of_app, list_elem_of_singleton, Hin.
      split; [|by left]. intros [Hx| ->]; [done|]. by rewrite Hk.
    + assert (Hw : wrap64 (next_id (ids_after calls) + 1)
                   = next_id (ids_after calls) + 1).
      { unfold wrap64. apply Z.mod_small. lia. }
      rewrite Hw. split_and!; [lia|lia| | |].
      * intros T'. rewrite elem_of_app, list_elem_of_singleton, Hin.
        case_decide as Hd; [subst T'|].
        -- split; [by eexists|by right].
        -- split; [intros [Hx|Hx]; done|by left].
      * intros T' id. case_decide.
        -- intros [= <-]. lia.
        -- intros Hx. specialize (Hlt T' id Hx). lia.
      * intros T1 T2 id. do 2 case_decide; subst.
        -- done.
        -- intros [= <-] Hx. specialize (Hlt T2 _ Hx). lia.
        -- intros Hx [= <-]. specialize (Hlt T1 _ Hx). lia.
        -- apply Hinj.
Qed.

(** X16. Component ids are stable and distinct: after any sequence of
    [get_component_id] calls (fewer than 2^64 of them) every type that was
    asked for has an id, asking again returns that id and changes nothing,
    also after further calls for other types, two different types never
    share an id, and the ids handed out are the numbers below the
    counter. *)
Theorem component_ids_stable_distinct (calls : list Type_Name) :
  Z.of_nat (length calls) < 2 ^ 64 →
  let s := ids_after calls in
  (∀ T, T ∈ calls →
     ∃ id, known s T = Some id ∧ get_component_id T s = (id, s) ∧
           ∀ more, fst (get_component_id T (ids_after (calls ++ more))) = id) ∧
  (∀ T T' id id', T ≠ T' → known s T = Some id → known s T' = Some id' →
                  id ≠ id') ∧
  (∀ T id, known s T = Some id → 0 ≤ id < next_id s).
Proof.
  intros Hlen s.
  destruct (ids_after_inv calls Hlen) as (_ & Hin & Hlt & Hinj).
  fold s in Hin, Hlt, Hinj.
  assert (Hkeep : ∀ T id (more : list Type_Name) s0, known s0 T = Some id →
            known (foldl (λ s T, snd (get_component_id T s)) s0 more) T
            = Some id).
  { intros T id more. induction more as [|T' more IH]; intros s0 Hk; [done|].
    simpl. apply IH. unfold get_component_id.
    destruct (known s0 T') as [id'|] eqn:Hk'; simpl; [done|].
    case_decide; [congruence|done]. }
  split_and!.
  - intros T [id Hid]%Hin. exists id. split_and!; [done| |].
    + unfold get_component_id. by rewrite Hid.
    + intros more. unfold get_component_id, ids_after. rewrite foldl_app.
      fold (ids_after calls). fold s.
      by rewrite (Hkeep T id more s Hid).
  - intros T T' id id' Hne Hk Hk' ->. apply Hne. by apply (Hinj T T' id').
  - done.
Qed.

Lemma component_ids_stable_distinct_witness :
  let s := ids_after [3; 5; 3]%nat in
  (∀ T, T ∈ [3; 5; 3]%nat →
     ∃ id, known s T = Some id ∧ get_component_id T s = (id, s) ∧
           ∀ more,
             fst (get_component_id T (ids_after ([3; 5; 3]%nat ++ more))) = id) ∧
  (∀ T T' id id', T ≠ T' → known s T = Some id → known s T' = Some id' →
                  id ≠ id') ∧
  (∀ T id, known s T = Some id → 0 ≤ id < next_id s).
Proof. apply (component_ids_stable_distinct [3; 5; 3]%nat). simpl. lia. Defined.

(** Types 3 and 5 get the ids 0 and 1, and a call for a type that has
    its id leaves the counter alone. *)
Example component_ids_evaluated :
  known (ids_after [3; 5; 3]%nat) 3%nat = Some 0 ∧
  known (ids_after [3; 5; 3]%nat) 5%nat = Some 1 ∧
  known (ids_after [3; 5; 3]%nat) 4%nat = None ∧
  next_id (ids_after [3; 5; 3]%nat) = 2.
Proof. split_and!; vm_compute; reflexivity. Qed.
